(** * RepoSwarm: classifier, prompt resolver and renderer, analysis pipeline

    A shallow embedding of the RepoSwarm services
    ([src/services/type-detector.ts], [src/services/prompt-engine.ts],
    [src/services/analysis-orchestrator.ts]) together with the properties
    the specification states about them.

    Conventions of the embedding.
    - A JavaScript [number] is the rational ([Q]) it denotes.  The
      confidences and scores of the classifier, and the tokens a job
      consumes, are binary64 numbers: their constants and every sum,
      difference, product and quotient are rounded to the nearest such
      number, ties to even ([Double]).  The progress of a job, the sizes
      and the counts are sums of integers and of [50 / 6], kept exact.
    - A JavaScript string is a [string] of bytes, for texts of ASCII
      characters: [toLowerCase] maps the letters [A] to [Z] and leaves
      every other byte as it is, as the runtime does on such texts.
    - [Array.prototype.sort] is the algorithm of the V8 engine for arrays
      shorter than 64 elements (run detection followed by binary insertion),
      the only case the classifier reaches: it sorts at most seven entries.
    - The collaborators of a service (file system, cache, reasoning service)
      are explicit inputs of the functions that call them. *)

From Stdlib Require Import List String Ascii Bool Arith ZArith QArith Qabs Qminmax Qround Qpower.
From Stdlib Require Import Lia Lqa Permutation DecimalString.
From Stdlib Require Sorted.
From stdpp Require gmap strings.
Import ListNotations.

#[local] Arguments String.append !s1 s2 / : simpl nomatch.

(** ** Strings of the runtime *)

Module JsString.

(** [String.prototype.toLowerCase], for texts of ASCII characters: the
    letters [A] to [Z] are mapped, every other byte is left as it is. *)
Definition lower_ascii (c : ascii) : ascii :=
  let n := nat_of_ascii c in
  if andb (65 <=? n)%nat (n <=? 90)%nat then ascii_of_nat (n + 32) else c.

Fixpoint toLowerCase (s : string) : string :=
  match s with
  | EmptyString => EmptyString
  | String c s' => String (lower_ascii c) (toLowerCase s')
  end.

(** [s.startsWith(p)]. *)
Definition startsWith (s p : string) : bool := String.prefix p s.

(** [s.includes(sub)]: [sub] occurs somewhere in [s]. *)
Fixpoint includes (s sub : string) : bool :=
  if String.prefix sub s then true
  else match s with
       | EmptyString => false
       | String _ s' => includes s' sub
       end.

(** [s.endsWith(p)]. *)
Fixpoint endsWith (s p : string) : bool :=
  if String.eqb s p then true
  else match s with
       | EmptyString => false
       | String _ s' => endsWith s' p
       end.

(** [s.slice(0, -1)]: all but the last character. *)
Fixpoint dropLast (s : string) : string :=
  match s with
  | EmptyString => EmptyString
  | String c EmptyString => EmptyString
  | String c s' => String c (dropLast s')
  end.

(** [s.replace(c, '')] for a one-character pattern: only the first
    occurrence is removed. *)
Fixpoint removeFirst (c : ascii) (s : string) : string :=
  match s with
  | EmptyString => EmptyString
  | String d s' => if Ascii.eqb c d then s' else String d (removeFirst c s')
  end.

(** [s.slice(n)] *)
Fixpoint drop (n : nat) (s : string) : string :=
  match n, s with
  | O, _ => s
  | S n', String _ s' => drop n' s'
  | S _, EmptyString => EmptyString
  end.

(** Membership in a [Set] or array of strings ([has], [includes]). *)
Definition has (l : list string) (x : string) : bool :=
  existsb (String.eqb x) l.

End JsString.

(** ** [Array.prototype.sort] *)

Module JsArray.

Section Sort.
Context {A : Type}.
(** The comparison function handed to [sort]; its sign is all that is read. *)
Variable comparefn : A -> A -> Q.

Definition negative (q : Q) : bool :=
  match Qlt_le_dec q 0 with left _ => true | right _ => false end.

(** [CountAndMakeRun], the loop after the first two elements: the run is
    kept in reverse ([previous] is its last element), the elements not yet
    looked at are [rest].  A descending run is extended while the next
    element compares strictly below the previous one, an ascending run
    while it does not. *)
Fixpoint extendRun (isDescending : bool) (previous : A) (revRun rest : list A)
  : list A * list A :=
  match rest with
  | [] => (previous :: revRun, [])
  | current :: rest' =>
      let order := comparefn current previous in
      if Bool.eqb isDescending (negative order)
      then extendRun isDescending current (previous :: revRun) rest'
      else (previous :: revRun, rest)
  end.

(** [CountAndMakeRun]: the maximal run at the start of the array, put in
    ascending order (a descending run is reversed in place), and the
    elements after it. *)
Definition countAndMakeRun (a : list A) : list A * list A :=
  match a with
  | elementHigh :: elementLow :: rest =>
      let isDescending := negative (comparefn elementLow elementHigh) in
      let '(revRun, rest') := extendRun isDescending elementLow [elementHigh] rest in
      (if isDescending then revRun else rev revRun, rest')
  | _ => (a, [])
  end.

(** The binary search of [BinaryInsertionSort]: the position of [pivot]
    among [sorted], between [left] and [right]. *)
Fixpoint searchPosition (fuel : nat) (pivot : A) (sorted : list A) (left right : nat) : nat :=
  match fuel with
  | O => left
  | S fuel' =>
      if (left <? right)%nat then
        let mid := (left + Nat.div2 (right - left))%nat in
        match nth_error sorted mid with
        | Some m =>
            if negative (comparefn pivot m)
            then searchPosition fuel' pivot sorted left mid
            else searchPosition fuel' pivot sorted (S mid) right
        | None => left
        end
      else left
  end.

Definition insertPivot (sorted : list A) (pivot : A) : list A :=
  let left := searchPosition (List.length sorted) pivot sorted 0 (List.length sorted) in
  firstn left sorted ++ pivot :: skipn left sorted.

(** [BinaryInsertionSort]: the elements after the run are inserted one by
    one, left to right. *)
Definition binaryInsertionSort (run rest : list A) : list A :=
  fold_left insertPivot rest run.

(** [a.sort(comparefn)] for [a.length < 64]. *)
Definition sort (a : list A) : list A :=
  let '(run, rest) := countAndMakeRun a in binaryInsertionSort run rest.

End Sort.

(** *** What the sort guarantees

    The result is a permutation of the array.  When the comparison function
    never puts two elements strictly below each other, consecutive elements
    of the result are in order, whether or not the comparison is
    transitive.  Nothing more holds for a comparison that is not a
    consistent order. *)

Section SortFacts.
Context {A : Type}.
Variable comparefn : A -> A -> Q.

(** [inOrder x y]: [y] may follow [x]. *)
Definition inOrder (x y : A) : Prop := negative (comparefn y x) = false.

Fixpoint chain (R : A -> A -> Prop) (l : list A) : Prop :=
  match l with
  | x :: (y :: _) as t => R x y /\ chain R t
  | _ => True
  end.

Lemma chain_tail R x l : chain R (x :: l) -> chain R l.
Proof. destruct l; simpl; tauto. Qed.

Lemma chain_snoc R l x :
  chain R l -> (forall y l0, l = l0 ++ [y] -> R y x) -> chain R (l ++ [x]).
Proof.
  induction l as [|a l IH]; intros Hc Hlast; [exact I|].
  destruct l as [|b l].
  - simpl. split; [|exact I]. apply (Hlast a []). reflexivity.
  - destruct Hc as [Hab Hc]. change (R a b /\ chain R ((b :: l) ++ [x])).
    split; [exact Hab|]. apply IH; [exact Hc|].
    intros y l0 E. apply (Hlast y (a :: l0)). simpl. now rewrite E.
Qed.

Lemma chain_rev R l : chain (fun x y => R y x) l -> chain R (rev l).
Proof.
  induction l as [|a l IH]; intros Hc; [exact I|].
  simpl. apply chain_snoc.
  - apply IH. exact (chain_tail _ _ _ Hc).
  - intros y l0 E. destruct l as [|b l].
    + destruct l0; discriminate.
    + simpl in E. apply app_inj_tail in E. destruct E as [_ ->].
      exact (proj1 Hc).
Qed.

Lemma chain_insert R l : forall p pivot,
  (p <= List.length l)%nat ->
  chain R l ->
  (forall m, nth_error l (Nat.pred p) = Some m -> (0 < p)%nat -> R m pivot) ->
  (forall m, nth_error l p = Some m -> R pivot m) ->
  chain R (firstn p l ++ pivot :: skipn p l).
Proof.
  induction l as [|a l IH]; intros p pivot Hp Hc Hbefore Hafter.
  - destruct p; exact I.
  - destruct p as [|p].
    + simpl. split; [apply Hafter; reflexivity | exact Hc].
    + change (chain R (a :: (firstn p l ++ pivot :: skipn p l))).
      simpl in Hp.
      assert (Hrest : chain R (firstn p l ++ pivot :: skipn p l)).
      { apply IH; [lia | exact (chain_tail _ _ _ Hc) | | exact Hafter].
        intros m Hm Hp'. apply Hbefore; [|lia].
        destruct p; [lia | exact Hm]. }
      destruct p as [|p].
      * simpl. split; [|exact Hrest]. apply Hbefore; [reflexivity | lia].
      * destruct l as [|b l]; [simpl in Hp; lia|].
        simpl in Hrest |- *. split; [exact (proj1 Hc) | exact Hrest].
Qed.

Lemma chain_no_later (P : A -> bool) (whole : list A) :
  (forall w u, In w whole -> In u whole -> P w = true -> P u = false ->
               negative (comparefn w u) = true) ->
  forall t h, chain inOrder (h :: t) -> P h = false -> incl (h :: t) whole ->
  forall w, In w t -> P w = false.
Proof.
  intros Hbeats. induction t as [|y t IH]; intros h Hc Ph Hin w Hw; [destruct Hw|].
  destruct Hc as [Hhy Hc].
  assert (Py : P y = false).
  { destruct (P y) eqn:Py; [|reflexivity]. unfold inOrder in Hhy.
    rewrite (Hbeats y h) in Hhy; [discriminate | | | exact Py | exact Ph];
      apply Hin; simpl; auto. }
  destruct Hw as [->|Hw]; [exact Py|].
  apply (IH y Hc Py); [|exact Hw]. intros u Hu. apply Hin. right. exact Hu.
Qed.

(** The first element of a chain is the one no other element may precede. *)
Lemma chain_head (P : A -> bool) l :
  chain inOrder l ->
  (exists w, In w l /\ P w = true) ->
  (forall w u, In w l -> In u l -> P w = true -> P u = false ->
               negative (comparefn w u) = true) ->
  exists h t, l = h :: t /\ P h = true.
Proof.
  intros Hc [w [Hw Pw]] Hbeats.
  destruct l as [|h t]; [destruct Hw|].
  exists h, t. split; [reflexivity|].
  destruct (P h) eqn:Ph; [reflexivity | exfalso].
  destruct Hw as [->|Hw]; [congruence|].
  pose proof (chain_no_later P (h :: t) Hbeats t h Hc Ph (incl_refl _) w Hw).
  congruence.
Qed.

Lemma extendRun_permutation d : forall rest previous revRun,
  Permutation (fst (extendRun comparefn d previous revRun rest)
               ++ snd (extendRun comparefn d previous revRun rest))
              (previous :: revRun ++ rest).
Proof.
  induction rest as [|c rest IH]; intros previous revRun; simpl.
  - reflexivity.
  - destruct (Bool.eqb d (negative (comparefn c previous))).
    + rewrite IH. simpl.
      change (Permutation (c :: (previous :: revRun) ++ rest) ((previous :: revRun) ++ c :: rest)).
      apply Permutation_middle.
    + reflexivity.
Qed.

Lemma countAndMakeRun_permutation a :
  Permutation (fst (countAndMakeRun comparefn a) ++ snd (countAndMakeRun comparefn a)) a.
Proof.
  destruct a as [|x [|y rest]]; simpl; try reflexivity.
  pose proof (extendRun_permutation (negative (comparefn y x)) rest y [x]) as H.
  destruct (extendRun comparefn (negative (comparefn y x)) y [x] rest) as [revRun rest'].
  simpl in H |- *. transitivity (y :: x :: rest); [|apply perm_swap].
  rewrite <- H. apply Permutation_app_tail.
  destruct (negative (comparefn y x)); [reflexivity | symmetry; apply Permutation_rev].
Qed.

Lemma insertPivot_permutation sorted pivot :
  Permutation (insertPivot comparefn sorted pivot) (pivot :: sorted).
Proof.
  unfold insertPivot. rewrite <- Permutation_middle.
  now rewrite firstn_skipn.
Qed.

Lemma binaryInsertionSort_permutation rest : forall run,
  Permutation (binaryInsertionSort comparefn run rest) (run ++ rest).
Proof.
  unfold binaryInsertionSort.
  induction rest as [|x rest IH]; intros run; simpl.
  - now rewrite app_nil_r.
  - rewrite IH, insertPivot_permutation. apply Permutation_middle.
Qed.

Theorem sort_permutation a : Permutation (sort comparefn a) a.
Proof.
  unfold sort. pose proof (countAndMakeRun_permutation a) as H.
  destruct (countAndMakeRun comparefn a) as [run rest]. simpl in H.
  now rewrite binaryInsertionSort_permutation.
Qed.

Lemma sort_nil : sort comparefn [] = [].
Proof. reflexivity. Qed.

(** No two elements are strictly below each other. *)
Hypothesis asymmetric :
  forall x y, negative (comparefn x y) = true -> negative (comparefn y x) = false.

Lemma searchPosition_spec pivot sorted : forall fuel left right,
  (left <= right <= List.length sorted)%nat -> (right - left <= fuel)%nat ->
  (forall m, nth_error sorted (Nat.pred left) = Some m -> (0 < left)%nat -> inOrder m pivot) ->
  (forall m, nth_error sorted right = Some m -> inOrder pivot m) ->
  let p := searchPosition comparefn fuel pivot sorted left right in
  (p <= List.length sorted)%nat
  /\ (forall m, nth_error sorted (Nat.pred p) = Some m -> (0 < p)%nat -> inOrder m pivot)
  /\ (forall m, nth_error sorted p = Some m -> inOrder pivot m).
Proof.
  induction fuel as [|fuel IH]; intros left right Hrange Hfuel Hl Hr; simpl.
  - replace right with left in Hr by lia. repeat split; [lia | assumption | assumption].
  - destruct (left <? right)%nat eqn:Hlt.
    + apply Nat.ltb_lt in Hlt.
      set (mid := (left + Nat.div2 (right - left))%nat).
      assert (Hmid : (left <= mid < right)%nat).
      { unfold mid. assert (H : (Nat.div2 (right - left) < right - left)%nat)
          by (apply Nat.lt_div2; lia).
        revert H. generalize (Nat.div2 (right - left)). intros d H. lia. }
      destruct (nth_error sorted mid) as [m|] eqn:Em.
      * destruct (negative (comparefn pivot m)) eqn:Ec.
        -- apply IH; [lia | lia | exact Hl |].
           intros m' Em'. rewrite Em in Em'. injection Em' as <-.
           apply asymmetric. exact Ec.
        -- apply IH; [lia | lia | | exact Hr].
           simpl. intros m' Em' _. rewrite Em in Em'. injection Em' as <-. exact Ec.
      * apply nth_error_None in Em. lia.
    + apply Nat.ltb_ge in Hlt. replace right with left in Hr by lia.
      repeat split; [lia | assumption | assumption].
Qed.

Lemma insertPivot_chain sorted pivot :
  chain inOrder sorted -> chain inOrder (insertPivot comparefn sorted pivot).
Proof.
  intros Hc. unfold insertPivot.
  destruct (searchPosition_spec pivot sorted (List.length sorted) 0 (List.length sorted))
    as [Hle [Hbefore Hafter]].
  - lia.
  - lia.
  - intros m _ H. lia.
  - intros m Hm. assert (Hnone : nth_error sorted (List.length sorted) = None)
      by (apply nth_error_None; lia).
    congruence.
  - apply chain_insert; assumption.
Qed.

Lemma binaryInsertionSort_chain rest : forall run,
  chain inOrder run -> chain inOrder (binaryInsertionSort comparefn run rest).
Proof.
  unfold binaryInsertionSort.
  induction rest as [|x rest IH]; intros run Hc; simpl; [exact Hc|].
  apply IH, insertPivot_chain, Hc.
Qed.

(** The order of a run as [extendRun] keeps it, last element first. *)
Definition runOrder (isDescending : bool) (x y : A) : Prop :=
  if isDescending then inOrder x y else inOrder y x.

Lemma extendRun_chain d : forall rest previous revRun,
  chain (runOrder d) (previous :: revRun) ->
  chain (runOrder d) (fst (extendRun comparefn d previous revRun rest)).
Proof.
  induction rest as [|c rest IH]; intros previous revRun Hc; simpl; [exact Hc|].
  destruct (Bool.eqb d (negative (comparefn c previous))) eqn:E; [|exact Hc].
  apply IH. split; [|exact Hc].
  apply eqb_prop in E. destruct d; unfold runOrder.
  - apply asymmetric. now symmetry.
  - unfold inOrder. now symmetry.
Qed.

Lemma countAndMakeRun_chain a : chain inOrder (fst (countAndMakeRun comparefn a)).
Proof.
  destruct a as [|x [|y rest]]; try exact I.
  simpl.
  pose proof (extendRun_chain (negative (comparefn y x)) rest y [x]) as H.
  destruct (extendRun comparefn (negative (comparefn y x)) y [x] rest) as [revRun rest'].
  simpl in H |- *.
  destruct (negative (comparefn y x)) eqn:E.
  - apply H. split; [|exact I]. apply asymmetric. exact E.
  - apply chain_rev. apply H. split; [exact E | exact I].
Qed.

Theorem sort_chain a : chain inOrder (sort comparefn a).
Proof.
  unfold sort. pose proof (countAndMakeRun_chain a) as H.
  destruct (countAndMakeRun comparefn a) as [run rest].
  apply binaryInsertionSort_chain. exact H.
Qed.

(** An element that the comparison puts strictly before every other one
    comes first. *)
Theorem sort_head (P : A -> bool) a :
  (exists w, In w a /\ P w = true) ->
  (forall w u, In w a -> In u a -> P w = true -> P u = false ->
               negative (comparefn w u) = true) ->
  exists h t, sort comparefn a = h :: t /\ P h = true.
Proof.
  intros [w [Hw Pw]] Hbeats.
  pose proof (sort_permutation a) as Hperm.
  apply chain_head.
  - apply sort_chain.
  - exists w. split; [|exact Pw]. apply (Permutation_in _ (Permutation_sym Hperm) Hw).
  - intros w' u Hw' Hu. apply Hbeats; eapply Permutation_in; eassumption.
Qed.

End SortFacts.

End JsArray.

(** ** Numbers of the runtime

    A JavaScript [number] is a binary64 floating-point number.  It is
    modelled by the rational it denotes, and every arithmetic operation
    rounds its exact result to the nearest number with 53 significant
    bits, ties going to the even significand ([fl]).  This is the
    arithmetic of binary64 as long as no result is as large as 2^1024 or,
    when it is not zero, smaller than 2^-1022: the scores of the
    classifier are sums of products of constants between 0.1 and 0.95,
    one for each indicator, and quotients of such sums; a sum of tokens
    that reaches 2^1024 is no longer a finite number ([finite]). *)

Module Double.

Local Open Scope Q_scope.

(** The binary exponent of a positive rational: the [k] with
    [2^k <= q < 2^(k+1)]. *)
Definition ilog2 (q : Q) : Z :=
  let k := (Z.log2 (Qnum q) - Z.log2 (Zpos (Qden q)))%Z in
  if Qle_bool (2 ^ k) q then k else (k - 1)%Z.

(** The nearest integer, the even one of two that are equally near. *)
Definition rne (q : Q) : Z :=
  let f := Qfloor q in
  match Qcompare (q - inject_Z f) (1 # 2) with
  | Lt => f
  | Gt => (f + 1)%Z
  | Eq => if Z.even f then f else (f + 1)%Z
  end.

(** The nearest number with 53 significant bits to a positive rational. *)
Definition nearest (q : Q) : Q :=
  let e := (ilog2 q - 52)%Z in
  inject_Z (rne (q / 2 ^ e)) * 2 ^ e.

(** Rounding to binary64. *)
Definition fl (q : Q) : Q :=
  match Qcompare q 0 with
  | Eq => 0
  | Gt => Qred (nearest q)
  | Lt => Qred (- nearest (- q))
  end.

(** The arithmetic of the runtime. *)
Definition add (x y : Q) : Q := fl (x + y).
Definition sub (x y : Q) : Q := fl (x - y).
Definition mul (x y : Q) : Q := fl (x * y).
Definition div (x y : Q) : Q := fl (x / y).

(** A number that is a binary64. *)
Definition representable (x : Q) : Prop := fl x == x.

(** A result within the range of binary64: beyond it the runtime has an
    infinity. *)
Definition finite (q : Q) : bool :=
  if Qlt_le_dec (Qabs q) (2 ^ 1024) then true else false.

(** *** Powers of two *)

Lemma pow2_pos e : 0 < 2 ^ e.
Proof. apply Qpower_0_lt. reflexivity. Qed.

Lemma pow2_nonzero e : ~ 2 ^ e == 0.
Proof. pose proof (pow2_pos e). lra. Qed.

Lemma pow2_plus a b : 2 ^ (a + b) == 2 ^ a * 2 ^ b.
Proof. apply Qpower_plus. discriminate. Qed.

Lemma pow2_succ a : 2 ^ (a + 1) == 2 * 2 ^ a.
Proof. rewrite pow2_plus. change (2 ^ 1) with 2. ring. Qed.

Lemma pow2_le a b : (a <= b)%Z -> 2 ^ a <= 2 ^ b.
Proof. intros H. apply Qpower_le_compat_l; [exact H | discriminate]. Qed.

Lemma pow2_lt a b : (a < b)%Z -> 2 ^ a < 2 ^ b.
Proof. intros H. apply Qpower_lt_compat_l; [exact H | reflexivity]. Qed.

Lemma pow2_lt_inv a b : 2 ^ a < 2 ^ b -> (a < b)%Z.
Proof. intros H. apply (Qpower_lt_compat_l_inv 2); [exact H | reflexivity]. Qed.

Lemma pow2_inject a : (0 <= a)%Z -> 2 ^ a == inject_Z (2 ^ a).
Proof. intros H. rewrite Zpower_Qpower by exact H. reflexivity. Qed.

(** *** The binary exponent *)

Lemma ilog2_spec q : 0 < q -> 2 ^ ilog2 q <= q < 2 ^ (ilog2 q + 1).
Proof.
  intros Hq. unfold ilog2. destruct q as [n d]. cbn [Qnum Qden].
  assert (Hn : (0 < n)%Z) by (unfold Qlt in Hq; cbn in Hq; lia).
  pose proof (Z.log2_spec n Hn) as [Hn1 Hn2].
  pose proof (Z.log2_spec (Zpos d) (Pos2Z.is_pos d)) as [Hd1 Hd2].
  pose proof (Z.log2_nonneg n) as Ha. pose proof (Z.log2_nonneg (Zpos d)) as Hb.
  set (a := Z.log2 n) in *. set (b := Z.log2 (Zpos d)) in *.
  assert (En : n # d == inject_Z n / inject_Z (Zpos d)) by apply Qmake_Qdiv.
  assert (Hdpos : 0 < inject_Z (Zpos d)) by reflexivity.
  assert (Qn1 : 2 ^ a <= inject_Z n)
    by (rewrite (pow2_inject a Ha), <- Zle_Qle; exact Hn1).
  assert (Qn2 : inject_Z n < 2 ^ (a + 1))
    by (rewrite (pow2_inject (a + 1)) by lia; rewrite <- Zlt_Qlt; exact Hn2).
  assert (Qd1 : 2 ^ b <= inject_Z (Zpos d))
    by (rewrite (pow2_inject b Hb), <- Zle_Qle; exact Hd1).
  assert (Qd2 : inject_Z (Zpos d) < 2 ^ (b + 1))
    by (rewrite (pow2_inject (b + 1)) by lia; rewrite <- Zlt_Qlt; exact Hd2).
  pose proof (pow2_pos (a - b)) as Hk. pose proof (pow2_pos b) as Hpb.
  assert (Eab : 2 ^ a == 2 ^ (a - b) * 2 ^ b)
    by (rewrite <- pow2_plus; replace (a - b + b)%Z with a by lia; reflexivity).
  assert (Eab1 : 2 ^ (a + 1) == 2 * 2 ^ (a - b) * 2 ^ b)
    by (rewrite pow2_succ, Eab; ring).
  assert (Eb1 : 2 ^ (b + 1) == 2 * 2 ^ b) by apply pow2_succ.
  assert (Hupper : n # d < 2 ^ (a - b + 1)).
  { rewrite En, pow2_succ. apply Qlt_shift_div_r; [exact Hdpos|]. nra. }
  assert (Hlower : 2 ^ (a - b - 1) < n # d).
  { rewrite En. apply Qlt_shift_div_l; [exact Hdpos|].
    assert (E : 2 ^ (a - b) == 2 * 2 ^ (a - b - 1)).
    { rewrite <- pow2_succ. replace (a - b - 1 + 1)%Z with (a - b)%Z by lia.
      reflexivity. }
    pose proof (pow2_pos (a - b - 1)). nra. }
  destruct (Qle_bool (2 ^ (a - b)) (n # d)) eqn:E.
  - apply Qle_bool_iff in E. split; assumption.
  - assert (Hlt : n # d < 2 ^ (a - b)).
    { apply Qnot_le_lt. intros H. apply Qle_bool_iff in H. congruence. }
    replace (a - b - 1 + 1)%Z with (a - b)%Z by lia.
    split; [apply Qlt_le_weak; exact Hlower | exact Hlt].
Qed.

Lemma ilog2_unique q k : 2 ^ k <= q < 2 ^ (k + 1) -> ilog2 q = k.
Proof.
  intros [H1 H2].
  assert (Hq : 0 < q) by (pose proof (pow2_pos k); lra).
  destruct (ilog2_spec q Hq) as [H3 H4].
  assert (k < ilog2 q + 1)%Z by (apply pow2_lt_inv; lra).
  assert (ilog2 q < k + 1)%Z by (apply pow2_lt_inv; lra).
  lia.
Qed.

Lemma ilog2_comp x y : 0 < x -> x == y -> ilog2 x = ilog2 y.
Proof.
  intros Hx E. symmetry. apply ilog2_unique. rewrite <- E. apply ilog2_spec, Hx.
Qed.

Lemma ilog2_monotone x y : 0 < x -> x <= y -> (ilog2 x <= ilog2 y)%Z.
Proof.
  intros Hx Hxy.
  destruct (ilog2_spec x Hx) as [H1 _].
  destruct (ilog2_spec y) as [_ H2]; [lra|].
  assert (ilog2 x < ilog2 y + 1)%Z by (apply pow2_lt_inv; lra). lia.
Qed.

(** *** The nearest integer *)

Lemma rne_comp x y : x == y -> rne x = rne y.
Proof.
  intros E. unfold rne. rewrite (Qfloor_comp x y E).
  assert (E' : x - inject_Z (Qfloor y) == y - inject_Z (Qfloor y)) by (rewrite E; reflexivity).
  rewrite (Qcompare_comp _ _ E' (1 # 2) (1 # 2) (Qeq_refl _)). reflexivity.
Qed.

Lemma rne_cases q :
  let f := Qfloor q in
  (rne q = f /\ q - inject_Z f <= 1 # 2) \/ (rne q = (f + 1)%Z /\ 1 # 2 <= q - inject_Z f).
Proof.
  intros f. unfold rne. fold f.
  destruct (Qcompare (q - inject_Z f) (1 # 2)) eqn:E.
  - rewrite <- Qeq_alt in E. destruct (Z.even f); [left | right]; split; try reflexivity; lra.
  - rewrite <- Qlt_alt in E. left. split; [reflexivity | lra].
  - rewrite <- Qgt_alt in E. right. split; [reflexivity | lra].
Qed.

Lemma rne_near q : inject_Z (rne q) - (1 # 2) <= q <= inject_Z (rne q) + (1 # 2).
Proof.
  pose proof (Qfloor_le q) as H1. pose proof (Qlt_floor q) as H2.
  rewrite inject_Z_plus in H2. change (inject_Z 1) with 1 in H2.
  destruct (rne_cases q) as [[-> H]|[-> H]].
  - lra.
  - rewrite inject_Z_plus. change (inject_Z 1) with 1. lra.
Qed.

Lemma rne_inject k : rne (inject_Z k) = k.
Proof.
  unfold rne. rewrite Qfloor_Z.
  assert (E : Qcompare (inject_Z k - inject_Z k) (1 # 2) = Lt) by (rewrite <- Qlt_alt; lra).
  rewrite E. reflexivity.
Qed.

Lemma rne_monotone x y : x <= y -> (rne x <= rne y)%Z.
Proof.
  intros Hxy. pose proof (Qfloor_resp_le x y Hxy) as Hf.
  destruct (Z.eq_dec (Qfloor x) (Qfloor y)) as [E|E].
  - unfold rne. rewrite E.
    destruct (Qcompare (x - inject_Z (Qfloor y)) (1 # 2)) eqn:Ex;
      destruct (Qcompare (y - inject_Z (Qfloor y)) (1 # 2)) eqn:Ey;
      try rewrite <- Qeq_alt in Ex; try rewrite <- Qlt_alt in Ex; try rewrite <- Qgt_alt in Ex;
      try rewrite <- Qeq_alt in Ey; try rewrite <- Qlt_alt in Ey; try rewrite <- Qgt_alt in Ey;
      try (destruct (Z.even (Qfloor y))); try lia; exfalso; lra.
  - destruct (rne_cases x) as [[-> _]|[-> _]]; destruct (rne_cases y) as [[-> _]|[-> _]]; lia.
Qed.

(** *** Rounding *)

(** The significand and the exponent of a rounded positive number. *)
Lemma nearest_form q :
  0 < q ->
  exists m, (2 ^ 52 <= m <= 2 ^ 53)%Z /\ nearest q == inject_Z m * 2 ^ (ilog2 q - 52).
Proof.
  intros Hq. destruct (ilog2_spec q Hq) as [H1 H2].
  set (k := ilog2 q) in *. set (e := (k - 52)%Z).
  pose proof (pow2_pos e) as He.
  assert (Ek : 2 ^ k == inject_Z (2 ^ 52) * 2 ^ e).
  { rewrite <- (pow2_inject 52) by lia. rewrite <- pow2_plus.
    replace (52 + e)%Z with k by (unfold e; lia). reflexivity. }
  assert (Ek1 : 2 ^ (k + 1) == inject_Z (2 ^ 53) * 2 ^ e).
  { rewrite <- (pow2_inject 53) by lia. rewrite <- pow2_plus.
    replace (53 + e)%Z with (k + 1)%Z by (unfold e; lia). reflexivity. }
  exists (rne (q / 2 ^ e)). split; [|reflexivity]. split.
  - rewrite <- (rne_inject (2 ^ 52)). apply rne_monotone.
    apply Qle_shift_div_l; [exact He | lra].
  - rewrite <- (rne_inject (2 ^ 53)). apply rne_monotone.
    apply Qle_shift_div_r; [exact He | lra].
Qed.

Lemma nearest_bounds q :
  0 < q -> 2 ^ ilog2 q <= nearest q <= 2 ^ (ilog2 q + 1).
Proof.
  intros Hq. destruct (nearest_form q Hq) as (m & [Hlo Hhi] & ->).
  set (k := ilog2 q). set (e := (k - 52)%Z).
  pose proof (pow2_pos e) as He.
  assert (Ek : 2 ^ k == inject_Z (2 ^ 52) * 2 ^ e).
  { rewrite <- (pow2_inject 52) by lia. rewrite <- pow2_plus.
    replace (52 + e)%Z with k by (unfold e; lia). reflexivity. }
  assert (Ek1 : 2 ^ (k + 1) == inject_Z (2 ^ 53) * 2 ^ e).
  { rewrite <- (pow2_inject 53) by lia. rewrite <- pow2_plus.
    replace (53 + e)%Z with (k + 1)%Z by (unfold e; lia). reflexivity. }
  rewrite Zle_Qle in Hlo, Hhi. rewrite Ek, Ek1.
  split; apply Qmult_le_compat_r; try assumption; lra.
Qed.

Lemma nearest_comp x y : 0 < x -> x == y -> nearest x == nearest y.
Proof.
  intros Hx E. unfold nearest. rewrite (ilog2_comp x y Hx E).
  rewrite (rne_comp (x / 2 ^ (ilog2 y - 52)) (y / 2 ^ (ilog2 y - 52)));
    [reflexivity | rewrite E; reflexivity].
Qed.

Lemma fl_zero q : q == 0 -> fl q = 0.
Proof. intros E. unfold fl. rewrite Qeq_alt in E. rewrite E. reflexivity. Qed.

Lemma fl_positive q : 0 < q -> fl q == nearest q.
Proof. intros H. unfold fl. rewrite Qgt_alt in H. rewrite H. apply Qred_correct. Qed.

Lemma fl_negative q : q < 0 -> fl q == - nearest (- q).
Proof. intros H. unfold fl. rewrite Qlt_alt in H. rewrite H. apply Qred_correct. Qed.

Lemma fl_comp x y : x == y -> fl x = fl y.
Proof.
  intros E. unfold fl. rewrite (Qcompare_comp x y E 0 0 (Qeq_refl 0)).
  destruct (Qcompare y 0) eqn:Ey; [reflexivity | |]; apply Qred_complete.
  - rewrite <- Qlt_alt in Ey. apply Qopp_comp, nearest_comp; [lra | rewrite E; reflexivity].
  - rewrite <- Qgt_alt in Ey. apply nearest_comp; [lra | exact E].
Qed.

#[export] Instance fl_proper : Proper (Qeq ==> Qeq) fl.
Proof. intros x y E. rewrite (fl_comp x y E). reflexivity. Qed.

Lemma fl_opp q : fl (- q) == - fl q.
Proof.
  destruct (Q_dec q 0) as [[H|H]|H].
  - rewrite (fl_negative q H), (fl_positive (- q)) by lra. ring.
  - rewrite (fl_positive q H), (fl_negative (- q)) by lra.
    rewrite (nearest_comp (- - q) q); [reflexivity | lra | ring].
  - rewrite (fl_zero q H), (fl_zero (- q)) by lra. reflexivity.
Qed.

Lemma fl_pos q : 0 < q -> 0 < fl q.
Proof.
  intros H. rewrite (fl_positive q H).
  pose proof (nearest_bounds q H). pose proof (pow2_pos (ilog2 q)). lra.
Qed.

Lemma fl_neg q : q < 0 -> fl q < 0.
Proof.
  intros H. assert (H' : 0 < - q) by lra. apply fl_pos in H'. rewrite fl_opp in H'. lra.
Qed.

Lemma fl_nonneg q : 0 <= q -> 0 <= fl q.
Proof.
  intros H. destruct (Qle_lt_or_eq _ _ H) as [H'|H'].
  - apply Qlt_le_weak, fl_pos, H'.
  - rewrite (fl_zero q) by (symmetry; exact H'). apply Qle_refl.
Qed.

Lemma fl_pos_inv q : 0 < fl q -> 0 < q.
Proof.
  intros H. destruct (Q_dec q 0) as [[H'|H']|H']; [|exact H'|].
  - apply fl_neg in H'. lra.
  - rewrite (fl_zero q H') in H. discriminate H.
Qed.

Lemma fl_neg_inv q : fl q < 0 -> q < 0.
Proof.
  intros H. destruct (Q_dec q 0) as [[H'|H']|H']; [exact H'| |].
  - apply fl_pos in H'. lra.
  - rewrite (fl_zero q H') in H. discriminate H.
Qed.

Lemma fl_abs q : Qabs (fl q) == fl (Qabs q).
Proof.
  destruct (Qlt_le_dec q 0) as [H|H].
  - pose proof (fl_neg q H). rewrite (Qabs_neg (fl q)) by lra.
    rewrite (fl_comp (Qabs q) (- q)) by (apply Qabs_neg; lra).
    rewrite fl_opp. reflexivity.
  - pose proof (fl_nonneg q H). rewrite (Qabs_pos (fl q)) by assumption.
    rewrite (fl_comp (Qabs q) q) by (apply Qabs_pos; assumption). reflexivity.
Qed.

Lemma nearest_monotone x y : 0 < x -> x <= y -> nearest x <= nearest y.
Proof.
  intros Hx Hxy. assert (Hy : 0 < y) by lra.
  pose proof (ilog2_monotone x y Hx Hxy) as Hk.
  destruct (Z.eq_dec (ilog2 x) (ilog2 y)) as [E|E].
  - unfold nearest. rewrite E. set (e := (ilog2 y - 52)%Z).
    pose proof (pow2_pos e) as He.
    apply Qmult_le_compat_r; [|lra]. rewrite <- Zle_Qle. apply rne_monotone.
    apply Qle_shift_div_l; [exact He|].
    assert (Ex : x / 2 ^ e * 2 ^ e == x) by (field; apply pow2_nonzero).
    rewrite Ex. exact Hxy.
  - pose proof (nearest_bounds x Hx) as [_ H1]. pose proof (nearest_bounds y Hy) as [H2 _].
    assert (2 ^ (ilog2 x + 1) <= 2 ^ ilog2 y) by (apply pow2_le; lia). lra.
Qed.

(** Rounding keeps the order. *)
Theorem fl_monotone x y : x <= y -> fl x <= fl y.
Proof.
  intros Hxy. destruct (Q_dec x 0) as [[Hx|Hx]|Hx].
  - destruct (Q_dec y 0) as [[Hy|Hy]|Hy].
    + rewrite (fl_negative x Hx), (fl_negative y Hy).
      assert (nearest (- y) <= nearest (- x)) by (apply nearest_monotone; lra). lra.
    + pose proof (fl_neg x Hx). pose proof (fl_pos y Hy). lra.
    + pose proof (fl_neg x Hx). rewrite (fl_zero y Hy). lra.
  - rewrite (fl_positive x Hx), (fl_positive y) by lra. apply nearest_monotone; assumption.
  - rewrite (fl_zero x Hx). apply fl_nonneg. lra.
Qed.

(** A positive number of 53 significant bits is its own rounding. *)
Lemma nearest_exact (m e : Z) :
  (2 ^ 52 <= m <= 2 ^ 53)%Z -> nearest (inject_Z m * 2 ^ e) == inject_Z m * 2 ^ e.
Proof.
  intros [Hlo Hhi]. pose proof (pow2_pos e) as He.
  assert (Q52 : inject_Z (2 ^ 52) <= inject_Z m) by (rewrite <- Zle_Qle; exact Hlo).
  assert (Q53 : inject_Z m <= inject_Z (2 ^ 53)) by (rewrite <- Zle_Qle; exact Hhi).
  assert (E52 : 2 ^ (52 + e) == inject_Z (2 ^ 52) * 2 ^ e)
    by (rewrite pow2_plus, (pow2_inject 52) by lia; reflexivity).
  assert (E53 : 2 ^ (53 + e) == inject_Z (2 ^ 53) * 2 ^ e)
    by (rewrite pow2_plus, (pow2_inject 53) by lia; reflexivity).
  destruct (Z.eq_dec m (2 ^ 53)) as [Em|Em].
  - subst m. unfold nearest.
    rewrite (ilog2_unique _ (53 + e)).
    + replace (53 + e - 52)%Z with (e + 1)%Z by lia.
      rewrite (rne_comp _ (inject_Z (2 ^ 52))).
      * rewrite rne_inject, pow2_succ.
        change (inject_Z (2 ^ 53)) with (2 * inject_Z (2 ^ 52)). ring.
      * rewrite pow2_succ. change (inject_Z (2 ^ 53)) with (2 * inject_Z (2 ^ 52)).
        field. apply pow2_nonzero.
    + rewrite pow2_succ, E53.
      split; [apply Qle_refl|].
      assert (0 < inject_Z (2 ^ 53)) by reflexivity. nra.
  - unfold nearest. rewrite (ilog2_unique _ (52 + e)).
    + replace (52 + e - 52)%Z with e by lia.
      rewrite (rne_comp _ (inject_Z m)); [rewrite rne_inject; reflexivity|].
      field. apply pow2_nonzero.
    + replace (52 + e + 1)%Z with (53 + e)%Z by lia. rewrite E52, E53. split.
      * apply Qmult_le_compat_r; [exact Q52 | lra].
      * apply Qmult_lt_compat_r; [exact He|]. rewrite <- Zlt_Qlt. lia.
Qed.

(** Rounding twice is rounding once. *)
Theorem fl_idempotent q : fl (fl q) == fl q.
Proof.
  assert (Hpos : forall x, 0 < x -> fl (fl x) == fl x).
  { intros x Hx. pose proof (fl_pos x Hx) as Hfx.
    rewrite (fl_positive (fl x) Hfx).
    destruct (nearest_form x Hx) as (m & Hm & E).
    rewrite (nearest_comp (fl x) (inject_Z m * 2 ^ (ilog2 x - 52)) Hfx)
      by (rewrite (fl_positive x Hx); exact E).
    rewrite (nearest_exact m _ Hm), (fl_positive x Hx). symmetry. exact E. }
  destruct (Q_dec q 0) as [[H|H]|H].
  - assert (H' : 0 < - q) by lra. specialize (Hpos _ H').
    rewrite (fl_comp (fl (- q)) (- fl q)) in Hpos by apply fl_opp.
    rewrite !fl_opp in Hpos. lra.
  - apply Hpos, H.
  - rewrite (fl_zero q H). reflexivity.
Qed.

Lemma fl_representable q : representable (fl q).
Proof. apply fl_idempotent. Qed.

Lemma representable_opp x : representable x -> representable (- x).
Proof. unfold representable. intros H. rewrite fl_opp, H. reflexivity. Qed.

(** A number whose rounding is below a binary64 is below it. *)
Lemma fl_lt_inv x y : fl x < fl y -> x < fl y.
Proof.
  intros H. apply Qnot_le_lt. intros Hle.
  apply fl_monotone in Hle. rewrite fl_idempotent in Hle. lra.
Qed.

Lemma fl_le_representable x y : representable y -> x <= y -> fl x <= y.
Proof.
  intros Hy H. unfold representable in Hy.
  apply fl_monotone in H. rewrite Hy in H. exact H.
Qed.

Lemma fl_ge_representable x y : representable y -> y <= x -> y <= fl x.
Proof.
  intros Hy H. unfold representable in Hy.
  apply fl_monotone in H. rewrite Hy in H. exact H.
Qed.

(** The binary64 numbers from [2^k] on are multiples of [2^(k-52)]. *)
Theorem representable_grid x k :
  representable x -> 2 ^ k <= x -> exists n, x == inject_Z n * 2 ^ (k - 52).
Proof.
  intros Hx Hk. assert (Hpos : 0 < x) by (pose proof (pow2_pos k); lra).
  unfold representable in Hx. rewrite (fl_positive x Hpos) in Hx.
  destruct (nearest_form x Hpos) as (m & _ & E). rewrite Hx in E.
  assert (Hle : (k <= ilog2 x)%Z).
  { destruct (ilog2_spec x Hpos) as [_ H2].
    assert (k < ilog2 x + 1)%Z by (apply pow2_lt_inv; lra). lia. }
  exists (m * 2 ^ (ilog2 x - k))%Z.
  apply (Qeq_trans _ _ _ E).
  rewrite inject_Z_mult, <- (pow2_inject (ilog2 x - k)) by lia.
  rewrite <- Qmult_assoc, <- pow2_plus.
  replace (ilog2 x - k + (k - 52))%Z with (ilog2 x - 52)%Z by lia. reflexivity.
Qed.

(** The rounding of a number of known binary exponent. *)
Lemma fl_in_binade q k :
  2 ^ k <= q < 2 ^ (k + 1) ->
  fl q == inject_Z (rne (q / 2 ^ (k - 52))) * 2 ^ (k - 52).
Proof.
  intros H. assert (Hq : 0 < q) by (pose proof (pow2_pos k); lra).
  rewrite (fl_positive q Hq). unfold nearest. rewrite (ilog2_unique q k H). reflexivity.
Qed.

End Double.

(** ** Repository classifier ([src/services/type-detector.ts]) *)

Module TypeDetector.
Import JsString.

Local Open Scope string_scope.
Local Open Scope list_scope.
Local Open Scope Q_scope.

Inductive RepositoryType :=
| backend | frontend | mobile | infra_as_code | library | monorepo | unknown.

Definition RepositoryType_eqb (a b : RepositoryType) : bool :=
  match a, b with
  | backend, backend | frontend, frontend | mobile, mobile
  | infra_as_code, infra_as_code | library, library
  | monorepo, monorepo | unknown, unknown => true
  | _, _ => false
  end.

(** The kind of signal an indicator comes from ([TypeIndicator.type]). *)
Inductive IndicatorKind := file | dependency | pattern | structure.

Record TypeIndicator := {
  ind_type : IndicatorKind;
  ind_name : string;
  ind_path : option string;
  confidence : Q;
  suggestedType : RepositoryType
}.

Record FileInfo := {
  path : string;
  name : string;
  extension : string;
  size : Z
}.

Inductive EntryType := is_file | is_directory.

#[local] Set Warnings "-register-all".

(** [DirectoryStructure]; [children] is optional in the source. *)
Inductive DirectoryStructure := {
  ds_path : string;
  ds_name : string;
  ds_type : EntryType;
  ds_children : option (list DirectoryStructure)
}.

(** What [readPackageJson] hands to its callers: the names of the
    dependencies and whether [main], [exports], [types] are set. *)
Record PackageJson := {
  dependencies : list string;
  devDependencies : list string;
  pkg_main : bool;
  pkg_exports : bool;
  pkg_types : bool
}.

(** The manifests [detectFromDependencies] reads through the repository
    manager: [None] for a file that is missing, too large, or (for
    [package.json]) not valid JSON. *)
Record Manifests := {
  packageJson : option PackageJson;
  requirements_txt : option string;
  go_mod : option string;
  cargo_toml : option string
}.

(** What [detect] derives from the indicators: three of the five fields of
    its result. *)
Record Classification := {
  primaryType : RepositoryType;
  res_confidence : Q;
  indicators : list TypeIndicator
}.

Record TypeDetectionResult := {
  classification : Classification;
  techStack : list string;
  subTypes : option (list RepositoryType)
}.

(** What the repository manager finds under a path of the local clone:
    the manifests there, the files and the directory tree, and what is
    under [path/dir/name].  A path that cannot be read has no files and a
    tree without children. *)
Inductive Checkout := {
  manifests : Manifests;
  getFiles : list FileInfo;
  getDirectoryStructure : DirectoryStructure;
  subdirectory : string -> string -> option Checkout
}.

(** [DETECTION_WEIGHTS] *)
Definition DETECTION_WEIGHTS (k : IndicatorKind) : Q :=
  match k with
  | file => Double.fl (3 # 10)
  | dependency => Double.fl (4 # 10)
  | pattern => Double.fl (2 # 10)
  | structure => Double.fl (1 # 10)
  end.

(** [TYPE_PRIORITY] *)
Definition TYPE_PRIORITY (t : RepositoryType) : Z :=
  match t with
  | infra_as_code => 100
  | library => 90
  | monorepo => 85
  | mobile => 80
  | frontend => 70
  | backend => 60
  | unknown => 0
  end%Z.

(** The keys of a [Record<RepositoryType, _>] literal, in the order
    [Object.entries], [Object.keys] and [Object.values] enumerate them. *)
Definition type_keys : list RepositoryType :=
  [backend; frontend; mobile; infra_as_code; library; monorepo; unknown].

(** [TYPE_DETECTION_PATTERNS] *)
Definition TYPE_DETECTION_PATTERNS (t : RepositoryType) : list string :=
  match t with
  | backend =>
      ["package.json"; "requirements.txt"; "go.mod"; "Cargo.toml"; "pom.xml";
       "build.gradle"; "Gemfile"; "composer.json"]
  | frontend =>
      ["package.json"; "next.config.js"; "nuxt.config.js"; "vite.config.ts";
       "webpack.config.js"; "angular.json"; "svelte.config.js"]
  | mobile =>
      ["ios/"; "android/"; "App.tsx"; "pubspec.yaml"; "Podfile"; "build.gradle";
       "capacitor.config.json"]
  | infra_as_code =>
      ["main.tf"; "terraform/"; "Pulumi.yaml"; "ansible/"; "kubernetes/"; "k8s/";
       "helm/"; "docker-compose.yml"]
  | library =>
      ["package.json"; "setup.py"; "pyproject.toml"; "Cargo.toml"; "lib/"]
  | monorepo =>
      ["pnpm-workspace.yaml"; "lerna.json"; "nx.json"; "turbo.json"; "packages/";
       "apps/"]
  | unknown => []
  end%string.

Definition mkIndicator (k : IndicatorKind) (n : string) (c : Q) (t : RepositoryType)
  : TypeIndicator :=
  {| ind_type := k; ind_name := n; ind_path := None; confidence := c; suggestedType := t |}.

(** The body of the inner loop of [detectFromFiles] for one pattern: a file
    of that name gives an indicator of confidence 0.7; otherwise, for a
    directory pattern, the first path under such a directory gives one of
    confidence 0.6. *)
Definition detectPattern (fileNames filePaths : list string)
    (repoType : RepositoryType) (pat : string) : list TypeIndicator :=
  let normalizedPattern := removeFirst "/"%char (toLowerCase pat) in
  if has fileNames normalizedPattern then
    [mkIndicator file pat (Double.fl (7 # 10)) repoType]
  else if endsWith pat "/" then
    let dirName := toLowerCase (dropLast pat) in
    match find (fun filePath =>
                  startsWith filePath (dirName ++ "/")
                  || includes filePath ("/" ++ dirName ++ "/"))%string filePaths with
    | Some filePath =>
        [{| ind_type := file; ind_name := pat; ind_path := Some filePath;
            confidence := Double.fl (6 # 10); suggestedType := repoType |}]
    | None => []
    end
  else [].

(** [detectFromFiles]: the indicators it pushes, in order. *)
Definition detectFromFiles (files : list FileInfo) : list TypeIndicator :=
  let fileNames := map (fun f => toLowerCase (name f)) files in
  let filePaths := map (fun f => toLowerCase (path f)) files in
  flat_map (fun repoType =>
              flat_map (detectPattern fileNames filePaths repoType)
                       (TYPE_DETECTION_PATTERNS repoType))
           type_keys.

Definition when (b : bool) (i : TypeIndicator) : list TypeIndicator :=
  if b then [i] else [].

(** [checkDependencies] *)
Definition checkDependencies (depNames : list string) : list TypeIndicator :=
  let dep := has depNames in
  when (dep "react" || dep "react-dom") (mkIndicator dependency "react" (Double.fl (8 # 10)) frontend)
  ++ when (dep "vue") (mkIndicator dependency "vue" (Double.fl (8 # 10)) frontend)
  ++ when (dep "@angular/core") (mkIndicator dependency "@angular/core" (Double.fl (8 # 10)) frontend)
  ++ when (dep "svelte") (mkIndicator dependency "svelte" (Double.fl (8 # 10)) frontend)
  ++ when (dep "next") (mkIndicator dependency "next" (Double.fl (7 # 10)) frontend)
  ++ when (dep "express") (mkIndicator dependency "express" (Double.fl (8 # 10)) backend)
  ++ when (dep "@nestjs/core") (mkIndicator dependency "@nestjs/core" (Double.fl (9 # 10)) backend)
  ++ when (dep "fastify") (mkIndicator dependency "fastify" (Double.fl (8 # 10)) backend)
  ++ when (dep "koa") (mkIndicator dependency "koa" (Double.fl (8 # 10)) backend)
  ++ when (dep "react-native") (mkIndicator dependency "react-native" (Double.fl (95 # 100)) mobile)
  ++ when (dep "@ionic/angular" || dep "@ionic/react" || dep "@ionic/vue")
          (mkIndicator dependency "ionic" (Double.fl (9 # 10)) mobile)
  ++ when (dep "@capacitor/core") (mkIndicator dependency "@capacitor/core" (Double.fl (85 # 100)) mobile)
  ++ when (dep "lerna" || dep "nx" || dep "turbo")
          (mkIndicator dependency "monorepo-tool" (Double.fl (9 # 10)) monorepo).

(** [checkPythonDependencies] *)
Definition checkPythonDependencies (requirements : string) : list TypeIndicator :=
  let deps := toLowerCase requirements in
  when (includes deps "django") (mkIndicator dependency "django" (Double.fl (9 # 10)) backend)
  ++ when (includes deps "flask") (mkIndicator dependency "flask" (Double.fl (85 # 100)) backend)
  ++ when (includes deps "fastapi") (mkIndicator dependency "fastapi" (Double.fl (9 # 10)) backend)
  ++ when (includes deps "kivy" || includes deps "beeware")
          (mkIndicator dependency "python-mobile" (Double.fl (8 # 10)) mobile).

(** [checkGoDependencies] *)
Definition checkGoDependencies (goMod : string) : list TypeIndicator :=
  when (includes goMod "github.com/gin-gonic/gin") (mkIndicator dependency "gin" (Double.fl (9 # 10)) backend)
  ++ when (includes goMod "github.com/gofiber/fiber") (mkIndicator dependency "fiber" (Double.fl (9 # 10)) backend)
  ++ when (includes goMod "github.com/labstack/echo") (mkIndicator dependency "echo" (Double.fl (9 # 10)) backend).

(** [checkRustDependencies] *)
Definition checkRustDependencies (cargoToml : string) : list TypeIndicator :=
  when (includes cargoToml "actix-web") (mkIndicator dependency "actix-web" (Double.fl (9 # 10)) backend)
  ++ when (includes cargoToml "rocket") (mkIndicator dependency "rocket" (Double.fl (9 # 10)) backend)
  ++ when (includes cargoToml "tauri") (mkIndicator dependency "tauri" (Double.fl (85 # 100)) frontend).

(** A manifest that is read but empty is skipped ([if (requirements)]). *)
Definition whenRead (content : option string) (check : string -> list TypeIndicator)
  : list TypeIndicator :=
  match content with
  | Some (String c s) => check (String c s)
  | _ => []
  end.

(** [detectFromDependencies] *)
Definition detectFromDependencies (m : Manifests) : list TypeIndicator :=
  match packageJson m with
  | Some pkg =>
      (* [{...dependencies, ...devDependencies}]: the keys of both *)
      checkDependencies (dependencies pkg ++ devDependencies pkg)
      ++ when (pkg_main pkg || pkg_exports pkg || pkg_types pkg)
              (mkIndicator pattern "Library exports" (Double.fl (6 # 10)) library)
  | None => []
  end
  ++ whenRead (requirements_txt m) checkPythonDependencies
  ++ whenRead (go_mod m) checkGoDependencies
  ++ whenRead (cargo_toml m) checkRustDependencies.

(** [detectFromStructure] *)
Definition detectFromStructure (structure_ : DirectoryStructure) : list TypeIndicator :=
  match ds_children structure_ with
  | None => []
  | Some children =>
      let topLevelDirs :=
        map (fun c => toLowerCase (ds_name c))
            (filter (fun c => match ds_type c with is_directory => true | is_file => false end)
                    children) in
      let dir := has topLevelDirs in
      when (dir "packages" || dir "apps")
           (mkIndicator structure "monorepo-structure" (Double.fl (7 # 10)) monorepo)
      ++ when (dir "terraform" || dir "infrastructure")
              (mkIndicator structure "infra-directory" (Double.fl (8 # 10)) infra_as_code)
      ++ when (dir "ios" && dir "android")
              (mkIndicator structure "mobile-platforms" (Double.fl (9 # 10)) mobile)
      ++ when (dir "components" || dir "pages")
              (mkIndicator structure "frontend-structure" (Double.fl (5 # 10)) frontend)
      ++ when (dir "controllers" || dir "routes" || dir "api")
              (mkIndicator structure "backend-structure" (Double.fl (5 # 10)) backend)
      ++ when ((dir "lib" || dir "src")
               && ((dir "test" || dir "tests") && dir "examples"))
              (mkIndicator structure "library-structure" (Double.fl (6 # 10)) library)
  end.

(** A [Record<RepositoryType, number>]. *)
Definition Scores := RepositoryType -> Q.

(** [scores[t] += x] *)
Definition addScore (scores : Scores) (t : RepositoryType) (x : Q) : Scores :=
  fun u => if RepositoryType_eqb u t then Double.add (scores u) x else scores u.

(** The loop of [calculateTypeScores] that sums the weighted confidences. *)
Definition rawScores (inds : list TypeIndicator) : Scores :=
  fold_left
    (fun scores indicator =>
       let weight := DETECTION_WEIGHTS (ind_type indicator) in
       let score := Double.mul (confidence indicator) weight in
       addScore scores (suggestedType indicator) score)
    inds (fun _ => 0).

(** [Math.max(...Object.values(scores), 0.01)] *)
Definition maxScore (scores : Scores) : Q :=
  fold_right Qmax (Double.fl (1 # 100)) (map scores type_keys).

(** [calculateTypeScores] *)
Definition calculateTypeScores (inds : list TypeIndicator) : Scores :=
  let scores := rawScores inds in
  let m := maxScore scores in
  fun t => Double.div (scores t) m.

(** [x > y] on numbers. *)
Definition gt (x y : Q) : bool :=
  match Qlt_le_dec y x with left _ => true | right _ => false end.

(** The comparison function of the sort in [detect]: the difference of
    the scores, replaced by the difference of the priorities when the
    scores are less than 0.1 apart. *)
Definition compareTypes (a b : RepositoryType * Q) : Q :=
  let scoreDiff := Double.sub (snd b) (snd a) in
  if Qlt_le_dec (Qabs scoreDiff) (Double.fl (1 # 10))
  then inject_Z (TYPE_PRIORITY (fst b) - TYPE_PRIORITY (fst a))
  else scoreDiff.

(** [Object.entries(typeScores).filter(...).sort(...)] *)
Definition sortedTypes (typeScores : Scores) : list (RepositoryType * Q) :=
  JsArray.sort compareTypes
    (filter (fun e => gt (snd e) 0) (map (fun t => (t, typeScores t)) type_keys)).

(** The part of [detect] after the indicators are collected. *)
Definition classify (inds : list TypeIndicator) : Classification :=
  let typeScores := calculateTypeScores inds in
  let sorted := sortedTypes typeScores in
  let primary := match sorted with e :: _ => fst e | [] => unknown end in
  let conf := match sorted with e :: _ => snd e | [] => 0 end in
  {| primaryType := primary;
     res_confidence := Qmin conf 1;
     indicators := filter (fun i => gt (confidence i) (Double.fl (3 # 10))) inds |}.

(** The indicators [detect] collects, in the order they are pushed. *)
Definition collectIndicators (files : list FileInfo) (m : Manifests)
    (directoryStructure : DirectoryStructure) : list TypeIndicator :=
  detectFromFiles files ++ detectFromDependencies m ++ detectFromStructure directoryStructure.

(** [TECH_STACK_PATTERNS]: for each technology, file patterns and
    dependency names. *)
Definition TECH_STACK_PATTERNS : list (string * (list string * list string)) :=
  [("typescript", (["tsconfig.json"; "*.ts"; "*.tsx"], []));
   ("javascript", (["*.js"; "*.jsx"; ".eslintrc.js"], []));
   ("python", (["*.py"; "requirements.txt"; "setup.py"; "pyproject.toml"], []));
   ("java", (["*.java"; "pom.xml"; "build.gradle"], []));
   ("go", (["*.go"; "go.mod"; "go.sum"], []));
   ("rust", (["*.rs"; "Cargo.toml"], []));
   ("csharp", (["*.cs"; "*.csproj"; "*.sln"], []));
   ("ruby", (["*.rb"; "Gemfile"], []));
   ("php", (["*.php"; "composer.json"], []));
   ("swift", (["*.swift"; "Package.swift"], []));
   ("kotlin", (["*.kt"; "build.gradle.kts"], []));
   ("express", ([], ["express"]));
   ("nestjs", ([], ["@nestjs/core"]));
   ("fastify", ([], ["fastify"]));
   ("django", (["manage.py"; "settings.py"], []));
   ("flask", ([], ["flask"]));
   ("fastapi", ([], ["fastapi"]));
   ("spring", (["pom.xml"], ["spring-boot"]));
   ("rails", (["Gemfile"], ["rails"]));
   ("laravel", (["artisan"; "composer.json"], []));
   ("gin", ([], ["github.com/gin-gonic/gin"]));
   ("actix", ([], ["actix-web"]));
   ("react", ([], ["react"; "react-dom"]));
   ("vue", ([], ["vue"]));
   ("angular", (["angular.json"], ["@angular/core"]));
   ("svelte", ([], ["svelte"]));
   ("nextjs", ([], ["next"]));
   ("nuxt", ([], ["nuxt"]));
   ("remix", ([], ["@remix-run/react"]));
   ("gatsby", ([], ["gatsby"]));
   ("react-native", ([], ["react-native"]));
   ("flutter", (["pubspec.yaml"], []));
   ("swiftui", (["*.swift"], []));
   ("jetpack-compose", (["build.gradle.kts"], []));
   ("ionic", ([], ["@ionic/angular"; "@ionic/react"; "@ionic/vue"]));
   ("capacitor", ([], ["@capacitor/core"]));
   ("postgresql", ([], ["pg"; "psycopg2"; "postgres"]));
   ("mysql", ([], ["mysql"; "mysql2"; "pymysql"]));
   ("mongodb", ([], ["mongodb"; "mongoose"; "pymongo"]));
   ("redis", ([], ["redis"; "ioredis"]));
   ("elasticsearch", ([], ["@elastic/elasticsearch"; "elasticsearch"]));
   ("neo4j", ([], ["neo4j-driver"]));
   ("dynamodb", ([], ["@aws-sdk/client-dynamodb"]));
   ("sqlite", ([], ["sqlite3"; "better-sqlite3"]));
   ("docker", (["Dockerfile"; "docker-compose.yml"], []));
   ("kubernetes", (["*.yaml"; "k8s/"; "kubernetes/"], []));
   ("terraform", (["*.tf"; "main.tf"], []));
   ("pulumi", (["Pulumi.yaml"], []));
   ("ansible", (["ansible/"; "playbook.yml"], []));
   ("helm", (["Chart.yaml"; "values.yaml"], []));
   ("aws", (["serverless.yml"; "sam.yaml"], ["@aws-sdk/core"; "boto3"]));
   ("gcp", (["app.yaml"], ["@google-cloud/core"]));
   ("azure", ([], ["@azure/core-rest-pipeline"]));
   ("vercel", (["vercel.json"], []));
   ("netlify", (["netlify.toml"], []));
   ("cloudflare", (["wrangler.toml"], []));
   ("jest", ([], ["jest"]));
   ("vitest", ([], ["vitest"]));
   ("pytest", ([], ["pytest"]));
   ("junit", ([], ["junit"]));
   ("mocha", ([], ["mocha"]));
   ("cypress", ([], ["cypress"]));
   ("playwright", ([], ["@playwright/test"]));
   ("graphql", (["*.graphql"; "*.gql"], ["graphql"; "apollo-server"]));
   ("rest", (["openapi.yaml"; "swagger.json"], []));
   ("grpc", (["*.proto"], ["@grpc/grpc-js"]));
   ("websocket", ([], ["ws"; "socket.io"]));
   ("openapi", (["openapi.yaml"; "openapi.json"; "swagger.yaml"], []))].

(** [detected.add(tech)] on a [Set], kept in insertion order. *)
Definition addTo (detected : list string) (tech : string) : list string :=
  if has detected tech then detected else detected ++ [tech].

Definition isDependency (k : IndicatorKind) : bool :=
  match k with dependency => true | _ => false end.

(** [detectTechStack] *)
Definition detectTechStack (files : list FileInfo) (m : Manifests)
    (inds : list TypeIndicator) : list string :=
  let fileExtensions := map extension files in
  let fileNames := map (fun f => toLowerCase (name f)) files in
  let byFilesAndIndicators :=
    fold_left
      (fun detected entry =>
         let '(tech, (filePatterns, depPatterns)) := entry in
         let fromFiles :=
           existsb (fun filePattern =>
                      if startsWith filePattern "*."
                      then has fileExtensions (drop 1 filePattern)
                      else has fileNames (toLowerCase filePattern))
                   filePatterns in
         let fromIndicators :=
           existsb (fun dep =>
                      existsb (fun i => isDependency (ind_type i)
                                        && includes (toLowerCase (ind_name i))
                                                    (toLowerCase dep))
                              inds)
                   depPatterns in
         if fromFiles || fromIndicators then addTo detected tech else detected)
      TECH_STACK_PATTERNS [] in
  match packageJson m with
  | Some pkg =>
      let allDeps := dependencies pkg ++ devDependencies pkg in
      fold_left
        (fun detected entry =>
           let '(tech, (_, depPatterns)) := entry in
           if existsb (fun dep =>
                         existsb (fun d => String.eqb (toLowerCase d) (toLowerCase dep))
                                 allDeps)
                      depPatterns
           then addTo detected tech else detected)
        TECH_STACK_PATTERNS byFilesAndIndicators
  | None => byFilesAndIndicators
  end.

Definition isDirectory (c : DirectoryStructure) : bool :=
  match ds_type c with is_directory => true | is_file => false end.

(** The directories [detectMonorepoSubTypes] looks into: the children
    that are directories of the first child named [dir]. *)
Definition packagesUnder (structure_ : DirectoryStructure) (dir : string) : list string :=
  match ds_children structure_ with
  | None => []
  | Some children =>
      match find (fun c => isDirectory c && String.eqb (toLowerCase (ds_name c)) dir)
                 children with
      | Some dirPath =>
          match ds_children dirPath with
          | Some subDirs => map ds_name (filter isDirectory subDirs)
          | None => []
          end
      | None => []
      end
  end.

Definition addType (l : list RepositoryType) (t : RepositoryType) : list RepositoryType :=
  if existsb (RepositoryType_eqb t) l then l else l ++ [t].

Definition unreadable : DirectoryStructure :=
  {| ds_path := EmptyString; ds_name := EmptyString; ds_type := is_directory;
     ds_children := None |}.

(** [detect], with [detectMonorepoSubTypes] calling it on every package
    directory of a repository classified as a monorepo.  [here] is what
    the repository manager reads under [localPath]. *)
Fixpoint detect (here : Checkout) (directoryStructure : DirectoryStructure)
    (files : list FileInfo) {struct here} : TypeDetectionResult :=
  let inds := collectIndicators files (manifests here) directoryStructure in
  let result := classify inds in
  {| classification := result;
     techStack := detectTechStack files (manifests here) inds;
     subTypes :=
       match primaryType result with
       | monorepo =>
           Some
             (fold_left
                (fun found dir =>
                   fold_left
                     (fun found subDir =>
                        let sub :=
                          match subdirectory here dir subDir with
                          | Some there =>
                              detect there (getDirectoryStructure there) (getFiles there)
                          | None =>
                              {| classification := classify (collectIndicators []
                                   {| packageJson := None; requirements_txt := None;
                                      go_mod := None; cargo_toml := None |} unreadable);
                                 techStack := []; subTypes := None |}
                          end in
                        match primaryType (classification sub) with
                        | unknown | monorepo => found
                        | t => addType found t
                        end)
                     (packagesUnder directoryStructure dir) found)
                ["packages"; "apps"; "libs"; "modules"] [])
       | _ => None
       end |}.

(** *** Facts about the comparison and the scores *)

Lemma gt_true x y : gt x y = true <-> y < x.
Proof.
  unfold gt. destruct (Qlt_le_dec y x) as [H|H]; split; intros H'; try easy.
  exfalso. apply (Qlt_not_le _ _ H'). exact H.
Qed.

Lemma negative_true q : JsArray.negative q = true <-> q < 0.
Proof.
  unfold JsArray.negative. destruct (Qlt_le_dec q 0) as [H|H]; split; intros H'; try easy.
  exfalso. apply (Qlt_not_le _ _ H'). exact H.
Qed.

Lemma negative_false q : JsArray.negative q = false <-> 0 <= q.
Proof.
  unfold JsArray.negative. destruct (Qlt_le_dec q 0) as [H|H]; split; intros H'; try easy.
  exfalso. apply (Qlt_not_le _ _ H). exact H'.
Qed.

Lemma fl_one : Double.fl 1 = 1.
Proof. vm_compute. reflexivity. Qed.

Lemma sub_swap x y : Double.sub x y == - Double.sub y x.
Proof.
  unfold Double.sub. rewrite <- Double.fl_opp.
  rewrite (Double.fl_comp (x - y) (- (y - x))); [reflexivity | ring].
Qed.

(** The comparison of [detect] is antisymmetric: swapping the arguments
    changes the sign.  It is not transitive. *)
Lemma compareTypes_antisym a b : compareTypes a b == - compareTypes b a.
Proof.
  unfold compareTypes. pose proof (sub_swap (snd b) (snd a)) as E.
  assert (Eabs : Qabs (Double.sub (snd b) (snd a)) == Qabs (Double.sub (snd a) (snd b)))
    by (rewrite E; apply Qabs_opp).
  destruct (Qlt_le_dec (Qabs (Double.sub (snd b) (snd a))) (Double.fl (1 # 10))) as [H1|H1];
    destruct (Qlt_le_dec (Qabs (Double.sub (snd a) (snd b))) (Double.fl (1 # 10))) as [H2|H2].
  - rewrite <- inject_Z_opp. apply inject_Z_injective. lia.
  - exfalso. lra.
  - exfalso. lra.
  - exact E.
Qed.

Lemma compareTypes_asymmetric a b :
  JsArray.negative (compareTypes a b) = true -> JsArray.negative (compareTypes b a) = false.
Proof.
  rewrite negative_true, negative_false. pose proof (compareTypes_antisym a b). lra.
Qed.

Lemma DETECTION_WEIGHTS_pos k : 0 < DETECTION_WEIGHTS k.
Proof. destruct k; vm_compute; reflexivity. Qed.

Lemma addScore_nonneg scores t x :
  (forall u, 0 <= scores u) -> 0 <= x -> forall u, 0 <= addScore scores t x u.
Proof.
  intros Hs Hx u. unfold addScore. specialize (Hs u).
  destruct (RepositoryType_eqb u t); [|exact Hs].
  apply Double.fl_nonneg. lra.
Qed.

Lemma rawScores_nonneg inds :
  (forall i, In i inds -> 0 <= confidence i) -> forall t, 0 <= rawScores inds t.
Proof.
  unfold rawScores. intros Hinds.
  assert (Hgen : forall init : Scores, (forall u, 0 <= init u) ->
            forall t, 0 <= fold_left
              (fun scores indicator =>
                 addScore scores (suggestedType indicator)
                          (Double.mul (confidence indicator)
                                      (DETECTION_WEIGHTS (ind_type indicator))))
              inds init t).
  { induction inds as [|i inds IH]; intros init Hinit t; simpl; [apply Hinit|].
    apply IH.
    - intros j Hj. apply Hinds. right. exact Hj.
    - apply addScore_nonneg; [exact Hinit|].
      apply Double.fl_nonneg.
      apply Qmult_le_0_compat; [apply Hinds; left; reflexivity|].
      apply Qlt_le_weak, DETECTION_WEIGHTS_pos. }
  apply Hgen. intros u. apply Qle_refl.
Qed.

Lemma type_keys_complete t : In t type_keys.
Proof. destruct t; simpl; tauto. Qed.

Lemma floor_above : 1 # 100 < Double.fl (1 # 100).
Proof. vm_compute. reflexivity. Qed.

Lemma maxScore_floor scores : Double.fl (1 # 100) <= maxScore scores.
Proof.
  unfold maxScore. induction (map scores type_keys) as [|x l IH]; simpl.
  - apply Qle_refl.
  - eapply Qle_trans; [exact IH | apply Q.le_max_r].
Qed.

Lemma maxScore_pos scores : 0 < maxScore scores.
Proof. pose proof (maxScore_floor scores). pose proof floor_above. lra. Qed.

Lemma maxScore_upper scores t : scores t <= maxScore scores.
Proof.
  unfold maxScore.
  assert (Hin : In (scores t) (map scores type_keys))
    by (apply in_map, type_keys_complete).
  induction (map scores type_keys) as [|x l IH]; [destruct Hin|].
  simpl. destruct Hin as [->|Hin].
  - apply Q.le_max_l.
  - eapply Qle_trans; [exact (IH Hin) | apply Q.le_max_r].
Qed.

Lemma calculateTypeScores_range inds t :
  (forall i, In i inds -> 0 <= confidence i) ->
  0 <= calculateTypeScores inds t <= 1.
Proof.
  intros Hinds. unfold calculateTypeScores, Double.div.
  pose proof (rawScores_nonneg inds Hinds t) as H0.
  pose proof (maxScore_pos (rawScores inds)) as Hpos.
  pose proof (maxScore_upper (rawScores inds) t) as Hup.
  split.
  - apply Double.fl_nonneg. apply Qle_shift_div_l; [exact Hpos | lra].
  - rewrite <- fl_one. apply Double.fl_monotone.
    apply Qle_shift_div_r; [exact Hpos | lra].
Qed.

(** The entries that survive the filter of [detect]. *)
Definition candidates (typeScores : Scores) : list (RepositoryType * Q) :=
  filter (fun e => gt (snd e) 0) (map (fun t => (t, typeScores t)) type_keys).

Lemma in_candidates typeScores e :
  In e (candidates typeScores) <-> e = (fst e, typeScores (fst e)) /\ 0 < typeScores (fst e).
Proof.
  unfold candidates. rewrite filter_In, gt_true. split.
  - intros [Hin Hpos]. apply in_map_iff in Hin. destruct Hin as [t [<- _]].
    simpl in *. auto.
  - intros [E Hpos]. split.
    + apply in_map_iff. exists (fst e). split; [now symmetry | apply type_keys_complete].
    + rewrite E. exact Hpos.
Qed.

Lemma sortedTypes_in typeScores e :
  In e (sortedTypes typeScores) <-> In e (candidates typeScores).
Proof.
  unfold sortedTypes. fold (candidates typeScores).
  pose proof (JsArray.sort_permutation compareTypes (candidates typeScores)) as H.
  split; apply Permutation_in; [exact H | symmetry; exact H].
Qed.

Lemma sortedTypes_empty typeScores :
  (forall t, typeScores t == 0) -> sortedTypes typeScores = [].
Proof.
  intros Hzero. destruct (sortedTypes typeScores) as [|e l] eqn:E; [reflexivity|].
  assert (Hin : In e (sortedTypes typeScores)) by (rewrite E; left; reflexivity).
  apply sortedTypes_in, in_candidates in Hin. destruct Hin as [_ Hpos].
  rewrite Hzero in Hpos. discriminate.
Qed.

Lemma sortedTypes_nonempty typeScores t :
  0 < typeScores t ->
  exists e l, sortedTypes typeScores = e :: l
              /\ snd e = typeScores (fst e) /\ 0 < typeScores (fst e).
Proof.
  intros Hpos.
  assert (Hin : In (t, typeScores t) (sortedTypes typeScores))
    by (apply sortedTypes_in, in_candidates; simpl; auto).
  destruct (sortedTypes typeScores) as [|e l] eqn:E; [destruct Hin|].
  exists e, l. split; [reflexivity|].
  assert (He : In e (sortedTypes typeScores)) by (rewrite E; left; reflexivity).
  apply sortedTypes_in, in_candidates in He. destruct He as [Ee Hp].
  split; [rewrite Ee at 1; reflexivity | exact Hp].
Qed.

(** Every indicator [detect] collects carries one of the confidence
    constants of the source, all between 0.5 and 0.95. *)
Lemma when_confidence b i j : In j (when b i) -> confidence j = confidence i.
Proof. destruct b; simpl; [intros [<-|[]]; reflexivity | intros []]. Qed.

Ltac constant_range := vm_compute; split; intros Hgt; discriminate Hgt.

Ltac indicator_range :=
  repeat match goal with
         | H : In _ (_ ++ _) |- _ => apply in_app_or in H; destruct H as [H|H]
         | H : In _ (when _ _) |- _ =>
             apply when_confidence in H; rewrite H; constant_range
         | H : In _ [] |- _ => destruct H
         end.

Lemma detectPattern_confidence fileNames filePaths t pat i :
  In i (detectPattern fileNames filePaths t pat) -> 1 # 2 <= confidence i <= 1.
Proof.
  unfold detectPattern.
  destruct (has fileNames _); [intros [<-|[]]; constant_range|].
  destruct (endsWith pat "/"); [|intros []].
  destruct (find _ filePaths); [intros [<-|[]]; constant_range | intros []].
Qed.

Lemma collectIndicators_confidence files m ds i :
  In i (collectIndicators files m ds) -> 1 # 2 <= confidence i <= 1.
Proof.
  unfold collectIndicators. intros H.
  apply in_app_or in H. destruct H as [H|H].
  - unfold detectFromFiles in H. apply in_flat_map in H. destruct H as [t [_ H]].
    apply in_flat_map in H. destruct H as [pat [_ H]].
    exact (detectPattern_confidence _ _ _ _ _ H).
  - apply in_app_or in H. destruct H as [H|H].
    + unfold detectFromDependencies in H.
      apply in_app_or in H. destruct H as [H|H].
      * destruct (packageJson m); [|destruct H].
        unfold checkDependencies in H. indicator_range.
      * unfold whenRead in H.
        apply in_app_or in H. destruct H as [H|H];
          [|apply in_app_or in H; destruct H as [H|H]].
        -- destruct (requirements_txt m) as [[|c r]|]; try destruct H.
           unfold checkPythonDependencies in H. indicator_range.
        -- destruct (go_mod m) as [[|c r]|]; try destruct H.
           unfold checkGoDependencies in H. indicator_range.
        -- destruct (cargo_toml m) as [[|c r]|]; try destruct H.
           unfold checkRustDependencies in H. indicator_range.
    + unfold detectFromStructure in H.
      destruct (ds_children ds); [|destruct H]. indicator_range.
Qed.

(** The classification [detect] returns is that of the indicators it
    collects. *)
Lemma detect_classification here ds files :
  classification (detect here ds files)
  = classify (collectIndicators files (manifests here) ds).
Proof. destruct here; reflexivity. Qed.

(** *** Scores and the selected type *)

(** C1.  For every list of indicators whose confidences are not negative,
    every normalized score lies between 0 and 1; when some score is
    positive exactly one type is the primary type, it is a type with a
    positive score and the confidence reported is its score; when every
    score is zero the result is [unknown] with confidence 0.  The
    classification is a total function: no input makes it fail. *)
Theorem classify_scores_and_primary (inds : list TypeIndicator) :
  (forall i, In i inds -> 0 <= confidence i) ->
  let scores := calculateTypeScores inds in
  let r := classify inds in
  (forall t, 0 <= scores t <= 1)
  /\ ((exists t, 0 < scores t) ->
      exists! t, primaryType r = t /\ 0 < scores t /\ res_confidence r == scores t)
  /\ ((forall t, scores t == 0) -> primaryType r = unknown /\ res_confidence r == 0).
Proof.
  intros Hinds scores r.
  assert (Hrange : forall t, 0 <= scores t <= 1)
    by (intros t; apply calculateTypeScores_range; exact Hinds).
  split; [exact Hrange|]. split.
  - intros [t Ht].
    destruct (sortedTypes_nonempty scores t Ht) as [e [l [E [Esnd Hpos]]]].
    exists (fst e). split.
    + subst r. unfold classify. fold scores. rewrite E. simpl.
      split; [reflexivity|]. split; [exact Hpos|].
      rewrite Esnd. apply Q.min_l. apply Hrange.
    + intros t' [<- _]. subst r. unfold classify. fold scores. rewrite E. reflexivity.
  - intros Hzero. subst r. unfold classify. fold scores.
    rewrite (sortedTypes_empty scores Hzero). simpl. split; [reflexivity|].
    apply Q.min_l. discriminate.
Qed.

Definition classify_scores_and_primary_input : list TypeIndicator :=
  [mkIndicator dependency "react" (Double.fl (8 # 10)) frontend;
   mkIndicator structure "frontend-structure" (Double.fl (5 # 10)) frontend;
   mkIndicator file "go.mod" (Double.fl (7 # 10)) backend].

Lemma classify_scores_and_primary_witness :
  (forall i, In i classify_scores_and_primary_input -> 0 <= confidence i)
  /\ (forall t, 0 <= calculateTypeScores classify_scores_and_primary_input t <= 1).
Proof.
  assert (H : forall i, In i classify_scores_and_primary_input -> 0 <= confidence i).
  { intros i [<-|[<-|[<-|[]]]]; vm_compute; discriminate. }
  split; [exact H|].
  exact (proj1 (classify_scores_and_primary classify_scores_and_primary_input H)).
Defined.

(** *** Scores less than 0.1 apart *)

(** The largest distance that the comparison of [detect] takes for less
    than 0.1: the middle between the binary64 written [0.1] and the one
    before it, about 0.1 - 1.4e-18. *)
Definition tenth : Q := 14411518807585587 # 144115188075855872.

Lemma tenth_below : tenth < 1 # 10.
Proof. reflexivity. Qed.

(** [Math.abs(y - x) < 0.1], as the runtime computes it, says that [x]
    and [y] are less than [tenth] apart. *)
Lemma within_tenth x y :
  Qabs (Double.sub y x) < Double.fl (1 # 10) <-> Qabs (y - x) < tenth.
Proof.
  unfold Double.sub. rewrite Double.fl_abs.
  generalize (Qabs_nonneg (y - x)). generalize (Qabs (y - x)). intros a Ha.
  split.
  - intros H. apply Qnot_le_lt. intros Hle.
    apply Double.fl_monotone in Hle.
    replace (Double.fl tenth) with (Double.fl (1 # 10)) in Hle by (vm_compute; reflexivity).
    lra.
  - intros H.
    assert (HF : 7205759403792793 # 72057594037927936 < Double.fl (1 # 10))
      by (vm_compute; reflexivity).
    destruct (Qlt_le_dec (7205759403792793 # 72057594037927936) a) as [Hlt | Hle].
    + assert (Hb : 2 ^ (-4) <= a < 2 ^ (-4 + 1)).
      { change (2 ^ (-4)) with (1 # 16). change (2 ^ (-4 + 1)) with (1 # 8).
        unfold tenth in H. split; lra. }
      rewrite (Double.fl_in_binade a (-4) Hb).
      change (2 ^ (-4 - 52)) with (1 # 72057594037927936).
      pose proof (Double.rne_near (a / (1 # 72057594037927936))) as [Hn _].
      assert (Hs : a / (1 # 72057594037927936) < inject_Z 7205759403792793 + (1 # 2)).
      { apply Qlt_shift_div_r; [reflexivity|]. unfold tenth in H.
        change (inject_Z 7205759403792793) with (7205759403792793 # 1). lra. }
      assert (Hr : (Double.rne (a / (1 # 72057594037927936)) <= 7205759403792793)%Z).
      { apply Z.lt_succ_r. rewrite Zlt_Qlt.
        change (inject_Z (Z.succ 7205759403792793)) with (inject_Z 7205759403792793 + 1).
        lra. }
      rewrite Zle_Qle in Hr.
      apply Qle_lt_trans with (inject_Z 7205759403792793 * (1 # 72057594037927936)).
      * apply Qmult_le_compat_r; [exact Hr | discriminate].
      * exact HF.
    + apply Double.fl_monotone in Hle.
      replace (Double.fl (7205759403792793 # 72057594037927936))
        with (7205759403792793 # 72057594037927936) in Hle by (vm_compute; reflexivity).
      lra.
Qed.

(** The pairwise rule of the comparison: [t] goes before [u] when the two
    scores are less than 0.1 apart, as the runtime computes it, and [t]
    has the higher priority, or when they are not and [t] has the higher
    score. *)
Definition preferred (scores : Scores) (t u : RepositoryType) : Prop :=
  if Qlt_le_dec (Qabs (Double.sub (scores u) (scores t))) (Double.fl (1 # 10))
  then (TYPE_PRIORITY u < TYPE_PRIORITY t)%Z
  else scores u < scores t.

Lemma preferred_compare scores t u :
  preferred scores t u <-> compareTypes (t, scores t) (u, scores u) < 0.
Proof.
  unfold preferred, compareTypes. cbn [fst snd].
  destruct (Qlt_le_dec (Qabs (Double.sub (scores u) (scores t))) (Double.fl (1 # 10)))
    as [_|_].
  - unfold Qlt, inject_Z. simpl. lia.
  - unfold Double.sub. split; intros H.
    + apply Double.fl_neg. lra.
    + apply Double.fl_neg_inv in H. lra.
Qed.

(** The rule in exact terms: the scores are binary64 numbers, and the
    test of the runtime compares their distance with [tenth]. *)
Lemma preferred_exact scores t u :
  preferred scores t u
  <-> (Qabs (scores u - scores t) < tenth /\ (TYPE_PRIORITY u < TYPE_PRIORITY t)%Z)
      \/ (tenth <= Qabs (scores u - scores t) /\ scores u < scores t).
Proof.
  unfold preferred. pose proof (within_tenth (scores t) (scores u)) as W.
  destruct (Qlt_le_dec (Qabs (Double.sub (scores u) (scores t))) (Double.fl (1 # 10)))
    as [H|H].
  - apply W in H. split; [intros Hp; left; split; assumption|].
    intros [[_ Hp]|[Hfar _]]; [exact Hp | exfalso; lra].
  - assert (Hfar : tenth <= Qabs (scores u - scores t)).
    { apply Qnot_lt_le. intros Hc. apply W in Hc. lra. }
    split; [intros Hs; right; split; assumption|].
    intros [[Hc _]|[_ Hs]]; [exfalso; lra | exact Hs].
Qed.

(** What the specification says of the primary type: it is preferred, by
    the pairwise rule, to every other type with a positive score. *)
Definition selectedByRule (inds : list TypeIndicator) : Prop :=
  let scores := calculateTypeScores inds in
  forall u, u <> primaryType (classify inds) -> 0 < scores u ->
            preferred scores (primaryType (classify inds)) u.

(** C2, as the code has it.  When some type with a positive score is
    preferred by the pairwise rule to every other type with a positive
    score, it is the primary type, and the confidence is its score (capped
    at 1).  The scores are the binary64 numbers that the runtime computes,
    and so is the test of the rule. *)
Theorem primary_is_preferred_type (inds : list TypeIndicator) (t : RepositoryType) :
  let scores := calculateTypeScores inds in
  0 < scores t ->
  (forall u, u <> t -> 0 < scores u -> preferred scores t u) ->
  primaryType (classify inds) = t
  /\ res_confidence (classify inds) = Qmin (scores t) 1.
Proof.
  intros scores Hpos Hpref.
  destruct (JsArray.sort_head compareTypes compareTypes_asymmetric
              (fun e => RepositoryType_eqb (fst e) t) (candidates scores))
    as [h [l [E Ph]]].
  - exists (t, scores t). split; [apply in_candidates; simpl; auto|].
    simpl. destruct t; reflexivity.
  - intros w u Hw Hu Pw Pu.
    apply in_candidates in Hw. destruct Hw as [Ew _].
    apply in_candidates in Hu. destruct Hu as [Eu Hu].
    assert (fst w = t) by (destruct (fst w), t; simpl in Pw; congruence).
    assert (fst u <> t) by (intros E'; rewrite E' in Pu; destruct t; discriminate).
    apply negative_true. rewrite Ew, Eu. subst t.
    apply preferred_compare. apply Hpref; assumption.
  - assert (Eh : h = (t, scores t)).
    { assert (Hin : In h (candidates scores)).
      { apply sortedTypes_in. unfold sortedTypes. fold (candidates scores).
        rewrite E. left. reflexivity. }
      apply in_candidates in Hin. destruct Hin as [Eh _].
      assert (fst h = t) by (destruct (fst h), t; simpl in Ph; congruence).
      rewrite Eh. subst t. reflexivity. }
    unfold classify. fold scores. unfold sortedTypes. fold (candidates scores).
    rewrite E, Eh. simpl. split; reflexivity.
Qed.

(** A tie: a [go.mod] and a [main.tf], both scored 1; the priority of
    infra-as-code decides. *)
Definition tie_indicators : list TypeIndicator :=
  [mkIndicator file "go.mod" (Double.fl (7 # 10)) backend;
   mkIndicator file "main.tf" (Double.fl (7 # 10)) infra_as_code].

Lemma primary_is_preferred_type_witness :
  primaryType (classify tie_indicators) = infra_as_code
  /\ res_confidence (classify tie_indicators)
     = Qmin (calculateTypeScores tie_indicators infra_as_code) 1.
Proof.
  apply (primary_is_preferred_type tie_indicators infra_as_code).
  - vm_compute. reflexivity.
  - intros u Hu Hpos. unfold preferred.
    destruct u; try (exfalso; apply Hu; reflexivity);
      try (vm_compute in Hpos; discriminate Hpos).
    vm_compute. reflexivity.
Defined.

(** A repository on which the pairwise rule runs in a circle: two files of
    a mobile project, a [lerna.json] next to a nested [packages/]
    directory, and two nested infrastructure directories. *)
Definition mkFile (n p : string) : FileInfo :=
  {| path := p; name := n; extension := EmptyString; size := 1 |}.

Definition noManifests : Manifests :=
  {| packageJson := None; requirements_txt := None; go_mod := None; cargo_toml := None |}.

Definition mkEntry (n : string) (k : EntryType) : DirectoryStructure :=
  {| ds_path := n; ds_name := n; ds_type := k; ds_children := None |}.

Definition mkRoot (children : list DirectoryStructure) : DirectoryStructure :=
  {| ds_path := "."; ds_name := "repo"; ds_type := is_directory;
     ds_children := Some children |}.

(** A clone without nested package directories. *)
Definition mkCheckout (m : Manifests) (files : list FileInfo) (ds : DirectoryStructure)
  : Checkout :=
  {| manifests := m; getFiles := files; getDirectoryStructure := ds;
     subdirectory := fun _ _ => None |}.

Definition circular_files : list FileInfo :=
  [mkFile "App.tsx" "App.tsx"; mkFile "Podfile" "Podfile";
   mkFile "lerna.json" "lerna.json"; mkFile "x.txt" "sub/packages/x.txt";
   mkFile "a.yaml" "sub/k8s/a.yaml"; mkFile "b.txt" "sub/helm/b.txt"].

Definition circular_tree : DirectoryStructure :=
  mkRoot [mkEntry "App.tsx" is_file; mkEntry "Podfile" is_file;
          mkEntry "lerna.json" is_file; mkEntry "sub" is_directory].

Definition circular_indicators : list TypeIndicator :=
  collectIndicators circular_files noManifests circular_tree.

(** The scores of this repository, as the runtime computes them: 1, about
    0.857 and about 0.929. *)
Lemma circular_scores :
  map (fun t => (t, calculateTypeScores circular_indicators t)) type_keys
  = [(backend, 0); (frontend, 0); (mobile, 1);
     (infra_as_code, 7720456504063707 # 9007199254740992);
     (library, 0); (monorepo, 4181913939701175 # 4503599627370496); (unknown, 0)].
Proof. vm_compute. reflexivity. Qed.

(** C2, as the specification states it, fails.  On the repository above
    mobile scores 1, monorepo about 13/14 and infra-as-code about 6/7:
    monorepo is preferred to mobile and infra-as-code to monorepo (less
    than 0.1 apart, higher priority), while mobile is preferred to
    infra-as-code (more than 0.1 above).  The type selected, mobile, is
    not preferred to monorepo; and no type is preferred to all the others,
    so that the rule determines no winner at all. *)
Lemma priority_rule_counterexample :
  primaryType (classification
                 (detect (mkCheckout noManifests circular_files circular_tree)
                         circular_tree circular_files)) = mobile
  /\ ~ selectedByRule circular_indicators
  /\ ~ (exists t, 0 < calculateTypeScores circular_indicators t
                  /\ forall u, u <> t -> 0 < calculateTypeScores circular_indicators u ->
                               preferred (calculateTypeScores circular_indicators) t u).
Proof.
  assert (Hcycle : forall t, 0 < calculateTypeScores circular_indicators t ->
            exists u, u <> t /\ 0 < calculateTypeScores circular_indicators u
                      /\ ~ preferred (calculateTypeScores circular_indicators) t u).
  { intros t Ht.
    destruct t; try (vm_compute in Ht; discriminate Ht).
    - exists monorepo. split; [discriminate|]. split; [vm_compute; reflexivity|].
      vm_compute. intros H. discriminate H.
    - exists mobile. split; [discriminate|]. split; [vm_compute; reflexivity|].
      vm_compute. intros H. discriminate H.
    - exists infra_as_code. split; [discriminate|]. split; [vm_compute; reflexivity|].
      vm_compute. intros H. discriminate H. }
  assert (Hmob : primaryType (classify circular_indicators) = mobile)
    by (vm_compute; reflexivity).
  split; [rewrite detect_classification; exact Hmob|]. split.
  - intros Hsel. unfold selectedByRule in Hsel. rewrite Hmob in Hsel.
    destruct (Hcycle mobile) as [u [Hu [Hpos Hnot]]]; [vm_compute; reflexivity|].
    apply Hnot, Hsel; assumption.
  - intros [t [Ht Hall]]. destruct (Hcycle t Ht) as [u [Hu [Hpos Hnot]]].
    apply Hnot, Hall; assumption.
Qed.

(** Where the rounding decides.  A [package.json] that depends on [next],
    a [next.config.js], and three files of a mobile project: frontend is
    scored 0.7 and mobile 0.63 before the normalization, 1 and 0.9 in
    exact terms, which are not less than 0.1 apart.  The runtime scores
    mobile a little above 0.9 and finds the two less than 0.1 apart, so
    that the priority of mobile decides. *)
Definition boundary_files : list FileInfo :=
  [mkFile "package.json" "package.json"; mkFile "next.config.js" "next.config.js";
   mkFile "pubspec.yaml" "pubspec.yaml"; mkFile "Podfile" "Podfile";
   mkFile "capacitor.config.json" "capacitor.config.json"].

Definition boundary_manifests : Manifests :=
  {| packageJson := Some {| dependencies := ["next"]; devDependencies := [];
                            pkg_main := false; pkg_exports := false; pkg_types := false |};
     requirements_txt := None; go_mod := None; cargo_toml := None |}.

Lemma rounding_decides :
  let here := mkCheckout boundary_manifests boundary_files (mkRoot []) in
  let inds := collectIndicators boundary_files boundary_manifests (mkRoot []) in
  calculateTypeScores inds frontend = 1
  /\ calculateTypeScores inds mobile = 8106479329266893 # 9007199254740992
  /\ 9 # 10 < calculateTypeScores inds mobile
  /\ preferred (calculateTypeScores inds) mobile frontend
  /\ primaryType (classification (detect here (mkRoot []) boundary_files)) = mobile.
Proof.
  cbv zeta. split; [vm_compute; reflexivity|]. split; [vm_compute; reflexivity|].
  split; [vm_compute; reflexivity|]. split; [vm_compute; reflexivity|].
  rewrite detect_classification. vm_compute. reflexivity.
Qed.

(** *** A repository with a [main.tf] *)

(** Some file is called [n], whatever the case of its letters. *)
Definition named (files : list FileInfo) (n : string) : bool :=
  has (map (fun f => toLowerCase (name f)) files) n.

Lemma when_name b i j : In j (when b i) -> ind_name j = ind_name i.
Proof. destruct b; simpl; [intros [<-|[]]; reflexivity | intros []]. Qed.

Ltac other_name :=
  repeat match goal with
         | H : In _ (_ ++ _) |- _ => apply in_app_or in H; destruct H as [H|H]
         | H : In _ (when _ _) |- _ => apply when_name in H; rewrite H; discriminate
         | H : In _ [] |- _ => destruct H
         end.

(** No indicator read from a manifest or from the directories is called
    [main.tf]. *)
Lemma detectFromDependencies_name m i :
  In i (detectFromDependencies m) -> ind_name i <> "main.tf".
Proof.
  unfold detectFromDependencies. intros H.
  apply in_app_or in H. destruct H as [H|H].
  - destruct (packageJson m); [|destruct H].
    unfold checkDependencies in H. other_name.
  - unfold whenRead in H.
    apply in_app_or in H. destruct H as [H|H];
      [|apply in_app_or in H; destruct H as [H|H]].
    + destruct (requirements_txt m) as [[|c r]|]; try destruct H.
      unfold checkPythonDependencies in H. other_name.
    + destruct (go_mod m) as [[|c r]|]; try destruct H.
      unfold checkGoDependencies in H. other_name.
    + destruct (cargo_toml m) as [[|c r]|]; try destruct H.
      unfold checkRustDependencies in H. other_name.
Qed.

Lemma detectFromStructure_name ds i :
  In i (detectFromStructure ds) -> ind_name i <> "main.tf".
Proof.
  unfold detectFromStructure. intros H.
  destruct (ds_children ds); [|destruct H]. other_name.
Qed.

Lemma detectPattern_name fileNames filePaths t pat i :
  In i (detectPattern fileNames filePaths t pat) -> ind_name i = pat.
Proof.
  unfold detectPattern.
  destruct (has fileNames _); [intros [<-|[]]; reflexivity|].
  destruct (endsWith pat "/"); [|intros []].
  destruct (find _ filePaths); [intros [<-|[]]; reflexivity | intros []].
Qed.

Lemma nothing_in {A} (l : list A) : (forall x, ~ In x l) -> l = [].
Proof. destruct l as [|x l]; [reflexivity|]. intros H. elim (H x). left. reflexivity. Qed.

(** What [detect] collects when a file is called [main.tf] and nothing
    else gives an indicator. *)
Lemma main_tf_indicators files m ds :
  named files "main.tf" = true ->
  (forall i, In i (collectIndicators files m ds) -> ind_name i = "main.tf") ->
  collectIndicators files m ds
  = [mkIndicator file "main.tf" (Double.fl (7 # 10)) infra_as_code].
Proof.
  unfold named. intros Hnamed Honly.
  assert (Hdeps : detectFromDependencies m = []).
  { apply nothing_in. intros i Hi. apply (detectFromDependencies_name m i Hi).
    apply Honly. unfold collectIndicators. apply in_or_app. right.
    apply in_or_app. left. exact Hi. }
  assert (Hstruct : detectFromStructure ds = []).
  { apply nothing_in. intros i Hi. apply (detectFromStructure_name ds i Hi).
    apply Honly. unfold collectIndicators. apply in_or_app. right.
    apply in_or_app. right. exact Hi. }
  assert (Hother : forall t pat, In pat (TYPE_DETECTION_PATTERNS t) -> pat <> "main.tf" ->
            detectPattern (map (fun f => toLowerCase (name f)) files)
                          (map (fun f => toLowerCase (path f)) files) t pat = []).
  { intros t pat Hpat Hne. apply nothing_in. intros i Hi. apply Hne.
    rewrite <- (detectPattern_name _ _ _ _ _ Hi). apply Honly.
    unfold collectIndicators. apply in_or_app. left.
    unfold detectFromFiles. apply in_flat_map. exists t.
    split; [apply type_keys_complete|]. apply in_flat_map. exists pat.
    split; [exact Hpat | exact Hi]. }
  unfold collectIndicators. rewrite Hdeps, Hstruct, !app_nil_r.
  unfold detectFromFiles.
  set (fileNames := map (fun f => toLowerCase (name f)) files) in *.
  set (filePaths := map (fun f => toLowerCase (path f)) files) in *.
  assert (Hnone : forall t, t <> infra_as_code ->
            flat_map (detectPattern fileNames filePaths t) (TYPE_DETECTION_PATTERNS t) = []).
  { intros t Ht. apply nothing_in. intros i Hi. apply in_flat_map in Hi.
    destruct Hi as (pat & Hpat & Hi). rewrite (Hother t pat Hpat) in Hi; [destruct Hi|].
    intros ->. destruct t; try (elim Ht; reflexivity);
      cbn in Hpat; repeat (destruct Hpat as [Hpat|Hpat]; [discriminate Hpat|]); destruct Hpat. }
  assert (Hinfra : flat_map (detectPattern fileNames filePaths infra_as_code)
                             (TYPE_DETECTION_PATTERNS infra_as_code)
                    = detectPattern fileNames filePaths infra_as_code "main.tf").
  { change (TYPE_DETECTION_PATTERNS infra_as_code)
      with ("main.tf" :: List.tl (TYPE_DETECTION_PATTERNS infra_as_code)).
    cbn [flat_map]. rewrite (nothing_in (flat_map _ _)); [apply app_nil_r|].
    intros i Hi. apply in_flat_map in Hi. destruct Hi as (pat & Hpat & Hi).
    rewrite (Hother infra_as_code pat) in Hi; [destruct Hi | right; exact Hpat|].
    cbn in Hpat. repeat (destruct Hpat as [<-|Hpat]; [discriminate|]). destruct Hpat. }
  unfold type_keys. cbn [flat_map].
  rewrite Hinfra, !Hnone by discriminate. cbn [app]. rewrite app_nil_r.
  unfold detectPattern.
  change (removeFirst "/" (toLowerCase "main.tf")) with "main.tf".
  rewrite Hnamed. reflexivity.
Qed.

(** C9.  A repository in which some file is called [main.tf], and in which
    neither the files, nor the manifests, nor the directories give any
    other indicator, is classified infra-as-code with confidence 1, the
    highest value there is; the one indicator found is reported. *)
Theorem main_tf_only (here : Checkout) (files : list FileInfo) (ds : DirectoryStructure) :
  named files "main.tf" = true ->
  (forall i, In i (collectIndicators files (manifests here) ds) -> ind_name i = "main.tf") ->
  let r := classification (detect here ds files) in
  primaryType r = infra_as_code
  /\ res_confidence r == 1
  /\ indicators r = [mkIndicator file "main.tf" (Double.fl (7 # 10)) infra_as_code].
Proof.
  intros Hnamed Honly r. subst r.
  rewrite detect_classification, (main_tf_indicators _ _ _ Hnamed Honly).
  vm_compute. repeat split; reflexivity.
Qed.

(** A repository with a README and a [main.tf] in a directory of its
    own. *)
Definition main_tf_files : list FileInfo :=
  [mkFile "README.md" "README.md"; mkFile "main.tf" "infra/main.tf"].

Definition main_tf_repository : Checkout :=
  mkCheckout noManifests main_tf_files
             (mkRoot [mkEntry "README.md" is_file; mkEntry "infra" is_directory]).

Lemma main_tf_only_witness :
  primaryType (classification
                 (detect main_tf_repository (getDirectoryStructure main_tf_repository)
                         (getFiles main_tf_repository))) = infra_as_code
  /\ res_confidence (classification
                       (detect main_tf_repository (getDirectoryStructure main_tf_repository)
                               (getFiles main_tf_repository))) == 1.
Proof.
  destruct (main_tf_only main_tf_repository (getFiles main_tf_repository)
                         (getDirectoryStructure main_tf_repository))
    as [Hp [Hc _]].
  - reflexivity.
  - vm_compute. intros i [<- | []]. reflexivity.
  - split; [exact Hp | exact Hc].
Defined.

(** *** The indicators reported *)

(** A binary64 exceeds the binary64 written [0.3] exactly when it exceeds
    3/10: the former lies just below 3/10, and no binary64 lies between
    the two. *)
Lemma exceeds_three_tenths c :
  Double.representable c -> (Double.fl (3 # 10) < c <-> 3 # 10 < c).
Proof.
  intros Hc.
  assert (E : Double.fl (3 # 10) = 5404319552844595 # 18014398509481984)
    by (vm_compute; reflexivity).
  rewrite E. split; [|intros H; lra]. intros H.
  assert (Hq : 2 ^ (-2) <= c) by (change (2 ^ (-2)) with (1 # 4); lra).
  destruct (Double.representable_grid c (-2) Hc Hq) as [n En].
  change (2 ^ (-2 - 52)) with (1 # 18014398509481984) in En.
  rewrite En in H |- *.
  assert (Hn : inject_Z 5404319552844595 < inject_Z n).
  { change (inject_Z 5404319552844595) with (5404319552844595 # 1). lra. }
  rewrite <- Zlt_Qlt in Hn.
  assert (Hn' : (5404319552844596 <= n)%Z) by lia.
  rewrite Zle_Qle in Hn'.
  change (inject_Z 5404319552844596) with (5404319552844596 # 1) in Hn'. lra.
Qed.

(** C10.  The indicators of the result are the collected indicators whose
    confidence exceeds 0.3, in the order they were collected: an indicator
    of confidence 0.3 or less is left out of the result, although the
    scores are computed from every indicator.  The number 0.3 of the
    source is a binary64; for a confidence that is one too, exceeding it
    is exceeding 3/10. *)
Theorem reported_indicators (inds : list TypeIndicator) :
  let r := classify inds in
  indicators r = filter (fun i => gt (confidence i) (Double.fl (3 # 10))) inds
  /\ (forall i, In i (indicators r) <-> In i inds /\ Double.fl (3 # 10) < confidence i)
  /\ (forall i, In i inds -> confidence i <= Double.fl (3 # 10) -> ~ In i (indicators r))
  /\ (forall i, Double.representable (confidence i) ->
                (In i (indicators r) <-> In i inds /\ 3 # 10 < confidence i)).
Proof.
  intros r. subst r. unfold classify. cbn [indicators].
  split; [reflexivity|]. split; [|split].
  - intros i. rewrite filter_In, gt_true. reflexivity.
  - intros i _ Hle Hin. apply filter_In in Hin. destruct Hin as [_ Hgt].
    apply gt_true in Hgt. apply (Qlt_not_le _ _ Hgt). exact Hle.
  - intros i Hi. rewrite filter_In, gt_true, (exceeds_three_tenths _ Hi). reflexivity.
Qed.

Lemma reported_indicators_witness :
  In (mkIndicator pattern "weak" (Double.fl (2 # 10)) library)
     [mkIndicator pattern "weak" (Double.fl (2 # 10)) library]
  /\ primaryType (classify [mkIndicator pattern "weak" (Double.fl (2 # 10)) library]) = library
  /\ ~ In (mkIndicator pattern "weak" (Double.fl (2 # 10)) library)
          (indicators (classify [mkIndicator pattern "weak" (Double.fl (2 # 10)) library])).
Proof.
  split; [left; reflexivity|]. split; [vm_compute; reflexivity|].
  apply (proj1 (proj2 (proj2 (reported_indicators
                                [mkIndicator pattern "weak" (Double.fl (2 # 10)) library])))).
  - left. reflexivity.
  - vm_compute. discriminate.
Defined.

(** In [detect] itself the filter keeps everything: no indicator the
    detector builds has a confidence of 0.3 or less. *)
Lemma detect_reports_collected here ds files :
  indicators (classification (detect here ds files))
  = collectIndicators files (manifests here) ds.
Proof.
  rewrite detect_classification. unfold classify. cbn [indicators].
  pose proof (collectIndicators_confidence files (manifests here) ds) as H.
  assert (Hbelow : Double.fl (3 # 10) < 1 # 2) by (vm_compute; reflexivity).
  induction (collectIndicators files (manifests here) ds) as [|i l IH]; [reflexivity|].
  simpl. assert (Hi : gt (confidence i) (Double.fl (3 # 10)) = true).
  { apply gt_true. specialize (H i (or_introl eq_refl)). lra. }
  rewrite Hi. f_equal. apply IH. intros j Hj. apply H. right. exact Hj.
Qed.

End TypeDetector.
(** ** [String.prototype.replace] with a global pattern *)

Module JsReplace.
Import JsString.

Local Open Scope string_scope.

(** What a pattern does at one position of the subject: given the text
    before the position and the text from the position on, the length of
    the match that starts there and the text that replaces it. *)
Definition Matcher := string -> string -> option (nat * string).

(** The scan of a global replace, left to right: at a position where the
    pattern matches, the replacement is written and the matched characters
    are skipped; elsewhere the character is copied.  [skip] counts the
    characters of the current match still to pass.  Every match of the
    patterns used here is at least one character long. *)
Fixpoint scan (matcher : Matcher) (before : string) (skip : nat) (s : string) : string :=
  match s with
  | EmptyString => EmptyString
  | String c s' =>
      match skip with
      | S k => scan matcher (before ++ String c EmptyString) k s'
      | O =>
          match matcher before s with
          | Some (len, replacement) =>
              replacement ++ scan matcher (before ++ String c EmptyString) (Nat.pred len) s'
          | None => String c (scan matcher (before ++ String c EmptyString) 0 s')
          end
      end
  end.

Definition replaceMatches (matcher : Matcher) (s : string) : string :=
  scan matcher EmptyString 0 s.

(** [GetSubstitution] for a pattern without capture groups: in the
    replacement text [$$] stands for a dollar sign, [$&] for the matched
    text, [$`] for the text before the match and [$'] for the text after
    it; every other character, and a dollar sign followed by anything
    else, stands for itself. *)
Fixpoint getSubstitution (matched before after replacement : string) : string :=
  match replacement with
  | EmptyString => EmptyString
  | String "$" (String "$" r) => String "$" (getSubstitution matched before after r)
  | String "$" (String "&" r) => matched ++ getSubstitution matched before after r
  | String "$" (String "`" r) => before ++ getSubstitution matched before after r
  | String "$" (String "'" r) => after ++ getSubstitution matched before after r
  | String c r => String c (getSubstitution matched before after r)
  end.

(** A pattern that is plain text (no character of it is special in a
    regular expression), with a replacement string. *)
Definition literalMatcher (pat replacement : string) : Matcher :=
  fun before rest =>
    if String.prefix pat rest
    then Some (String.length pat,
               getSubstitution pat before (drop (String.length pat) rest) replacement)
    else None.

(** [s.replace(new RegExp(pat, 'g'), replacement)] for such a pattern. *)
Definition replaceAll (pat replacement s : string) : string :=
  replaceMatches (literalMatcher pat replacement) s.

(** *** Texts: a few facts *)

Lemma append_nil_r s : s ++ EmptyString = s.
Proof. induction s as [|c s IH]; simpl; [reflexivity | now rewrite IH]. Qed.

Lemma append_assoc a b c : (a ++ b) ++ c = a ++ (b ++ c).
Proof. induction a as [|x a IH]; simpl; [reflexivity | now rewrite IH]. Qed.

Lemma length_append a b : String.length (a ++ b) = (String.length a + String.length b)%nat.
Proof. induction a as [|x a IH]; simpl; [reflexivity | now rewrite IH]. Qed.

Lemma prefix_append p r : String.prefix p (p ++ r) = true.
Proof.
  induction p as [|c p IH]; simpl; [now destruct r|].
  destruct (ascii_dec c c) as [_|H]; [exact IH | now elim H].
Qed.

Lemma prefix_inv p : forall s, String.prefix p s = true -> exists r, s = p ++ r.
Proof.
  induction p as [|c p IH]; intros s H.
  - exists s. reflexivity.
  - destruct s as [|d s]; [discriminate|]. simpl in H.
    destruct (ascii_dec c d) as [<-|_]; [|discriminate].
    destruct (IH s H) as [r ->]. exists r. reflexivity.
Qed.

(** [k] occurs in [s]. *)
Definition occurs (k s : string) : Prop := exists a b, s = a ++ k ++ b.

Lemma includes_occurs k : forall s, includes s k = true <-> occurs k s.
Proof.
  induction s as [|c s IH]; cbn [includes].
  - destruct (String.prefix k EmptyString) eqn:E.
    + split; [intros _|reflexivity]. destruct (prefix_inv _ _ E) as [r Hr].
      exists EmptyString, r. exact Hr.
    + split; [discriminate|]. intros [a [b H]].
      destruct a; [|discriminate]. simpl in H. rewrite H, prefix_append in E. discriminate.
  - destruct (String.prefix k (String c s)) eqn:E.
    + split; [intros _|reflexivity]. destruct (prefix_inv _ _ E) as [r Hr].
      exists EmptyString, r. exact Hr.
    + rewrite IH. split.
      * intros [a [b ->]]. exists (String c a), b. reflexivity.
      * intros [a [b H]]. destruct a as [|x a].
        -- simpl in H. rewrite H, prefix_append in E. discriminate.
        -- injection H as _ ->. exists a, b. reflexivity.
Qed.

(** Every character of a text passes a test. *)
Fixpoint allChars (f : ascii -> bool) (s : string) : bool :=
  match s with
  | EmptyString => true
  | String c s' => f c && allChars f s'
  end.

Lemma allChars_append f a b : allChars f (a ++ b) = allChars f a && allChars f b.
Proof. induction a as [|x a IH]; simpl; [reflexivity | now rewrite IH, andb_assoc]. Qed.

(** Two ways of cutting the same text. *)
Lemma append_eq_split a : forall b c d,
  a ++ b = c ++ d -> (String.length a <= String.length c)%nat ->
  exists e, c = a ++ e /\ b = e ++ d.
Proof.
  induction a as [|x a IH]; intros b c d H Hlen.
  - exists c. split; [reflexivity | exact H].
  - destruct c as [|y c]; [simpl in Hlen; lia|].
    injection H as -> H. simpl in Hlen.
    destruct (IH b c d H) as [e [-> ->]]; [lia|]. exists e. split; reflexivity.
Qed.

(** *** The scan, cut in pieces *)

Section ScanFacts.
Variable matcher : Matcher.

(** The scan can be cut at a position no match runs across. *)
Lemma scan_cut : forall c before skip rest,
  (skip <= String.length c)%nat ->
  (forall c1 c2 len replacement,
      c = c1 ++ c2 -> c2 <> EmptyString ->
      matcher (before ++ c1) (c2 ++ rest) = Some (len, replacement) ->
      (len <= String.length c2)%nat) ->
  exists out, scan matcher before skip (c ++ rest)
              = out ++ scan matcher (before ++ c) 0 rest.
Proof.
  induction c as [|x c IH]; intros before skip rest Hskip Hcut.
  - simpl in Hskip. replace skip with 0%nat by lia. exists EmptyString.
    simpl. now rewrite append_nil_r.
  - assert (Hnext : forall c1 c2 len replacement,
               c = c1 ++ c2 -> c2 <> EmptyString ->
               matcher ((before ++ String x EmptyString) ++ c1) (c2 ++ rest) = Some (len, replacement) ->
               (len <= String.length c2)%nat).
    { intros c1 c2 len replacement -> Hne Hm. rewrite append_assoc in Hm.
      apply (Hcut (String x c1) c2 len replacement); [reflexivity | exact Hne | exact Hm]. }
    assert (Hbefore : (before ++ String x EmptyString) ++ c = before ++ String x c)
      by (now rewrite append_assoc).
    simpl. destruct skip as [|k].
    + destruct (matcher before (String x (c ++ rest))) as [[len replacement]|] eqn:Hm.
      * assert (Hlen : (len <= String.length (String x c))%nat).
        { apply (Hcut EmptyString (String x c) len replacement); [reflexivity | discriminate|].
          rewrite append_nil_r. exact Hm. }
        destruct (IH (before ++ String x EmptyString) (Nat.pred len) rest) as [out E];
          [simpl in Hlen; lia | exact Hnext|].
        exists (replacement ++ out). now rewrite E, Hbefore, append_assoc.
      * destruct (IH (before ++ String x EmptyString) 0%nat rest) as [out E]; [lia | exact Hnext|].
        exists (String x out). now rewrite E, Hbefore.
    + destruct (IH (before ++ String x EmptyString) k rest) as [out E];
        [simpl in Hskip; lia | exact Hnext|].
      exists out. now rewrite E, Hbefore.
Qed.

(** A stretch in which no match starts is copied. *)
Lemma scan_copy : forall k before rest,
  (forall k1 k2, k = k1 ++ k2 -> k2 <> EmptyString -> matcher (before ++ k1) (k2 ++ rest) = None) ->
  scan matcher before 0 (k ++ rest) = k ++ scan matcher (before ++ k) 0 rest.
Proof.
  induction k as [|x k IH]; intros before rest Hnone.
  - simpl. now rewrite append_nil_r.
  - simpl. pose proof (Hnone EmptyString (String x k) eq_refl) as H0.
    rewrite append_nil_r in H0. simpl in H0. rewrite H0 by discriminate.
    rewrite IH.
    + now rewrite append_assoc.
    + intros k1 k2 -> Hne. rewrite append_assoc. apply (Hnone (String x k1) k2); [reflexivity | exact Hne].
Qed.

(** When the pattern also reads nothing beyond the cut, the text before
    the cut is replaced as it would be alone. *)
Lemma scan_local : forall c before skip rest,
  (skip <= String.length c)%nat ->
  (forall c1 c2, c = c1 ++ c2 -> c2 <> EmptyString ->
      matcher (before ++ c1) (c2 ++ rest) = matcher (before ++ c1) c2
      /\ forall len replacement, matcher (before ++ c1) c2 = Some (len, replacement) ->
                                 (len <= String.length c2)%nat) ->
  scan matcher before skip (c ++ rest)
  = scan matcher before skip c ++ scan matcher (before ++ c) 0 rest.
Proof.
  induction c as [|x c IH]; intros before skip rest Hskip Hcut.
  - simpl in Hskip. replace skip with 0%nat by lia.
    simpl. now rewrite append_nil_r.
  - assert (Hnext : forall c1 c2, c = c1 ++ c2 -> c2 <> EmptyString ->
               matcher ((before ++ String x EmptyString) ++ c1) (c2 ++ rest)
               = matcher ((before ++ String x EmptyString) ++ c1) c2
               /\ forall len replacement,
                   matcher ((before ++ String x EmptyString) ++ c1) c2 = Some (len, replacement) ->
                   (len <= String.length c2)%nat).
    { intros c1 c2 -> Hne. rewrite append_assoc.
      apply (Hcut (String x c1) c2); [reflexivity | exact Hne]. }
    assert (Hbefore : (before ++ String x EmptyString) ++ c = before ++ String x c)
      by (now rewrite append_assoc).
    simpl. destruct skip as [|k].
    + destruct (Hcut EmptyString (String x c) eq_refl) as [Hsame Hlen]; [discriminate|].
      rewrite append_nil_r in Hsame, Hlen. simpl in Hsame. rewrite Hsame.
      destruct (matcher before (String x c)) as [[len replacement]|] eqn:Hm.
      * specialize (Hlen len replacement eq_refl). simpl in Hlen.
        rewrite IH by (lia || exact Hnext). now rewrite Hbefore, append_assoc.
      * rewrite IH by (lia || exact Hnext). now rewrite Hbefore.
    + rewrite IH by (simpl in Hskip; lia || exact Hnext). now rewrite Hbefore.
Qed.

(** The characters of a match are passed over. *)
Lemma scan_skip : forall k before rest,
  scan matcher before (String.length k) (k ++ rest) = scan matcher (before ++ k) 0 rest.
Proof.
  induction k as [|x k IH]; intros before rest; simpl.
  - now rewrite append_nil_r.
  - rewrite IH. now rewrite append_assoc.
Qed.

(** [avoids k]: no match runs into an occurrence of [k], and none starts
    inside one. *)
Definition avoids (k : string) : Prop :=
  (forall before c2 rest len replacement,
      c2 <> EmptyString -> matcher before (c2 ++ k ++ rest) = Some (len, replacement) ->
      (len <= String.length c2)%nat)
  /\ (forall before k1 k2 rest,
         k = k1 ++ k2 -> k2 <> EmptyString -> matcher before (k2 ++ rest) = None).

(** A text the pattern avoids is still there after the replacement. *)
Theorem replaceMatches_preserves k s :
  avoids k -> occurs k s -> occurs k (replaceMatches matcher s).
Proof.
  intros [Hcut Hinside] [a [b ->]]. unfold replaceMatches.
  destruct (scan_cut a EmptyString 0 (k ++ b)) as [out E]; [lia | |].
  - intros c1 c2 len replacement _ Hne Hm. exact (Hcut _ _ _ _ _ Hne Hm).
  - rewrite E. rewrite scan_copy.
    + exists out, (scan matcher ((EmptyString ++ a) ++ k) 0 b). reflexivity.
    + intros k1 k2 Hk Hne. exact (Hinside _ _ _ _ Hk Hne).
Qed.

(** The shape of a match: it begins with an opening brace and holds no
    opening bracket. *)
Definition bracedMatches : Prop :=
  forall before rest len replacement,
    matcher before rest = Some (len, replacement) ->
    exists m tail, rest = String "{" m ++ tail
                   /\ String.length (String "{" m) = len
                   /\ allChars (fun c => negb (Ascii.eqb c "[")) m = true.

(** Such a pattern avoids every text that begins with an opening bracket
    and holds no opening brace. *)
Lemma bracedMatches_avoids k :
  bracedMatches ->
  allChars (fun c => negb (Ascii.eqb c "{")) (String "[" k) = true ->
  avoids (String "[" k).
Proof.
  intros Hshape Hk. split.
  - intros before c2 rest len replacement Hne Hm.
    destruct (Hshape _ _ _ _ Hm) as [m [tail [E [Hlen Hm']]]].
    destruct (Nat.le_gt_cases len (String.length c2)) as [Hle|Hgt]; [exact Hle | exfalso].
    destruct (append_eq_split c2 (String "[" k ++ rest) (String "{" m) tail)
      as [e [Em Ek]]; [exact E | rewrite Hlen; lia|].
    destruct e as [|y e].
    + rewrite append_nil_r in Em. rewrite Em in Hlen. lia.
    + simpl in Ek. injection Ek as <- _.
      destruct c2 as [|x c2]; [now elim Hne|]. simpl in Em. injection Em as _ ->.
      rewrite allChars_append in Hm'. simpl in Hm'.
      rewrite andb_false_r in Hm'. discriminate.
  - intros before k1 k2 rest Ek Hne.
    destruct (matcher before (k2 ++ rest)) as [[len replacement]|] eqn:Hm; [exfalso | reflexivity].
    destruct (Hshape _ _ _ _ Hm) as [m [tail [E _]]].
    destruct k2 as [|y k2]; [now elim Hne|]. simpl in E. injection E as -> _.
    rewrite Ek, allChars_append in Hk. simpl in Hk.
    rewrite andb_false_r in Hk. discriminate.
Qed.

(** A pattern that does not read the text before a match is replaced the
    same way wherever the subject stands. *)
Lemma scan_anywhere :
  (forall before1 before2 rest, matcher before1 rest = matcher before2 rest) ->
  forall s before1 before2 skip,
    scan matcher before1 skip s = scan matcher before2 skip s.
Proof.
  intros Hsame. induction s as [|x s IH]; intros before1 before2 skip; [reflexivity|].
  simpl. destruct skip as [|k]; [|apply IH].
  rewrite (Hsame before1 before2).
  destruct (matcher before2 (String x s)) as [[len replacement]|];
    [f_equal; apply IH | f_equal; apply IH].
Qed.

End ScanFacts.

End JsReplace.

(** ** Prompt catalogue and dependency resolver ([src/services/prompt-engine.ts]) *)

Module PromptEngine.
Import stdpp.base stdpp.option stdpp.list stdpp.gmap stdpp.strings stdpp.sets.

Local Open Scope string_scope.
Local Open Scope list_scope.
#[local] Set Warnings "-clear-no-such-hyp".

Inductive FindingType :=
| architecture | security | performance | documentation | testing | maintainability.

(** [PromptConfig.targetType]: one repository type, or ['all']. *)
Inductive TargetType := all | only (t : TypeDetector.RepositoryType).

Inductive VariableType :=
| vt_string | vt_array | vt_object | vt_file_content | vt_directory_structure.

Inductive OutputFormat := markdown | json | structured.

Record PromptVariable := {
  var_name : string;
  var_description : string;
  var_type : VariableType;
  required : bool
}.

Record PromptConfig := {
  id : string;
  prompt_name : string;
  description : string;
  targetType : TargetType;
  category : FindingType;
  order : Z;
  template : string;
  variables : list PromptVariable;
  contextRequired : list string;
  outputFormat : OutputFormat
}.

(** The three objects [resolvePromptDependencies] mutates: the set
    [visited] shared by the calls of one descent, the set [pending] and the
    array [resolved]. *)
Record ResolveState := {
  visited : gset string;
  pending : gset string;
  resolved : list PromptConfig
}.

(** [new Map(prompts.map((p) => [p.id, p]))]: a later prompt replaces an
    earlier one of the same id. *)
Definition buildPromptMap (prompts : list PromptConfig) : gmap string PromptConfig :=
  foldl (fun m p => <[id p := p]> m) ∅ prompts.

(** The loop over [prompt.contextRequired] in [resolve], given the
    function to call on each dependency. *)
Fixpoint resolveEach (promptMap : gmap string PromptConfig)
    (rec : string -> ResolveState -> option ResolveState)
    (deps : list string) (st : ResolveState) : option ResolveState :=
  match deps with
  | [] => Some st
  | depId :: deps' =>
      if decide (is_Some (promptMap !! depId)) then
        match rec depId st with
        | Some st' => resolveEach promptMap rec deps' st'
        | None => None
        end
      else resolveEach promptMap rec deps' st
  end.

(** The inner function [resolve].  [fuel] bounds the depth of the
    recursion; [None] is returned only when it runs out. *)
Fixpoint resolve (fuel : nat) (promptMap : gmap string PromptConfig)
    (promptId : string) (st : ResolveState) : option ResolveState :=
  match fuel with
  | O => None
  | S fuel' =>
      if decide (promptId ∉ pending st) then Some st
      else if decide (promptId ∈ visited st) then
        Some st (* [console.warn]: circular dependency *)
      else
        match promptMap !! promptId with
        | None => Some st
        | Some prompt =>
            let st1 := {| visited := {[promptId]} ∪ visited st;
                          pending := pending st;
                          resolved := resolved st |} in
            match resolveEach promptMap (resolve fuel' promptMap)
                              (contextRequired prompt) st1 with
            | Some st2 =>
                Some {| visited := visited st2;
                        pending := pending st2 ∖ {[promptId]};
                        resolved := resolved st2 ++ [prompt] |}
            | None => None
            end
        end
  end.

(** The final loop: [resolve(prompt.id)] for each prompt, each call with a
    fresh [visited] set. *)
Fixpoint resolveAll (fuel : nat) (promptMap : gmap string PromptConfig)
    (prompts : list PromptConfig) (st : ResolveState) : option ResolveState :=
  match prompts with
  | [] => Some st
  | prompt :: prompts' =>
      match resolve fuel promptMap (id prompt)
                    {| visited := ∅; pending := pending st; resolved := resolved st |} with
      | Some st' => resolveAll fuel promptMap prompts' st'
      | None => None
      end
  end.

(** [resolvePromptDependencies].  The recursion never goes deeper than the
    number of prompts plus one. *)
Definition resolvePromptDependencies (prompts : list PromptConfig)
  : option (list PromptConfig) :=
  let pending0 : gset string := list_to_set (map id prompts) in
  let promptMap := buildPromptMap prompts in
  resolved <$> resolveAll (S (length prompts)) promptMap prompts
                          {| visited := ∅; pending := pending0; resolved := [] |}.

(** The two catalogues of [src/types/prompts.ts], by category, and by
    repository type and category (empty where the source has no entry). *)
Record Catalogue := {
  DEFAULT_PROMPTS : FindingType -> list PromptConfig;
  TYPE_SPECIFIC_PROMPTS : TypeDetector.RepositoryType -> FindingType -> list PromptConfig
}.

(** [promptMap.set(prompt.id, prompt)]: a [Map] keeps the place of a key
    that is set again. *)
Fixpoint mapSet (m : list (string * PromptConfig)) (p : PromptConfig)
  : list (string * PromptConfig) :=
  match m with
  | [] => [(id p, p)]
  | (k, q) :: m' => if String.eqb k (id p) then (k, p) :: m' else (k, q) :: mapSet m' p
  end.

Definition appliesTo (repoType : TypeDetector.RepositoryType) (p : PromptConfig) : bool :=
  match targetType p with
  | all => true
  | only t => TypeDetector.RepositoryType_eqb t repoType
  end.

(** [getPrompts] *)
Definition getPrompts (catalogue : Catalogue) (repoType : TypeDetector.RepositoryType)
    (category_ : FindingType) : list PromptConfig :=
  let defaultPrompts := DEFAULT_PROMPTS catalogue category_ in
  let typeSpecificPrompts := TYPE_SPECIFIC_PROMPTS catalogue repoType category_ in
  let promptMap :=
    foldl mapSet (foldl mapSet [] (List.filter (appliesTo repoType) defaultPrompts))
          typeSpecificPrompts in
  JsArray.sort (fun a b => inject_Z (order a - order b)) (map snd promptMap).

(** *** The resolver returns, and loses or repeats no prompt *)

Section Resolve.
Variable M : gmap string PromptConfig.
Hypothesis M_keys : forall k p, M !! k = Some p -> id p = k.

(** What holds of the three objects between two calls of [resolve]: the
    prompts resolved so far have distinct ids, are those of the map, and
    are exactly the ones no longer pending. *)
Definition consistent (st : ResolveState) : Prop :=
  NoDup (id <$> resolved st)
  /\ (forall p, p ∈ resolved st -> M !! id p = Some p /\ id p ∉ pending st)
  /\ (forall k, k ∈ dom M -> k ∉ pending st -> k ∈ id <$> resolved st).

(** What a call changes: [visited] grows, [pending] shrinks, an id that
    is both visited and pending (a prompt being resolved further up) stays
    pending, and consistency is kept. *)
Definition advances (st st' : ResolveState) : Prop :=
  visited st ⊆ visited st'
  /\ pending st' ⊆ pending st
  /\ (forall y, y ∈ pending st -> y ∈ visited st -> y ∈ pending st')
  /\ (consistent st -> consistent st').

Lemma advances_refl st : advances st st.
Proof. unfold advances. naive_solver. Qed.

Lemma advances_trans st1 st2 st3 : advances st1 st2 -> advances st2 st3 -> advances st1 st3.
Proof.
  intros (Hv1 & Hp1 & Hk1 & Hc1) (Hv2 & Hp2 & Hk2 & Hc2).
  split; [set_solver|]. split; [set_solver|]. split.
  - intros y Hy Hvy. apply Hk2; [apply Hk1; assumption | set_solver].
  - intros H. apply Hc2, Hc1, H.
Qed.

Lemma resolveEach_advances rec :
  (forall x st st', rec x st = Some st' -> advances st st') ->
  forall deps st st', resolveEach M rec deps st = Some st' -> advances st st'.
Proof.
  intros Hrec. induction deps as [|d deps IH]; intros st st' H; simpl in H.
  - simplify_eq. apply advances_refl.
  - destruct (decide (is_Some (M !! d))); [|apply IH; exact H].
    destruct (rec d st) as [st1|] eqn:E; [|discriminate].
    eapply advances_trans; [apply (Hrec _ _ _ E) | apply IH; exact H].
Qed.

Lemma resolve_advances fuel : forall x st st',
  resolve fuel M x st = Some st' -> advances st st'.
Proof.
  induction fuel as [|fuel IH]; intros x st st' H; [discriminate|].
  simpl in H.
  destruct (decide (x ∉ pending st)) as [|Hp]; [simplify_eq; apply advances_refl|].
  destruct (decide (x ∈ visited st)) as [|Hv]; [simplify_eq; apply advances_refl|].
  destruct (M !! x) as [prompt|] eqn:Hx; [|simplify_eq; apply advances_refl].
  match type of H with
  | match resolveEach _ _ _ ?s with _ => _ end = _ => set (st1 := s) in *
  end.
  destruct (resolveEach M (resolve fuel M) (contextRequired prompt) st1) as [st2|] eqn:E;
    [|discriminate].
  simplify_eq.
  destruct (resolveEach_advances _ IH _ _ _ E) as (Hv2 & Hp2 & Hk2 & Hc2).
  assert (Hpx : x ∈ pending st) by (destruct (decide (x ∈ pending st)); tauto).
  assert (Hx2 : x ∈ pending st2) by (apply Hk2; subst st1; simpl; set_solver).
  subst st1. simpl in *.
  unfold advances. simpl. split; [set_solver|]. split; [set_solver|]. split.
  - intros y Hy Hvy. assert (y ≠ x) by congruence.
    assert (y ∈ pending st2) by (apply Hk2; set_solver). set_solver.
  - intros (Hnd & Hel & Hall).
    destruct Hc2 as (Hnd2 & Hel2 & Hall2); [split; [|split]; assumption|].
    unfold consistent. simpl. rewrite fmap_app. simpl. rewrite (M_keys _ _ Hx).
    split; [|split].
    + apply NoDup_app. split; [exact Hnd2|]. split; [|apply NoDup_singleton].
      intros k Hk Hk'. apply list_elem_of_singleton in Hk'. subst k.
      apply list_elem_of_fmap in Hk. destruct Hk as (p & Ep & Hp').
      destruct (Hel2 p Hp') as [_ Hnot]. rewrite <- Ep in Hnot. tauto.
    + intros p Hin. apply elem_of_app in Hin. destruct Hin as [Hin|Hin].
      * destruct (Hel2 p Hin). split; [assumption | set_solver].
      * apply list_elem_of_singleton in Hin. subst p.
        rewrite (M_keys _ _ Hx). split; [exact Hx | set_solver].
    + intros k Hk Hnot. destruct (decide (k = x)) as [->|Hne].
      * apply elem_of_app. right. apply list_elem_of_singleton. reflexivity.
      * apply elem_of_app. left. apply Hall2; [exact Hk | set_solver].
Qed.

(** A call on a prompt of the map that is not being resolved further up
    leaves it resolved. *)
Lemma resolve_removes fuel x st st' :
  resolve fuel M x st = Some st' -> x ∈ dom M -> x ∉ visited st -> x ∉ pending st'.
Proof.
  intros H Hdom Hv. destruct fuel as [|fuel]; [discriminate|]. simpl in H.
  destruct (decide (x ∉ pending st)) as [Hp|Hp]; [simplify_eq; exact Hp|].
  destruct (decide (x ∈ visited st)); [tauto|].
  apply elem_of_dom in Hdom. destruct Hdom as [prompt Hx]. rewrite Hx in H.
  destruct (resolveEach M (resolve fuel M) (contextRequired prompt) _) as [st2|];
    [|discriminate].
  simplify_eq. simpl. set_solver.
Qed.

(** The fuel suffices as long as it exceeds the number of prompts not yet
    visited. *)
Lemma resolveEach_total rec (n : nat) :
  (forall x st st', rec x st = Some st' -> visited st ⊆ visited st') ->
  (forall x st, size (dom M ∖ visited st) <= n -> is_Some (rec x st)) ->
  forall deps st, size (dom M ∖ visited st) <= n ->
                  is_Some (resolveEach M rec deps st).
Proof.
  intros Hmono Htotal. induction deps as [|d deps IH]; intros st Hn; simpl.
  - eexists. reflexivity.
  - destruct (decide (is_Some (M !! d))); [|apply IH; exact Hn].
    destruct (Htotal d st Hn) as [st1 E]. rewrite E. apply IH.
    etransitivity; [|exact Hn]. apply subseteq_size.
    specialize (Hmono _ _ _ E). set_solver.
Qed.

Lemma resolve_total fuel : forall x st,
  size (dom M ∖ visited st) < fuel -> is_Some (resolve fuel M x st).
Proof.
  induction fuel as [|fuel IH]; intros x st Hn; [lia|]. simpl.
  destruct (decide (x ∉ pending st)); [eexists; reflexivity|].
  destruct (decide (x ∈ visited st)) as [|Hv]; [eexists; reflexivity|].
  destruct (M !! x) as [prompt|] eqn:Hx; [|eexists; reflexivity].
  match goal with
  | |- is_Some (match resolveEach _ _ _ ?s with _ => _ end) => set (st1 := s)
  end.
  assert (Hlt : size (dom M ∖ visited st1) < size (dom M ∖ visited st)).
  { apply subset_size. subst st1. simpl.
    assert (x ∈ dom M) by (apply elem_of_dom; eauto). set_solver. }
  destruct fuel as [|k]; [lia|].
  destruct (resolveEach_total (resolve (S k) M) k) with
    (deps := contextRequired prompt) (st := st1) as [st2 E].
  - intros y s s' H. apply (resolve_advances _ _ _ _ H).
  - intros y s Hs. apply IH. lia.
  - lia.
  - rewrite E. eexists. reflexivity.
Qed.

Lemma resolveAll_spec fuel : forall prompts st,
  size (dom M) < fuel -> consistent st ->
  exists st', resolveAll fuel M prompts st = Some st'
              /\ consistent st' /\ pending st' ⊆ pending st
              /\ (forall p, p ∈ prompts -> id p ∈ dom M -> id p ∉ pending st').
Proof.
  intros prompts st Hfuel. revert st.
  induction prompts as [|q prompts IH]; intros st Hc; simpl.
  - exists st. split; [reflexivity|]. split; [exact Hc|]. split; [set_solver|].
    intros p Hp. inversion Hp.
  - set (st0 := {| visited := ∅; pending := pending st; resolved := resolved st |}).
    destruct (resolve_total fuel (id q) st0) as [st1 E].
    { subst st0. simpl. eapply Nat.le_lt_trans; [|exact Hfuel].
      apply subseteq_size. set_solver. }
    rewrite E.
    destruct (resolve_advances _ _ _ _ E) as (_ & Hp1 & _ & Hc1).
    destruct (IH st1) as (st' & E' & Hc' & Hp' & Hdone); [apply Hc1; exact Hc|].
    exists st'. split; [exact E'|]. split; [exact Hc'|]. split; [subst st0; set_solver|].
    intros p Hp Hdom. apply elem_of_cons in Hp. destruct Hp as [->|Hp].
    + pose proof (resolve_removes _ _ _ _ E Hdom) as Hrem.
      subst st0. simpl in Hrem. set_solver.
    + apply Hdone; assumption.
Qed.

End Resolve.

Lemma foldl_insert_other prompts k : forall m0 : gmap string PromptConfig,
  k ∉ id <$> prompts ->
  foldl (fun m p => <[id p := p]> m) m0 prompts !! k = m0 !! k.
Proof.
  induction prompts as [|q prompts IH]; intros m0 Hk; simpl; [reflexivity|].
  rewrite IH by set_solver. apply lookup_insert_ne. set_solver.
Qed.

Lemma foldl_insert_facts prompts : forall m0 : gmap string PromptConfig,
  (forall k p, m0 !! k = Some p -> id p = k) ->
  let m := foldl (fun m p => <[id p := p]> m) m0 prompts in
  (forall k p, m !! k = Some p -> id p = k)
  /\ dom m = list_to_set (id <$> prompts) ∪ dom m0
  /\ (forall k p, m !! k = Some p -> p ∈ prompts \/ m0 !! k = Some p).
Proof.
  induction prompts as [|q prompts IH]; intros m0 Hm0; simpl.
  - repeat split; [exact Hm0 | set_solver | auto].
  - destruct (IH (<[id q := q]> m0)) as (Hk & Hd & Hel).
    { intros k p Hp. apply lookup_insert_Some in Hp.
      destruct Hp as [[<- <-]|[_ Hp]]; [reflexivity | apply Hm0; exact Hp]. }
    repeat split.
    + exact Hk.
    + rewrite Hd, dom_insert_L. set_solver.
    + intros k p Hp. destruct (Hel k p Hp) as [H|H]; [left; set_solver|].
      apply lookup_insert_Some in H. destruct H as [[_ <-]|[_ H]]; [left; set_solver | auto].
Qed.

Lemma buildPromptMap_facts prompts :
  (forall k p, buildPromptMap prompts !! k = Some p -> id p = k /\ p ∈ prompts)
  /\ dom (buildPromptMap prompts) = list_to_set (id <$> prompts).
Proof.
  destruct (foldl_insert_facts prompts ∅) as (Hk & Hd & Hel).
  { intros k p H. rewrite lookup_empty in H. discriminate. }
  split.
  - intros k p H. split; [apply (Hk _ _ H)|].
    destruct (Hel _ _ H) as [H'|H']; [exact H'|]. rewrite lookup_empty in H'. discriminate.
  - unfold buildPromptMap. rewrite Hd. set_solver.
Qed.

Lemma buildPromptMap_lookup prompts p :
  NoDup (id <$> prompts) -> p ∈ prompts -> buildPromptMap prompts !! id p = Some p.
Proof.
  unfold buildPromptMap. generalize (∅ : gmap string PromptConfig).
  induction prompts as [|q prompts IH]; intros m0 Hnd Hp; [inversion Hp|].
  simpl in *. apply NoDup_cons in Hnd. destruct Hnd as [Hq Hnd].
  apply elem_of_cons in Hp. destruct Hp as [->|Hp].
  - rewrite foldl_insert_other by exact Hq. apply lookup_insert_eq.
  - apply IH; assumption.
Qed.

(** For prompts of distinct ids the resolver returns a plan, and the plan
    is a rearrangement of the prompts: every prompt is in it once, whatever
    the dependencies are. *)
Theorem resolvePromptDependencies_permutation (prompts : list PromptConfig) :
  NoDup (id <$> prompts) ->
  exists plan, resolvePromptDependencies prompts = Some plan /\ Permutation plan prompts.
Proof.
  intros Hnd. unfold resolvePromptDependencies.
  destruct (buildPromptMap_facts prompts) as [Hkeys Hdom].
  set (M := buildPromptMap prompts) in *.
  set (st0 := {| visited := ∅; pending := list_to_set (map id prompts); resolved := [] |}).
  destruct (resolveAll_spec M (fun k p H => proj1 (Hkeys k p H)) (S (length prompts))
                            prompts st0)
    as (st' & E & (Hnd' & Hel & Hall) & Hsub & Hdone).
  - rewrite Hdom, size_list_to_set by exact Hnd. rewrite length_fmap. lia.
  - subst st0. unfold consistent. simpl. split; [apply NoDup_nil_2|]. split.
    + intros q Hq. inversion Hq.
    + intros k Hk Hnot. rewrite Hdom in Hk. tauto.
  - rewrite E. simpl. exists (resolved st'). split; [reflexivity|].
    apply NoDup_Permutation.
    + apply (NoDup_fmap_1 id). exact Hnd'.
    + apply (NoDup_fmap_1 id). exact Hnd.
    + intros p. split.
      * intros Hp. destruct (Hel p Hp) as [Hp' _]. apply (Hkeys _ _ Hp').
      * intros Hp.
        assert (Hin : id p ∈ dom M)
          by (rewrite Hdom; apply elem_of_list_to_set, list_elem_of_fmap; eauto).
        assert (Hres : id p ∈ id <$> resolved st') by (apply Hall; [exact Hin | auto]).
        apply list_elem_of_fmap in Hres. destruct Hres as (r & Er & Hr).
        destruct (Hel r Hr) as [Hr' _].
        pose proof (buildPromptMap_lookup prompts p Hnd Hp) as Hp'. fold M in Hp'.
        rewrite <- Er, Hp' in Hr'. simplify_eq. exact Hr.
Qed.

(** *** The two plans of the specification *)

Section ResolveSteps.
Variable M : gmap string PromptConfig.

Lemma resolve_not_pending fuel x st :
  x ∉ pending st -> resolve (S fuel) M x st = Some st.
Proof. intros H. simpl. rewrite decide_True by exact H. reflexivity. Qed.

Lemma resolve_in_progress fuel x st :
  x ∈ pending st -> x ∈ visited st -> resolve (S fuel) M x st = Some st.
Proof.
  intros Hp Hv. simpl. rewrite decide_False by (intros H; exact (H Hp)).
  rewrite decide_True by exact Hv. reflexivity.
Qed.

Lemma resolve_descend fuel x st prompt :
  x ∈ pending st -> x ∉ visited st -> M !! x = Some prompt ->
  resolve (S fuel) M x st
  = match resolveEach M (resolve fuel M) (contextRequired prompt)
            {| visited := {[x]} ∪ visited st; pending := pending st;
               resolved := resolved st |} with
    | Some st2 => Some {| visited := visited st2; pending := pending st2 ∖ {[x]};
                          resolved := resolved st2 ++ [prompt] |}
    | None => None
    end.
Proof.
  intros Hp Hv Hx. simpl. rewrite decide_False by (intros H; exact (H Hp)).
  rewrite decide_False by exact Hv. rewrite Hx. reflexivity.
Qed.

Lemma resolveEach_known rec d deps st :
  is_Some (M !! d) ->
  resolveEach M rec (d :: deps) st
  = match rec d st with
    | Some st' => resolveEach M rec deps st'
    | None => None
    end.
Proof. intros H. simpl. rewrite decide_True by exact H. reflexivity. Qed.

End ResolveSteps.

Lemma permutation_of_three {T} (l : list T) x y z :
  Permutation l [x; y; z] ->
  l = [x; y; z] \/ l = [x; z; y] \/ l = [y; x; z]
  \/ l = [y; z; x] \/ l = [z; x; y] \/ l = [z; y; x].
Proof.
  intros H. pose proof (Permutation_length H) as Hlen.
  destruct l as [|p [|q [|r [|? ?]]]]; try discriminate Hlen.
  assert (Hp : In p [x; y; z]) by (apply (Permutation_in _ H); left; reflexivity).
  assert (two : forall a b, Permutation [q; r] [a; b] -> [q; r] = [a; b] \/ [q; r] = [b; a]).
  { intros a b Hab. symmetry in Hab. apply Permutation_length_2_inv in Hab.
    destruct Hab as [->| ->]; auto. }
  destruct Hp as [<-|[<-|[<-|[]]]].
  - apply Permutation_cons_inv in H. destruct (two _ _ H) as [E|E]; rewrite E; tauto.
  - apply (Permutation_cons_app_inv [x] [z]) in H.
    destruct (two _ _ H) as [E|E]; rewrite E; tauto.
  - apply (Permutation_cons_app_inv [x; y] []) in H.
    destruct (two _ _ H) as [E|E]; rewrite E; tauto.
Qed.

Ltac resolve_run :=
  repeat first
    [ rewrite resolve_not_pending by (simpl; set_solver)
    | rewrite resolve_in_progress by (simpl; set_solver)
    | erewrite resolve_descend by first [eassumption | simpl; set_solver]
    | rewrite resolveEach_known by eauto
    | progress cbn [resolveEach resolveAll visited pending resolved fmap option_fmap
                    option_map app] ].

(** C3.  Three prompts of distinct ids, [A] without dependency, [B]
    depending on [A] and [C] on [B], are planned in the order [A; B; C]
    whatever their order in the input.  Prompts of distinct ids with a
    circular dependency between two of them, [A] and [B], are still
    planned, each prompt of the input once: the resolver reports no
    error. *)
Theorem resolver_chain_and_cycle :
  (forall (A B C : PromptConfig) (prompts : list PromptConfig),
      id A <> id B -> id A <> id C -> id B <> id C ->
      contextRequired A = [] -> contextRequired B = [id A] ->
      contextRequired C = [id B] ->
      Permutation prompts [A; B; C] ->
      resolvePromptDependencies prompts = Some [A; B; C])
  /\ (forall (A B : PromptConfig) (prompts : list PromptConfig),
         NoDup (map id prompts) -> In A prompts -> In B prompts -> id A <> id B ->
         In (id B) (contextRequired A) -> In (id A) (contextRequired B) ->
         exists plan, resolvePromptDependencies prompts = Some plan
                      /\ Permutation plan prompts
                      /\ count_occ string_dec (map id plan) (id A) = 1
                      /\ count_occ string_dec (map id plan) (id B) = 1).
Proof.
  split.
  - intros A B C prompts Hab Hac Hbc HdA HdB HdC Hperm.
    assert (Hnd : NoDup (id <$> prompts)).
    { rewrite Hperm. simpl. repeat constructor; set_solver. }
    assert (HA : buildPromptMap prompts !! id A = Some A)
      by (apply buildPromptMap_lookup; [exact Hnd | rewrite Hperm; set_solver]).
    assert (HB : buildPromptMap prompts !! id B = Some B)
      by (apply buildPromptMap_lookup; [exact Hnd | rewrite Hperm; set_solver]).
    assert (HC : buildPromptMap prompts !! id C = Some C)
      by (apply buildPromptMap_lookup; [exact Hnd | rewrite Hperm; set_solver]).
    unfold resolvePromptDependencies.
    assert (Hpending : (list_to_set (map id prompts) : gset string)
                       = {[id A; id B; id C]}).
    { change (map id prompts) with (id <$> prompts). rewrite Hperm. simpl. set_solver. }
    rewrite Hpending. rewrite (Permutation_length Hperm).
    generalize dependent (buildPromptMap prompts). intros M HA HB HC.
    apply permutation_of_three in Hperm.
    destruct Hperm as [->|[->|[->|[->|[->| ->]]]]];
      cbn [resolveAll length]; resolve_run;
      repeat (first [rewrite HdA | rewrite HdB | rewrite HdC]; resolve_run);
      reflexivity.
  - intros A B prompts Hnd HA HB Hab _ _.
    destruct (resolvePromptDependencies_permutation prompts Hnd) as [plan [E Hperm]].
    exists plan. split; [exact E|]. split; [exact Hperm|].
    assert (Hids : NoDup (map id plan))
      by (rewrite Hperm; exact Hnd).
    apply NoDup_ListNoDup in Hids.
    pose proof (proj1 (List.NoDup_count_occ' string_dec (map id plan)) Hids) as Hcount.
    split; apply Hcount, in_map, (Permutation_in _ (Permutation_sym Hperm)); assumption.
Qed.

Definition task (i : string) (deps : list string) : PromptConfig :=
  {| id := i; prompt_name := i; description := EmptyString; targetType := all;
     category := architecture; order := 1; template := EmptyString; variables := [];
     contextRequired := deps; outputFormat := json |}.

Lemma resolver_chain_and_cycle_witness :
  resolvePromptDependencies
    [task "arch-dependencies" ["arch-components"]; task "arch-overview" [];
     task "arch-components" ["arch-overview"]]
  = Some [task "arch-overview" []; task "arch-components" ["arch-overview"];
          task "arch-dependencies" ["arch-components"]]
  /\ exists plan,
       resolvePromptDependencies [task "left" ["right"]; task "right" ["left"]] = Some plan
       /\ Permutation plan [task "left" ["right"]; task "right" ["left"]]
       /\ count_occ string_dec (map id plan) "left" = 1
       /\ count_occ string_dec (map id plan) "right" = 1.
Proof.
  split.
  - apply (proj1 resolver_chain_and_cycle); try discriminate; try reflexivity.
    apply (Permutation_cons_append
             [task "arch-overview" []; task "arch-components" ["arch-overview"]]
             (task "arch-dependencies" ["arch-components"])).
  - apply (proj2 resolver_chain_and_cycle (task "left" ["right"]) (task "right" ["left"])).
    + repeat constructor; set_solver.
    + left. reflexivity.
    + right. left. reflexivity.
    + discriminate.
    + left. reflexivity.
    + left. reflexivity.
Defined.

End PromptEngine.

(** ** Prompt rendering ([src/services/prompt-engine.ts]) *)

Module PromptRenderer.
Import JsString JsReplace PromptEngine.

Local Open Scope list_scope.
Local Open Scope string_scope.

(** An object used as a dictionary of texts ([Record<string, string>]):
    its entries in the order [Object.entries] gives them. *)
Definition Dict := list (string * string).

(** The values [resolveVariable] can return. *)
Inductive Value :=
| VNull
| VUndefined
| VString (s : string)
| VArray (items : list string)
| VObject (entries : Dict)
| VNative (source : string). (* a built-in function, by its source text *)

Record PromptContext := {
  repoUrl : string;
  repoName : string;
  branch : string;
  commitHash : string;
  repoType : string;
  techStack : list string;
  directoryStructure : string;
  fileList : list string;
  fileContents : Dict;
  previousContext : Dict;
  configFiles : Dict
}.

Record RenderedPrompt := {
  promptId : string;
  content : string;
  rendered_outputFormat : OutputFormat
}.

Definition newline : string := String "010"%char EmptyString.
Definition quote : string := String "034"%char EmptyString.

(** The methods every object inherits from [Object.prototype]: the [in]
    operator and a property read find them on any dictionary. *)
Definition objectPrototypeMethods : list string :=
  ["constructor"; "__defineGetter__"; "__defineSetter__"; "hasOwnProperty";
   "__lookupGetter__"; "__lookupSetter__"; "isPrototypeOf"; "propertyIsEnumerable";
   "toString"; "valueOf"; "toLocaleString"].

Definition nativeFunction (key : string) : Value :=
  VNative ("function " ++ (if String.eqb key "constructor" then "Object" else key)
           ++ "() { [native code] }").

(** [obj[key]] on a dictionary. *)
Definition getProperty (obj : Dict) (key : string) : Value :=
  match find (fun e => String.eqb (fst e) key) obj with
  | Some e => VString (snd e)
  | None =>
      if has objectPrototypeMethods key then nativeFunction key
      else if String.eqb key "__proto__" then VObject []
      else VUndefined
  end.

(** [path.split('/').pop() || ''] *)
Fixpoint baseName (p : string) : string :=
  match p with
  | EmptyString => EmptyString
  | String c p' => if includes p' "/" then baseName p'
                   else if Ascii.eqb c "/" then p' else p
  end.

Definition endsWithAny (p : string) (suffixes : list string) : bool :=
  existsb (endsWith p) suffixes.

Definition includesAny (p : string) (parts : list string) : bool :=
  existsb (includes p) parts.

(** The entries of [fileContents] whose path passes a test. *)
Definition selectFiles (test : string -> bool) (context : PromptContext) : Dict :=
  filter (fun e => test (fst e)) (fileContents context).

Definition byName (names : list string) (p : string) : bool := has names (baseName p).

(** [extractPackageFiles] *)
Definition extractPackageFiles : PromptContext -> Dict :=
  selectFiles (byName ["package.json"; "requirements.txt"; "Pipfile"; "pyproject.toml";
                       "go.mod"; "Cargo.toml"; "pom.xml"; "build.gradle"; "Gemfile";
                       "composer.json"]).

(** [extractLockFiles] *)
Definition extractLockFiles : PromptContext -> Dict :=
  selectFiles (byName ["package-lock.json"; "yarn.lock"; "pnpm-lock.yaml"; "Pipfile.lock";
                       "poetry.lock"; "go.sum"; "Cargo.lock"; "Gemfile.lock";
                       "composer.lock"]).

Definition scriptSuffixes (stem : string) : list string :=
  [stem ++ "js"; stem ++ "jsx"; stem ++ "ts"; stem ++ "tsx"].

Definition noLineBreak (s : string) : bool :=
  negb (includes s newline) && negb (includes s (String "013"%char EmptyString)).

(** [/test_.*\.py$/]: [test_] somewhere, then no line break up to a final
    [.py]. *)
Fixpoint testUnderscorePy (p : string) : bool :=
  (String.prefix "test_" p && endsWith (drop 5 p) ".py" && noLineBreak (drop 5 p))
  || match p with
     | EmptyString => false
     | String _ p' => testUnderscorePy p'
     end.

(** [extractTestFiles] *)
Definition extractTestFiles : PromptContext -> Dict :=
  selectFiles (fun p =>
    endsWithAny p (scriptSuffixes ".test.") || endsWithAny p (scriptSuffixes ".spec.")
    || endsWith p "_test.go" || endsWith p "_test.py" || testUnderscorePy p
    || endsWith p "Test.java" || endsWith p ".test.rs").

(** [extractRouteFiles]; the patterns ignore the case. *)
Definition extractRouteFiles : PromptContext -> Dict :=
  selectFiles (fun p =>
    includesAny (toLowerCase p)
      ["route/"; "routes/"; "controller/"; "controllers/"; "handler/"; "handlers/";
       "api/"; "endpoint/"; "endpoints/"]).

(** [extractComponentFiles] *)
Definition extractComponentFiles : PromptContext -> Dict :=
  selectFiles (fun p =>
    includesAny (toLowerCase p) ["component/"; "components/"]
    || endsWith p ".vue" || endsWith p ".tsx" || endsWith p ".component.ts").

(** [extractStateFiles] *)
Definition extractStateFiles : PromptContext -> Dict :=
  selectFiles (fun p =>
    includesAny (toLowerCase p)
      ["store/"; "redux"; "context"; "state"; "vuex"; "pinia"; "zustand"; "recoil";
       "jotai"]).

(** [extractDocsFiles] *)
Definition extractDocsFiles : PromptContext -> Dict :=
  selectFiles (fun p =>
    includesAny (toLowerCase p) ["doc/"; "docs/"; "documentation/"; "wiki/"]
    || endsWith p ".md").

(** [content.split('\n')] *)
Fixpoint splitLines (s : string) : list string :=
  match s with
  | EmptyString => [EmptyString]
  | String c s' =>
      match splitLines s' with
      | line :: lines =>
          if Ascii.eqb c "010" then EmptyString :: line :: lines
          else String c line :: lines
      | [] => [String c EmptyString]
      end
  end.

(** [lines.join(sep)] *)
Definition join (sep : string) (lines : list string) : string := String.concat sep lines.

(** [extractCodeComments]: of the first source files with a comment in
    their first hundred lines, at most five, those lines. *)
Fixpoint codeCommentSamples (count : nat) (files : Dict) : Dict :=
  match files with
  | [] => []
  | (p, text) :: files' =>
      if (5 <=? count)%nat then []
      else if endsWithAny p (scriptSuffixes ".") || endsWith p ".py" || endsWith p ".go"
              || endsWith p ".java" || endsWith p ".rs" then
        let lines := firstn 100 (splitLines text) in
        if existsb (fun line =>
                      includesAny line ["//"; "/*"; "#"; quote ++ quote ++ quote; "'''"])
                   lines
        then (p, join newline lines) :: codeCommentSamples (S count) files'
        else codeCommentSamples count files'
      else codeCommentSamples count files'
  end.

Definition extractCodeComments (context : PromptContext) : Dict :=
  codeCommentSamples 0 (fileContents context).

(** [extractTestConfig] *)
Definition extractTestConfig : PromptContext -> Dict :=
  selectFiles (byName ["jest.config.js"; "jest.config.ts"; "vitest.config.ts";
                       "karma.conf.js"; "pytest.ini"; "setup.cfg"; "tox.ini";
                       ".mocharc.json"; "ava.config.js"]).

(** [extractApiSpec] *)
Definition extractApiSpec (context : PromptContext) : string :=
  match selectFiles (byName ["openapi.yaml"; "openapi.json"; "swagger.yaml";
                             "swagger.json"; "api.yaml"; "api.json"]) context with
  | e :: _ => snd e
  | [] => EmptyString
  end.

(** [a || b] on texts: the empty text is falsy. *)
Definition orElse (a : Value) (b : Value) : Value :=
  match a with
  | VString EmptyString | VNull | VUndefined => b
  | _ => a
  end.

(** [name in context]: the eleven fields of the context, and what every
    object inherits. *)
Definition contextField (name : string) (context : PromptContext) : option Value :=
  if String.eqb name "repoUrl" then Some (VString (repoUrl context))
  else if String.eqb name "repoName" then Some (VString (repoName context))
  else if String.eqb name "branch" then Some (VString (branch context))
  else if String.eqb name "commitHash" then Some (VString (commitHash context))
  else if String.eqb name "repoType" then Some (VString (repoType context))
  else if String.eqb name "techStack" then Some (VArray (techStack context))
  else if String.eqb name "directoryStructure" then Some (VString (directoryStructure context))
  else if String.eqb name "fileList" then Some (VArray (fileList context))
  else if String.eqb name "fileContents" then Some (VObject (fileContents context))
  else if String.eqb name "previousContext" then Some (VObject (previousContext context))
  else if String.eqb name "configFiles" then Some (VObject (configFiles context))
  else if has objectPrototypeMethods name then Some (nativeFunction name)
  else if String.eqb name "__proto__" then Some (VObject [])
  else None.

(** [resolveVariable] *)
Definition resolveVariable (name : string) (context : PromptContext) : Value :=
  match contextField name context with
  | Some v => v
  | None =>
      if String.eqb name "sourceFiles" then VObject (fileContents context)
      else if String.eqb name "configFiles" then VObject (configFiles context)
      else if String.eqb name "packageFiles" then VObject (extractPackageFiles context)
      else if String.eqb name "lockFiles" then VObject (extractLockFiles context)
      else if String.eqb name "testFiles" then VObject (extractTestFiles context)
      else if String.eqb name "routeFiles" then VObject (extractRouteFiles context)
      else if String.eqb name "componentFiles" then VObject (extractComponentFiles context)
      else if String.eqb name "stateFiles" then VObject (extractStateFiles context)
      else if String.eqb name "readme" then
        orElse (getProperty (fileContents context) "README.md")
               (orElse (getProperty (fileContents context) "readme.md")
                       (VString EmptyString))
      else if String.eqb name "docs" then VObject (extractDocsFiles context)
      else if String.eqb name "codeComments" then VObject (extractCodeComments context)
      else if String.eqb name "testConfig" then VObject (extractTestConfig context)
      else if String.eqb name "apiSpec" then VString (extractApiSpec context)
      else VNull
  end.

(** [formatObjectAsMarkdown], on a dictionary of texts. *)
Definition formatObjectAsMarkdown (obj : Dict) : string :=
  join (newline ++ newline)
       (map (fun e => "### " ++ fst e ++ newline ++ "```" ++ newline ++ snd e
                      ++ newline ++ "```")%string
            obj).

(** The decimal writing of an array index. *)
Definition indexKey (i : nat) : string :=
  NilEmpty.string_of_uint (Nat.to_uint i).

(** [Object.entries] of an array of texts. *)
Definition arrayEntries (items : list string) : Dict :=
  combine (map indexKey (seq 0 (List.length items))) items.

(** [String(value)] *)
Definition toString (value : Value) : string :=
  match value with
  | VNull => "null"
  | VUndefined => "undefined"
  | VString s => s
  | VArray items => join "," items
  | VObject _ => "[object Object]"
  | VNative source => source
  end.

Definition notAvailable : string := "[Not available]".

(** [formatValue] *)
Definition formatValue (value : Value) (type : VariableType) : string :=
  match value with
  | VNull | VUndefined => notAvailable
  | _ =>
      match type with
      | vt_string => toString value
      | vt_array =>
          match value with
          | VArray items => join ", " items
          | _ => toString value
          end
      | vt_object =>
          match value with
          | VObject entries => formatObjectAsMarkdown entries
          | VArray items => formatObjectAsMarkdown (arrayEntries items)
          | _ => toString value
          end
      | vt_file_content => toString value
      | vt_directory_structure => toString value
      end
  end.

Definition placeholderOf (name : string) : string := "{{" ++ name ++ "}}".

(** The body of the loop of [renderPrompt] for one declared variable. *)
Definition renderVariable (context : PromptContext) (content : string)
    (variable : PromptVariable) : string :=
  let value := resolveVariable (var_name variable) context in
  let placeholder := placeholderOf (var_name variable) in
  if includes content placeholder then
    let rendered := formatValue value (var_type variable) in
    replaceAll placeholder rendered content
  else content.

(** The characters of [[a-z-]] when the case is ignored. *)
Definition idChar (c : ascii) : bool :=
  let n := nat_of_ascii c in
  ((65 <=? n) && (n <=? 90) || (97 <=? n) && (n <=? 122) || (n =? 45))%nat.

Fixpoint takeWhile (f : ascii -> bool) (s : string) : string :=
  match s with
  | String c s' => if f c then String c (takeWhile f s') else EmptyString
  | EmptyString => EmptyString
  end.

(** [/\{\{previousContext\.([a-z-]+)\}\}/gi] with its replacement function:
    the text of an earlier result, or a note that there is none. *)
Definition nestedMatcher (context : PromptContext) : Matcher :=
  fun _ rest =>
    let opening := "{{previouscontext." in
    if String.eqb (toLowerCase (substring 0 (String.length opening) rest)) opening then
      let after := drop (String.length opening) rest in
      let promptId := takeWhile idChar after in
      if negb (String.eqb promptId EmptyString)
         && String.prefix "}}" (drop (String.length promptId) after)
      then
        let previousResult := getProperty (previousContext context) promptId in
        Some (String.length opening + String.length promptId + 2,
              match previousResult with
              | VString EmptyString | VUndefined | VNull =>
                  "[No previous context for " ++ promptId ++ "]"
              | v => toString v
              end)%nat
      else None
    else None.

(** [renderPrompt] *)
Definition renderPrompt (prompt : PromptConfig) (context : PromptContext) : RenderedPrompt :=
  let content1 := fold_left (renderVariable context) (variables prompt) (template prompt) in
  let content2 := replaceMatches (nestedMatcher context) content1 in
  {| promptId := id prompt; content := content2;
     rendered_outputFormat := outputFormat prompt |}.

(** *** Where a declared variable is missing *)

(** The names the catalogue gives its variables: a letter or an
    underscore, then letters, digits and underscores.  For such a name the
    regular expression built from the placeholder is the placeholder, read
    as plain text. *)
Definition identStart (c : ascii) : bool :=
  let n := nat_of_ascii c in
  ((65 <=? n) && (n <=? 90) || (97 <=? n) && (n <=? 122) || (n =? 95))%nat.

Definition identChar (c : ascii) : bool :=
  let n := nat_of_ascii c in
  (identStart c || (48 <=? n) && (n <=? 57))%nat.

Definition identifier (name : string) : bool :=
  match name with
  | EmptyString => false
  | String c rest => identStart c && allChars identChar rest
  end.

Definition notChar (x : ascii) (c : ascii) : bool := negb (Ascii.eqb c x).

Ltac each_ascii c :=
  destruct c as [[|] [|] [|] [|] [|] [|] [|] [|]]; try discriminate; try reflexivity.

Lemma identStart_identChar c : identStart c = true -> identChar c = true.
Proof. unfold identChar. intros ->. reflexivity. Qed.

Lemma identChar_plain c :
  identChar c = true -> notChar "{" c = true /\ notChar "[" c = true /\ notChar "}" c = true.
Proof. intros H. repeat split; revert H; each_ascii c. Qed.

Lemma idChar_plain c : idChar c = true -> notChar "[" c = true.
Proof. each_ascii c. Qed.

Lemma lower_ascii_bracket c : notChar "[" (lower_ascii c) = true -> notChar "[" c = true.
Proof. each_ascii c. Qed.

Lemma lower_ascii_brace c : lower_ascii c = "{"%char -> c = "{"%char.
Proof. each_ascii c. Qed.

Lemma allChars_impl (f g : ascii -> bool) s :
  (forall c, f c = true -> g c = true) -> allChars f s = true -> allChars g s = true.
Proof.
  intros Hfg. induction s as [|c s IH]; simpl; [reflexivity|].
  intros H. apply andb_prop in H. destruct H as [Hc Hs].
  now rewrite (Hfg c Hc), (IH Hs).
Qed.

Lemma identifier_chars name :
  identifier name = true ->
  exists c rest, name = String c rest /\ identStart c = true
                 /\ allChars identChar name = true.
Proof.
  destruct name as [|c rest]; [discriminate|]. simpl. intros H.
  apply andb_prop in H. destruct H as [Hc Hrest].
  exists c, rest. split; [reflexivity|]. split; [exact Hc|].
  now rewrite (identStart_identChar c Hc), Hrest.
Qed.

(** The text of a placeholder after its first brace. *)
Definition body (name : string) : string := String "{" (name ++ "}}").

Lemma placeholderOf_body name : placeholderOf name = String "{" (body name).
Proof. reflexivity. Qed.

Lemma body_plain name x :
  (forall c, identChar c = true -> notChar x c = true) -> notChar x "}" = true ->
  allChars identChar name = true ->
  allChars (notChar x) (name ++ "}}") = true.
Proof.
  intros Hx Hclose Hname. rewrite allChars_append.
  rewrite (allChars_impl identChar (notChar x) name Hx Hname). simpl.
  now rewrite Hclose.
Qed.

Lemma literalMatcher_inv pat replacement before rest len r :
  literalMatcher pat replacement before rest = Some (len, r) ->
  len = String.length pat /\ exists tail, rest = pat ++ tail.
Proof.
  unfold literalMatcher. destruct (String.prefix pat rest) eqn:E; [|discriminate].
  intros H. injection H as <- _. split; [reflexivity | exact (prefix_inv _ _ E)].
Qed.

(** A placeholder is matched as a braced text. *)
Lemma literalMatcher_braced name replacement :
  identifier name = true ->
  bracedMatches (literalMatcher (placeholderOf name) replacement).
Proof.
  intros Hid before rest len r Hm.
  destruct (literalMatcher_inv _ _ _ _ _ _ Hm) as [-> [tail ->]].
  destruct (identifier_chars name Hid) as [c [rest' [_ [_ Hall]]]].
  exists (body name), tail. rewrite placeholderOf_body.
  split; [reflexivity|]. split; [reflexivity|].
  unfold body. simpl. apply (body_plain name "["); [|reflexivity | exact Hall].
  intros c' H. apply identChar_plain in H. tauto.
Qed.

Lemma toLowerCase_length s : String.length (toLowerCase s) = String.length s.
Proof. induction s as [|c s IH]; simpl; [reflexivity | now rewrite IH]. Qed.

Lemma toLowerCase_plain s :
  allChars (notChar "[") (toLowerCase s) = true -> allChars (notChar "[") s = true.
Proof.
  induction s as [|c s IH]; simpl; [reflexivity|]. intros H.
  apply andb_prop in H. destruct H as [Hc Hs].
  now rewrite (lower_ascii_bracket c Hc), (IH Hs).
Qed.

Lemma substring_drop n : forall s, substring 0 n s ++ drop n s = s.
Proof.
  induction n as [|n IH]; intros s.
  - destruct s; reflexivity.
  - destruct s as [|c s]; [reflexivity|]. simpl. now rewrite IH.
Qed.

Lemma takeWhile_drop f : forall s,
  takeWhile f s ++ drop (String.length (takeWhile f s)) s = s
  /\ allChars f (takeWhile f s) = true.
Proof.
  induction s as [|c s [IH1 IH2]]; [split; reflexivity|].
  simpl. destruct (f c) eqn:E; simpl.
  - rewrite IH1, E, IH2. split; reflexivity.
  - split; reflexivity.
Qed.

(** So is a reference to an earlier result. *)
Lemma nestedMatcher_braced context : bracedMatches (nestedMatcher context).
Proof.
  intros before rest len r Hm. unfold nestedMatcher in Hm.
  set (opening := "{{previouscontext.") in *.
  destruct (String.eqb (toLowerCase (substring 0 (String.length opening) rest)) opening)
    eqn:Eopen; [|discriminate].
  apply String.eqb_eq in Eopen.
  set (after := drop (String.length opening) rest) in *.
  set (promptId := takeWhile idChar after) in *.
  destruct (negb (String.eqb promptId EmptyString)
            && String.prefix "}}" (drop (String.length promptId) after)) eqn:Eid;
    [|discriminate].
  apply andb_prop in Eid. destruct Eid as [_ Eclose].
  destruct (prefix_inv _ _ Eclose) as [tail Etail].
  injection Hm as <- _.
  destruct (takeWhile_drop idChar after) as [Eafter Hid]. fold promptId in Eafter, Hid.
  pose proof (substring_drop (String.length opening) rest) as Erest. fold after in Erest.
  set (head := substring 0 (String.length opening) rest) in *.
  assert (Hlen : String.length head = String.length opening)
    by (rewrite <- (toLowerCase_length head), Eopen; reflexivity).
  assert (Hplain : allChars (notChar "[") head = true)
    by (apply toLowerCase_plain; rewrite Eopen; reflexivity).
  destruct head as [|h0 head']; [discriminate Hlen|].
  assert (Hh0 : h0 = "{"%char).
  { apply lower_ascii_brace. simpl in Eopen. unfold opening in Eopen.
    injection Eopen as E0 _. exact E0. }
  subst h0.
  exists (head' ++ promptId ++ "}}"), tail. split; [|split].
  - rewrite <- Erest, <- Eafter, Etail. simpl. now rewrite !append_assoc.
  - simpl. rewrite !length_append. simpl in Hlen. simpl. lia.
  - change (allChars (notChar "[") (head' ++ promptId ++ "}}") = true).
    simpl in Hplain. rewrite !allChars_append, Hplain.
    rewrite (allChars_impl idChar (notChar "[") promptId idChar_plain Hid).
    reflexivity.
Qed.

Lemma notAvailable_avoided matcher : bracedMatches matcher -> avoids matcher notAvailable.
Proof. intros H. apply (bracedMatches_avoids matcher "Not available]" H). reflexivity. Qed.

(** Two placeholders that begin at the same place are the same. *)
Lemma body_injective u : forall v t1 t2,
  allChars identChar u = true -> allChars identChar v = true ->
  (u ++ "}}") ++ t1 = (v ++ "}}") ++ t2 -> u = v.
Proof.
  induction u as [|x u IH]; intros v t1 t2 Hu Hv E.
  - destruct v as [|y v]; [reflexivity|]. simpl in E. injection E as <- _.
    simpl in Hv. discriminate.
  - destruct v as [|y v].
    + simpl in E. injection E as -> _. simpl in Hu. discriminate.
    + simpl in E. injection E as <- E. simpl in Hu, Hv.
      apply andb_prop in Hu. apply andb_prop in Hv.
      f_equal. apply (IH v t1 t2); tauto.
Qed.

(** No placeholder runs into another placeholder, or into itself. *)
Lemma placeholder_no_overlap u v replacement before c2 rest len r :
  identifier u = true -> identifier v = true -> c2 <> EmptyString ->
  literalMatcher (placeholderOf u) replacement before (c2 ++ placeholderOf v ++ rest)
  = Some (len, r) ->
  (len <= String.length c2)%nat.
Proof.
  intros Hu Hv Hne Hm.
  destruct (literalMatcher_inv _ _ _ _ _ _ Hm) as [-> [tail E]].
  destruct (Nat.le_gt_cases (String.length (placeholderOf u)) (String.length c2))
    as [Hle|Hgt]; [exact Hle | exfalso].
  destruct (append_eq_split c2 (placeholderOf v ++ rest) (placeholderOf u) tail)
    as [e [Eu Ev]]; [exact E | lia|].
  destruct (identifier_chars u Hu) as [u0 [u' [Eu0 [Hu0 Hallu]]]].
  destruct e as [|y e].
  { rewrite append_nil_r in Eu. rewrite Eu in Hgt. lia. }
  rewrite placeholderOf_body in Ev. simpl in Ev. injection Ev as <- Ev.
  destruct c2 as [|x c2]; [now elim Hne|].
  rewrite placeholderOf_body in Eu. simpl in Eu. injection Eu as _ Eu.
  destruct c2 as [|z c2].
  - simpl in Eu. unfold body in Eu. injection Eu as Eu.
    rewrite <- Eu in Ev. unfold body in Ev. rewrite Eu0 in Ev. simpl in Ev.
    injection Ev as Ev _. rewrite <- Ev in Hu0. discriminate.
  - unfold body in Eu. simpl in Eu. injection Eu as _ Eu.
    assert (Hplain : allChars (notChar "{") (u ++ "}}") = true).
    { apply body_plain; [|reflexivity | exact Hallu].
      intros c H. apply identChar_plain in H. tauto. }
    rewrite Eu, allChars_append in Hplain. simpl in Hplain.
    rewrite andb_false_r in Hplain. discriminate.
Qed.

(** A placeholder is not touched when another one is replaced. *)
Lemma other_placeholder_avoided u v replacement :
  identifier u = true -> identifier v = true -> u <> v ->
  avoids (literalMatcher (placeholderOf u) replacement) (placeholderOf v).
Proof.
  intros Hu Hv Huv. split.
  - intros before c2 rest len r Hne Hm.
    exact (placeholder_no_overlap u v replacement before c2 rest len r Hu Hv Hne Hm).
  - intros before k1 k2 rest Ek Hne.
    destruct (literalMatcher (placeholderOf u) replacement before (k2 ++ rest))
      as [[len r]|] eqn:Hm; [exfalso | reflexivity].
    destruct (literalMatcher_inv _ _ _ _ _ _ Hm) as [_ [tail E]].
    destruct (identifier_chars u Hu) as [u0 [u' [Eu0 [Hu0 Hallu]]]].
    destruct (identifier_chars v Hv) as [v0 [v' [Ev0 [Hv0 Hallv]]]].
    rewrite !placeholderOf_body in *. unfold body in *.
    destruct k1 as [|x k1].
    + simpl in Ek. subst k2. simpl in E. injection E as E.
      apply Huv. symmetry. exact (body_injective v u _ _ Hallv Hallu E).
    + simpl in Ek. injection Ek as _ Ek. destruct k1 as [|y k1].
      * simpl in Ek. subst k2. rewrite Ev0 in E. simpl in E. injection E as E _.
        rewrite E in Hv0. discriminate.
      * simpl in Ek. injection Ek as _ Ek.
        assert (Hplain : allChars (notChar "{") (v ++ "}}") = true).
        { apply body_plain; [|reflexivity | exact Hallv].
          intros c H. apply identChar_plain in H. tauto. }
        rewrite Ek, allChars_append in Hplain.
        destruct k2 as [|z k2]; [now elim Hne|].
        simpl in E. injection E as -> _. simpl in Hplain.
        rewrite andb_false_r in Hplain. discriminate.
Qed.

(** Where the placeholder of a missing variable stands, the marker is
    written. *)
Lemma placeholder_replaced name content :
  identifier name = true ->
  occurs (placeholderOf name) content ->
  occurs notAvailable (replaceAll (placeholderOf name) notAvailable content).
Proof.
  intros Hid [a [b ->]]. unfold replaceAll, replaceMatches.
  set (matcher := literalMatcher (placeholderOf name) notAvailable).
  destruct (scan_cut matcher a EmptyString 0 (placeholderOf name ++ b)) as [out E]; [lia | |].
  - intros c1 c2 len r _ Hne Hm.
    exact (placeholder_no_overlap name name _ _ _ _ _ _ Hid Hid Hne Hm).
  - rewrite E. rewrite placeholderOf_body. cbn [String.append scan].
    unfold matcher at 1, literalMatcher.
    change (String "{" (body name ++ b)) with (placeholderOf name ++ b).
    rewrite prefix_append. cbn [getSubstitution notAvailable].
    eexists out, _. reflexivity.
Qed.

Definition missing (value : Value) : Prop := value = VNull \/ value = VUndefined.

Lemma formatValue_missing value type : missing value -> formatValue value type = notAvailable.
Proof. intros [-> | ->]; reflexivity. Qed.

Lemma renderVariable_keeps_marker context content variable :
  identifier (var_name variable) = true ->
  occurs notAvailable content ->
  occurs notAvailable (renderVariable context content variable).
Proof.
  intros Hid Hocc. unfold renderVariable.
  destruct (includes content (placeholderOf (var_name variable))); [|exact Hocc].
  apply replaceMatches_preserves; [|exact Hocc].
  apply notAvailable_avoided, literalMatcher_braced, Hid.
Qed.

Lemma renderVariable_keeps_placeholder context content variable name :
  identifier (var_name variable) = true -> identifier name = true ->
  var_name variable <> name ->
  occurs (placeholderOf name) content ->
  occurs (placeholderOf name) (renderVariable context content variable).
Proof.
  intros Hid Hname Hne Hocc. unfold renderVariable.
  destruct (includes content (placeholderOf (var_name variable))); [|exact Hocc].
  apply replaceMatches_preserves; [|exact Hocc].
  apply other_placeholder_avoided; assumption.
Qed.

Lemma renderVariable_marks context content variable :
  identifier (var_name variable) = true ->
  missing (resolveVariable (var_name variable) context) ->
  occurs (placeholderOf (var_name variable)) content ->
  occurs notAvailable (renderVariable context content variable).
Proof.
  intros Hid Hmiss Hocc. unfold renderVariable.
  rewrite (proj2 (includes_occurs _ _) Hocc).
  rewrite (formatValue_missing _ _ Hmiss).
  apply placeholder_replaced; assumption.
Qed.

Lemma renderVariables_keep_marker context variables : forall content,
  Forall (fun w => identifier (var_name w) = true) variables ->
  occurs notAvailable content ->
  occurs notAvailable (fold_left (renderVariable context) variables content).
Proof.
  induction variables as [|w variables IH]; intros content Hids Hocc; [exact Hocc|].
  inversion Hids as [|? ? Hw Hrest]; subst. simpl.
  apply IH; [exact Hrest|]. apply renderVariable_keeps_marker; assumption.
Qed.

Lemma renderVariables_mark context variable variables : forall content,
  Forall (fun w => identifier (var_name w) = true) variables ->
  In variable variables ->
  missing (resolveVariable (var_name variable) context) ->
  occurs (placeholderOf (var_name variable)) content ->
  occurs notAvailable (fold_left (renderVariable context) variables content).
Proof.
  induction variables as [|w variables IH]; intros content Hids Hin Hmiss Hocc;
    [destruct Hin|].
  inversion Hids as [|? ? Hw Hrest]; subst. simpl.
  destruct (string_dec (var_name w) (var_name variable)) as [E|E].
  - apply renderVariables_keep_marker; [exact Hrest|].
    apply renderVariable_marks; [exact Hw | rewrite E; exact Hmiss | rewrite E; exact Hocc].
  - destruct Hin as [->|Hin]; [now elim E|].
    apply IH; [exact Hrest | exact Hin | exact Hmiss|].
    apply renderVariable_keeps_placeholder; try assumption.
    rewrite Forall_forall in Hrest. apply (Hrest variable Hin).
Qed.

(** *** The marker in the place of the placeholder *)

Lemma drop_append p : forall s, drop (String.length p) (p ++ s) = s.
Proof. induction p as [|c p IH]; intros s; [now destruct s | exact (IH s)]. Qed.

Lemma append_inv_head p : forall x y, p ++ x = p ++ y -> x = y.
Proof.
  induction p as [|c p IH]; intros x y H; [exact H|]. injection H as H. exact (IH x y H).
Qed.

(** A literal pattern that does not occur in a text leaves it as it is. *)
Lemma replaceAll_absent pat replacement s :
  includes s pat = false -> replaceAll pat replacement s = s.
Proof.
  intros Habsent. unfold replaceAll, replaceMatches.
  rewrite <- (append_nil_r s) at 1. rewrite scan_copy.
  - cbn [scan String.append]. apply append_nil_r.
  - intros k1 k2 E Hne. unfold literalMatcher. rewrite append_nil_r.
    destruct (String.prefix pat k2) eqn:Ep; [exfalso | reflexivity].
    destruct (prefix_inv _ _ Ep) as [r Er].
    assert (Hocc : occurs pat s) by (exists k1, r; rewrite E, Er; reflexivity).
    apply includes_occurs in Hocc. congruence.
Qed.

(** The test of [renderPrompt] before a replacement changes nothing: a
    replacement without a match is the identity. *)
Lemma renderVariable_replaces context content variable :
  renderVariable context content variable
  = replaceAll (placeholderOf (var_name variable))
               (formatValue (resolveVariable (var_name variable) context) (var_type variable))
               content.
Proof.
  unfold renderVariable.
  destruct (includes content (placeholderOf (var_name variable))) eqn:E; [reflexivity|].
  symmetry. apply replaceAll_absent, E.
Qed.

(** The replacement of a match that starts a text, and of a text that
    starts with no match. *)
Lemma scan_hit pat replacement before s :
  pat <> EmptyString ->
  scan (literalMatcher pat replacement) before 0 (pat ++ s)
  = getSubstitution pat before s replacement
    ++ scan (literalMatcher pat replacement) (before ++ pat) 0 s.
Proof.
  intros Hne. destruct pat as [|c pat]; [now elim Hne|].
  cbn [String.append scan]. unfold literalMatcher at 1.
  change (String c (pat ++ s)) with (String c pat ++ s).
  rewrite prefix_append, drop_append. f_equal.
  change (Nat.pred (String.length (String c pat))) with (String.length pat).
  rewrite scan_skip, append_assoc. reflexivity.
Qed.

Lemma scan_miss pat replacement before c s :
  String.prefix pat (String c s) = false ->
  scan (literalMatcher pat replacement) before 0 (String c s)
  = String c (scan (literalMatcher pat replacement) (before ++ String c EmptyString) 0 s).
Proof. intros H. cbn [scan]. unfold literalMatcher at 1. rewrite H. reflexivity. Qed.

Section InPlace.
Variable name : string.
Hypothesis name_identifier : identifier name = true.

(** [swapped x y]: [y] is [x] with the marker written in the place of
    some occurrences of the placeholder of [name]. *)
Inductive swapped : string -> string -> Prop :=
| swapped_nil : swapped EmptyString EmptyString
| swapped_char c x y : swapped x y -> swapped (String c x) (String c y)
| swapped_marker x y :
    swapped x y -> swapped (placeholderOf name ++ x) (notAvailable ++ y).

Lemma swapped_refl x : swapped x x.
Proof. induction x as [|c x IH]; [apply swapped_nil | apply swapped_char, IH]. Qed.

Lemma swapped_app x y x' y' :
  swapped x y -> swapped x' y' -> swapped (x ++ x') (y ++ y').
Proof.
  intros H H'. induction H as [|c x y _ IH|x y _ IH]; [exact H'| |].
  - cbn [String.append]. apply swapped_char, IH.
  - rewrite !append_assoc. apply swapped_marker, IH.
Qed.

Lemma swapped_once a b :
  swapped (a ++ placeholderOf name ++ b) (a ++ notAvailable ++ b).
Proof.
  apply swapped_app; [apply swapped_refl|]. apply swapped_marker, swapped_refl.
Qed.

Lemma swapped_inv x y :
  swapped x y ->
  (x = EmptyString /\ y = EmptyString)
  \/ (exists c x0 y0, x = String c x0 /\ y = String c y0 /\ swapped x0 y0)
  \/ (exists x0 y0, x = placeholderOf name ++ x0 /\ y = notAvailable ++ y0 /\ swapped x0 y0).
Proof.
  intros H. destruct H as [|c x y H|x y H].
  - left. split; reflexivity.
  - right. left. exists c, x, y. repeat split. exact H.
  - right. right. exists x, y. repeat split. exact H.
Qed.

(** No occurrence of the placeholder starts inside another one. *)
Lemma placeholder_inside k1 k2 rest :
  placeholderOf name = k1 ++ k2 -> k1 <> EmptyString -> k2 <> EmptyString ->
  String.prefix (placeholderOf name) (k2 ++ rest) = false.
Proof.
  intros E Hk1 Hk2.
  destruct (String.prefix (placeholderOf name) (k2 ++ rest)) eqn:Ep; [exfalso | reflexivity].
  destruct (prefix_inv _ _ Ep) as [tail Etail].
  assert (Hm : literalMatcher (placeholderOf name) notAvailable EmptyString
                 (k1 ++ placeholderOf name ++ tail)
               = Some (String.length (placeholderOf name),
                       getSubstitution (placeholderOf name) EmptyString
                         (drop (String.length (placeholderOf name))
                               (k1 ++ placeholderOf name ++ tail)) notAvailable)).
  { unfold literalMatcher. rewrite <- Etail, <- append_assoc, <- E, prefix_append.
    reflexivity. }
  pose proof (placeholder_no_overlap name name _ _ _ _ _ _
                name_identifier name_identifier Hk1 Hm) as Hlen.
  rewrite E, length_append in Hlen.
  destruct k2; [now elim Hk2 | simpl in Hlen; lia].
Qed.

(** A stretch in which no occurrence of the placeholder starts is the
    same on both sides. *)
Lemma swapped_stretch k : forall x1 y,
  (forall k1 k2 rest, k = k1 ++ k2 -> k2 <> EmptyString ->
                      String.prefix (placeholderOf name) (k2 ++ rest) = false) ->
  swapped (k ++ x1) y -> exists y1, y = k ++ y1 /\ swapped x1 y1.
Proof.
  induction k as [|c k IH]; intros x1 y Hk H.
  - exists y. split; [reflexivity | exact H].
  - cbn [String.append] in H.
    destruct (swapped_inv _ _ H) as [[Ex _] | [(c' & x0 & y0 & Ex & -> & H0) | (x0 & y0 & Ex & _ & _)]].
    + discriminate Ex.
    + injection Ex as <- <-.
      destruct (IH x1 y0) as [y1 [-> Hy1]]; [|exact H0|].
      * intros k1 k2 rest E Hne.
        apply (Hk (String c k1) k2 rest); [rewrite E; reflexivity | exact Hne].
      * exists y1. split; [reflexivity | exact Hy1].
    + exfalso. pose proof (Hk EmptyString (String c k) x1 eq_refl) as Hfalse.
      cbn [String.append] in Hfalse. rewrite Ex, prefix_append in Hfalse.
      discriminate Hfalse. discriminate.
Qed.

(** So is a text without an opening bracket that starts the right-hand
    side. *)
Lemma swapped_plain k : forall x y1,
  allChars (notChar "[") k = true ->
  swapped x (k ++ y1) -> exists x1, x = k ++ x1 /\ swapped x1 y1.
Proof.
  induction k as [|c k IH]; intros x y1 Hk H.
  - exists x. split; [reflexivity | exact H].
  - cbn [String.append] in H. cbn [allChars] in Hk. apply andb_prop in Hk.
    destruct Hk as [Hc Hk].
    destruct (swapped_inv _ _ H) as [[_ Ey] | [(c' & x0 & y0 & -> & Ey & H0) | (x0 & y0 & _ & Ey & _)]].
    + discriminate Ey.
    + injection Ey as <- <-.
      destruct (IH x0 y1 Hk H0) as [x1 [-> Hx1]].
      exists x1. split; [reflexivity | exact Hx1].
    + exfalso. cbn in Ey. injection Ey as Ec _. subst c. discriminate Hc.
Qed.

Lemma placeholderOf_plain u :
  identifier u = true -> allChars (notChar "[") (placeholderOf u) = true.
Proof.
  intros Hu. destruct (identifier_chars u Hu) as (c & rest & _ & _ & Hall).
  rewrite placeholderOf_body. unfold body. cbn [allChars]. cbn [notChar Ascii.eqb].
  change (allChars (notChar "[") (u ++ "}}") = true).
  apply body_plain; [|reflexivity | exact Hall].
  intros c' H. apply identChar_plain in H. tauto.
Qed.

(** What stands on the right of a placeholder on the left. *)
Lemma swapped_head x y :
  swapped (placeholderOf name ++ x) y ->
  exists y1, swapped x y1
             /\ (y = placeholderOf name ++ y1 \/ y = notAvailable ++ y1).
Proof.
  intros H. rewrite placeholderOf_body in H. cbn [String.append] in H.
  destruct (swapped_inv _ _ H) as [[Ex _] | [(c' & x0 & y0 & Ex & -> & H0) | (x0 & y0 & Ex & -> & H0)]].
  - discriminate Ex.
  - injection Ex as <- <-.
    destruct (swapped_stretch (body name) x y0) as [y1 [-> Hy1]]; [|exact H0|].
    + intros k1 k2 rest E Hne.
      apply (placeholder_inside (String "{" k1) k2 rest);
        [rewrite placeholderOf_body, E; reflexivity | discriminate | exact Hne].
    + exists y1. split; [exact Hy1|]. left. rewrite placeholderOf_body. reflexivity.
  - exists y0. rewrite placeholderOf_body in Ex. cbn [String.append] in Ex.
    injection Ex as Ex. apply append_inv_head in Ex. subst x0.
    split; [exact H0 | right; reflexivity].
Qed.

(** A literal pattern without an opening bracket, in which no occurrence
    of the placeholder starts, matches on both sides or on neither. *)
Lemma swapped_prefix pat x y :
  allChars (notChar "[") pat = true ->
  (forall k1 k2 rest, pat = k1 ++ k2 -> k2 <> EmptyString ->
                      String.prefix (placeholderOf name) (k2 ++ rest) = false) ->
  swapped x y -> String.prefix pat x = String.prefix pat y.
Proof.
  intros Hplain Hinside H.
  destruct (String.prefix pat x) eqn:Ex; destruct (String.prefix pat y) eqn:Ey;
    try reflexivity; exfalso.
  - destruct (prefix_inv _ _ Ex) as [x1 ->].
    destruct (swapped_stretch pat x1 y Hinside H) as [y1 [-> _]].
    rewrite prefix_append in Ey. discriminate Ey.
  - destruct (prefix_inv _ _ Ey) as [y1 ->].
    destruct (swapped_plain pat x y1 Hplain H) as [x1 [-> _]].
    rewrite prefix_append in Ex. discriminate Ex.
Qed.

(** **** Replacing the placeholder itself *)

Definition marked (s : string) : string := replaceAll (placeholderOf name) notAvailable s.

Lemma marker_anywhere before1 before2 rest :
  literalMatcher (placeholderOf name) notAvailable before1 rest
  = literalMatcher (placeholderOf name) notAvailable before2 rest.
Proof. unfold literalMatcher. destruct (String.prefix _ rest); reflexivity. Qed.

Lemma placeholderOf_nonempty u : placeholderOf u <> EmptyString.
Proof. rewrite placeholderOf_body. discriminate. Qed.

Lemma marked_hit x : marked (placeholderOf name ++ x) = notAvailable ++ marked x.
Proof.
  unfold marked, replaceAll, replaceMatches.
  rewrite scan_hit by apply placeholderOf_nonempty.
  cbn [getSubstitution notAvailable]. f_equal.
  apply (scan_anywhere _ marker_anywhere).
Qed.

Lemma marked_marker y : marked (notAvailable ++ y) = notAvailable ++ marked y.
Proof.
  unfold marked, replaceAll, replaceMatches.
  destruct (notAvailable_avoided _ (literalMatcher_braced name notAvailable name_identifier))
    as [_ Hinside].
  rewrite scan_copy.
  - f_equal. apply (scan_anywhere _ marker_anywhere).
  - intros k1 k2 E Hne. apply (Hinside _ k1 k2 y E Hne).
Qed.

Lemma marked_miss c s :
  String.prefix (placeholderOf name) (String c s) = false ->
  marked (String c s) = String c (marked s).
Proof.
  intros H. unfold marked, replaceAll, replaceMatches. rewrite (scan_miss _ _ _ _ _ H).
  f_equal. apply (scan_anywhere _ marker_anywhere).
Qed.

(** Two texts that differ by markers in the place of placeholders become
    the same text once every placeholder is replaced. *)
Lemma marked_swapped : forall n x y,
  (String.length x <= n)%nat -> swapped x y -> marked x = marked y.
Proof.
  induction n as [|n IH]; intros x y Hn H.
  - destruct x; [|simpl in Hn; lia].
    destruct (swapped_inv _ _ H) as [[_ ->] | [(c' & x0 & y0 & Ex & _) | (x0 & y0 & Ex & _)]];
      [reflexivity | discriminate Ex|].
    rewrite placeholderOf_body in Ex. discriminate Ex.
  - destruct (String.prefix (placeholderOf name) x) eqn:Ep.
    + destruct (prefix_inv _ _ Ep) as [x1 ->].
      destruct (swapped_head x1 y H) as (y1 & H1 & [-> | ->]);
        rewrite marked_hit, ?marked_hit, ?marked_marker; f_equal; apply IH; try exact H1;
        rewrite length_append, placeholderOf_body in Hn; simpl in Hn; lia.
    + destruct (swapped_inv _ _ H)
        as [[-> ->] | [(c' & x0 & y0 & -> & -> & H0) | (x0 & y0 & -> & _ & _)]].
      * reflexivity.
      * assert (Ey : String.prefix (placeholderOf name) (String c' y0) = false).
        { destruct (String.prefix (placeholderOf name) (String c' y0)) eqn:Ey;
            [exfalso | reflexivity].
          destruct (prefix_inv _ _ Ey) as [y1 Ey1]. rewrite Ey1 in H.
          destruct (swapped_plain _ _ y1 (placeholderOf_plain name name_identifier) H)
            as [x1 [Ex1 _]].
          rewrite Ex1, prefix_append in Ep. discriminate Ep. }
        rewrite (marked_miss _ _ Ep), (marked_miss _ _ Ey). f_equal.
        apply IH; [simpl in Hn; lia | exact H0].
      * rewrite prefix_append in Ep. discriminate Ep.
Qed.


(** **** Replacing the placeholder of another variable *)

Section OtherVariable.
Variable other : string.
Hypothesis other_identifier : identifier other = true.
Hypothesis other_name : other <> name.
Variable replacement : string.

Lemma other_inside k1 k2 rest :
  placeholderOf other = k1 ++ k2 -> k2 <> EmptyString ->
  String.prefix (placeholderOf name) (k2 ++ rest) = false.
Proof.
  intros E Hne.
  destruct (other_placeholder_avoided name other notAvailable name_identifier
              other_identifier (fun H => other_name (eq_sym H))) as [_ Hinside].
  specialize (Hinside EmptyString k1 k2 rest E Hne). unfold literalMatcher in Hinside.
  destruct (String.prefix (placeholderOf name) (k2 ++ rest)); [discriminate Hinside | reflexivity].
Qed.

(** The text written for a match: what it takes from the text before and
    after the match differs by markers as these texts do. *)
Lemma getSubstitution_swapped matched : forall n r before after before' after',
  (String.length r <= n)%nat -> swapped before before' -> swapped after after' ->
  swapped (getSubstitution matched before after r)
          (getSubstitution matched before' after' r).
Proof.
  induction n as [|n IH]; intros r before after before' after' Hn Hb Ha.
  - destruct r; [apply swapped_nil | simpl in Hn; lia].
  - destruct r as [|c r]; [apply swapped_nil|].
    assert (Hr : (String.length r <= n)%nat) by (simpl in Hn; lia).
    destruct c as [[|] [|] [|] [|] [|] [|] [|] [|]];
      try (cbn [getSubstitution]; apply swapped_char, IH; assumption).
    destruct r as [|d r]; [cbn [getSubstitution]; apply swapped_char, swapped_nil|].
    assert (Hr' : (String.length r <= n)%nat) by (simpl in Hr; lia).
    destruct d as [[|] [|] [|] [|] [|] [|] [|] [|]];
      cbn [getSubstitution];
      first [ repeat apply swapped_char; apply IH; assumption
            | apply swapped_app; [first [apply swapped_refl | exact Hb | exact Ha]
                                 | apply IH; assumption] ].
Qed.

(** One replacement keeps two texts the same up to markers. *)
Lemma scan_swapped : forall n x y before before',
  (String.length x <= n)%nat -> swapped x y -> swapped before before' ->
  swapped (scan (literalMatcher (placeholderOf other) replacement) before 0 x)
          (scan (literalMatcher (placeholderOf other) replacement) before' 0 y).
Proof.
  induction n as [|n IH]; intros x y before before' Hn H Hb.
  - destruct x; [|simpl in Hn; lia].
    destruct (swapped_inv _ _ H) as [[_ ->] | [(c' & x0 & y0 & Ex & _) | (x0 & y0 & Ex & _)]];
      [apply swapped_nil | discriminate Ex|].
    rewrite placeholderOf_body in Ex. discriminate Ex.
  - destruct (String.prefix (placeholderOf other) x) eqn:Ep.
    + destruct (prefix_inv _ _ Ep) as [x1 ->].
      destruct (swapped_stretch (placeholderOf other) x1 y other_inside H) as [y1 [-> H1]].
      rewrite !scan_hit by apply placeholderOf_nonempty.
      apply swapped_app.
      * apply (getSubstitution_swapped _ (String.length replacement)); [lia | exact Hb | exact H1].
      * apply IH; [|exact H1 | apply swapped_app; [exact Hb | apply swapped_refl]].
        rewrite length_append, placeholderOf_body in Hn. simpl in Hn. lia.
    + destruct (swapped_inv _ _ H)
        as [[-> ->] | [(c' & x0 & y0 & -> & -> & H0) | (x0 & y0 & -> & -> & H0)]].
      * apply swapped_nil.
      * assert (Ey : String.prefix (placeholderOf other) (String c' y0) = false).
        { destruct (String.prefix (placeholderOf other) (String c' y0)) eqn:Ey;
            [exfalso | reflexivity].
          destruct (prefix_inv _ _ Ey) as [y1 Ey1]. rewrite Ey1 in H.
          destruct (swapped_plain _ _ y1 (placeholderOf_plain other other_identifier) H)
            as [x1 [Ex1 _]].
          rewrite Ex1, prefix_append in Ep. discriminate Ep. }
        rewrite (scan_miss _ _ _ _ _ Ep), (scan_miss _ _ _ _ _ Ey).
        apply swapped_char, IH; [simpl in Hn; lia | exact H0|].
        apply swapped_app; [exact Hb | apply swapped_refl].
      * destruct (other_placeholder_avoided other name replacement other_identifier
                    name_identifier other_name) as [_ Hin1].
        destruct (notAvailable_avoided _
                    (literalMatcher_braced other replacement other_identifier))
          as [_ Hin2].
        rewrite (scan_copy _ (placeholderOf name))
          by (intros k1 k2 E Hne; apply (Hin1 _ k1 k2 x0 E Hne)).
        rewrite (scan_copy _ notAvailable)
          by (intros k1 k2 E Hne; apply (Hin2 _ k1 k2 y0 E Hne)).
        apply swapped_marker, IH; [|exact H0|].
        -- rewrite length_append, placeholderOf_body in Hn. simpl in Hn. lia.
        -- apply swapped_app; [exact Hb|].
           rewrite <- (append_nil_r (placeholderOf name)), <- (append_nil_r notAvailable).
           apply swapped_marker, swapped_nil.
Qed.

End OtherVariable.

End InPlace.

(** Two texts that differ by markers in the place of the placeholders of
    a missing variable are rendered to the same text, when the variable
    is declared. *)
Lemma renderVariables_swapped context name :
  identifier name = true ->
  missing (resolveVariable name context) ->
  forall declared x y,
    Forall (fun w => identifier (var_name w) = true) declared ->
    (exists v, In v declared /\ var_name v = name) ->
    swapped name x y ->
    fold_left (renderVariable context) declared x
    = fold_left (renderVariable context) declared y.
Proof.
  intros Hname Hmiss. induction declared as [|w declared IH]; intros x y Hids Hv Hxy.
  - destruct Hv as (v & [] & _).
  - inversion Hids as [|? ? Hw Hrest]; subst. cbn [fold_left].
    rewrite !renderVariable_replaces.
    destruct (string_dec (var_name w) name) as [E|E].
    + rewrite E, (formatValue_missing _ _ Hmiss).
      fold (marked name x). fold (marked name y).
      rewrite (marked_swapped name Hname (String.length x) x y (Nat.le_refl _) Hxy).
      reflexivity.
    + apply (IH _ _ Hrest).
      * destruct Hv as (v & [-> | Hin] & Ev); [contradiction | exists v; split; assumption].
      * unfold replaceAll, replaceMatches.
        apply (scan_swapped name Hname (var_name w) Hw E _ (String.length x));
          [lia | exact Hxy | apply swapped_nil].
Qed.

(** [prompt] with another template. *)
Definition withTemplate (text : string) (prompt : PromptConfig) : PromptConfig :=
  {| id := id prompt; prompt_name := prompt_name prompt;
     description := description prompt; targetType := targetType prompt;
     category := category prompt; order := order prompt;
     template := text; variables := variables prompt;
     contextRequired := contextRequired prompt; outputFormat := outputFormat prompt |}.


Definition mkVariable (n : string) (t : VariableType) : PromptVariable :=
  {| var_name := n; var_description := EmptyString; var_type := t; required := false |}.

Definition mkPrompt (text : string) (vars : list PromptVariable) : PromptConfig :=
  {| id := "doc-summary"; prompt_name := "Documentation"; description := EmptyString;
     targetType := all; category := documentation; order := 1;
     template := text; variables := vars; contextRequired := [];
     outputFormat := markdown |}.

(** A repository of one source file, without a README. *)
Definition bareContext : PromptContext :=
  {| repoUrl := "https://github.com/acme/widget"; repoName := "acme/widget";
     branch := "main"; commitHash := "0a1b2c3"; repoType := "library";
     techStack := ["typescript"]; directoryStructure := "widget/";
     fileList := ["src/index.ts"];
     fileContents := [("src/index.ts", "export const x = 1;")];
     previousContext := []; configFiles := [] |}.

(** A template that names the repository and asks twice for a licence
    that the context does not hold. *)
Definition licence_prompt : PromptConfig :=
  mkPrompt "Name: {{repoName}}. License: {{license}}. Again: {{license}}"
           [mkVariable "repoName" vt_string; mkVariable "license" vt_string].



End PromptRenderer.

(** ** Analysis pipeline ([src/services/analysis-orchestrator.ts]) *)

Module Orchestrator.
Import JsString.

Local Open Scope list_scope.
Local Open Scope string_scope.

Abbreviation RepositoryType := TypeDetector.RepositoryType.
Abbreviation FileInfo := TypeDetector.FileInfo.
Abbreviation DirectoryStructure := TypeDetector.DirectoryStructure.
Abbreviation TypeDetectionResult := TypeDetector.TypeDetectionResult.
Abbreviation FindingType := PromptEngine.FindingType.
Abbreviation PromptConfig := PromptEngine.PromptConfig.
Abbreviation PromptContext := PromptRenderer.PromptContext.
Abbreviation Dict := PromptRenderer.Dict.

(** *** Data *)

Inductive AnalysisStatus :=
| queued | cloning | detecting | analyzing | synthesizing | generating
| completed | failed.

Inductive AnalysisDepth := quick | standard | deep.

(** A value of type [unknown] that came from JSON. *)
#[local] Unset Elimination Schemes.
Inductive JValue :=
| JUndefined
| JNull
| JBool (b : bool)
| JNumber (q : Q)
| JString (s : string)
| JArray (items : list JValue)
| JObject (fields : list (string * JValue)).
#[local] Set Elimination Schemes.

Record AnalysisRequest := {
  req_repoUrl : string;
  req_branch : option string;
  req_analysisDepth : option AnalysisDepth;
  includeSecurityScan : option bool;
  force : option bool;
  webhookUrl : option string
}.

Record TenantContext := {
  userId : string;
  tenantId : string;
  requestId : option string
}.

Record RepositoryParseResult := {
  isValid : bool;
  platform : option string;
  owner : option string;
  parsed_name : option string;
  parsed_branch : option string;
  parse_error : option string
}.

Record RepositoryCloneResult := {
  success : bool;
  localPath : string;
  clone_commitHash : string;
  clone_branch : string;
  clone_error : option string
}.

Record RepositoryMetadata := {
  sizeBytes : Z;
  fileCount : Z;
  directoryCount : Z
}.

Record RepositoryInfo := {
  info_url : string;
  info_platform : option string;
  info_owner : option string;
  info_name : option string;
  info_branch : string;
  info_commitHash : option string
}.

Record Component := {
  comp_name : string;
  comp_type : JValue;
  comp_path : string;
  comp_description : string;
  comp_dependencies : JValue;
  comp_exports : JValue;
  linesOfCode : JValue;
  complexity : JValue
}.

Record DependencyGraph := {
  nodes : JValue;
  edges : JValue;
  externalDependencies : JValue
}.

Record ArchitectureAnalysis := {
  pattern : JValue;
  patternConfidence : JValue;
  layers : JValue;
  components : list Component;
  dependencies : DependencyGraph
}.

Record Finding := {
  finding_id : string;
  agentType : string;
  findingType : FindingType;
  severity : JValue;
  title : string;
  finding_description : string;
  location : JValue;
  lineNumber : JValue;
  recommendation : JValue
}.

Record SecurityFinding := {
  sec_id : string;
  sec_agentType : string;
  sec_findingType : FindingType;
  sec_severity : JValue;
  sec_title : string;
  sec_description : string;
  sec_location : JValue;
  sec_lineNumber : JValue;
  sec_recommendation : string;
  cwe : JValue;
  owasp : JValue;
  cvss : JValue;
  remediation : string
}.

Record Recommendation := {
  rec_category : FindingType;
  priority : JValue;
  rec_title : string;
  rec_description : string;
  effort : JValue;
  impact : JValue
}.

Record AnalysisResult := {
  detectedType : RepositoryType;
  techStack : list string;
  architecture : ArchitectureAnalysis;
  findings : list Finding;
  securityFindings : option (list SecurityFinding);
  recommendations : list Recommendation;
  archMd : string;
  repositoryInfo : option RepositoryInfo;
  repositoryMetadata : RepositoryMetadata;
  directoryStructure : DirectoryStructure
}.

(** [AnalysisUsage], without the duration read from the clock.
    [tokensConsumed] is declared a number; it is [None] once it no longer
    holds a finite number (it can become a text, [NaN] or an infinity). *)
Record AnalysisUsage := {
  tokensConsumed : option Q;
  inputTokens : Q;
  outputTokens : Q;
  agentsUsed : nat;
  filesAnalyzed : nat;
  repoSizeBytes : Z;
  cacheHit : bool
}.

(** [Analysis], the job; the three dates read from the clock are left
    out. *)
Record Analysis := {
  id : string;
  job_userId : string;
  job_tenantId : string;
  repoUrl : string;
  repoName : string;
  branch : string;
  commitHash : option string;
  analysisDepth : AnalysisDepth;
  includeSecurity : bool;
  forceReanalysis : bool;
  status : AnalysisStatus;
  progress : Q;
  currentStep : option string;
  errorMessage : option string;
  result : option AnalysisResult;
  usage : AnalysisUsage
}.

Record AnalysisProgress := {
  analysisId : string;
  progress_status : AnalysisStatus;
  progress_value : Q;
  progress_step : string
}.

Record CacheEntry := {
  entry_repoUrl : string;
  entry_branch : string;
  entry_commitHash : string;
  entry_result : AnalysisResult
}.

Record AgentResult := {
  taskId : string;
  agent_type : FindingType;
  agent_success : bool;
  output : JValue;
  tokensUsed : JValue;
  agent_error : option string
}.

Inductive WebhookPayload :=
| analysis_completed (analysisId : string) (result : AnalysisResult)
| analysis_failed (analysisId : string) (error : option string).

(** What a [throw] carries: an [Error] with its message; [null] or
    [undefined]; or another value, with what its property [message]
    holds when that is a text (nothing, when it is [undefined]). *)
Inductive Thrown :=
| ErrorObject (message : string)
| Nullish (isNull : bool)
| OtherValue (message : option string).

(** [error instanceof Error ? error.message : 'Unknown error'] *)
Definition messageOf (e : Thrown) : string :=
  match e with ErrorObject m => m | _ => "Unknown error" end.

Inductive Outcome (R : Type) := Resolved (r : R) | Rejected (e : Thrown).
Arguments Resolved {R} r.
Arguments Rejected {R} e.

(** The calls the pipeline awaits: each suspends the job until the
    collaborator answers. *)
Inductive Call : Type -> Type :=
| CacheGet (repoUrl : string) (branch : option string) : Call (option CacheEntry)
| CloneRepository (repoUrl : string) (branch : option string) : Call RepositoryCloneResult
| GetDirectoryStructure (localPath : string) : Call DirectoryStructure
| GetFiles (localPath : string) : Call (list FileInfo)
| GetRepositoryMetadata (localPath : string) : Call RepositoryMetadata
| Detect (localPath : string) (structure_ : DirectoryStructure) (files : list FileInfo)
  : Call TypeDetectionResult
| ReadFiles (localPath : string) (filePaths : list string) : Call Dict
| ReadFile (localPath : string) (filePath : string) : Call (option string)
| PostTask (taskId objective tenantIdHeader userIdHeader requestIdHeader : string)
  : Call JValue (* the [data] of the response *)
| CacheSet (repoUrl branch commitHash : string) (result : AnalysisResult) : Call unit
| PostWebhook (url : string) (payload : WebhookPayload) : Call unit
| Cleanup (localPath : string) : Call unit.

(** The answers of the collaborators.  A call is answered by what it
    asks: within a run, the same call gets the same answer. *)
Definition World := forall R, Call R -> Outcome R.

(** What the pipeline calls synchronously and takes from elsewhere: the
    URL parser of the repository manager (over the platform's [URL]), the
    catalogue of the prompt engine, the report generator, the identifiers
    [uuidv4] draws one after the other, and [JSON.stringify] and [String]
    of the runtime. *)
Record Runtime := {
  parseRepoUrl : string -> RepositoryParseResult;
  catalogue : PromptEngine.Catalogue;
  generateMarkdown : AnalysisResult -> Outcome string;
  uuidv4 : nat -> string;
  stringify : JValue -> string;
  toString : JValue -> Outcome string
}.

(** *** Asynchronous code

    An [async] function runs until its first [await], and again from each
    answer to the next [await]; between two of them nothing else touches
    the job.  A process is the tree of what the function does: it ends,
    it emits a progress event, or it awaits a call, with the job as it
    stands at that moment. *)
Inductive Proc (A : Type) : Type :=
| Ret (a : A)
| Emit (p : AnalysisProgress) (k : Proc A)
| Await (R : Type) (job : Analysis) (c : Call R) (k : Outcome R -> Proc A).
Arguments Ret {A} a.
Arguments Emit {A} p k.
Arguments Await {A R} job c k.

Fixpoint bindProc {A B} (p : Proc A) (f : A -> Proc B) : Proc B :=
  match p with
  | Ret a => f a
  | Emit e k => Emit e (bindProc k f)
  | Await job c k => Await job c (fun o => bindProc (k o) f)
  end.

(** What a run leaves behind. *)
Inductive Step :=
| Progress (p : AnalysisProgress)
| Called (R : Type) (c : Call R) (job : Analysis).
Arguments Called {R} c job.

(** A whole run, the collaborators answering as [world] says. *)
Fixpoint run {A} (world : World) (p : Proc A) : A * list Step :=
  match p with
  | Ret a => (a, [])
  | Emit e k => let '(a, t) := run world k in (a, Progress e :: t)
  | Await job c k => let '(a, t) := run world (k (world _ c)) in (a, Called c job :: t)
  end.

(** The local state of [runAnalysis]: the job, the variable [localPath]
    (empty for [null]) and the number of identifiers drawn. *)
Record Frame := {
  job : Analysis;
  clonePath : string;
  drawn : nat
}.

Inductive Result (A : Type) := Ok (a : A) | Throw (e : Thrown).
Arguments Ok {A} a.
Arguments Throw {A} e.

(** Code that reads and writes the frame, may throw and may await. *)
Definition M (A : Type) : Type := Frame -> Proc (Result A * Frame).

Definition ret {A} (a : A) : M A := fun fr => Ret (Ok a, fr).

Definition throw {A} (e : Thrown) : M A := fun fr => Ret (Throw e, fr).

Definition bind {A B} (m : M A) (f : A -> M B) : M B :=
  fun fr =>
    bindProc (m fr)
             (fun '(r, fr') => match r with
                               | Ok a => f a fr'
                               | Throw e => Ret (Throw e, fr')
                               end).

Notation "'let*' x ':=' m 'in' k" := (bind m (fun x => k))
  (at level 10, x pattern, m at level 100, k at level 200).
Notation "m ';;' k" := (bind m (fun _ => k))
  (at level 100, k at level 200, right associativity).

(** [await call] *)
Definition await {R} (c : Call R) : M R :=
  fun fr =>
    Await (job fr) c
          (fun o => match o with
                    | Resolved r => Ret (Ok r, fr)
                    | Rejected e => Ret (Throw e, fr)
                    end).

(** [try { body } catch (error) { handler }] *)
Definition tryCatch {A} (body : M A) (handler : Thrown -> M A) : M A :=
  fun fr =>
    bindProc (body fr)
             (fun '(r, fr') => match r with
                               | Ok a => Ret (Ok a, fr')
                               | Throw e => handler e fr'
                               end).

(** [try { body } finally { finalizer }]: the finalizer always runs; what
    it throws replaces the outcome of the body. *)
Definition tryFinally {A} (body : M A) (finalizer : M unit) : M A :=
  fun fr =>
    bindProc (body fr)
             (fun '(r, fr') =>
                bindProc (finalizer fr')
                         (fun '(r', fr'') => match r' with
                                             | Ok _ => Ret (r, fr'')
                                             | Throw e => Ret (Throw e, fr'')
                                             end)).

Definition getFrame : M Frame := fun fr => Ret (Ok fr, fr).

Definition getJob : M Analysis := fun fr => Ret (Ok (job fr), fr).

Definition setJob (f : Analysis -> Analysis) : M unit :=
  fun fr => Ret (Ok tt, {| job := f (job fr); clonePath := clonePath fr; drawn := drawn fr |}).

Definition setClonePath (p : string) : M unit :=
  fun fr => Ret (Ok tt, {| job := job fr; clonePath := p; drawn := drawn fr |}).

(** [uuidv4()] *)
Definition freshUuid (rt : Runtime) : M string :=
  fun fr => Ret (Ok (uuidv4 rt (drawn fr)),
                 {| job := job fr; clonePath := clonePath fr; drawn := S (drawn fr) |}).

(** [emitProgress]; the listeners of the event do not throw. *)
Definition emitProgress : M unit :=
  fun fr =>
    Emit {| analysisId := id (job fr);
            progress_status := status (job fr);
            progress_value := progress (job fr);
            progress_step := match currentStep (job fr) with
                             | Some step => step
                             | None => EmptyString
                             end |}
         (Ret (Ok tt, fr)).

(** *** Values of the runtime *)

(** Whether a value counts as true.  A number that came from JSON is never
    [NaN]. *)
Definition truthy (v : JValue) : bool :=
  match v with
  | JUndefined | JNull => false
  | JBool b => b
  | JNumber q => negb (Qeq_bool q 0)
  | JString s => negb (String.eqb s EmptyString)
  | JArray _ | JObject _ => true
  end.

(** [a || b] *)
Definition orElse (a b : JValue) : JValue := if truthy a then a else b.

Definition lookup (fields : list (string * JValue)) (key : string) : JValue :=
  match find (fun e => String.eqb (fst e) key) fields with
  | Some e => snd e
  | None => JUndefined
  end.

Definition typeError (reading : string) (receiver : string) : Thrown :=
  ErrorObject ("Cannot read properties of " ++ receiver ++ " (reading '" ++ reading ++ "')").

(** [v.key], for the keys this file reads: none of them is a property of
    a string, a number, a boolean or an array, or inherited by an
    object. *)
Definition getField (v : JValue) (key : string) : Result JValue :=
  match v with
  | JUndefined => Throw (typeError key "undefined")
  | JNull => Throw (typeError key "null")
  | JObject fields => Ok (lookup fields key)
  | _ => Ok JUndefined
  end.

(** [v.key] where [v] is known to count as true. *)
Definition field (v : JValue) (key : string) : JValue :=
  match v with
  | JObject fields => lookup fields key
  | _ => JUndefined
  end.

(** [v?.key] *)
Definition optionalField (v : JValue) (key : string) : JValue := field v key.

Definition stringOr (s : option string) (default : string) : string :=
  match s with
  | Some (String c s') => String c s'
  | _ => default
  end.

(** An optional string inside a template literal. *)
Definition interpolate (s : option string) : string :=
  match s with Some s' => s' | None => "undefined" end.

Definition repositoryTypeName (t : RepositoryType) : string :=
  match t with
  | TypeDetector.backend => "backend"
  | TypeDetector.frontend => "frontend"
  | TypeDetector.mobile => "mobile"
  | TypeDetector.infra_as_code => "infra-as-code"
  | TypeDetector.library => "library"
  | TypeDetector.monorepo => "monorepo"
  | TypeDetector.unknown => "unknown"
  end.

Definition categoryName (c : FindingType) : string :=
  match c with
  | PromptEngine.architecture => "architecture"
  | PromptEngine.security => "security"
  | PromptEngine.performance => "performance"
  | PromptEngine.documentation => "documentation"
  | PromptEngine.testing => "testing"
  | PromptEngine.maintainability => "maintainability"
  end.

Definition FindingType_eqb (a b : FindingType) : bool :=
  String.eqb (categoryName a) (categoryName b).

(** *** Writing to the job *)

Definition withUsage (f : AnalysisUsage -> AnalysisUsage) (a : Analysis) : Analysis :=
  let '(Build_Analysis i u t url n b c d s f0 st p cs e r us) := a in
  Build_Analysis i u t url n b c d s f0 st p cs e r (f us).

Definition withStatus (v : AnalysisStatus) (a : Analysis) : Analysis :=
  let '(Build_Analysis i u t url n b c d s f0 _ p cs e r us) := a in
  Build_Analysis i u t url n b c d s f0 v p cs e r us.

Definition withProgress (v : Q) (a : Analysis) : Analysis :=
  let '(Build_Analysis i u t url n b c d s f0 st _ cs e r us) := a in
  Build_Analysis i u t url n b c d s f0 st v cs e r us.

Definition withCurrentStep (v : string) (a : Analysis) : Analysis :=
  let '(Build_Analysis i u t url n b c d s f0 st p _ e r us) := a in
  Build_Analysis i u t url n b c d s f0 st p (Some v) e r us.

Definition withErrorMessage (v : option string) (a : Analysis) : Analysis :=
  let '(Build_Analysis i u t url n b c d s f0 st p cs _ r us) := a in
  Build_Analysis i u t url n b c d s f0 st p cs v r us.

Definition withResult (v : AnalysisResult) (a : Analysis) : Analysis :=
  let '(Build_Analysis i u t url n b c d s f0 st p cs e _ us) := a in
  Build_Analysis i u t url n b c d s f0 st p cs e (Some v) us.

Definition withCommitHash (v : string) (a : Analysis) : Analysis :=
  let '(Build_Analysis i u t url n b _ d s f0 st p cs e r us) := a in
  Build_Analysis i u t url n b (Some v) d s f0 st p cs e r us.

Definition withBranch (v : string) (a : Analysis) : Analysis :=
  let '(Build_Analysis i u t url n _ c d s f0 st p cs e r us) := a in
  Build_Analysis i u t url n v c d s f0 st p cs e r us.

Definition withCacheHit (v : bool) (u : AnalysisUsage) : AnalysisUsage :=
  let '(Build_AnalysisUsage tc it ot au fa rs _) := u in
  Build_AnalysisUsage tc it ot au fa rs v.

Definition withFilesAnalyzed (v : nat) (u : AnalysisUsage) : AnalysisUsage :=
  let '(Build_AnalysisUsage tc it ot au _ rs ch) := u in
  Build_AnalysisUsage tc it ot au v rs ch.

Definition withRepoSizeBytes (v : Z) (u : AnalysisUsage) : AnalysisUsage :=
  let '(Build_AnalysisUsage tc it ot au fa _ ch) := u in
  Build_AnalysisUsage tc it ot au fa v ch.

(** The sum of two numbers, when it is a finite number. *)
Definition sum (x : option Q) (y : Q) : option Q :=
  match x with
  | Some x' => let s := Double.add x' y in if Double.finite s then Some s else None
  | None => None
  end.

(** [usage.tokensConsumed += tokens]: what the usage then holds.  A number,
    a boolean or [null] is added as a number; a text is appended, an array
    or an object after the runtime has turned it into a text, which it may
    refuse to do. *)
Definition addTokens (rt : Runtime) (consumed : option Q) (tokens : JValue)
  : Outcome (option Q) :=
  match tokens with
  | JNumber y => Resolved (sum consumed y)
  | JBool b => Resolved (sum consumed (if b then 1 else 0))
  | JNull => Resolved (sum consumed 0)
  | JUndefined | JString _ => Resolved None
  | JArray _ | JObject _ =>
      match toString rt tokens with
      | Resolved _ => Resolved None
      | Rejected e => Rejected e
      end
  end.

(** [usage.tokensConsumed = consumed; usage.agentsUsed++] *)
Definition countAgent (consumed : option Q) (u : AnalysisUsage) : AnalysisUsage :=
  let '(Build_AnalysisUsage _ it ot au fa rs ch) := u in
  Build_AnalysisUsage consumed it ot (S au) fa rs ch.

(** [updateStatus] *)
Definition updateStatus (status_ : AnalysisStatus) (progress_ : Q) (step : string) : M unit :=
  setJob (fun a => withCurrentStep step (withProgress progress_ (withStatus status_ a))) ;;
  emitProgress.

(** [failAnalysis] *)
Definition failAnalysis (error : option string) : M unit :=
  setJob (fun a => withErrorMessage error (withStatus failed a)) ;;
  emitProgress.

(** [callWebhook]: what the call throws is ignored. *)
Definition callWebhook (url : string) (payload : WebhookPayload) : M unit :=
  tryCatch (await (PostWebhook url payload)) (fun _ => ret tt).

(** [if (request.webhookUrl) await this.callWebhook(...)] *)
Definition notify (request : AnalysisRequest) (payload : WebhookPayload) : M unit :=
  match webhookUrl request with
  | Some (String c url) => callWebhook (String c url) payload
  | _ => ret tt
  end.

(** *** Calling the reasoning service *)

(** [parseAgentOutput] *)
Definition parseAgentOutput (response : JValue) : JValue :=
  match response with
  | JArray _ | JObject _ =>
      if truthy (field response "result") then field response "result"
      else if truthy (field response "content") then field response "content"
      else if truthy (field response "output") then field response "output"
      else if truthy (field response "data") then field response "data"
      else response
  | _ => JNull
  end.

(** [response.data.usage?.totalTokens || 0] *)
Definition totalTokens (data : JValue) : Result JValue :=
  match getField data "usage" with
  | Ok usage_ => Ok (orElse (optionalField usage_ "totalTokens") (JNumber 0))
  | Throw e => Throw e
  end.

Definition lift {A} (r : Result A) : M A :=
  match r with Ok a => ret a | Throw e => throw e end.

Definition liftOutcome {A} (o : Outcome A) : M A :=
  match o with Resolved a => ret a | Rejected e => throw e end.

(** [callMageAgent]; the duration read from the clock is left out. *)
Definition callMageAgent (rt : Runtime) (taskId : string) (taskType : FindingType)
    (prompt : string) (tenantContext : TenantContext) : M AgentResult :=
  tryCatch
    (let* requestIdHeader :=
       match requestId tenantContext with
       | Some (String c r) => ret (String c r)
       | _ => freshUuid rt
       end in
     let* data := await (PostTask taskId prompt (tenantId tenantContext)
                                  (userId tenantContext) requestIdHeader) in
     let output_ := parseAgentOutput data in
     let* tokens := lift (totalTokens data) in
     ret {| taskId := taskId; agent_type := taskType; agent_success := true;
            output := output_; tokensUsed := tokens; agent_error := None |})
    (fun error =>
       ret {| taskId := taskId; agent_type := taskType; agent_success := false;
              output := JNull; tokensUsed := JNumber 0;
              agent_error := Some (match error with
                                   | ErrorObject m => m
                                   | _ => "MageAgent call failed"
                                   end) |}).

(** *** What the tasks are given *)

(** [name.replace(/\.[^.]+$/, '')] *)
Fixpoint stripExtension (s : string) : string :=
  match s with
  | EmptyString => EmptyString
  | String c s' =>
      if Ascii.eqb c "." && negb (includes s' ".") && negb (String.eqb s' EmptyString)
      then EmptyString
      else String c (stripExtension s')
  end.

(** [path.split('/').length] *)
Fixpoint segments (p : string) : Z :=
  match p with
  | EmptyString => 1
  | String c p' => if Ascii.eqb c "/" then 1 + segments p' else segments p'
  end.

Definition priorityExtensions : list string :=
  [".ts"; ".tsx"; ".js"; ".jsx"; ".py"; ".go"; ".rs"; ".java"].

Definition priorityNames : list string :=
  ["index"; "main"; "app"; "server"; "api"; "routes"; "controller"].

Definition fileScore (f : FileInfo) : Z :=
  let baseName := toLowerCase (stripExtension (PromptRenderer.baseName (TypeDetector.path f))) in
  (if has priorityExtensions (TypeDetector.extension f) then 10 else 0)
  + (if existsb (includes baseName) priorityNames then 5 else 0)
  + (if includes (TypeDetector.path f) "/" then 0 else 3)
  - segments (TypeDetector.path f).

(** [selectFilesForAnalysis].  The comparator orders the files by a
    number, so every stable sort gives the result of [JsArray.sort],
    whatever the length. *)
Definition selectFilesForAnalysis (files : list FileInfo) (depth : AnalysisDepth)
  : list string :=
  let limit := match depth with quick => 20 | standard => 50 | deep => 100 end%nat in
  let scored := List.filter (fun f => TypeDetector.size f <? 500000)%Z files in
  let sorted := JsArray.sort (fun a b => inject_Z (fileScore b - fileScore a)) scored in
  map TypeDetector.path (firstn limit sorted).

Definition configPatterns : list string :=
  ["package.json"; "tsconfig.json"; "webpack.config.js"; "vite.config.ts";
   "next.config.js"; ".eslintrc.json"; "requirements.txt"; "go.mod"; "Cargo.toml";
   "docker-compose.yml"; "Dockerfile"].

(** [obj[key] = value] on a dictionary whose keys do not read as array
    indices, as the names of files and the ids of prompts do not. *)
Fixpoint setProperty (obj : Dict) (key value : string) : Dict :=
  match obj with
  | [] => if String.eqb key "__proto__" then [] else [(key, value)]
  | (k, v) :: rest =>
      if String.eqb k key then (k, value) :: rest
      else (k, v) :: setProperty rest key value
  end.

Fixpoint foldM {A B} (f : A -> B -> M A) (l : list B) (a : A) : M A :=
  match l with
  | [] => ret a
  | b :: l' => let* a' := f a b in foldM f l' a'
  end.

(** [getConfigFiles] *)
Definition getConfigFiles (localPath_ : string) : M Dict :=
  foldM (fun contents pattern_ =>
           let* content := await (ReadFile localPath_ pattern_) in
           match content with
           | Some (String c text) => ret (setProperty contents pattern_ (String c text))
           | _ => ret contents
           end)
        configPatterns [].

Fixpoint repeatString (s : string) (n : nat) : string :=
  match n with O => EmptyString | S n' => s ++ repeatString s n' end.

(** [formatStructure(structure, depth, maxDepth)], with [levels] for
    [maxDepth - depth]. *)
Fixpoint formatLevels (levels depth : nat) (structure_ : DirectoryStructure) : string :=
  let result_ :=
    repeatString "  " depth ++ TypeDetector.ds_name structure_
    ++ (match TypeDetector.ds_type structure_ with
        | TypeDetector.is_directory => "/"
        | TypeDetector.is_file => EmptyString
        end)
    ++ PromptRenderer.newline in
  match TypeDetector.ds_children structure_, levels with
  | Some children, S levels' =>
      fold_left (fun acc child => acc ++ formatLevels levels' (S depth) child)
                (firstn 50 children) result_
  | _, _ => result_
  end.

Definition formatStructure (structure_ : DirectoryStructure) : string :=
  formatLevels 4 0 structure_.

(** *** The tasks *)

Definition withPreviousContext (previous : Dict) (context : PromptContext) : PromptContext :=
  {| PromptRenderer.repoUrl := PromptRenderer.repoUrl context;
     PromptRenderer.repoName := PromptRenderer.repoName context;
     PromptRenderer.branch := PromptRenderer.branch context;
     PromptRenderer.commitHash := PromptRenderer.commitHash context;
     PromptRenderer.repoType := PromptRenderer.repoType context;
     PromptRenderer.techStack := PromptRenderer.techStack context;
     PromptRenderer.directoryStructure := PromptRenderer.directoryStructure context;
     PromptRenderer.fileList := PromptRenderer.fileList context;
     PromptRenderer.fileContents := PromptRenderer.fileContents context;
     PromptRenderer.previousContext := previous;
     PromptRenderer.configFiles := PromptRenderer.configFiles context |}.

(** [result.success && result.output] *)
Definition usable (result_ : AgentResult) : bool :=
  agent_success result_ && truthy (output result_).

(** [if (result.success && result.output)
       context.previousContext[prompt.id] = JSON.stringify(result.output)] *)
Definition chainResult (rt : Runtime) (context : PromptContext) (result_ : AgentResult)
  : PromptContext :=
  if usable result_
  then withPreviousContext
         (setProperty (PromptRenderer.previousContext context) (taskId result_)
                      (stringify rt (output result_)))
         context
  else context.

(** What the [catch] of the loop records for a task. *)
Definition failedResult (prompt : PromptConfig) (category : FindingType) (error : Thrown)
  : AgentResult :=
  {| taskId := PromptEngine.id prompt; agent_type := category; agent_success := false;
     output := JNull; tokensUsed := JNumber 0; agent_error := Some (messageOf error) |}.

(** The variables of [runAgents] that its loops change: the context given
    to the prompts and the results so far. *)
Definition Agents : Type := PromptContext * list AgentResult.

(** The body of the loop over the prompts of a category. *)
Definition runPrompt (rt : Runtime) (tenantContext : TenantContext) (category : FindingType)
    (state : Agents) (prompt : PromptConfig) : M Agents :=
  let '(context, results) := state in
  tryCatch
    (let renderedPrompt := PromptRenderer.renderPrompt prompt context in
     let* result_ := callMageAgent rt (PromptEngine.id prompt) category
                                   (PromptRenderer.content renderedPrompt) tenantContext in
     let* analysis := getJob in
     let* consumed := liftOutcome (addTokens rt (tokensConsumed (usage analysis))
                                             (tokensUsed result_)) in
     setJob (withUsage (countAgent consumed)) ;;
     ret (chainResult rt context result_, (results ++ [result_])%list))
    (fun error => ret (context, (results ++ [failedResult prompt category error])%list)).

Definition categories : list FindingType :=
  [PromptEngine.architecture; PromptEngine.security; PromptEngine.performance;
   PromptEngine.documentation; PromptEngine.testing; PromptEngine.maintainability].

Definition progressPerCategory : Q := 50 / inject_Z (Z.of_nat (List.length categories)).

Definition byOrder (a b : PromptConfig) : Q :=
  inject_Z (PromptEngine.order a - PromptEngine.order b).

(** The body of the loop over the categories; [progressBase] is the third
    variable it changes. *)
Definition runCategory (rt : Runtime) (tenantContext : TenantContext)
    (primaryType : RepositoryType) (includeSecurityScan_ : bool)
    (state : Agents * Q) (category : FindingType) : M (Agents * Q) :=
  let '(agents, progressBase) := state in
  if FindingType_eqb category PromptEngine.security && negb includeSecurityScan_
  then ret state
  else
    let categoryPrompts := PromptEngine.getPrompts (catalogue rt) primaryType category in
    match categoryPrompts with
    | [] => ret state
    | _ =>
        updateStatus analyzing progressBase
                     ("Analyzing " ++ categoryName category ++ "...") ;;
        let* agents' := foldM (runPrompt rt tenantContext category)
                              (JsArray.sort byOrder categoryPrompts) agents in
        ret (agents', (progressBase + progressPerCategory)%Q)
    end.

(** The context the first prompt is given. *)
Definition firstContext (analysis : Analysis) (typeResult : TypeDetectionResult)
    (structure_ : DirectoryStructure) (files : list FileInfo)
    (fileContents_ configFiles_ : Dict) : PromptContext :=
  {| PromptRenderer.repoUrl := repoUrl analysis;
     PromptRenderer.repoName := repoName analysis;
     PromptRenderer.branch := branch analysis;
     PromptRenderer.commitHash := match commitHash analysis with
                                  | Some h => h
                                  | None => EmptyString
                                  end;
     PromptRenderer.repoType :=
       repositoryTypeName (TypeDetector.primaryType (TypeDetector.classification typeResult));
     PromptRenderer.techStack := TypeDetector.techStack typeResult;
     PromptRenderer.directoryStructure := formatStructure structure_;
     PromptRenderer.fileList := map TypeDetector.path files;
     PromptRenderer.fileContents := fileContents_;
     PromptRenderer.previousContext := [];
     PromptRenderer.configFiles := configFiles_ |}.

(** [runAgents], with the context the last prompt leaves. *)
Definition runAllAgents (rt : Runtime) (localPath_ : string) (typeResult : TypeDetectionResult)
    (structure_ : DirectoryStructure) (files : list FileInfo)
    (depth : AnalysisDepth) (includeSecurityScan_ : bool) (tenantContext : TenantContext)
  : M Agents :=
  let sourceFiles := selectFilesForAnalysis files depth in
  let* fileContents_ := await (ReadFiles localPath_ sourceFiles) in
  let* analysis := getJob in
  let* configFiles_ := getConfigFiles localPath_ in
  let context := firstContext analysis typeResult structure_ files fileContents_ configFiles_ in
  let* (agents, _) :=
    foldM (runCategory rt tenantContext
                       (TypeDetector.primaryType (TypeDetector.classification typeResult))
                       includeSecurityScan_)
          categories ((context, []), 30) in
  ret agents.

(** [runAgents] *)
Definition runAgents (rt : Runtime) (localPath_ : string) (typeResult : TypeDetectionResult)
    (structure_ : DirectoryStructure) (files : list FileInfo)
    (depth : AnalysisDepth) (includeSecurityScan_ : bool) (tenantContext : TenantContext)
  : M (list AgentResult) :=
  let* (_, results) := runAllAgents rt localPath_ typeResult structure_ files depth
                                     includeSecurityScan_ tenantContext in
  ret results.

(** *** Synthesis *)

Fixpoint mapM {A B} (f : A -> M B) (l : list A) : M (list B) :=
  match l with
  | [] => ret []
  | a :: l' => let* b := f a in let* bs := mapM f l' in ret (b :: bs)
  end.

(** [String(v)] *)
Definition String_ (rt : Runtime) (v : JValue) : M string := liftOutcome (toString rt v).

Definition emptyString : JValue := JString EmptyString.

(** [parseArchitectureResult] *)
Definition parseArchitectureResult (output_ : JValue) (current : ArchitectureAnalysis)
  : ArchitectureAnalysis :=
  {| pattern := orElse (field output_ "pattern") (pattern current);
     patternConfidence := orElse (field output_ "confidence") (patternConfidence current);
     layers := orElse (field output_ "layers") (layers current);
     components := components current;
     dependencies := dependencies current |}.

(** [parseComponents] *)
Definition parseComponents (rt : Runtime) (output_ : JValue) : M (list Component) :=
  match field output_ "components" with
  | JArray items =>
      mapM (fun comp =>
              let* name_ := lift (getField comp "name") in
              let* name' := String_ rt (orElse name_ emptyString) in
              let* path_ := String_ rt (orElse (field comp "path") emptyString) in
              let* description_ := String_ rt (orElse (field comp "description") emptyString) in
              ret {| comp_name := name';
                     comp_type := orElse (field comp "type") (JString "module");
                     comp_path := path_;
                     comp_description := description_;
                     comp_dependencies := orElse (field comp "dependencies") (JArray []);
                     comp_exports := orElse (field comp "exports") (JArray []);
                     linesOfCode := field comp "linesOfCode";
                     complexity := field comp "complexity" |})
           items
  | _ => ret []
  end.

(** [parseDependencies] *)
Definition parseDependencies (output_ : JValue) : DependencyGraph :=
  {| nodes := orElse (field output_ "nodes") (JArray []);
     edges := orElse (field output_ "edges") (JArray []);
     externalDependencies := orElse (field output_ "externalDependencies") (JArray []) |}.

(** [parseSecurityFindings] *)
Definition parseSecurityFindings (rt : Runtime) (output_ : JValue) (agentType_ : string)
  : M (list SecurityFinding) :=
  match orElse (orElse (field output_ "findings") (field output_ "vulnerabilities"))
               (JArray []) with
  | JArray items =>
      mapM (fun finding =>
              let* id_ := freshUuid rt in
              let* severity_ := lift (getField finding "severity") in
              let* title_ := String_ rt (orElse (orElse (field finding "title")
                                                        (field finding "name")) emptyString) in
              let* description_ := String_ rt (orElse (field finding "description")
                                                      emptyString) in
              let* recommendation_ :=
                String_ rt (orElse (orElse (field finding "recommendation")
                                           (field finding "remediation")) emptyString) in
              let* remediation_ :=
                String_ rt (orElse (orElse (field finding "remediation")
                                           (field finding "recommendation")) emptyString) in
              ret {| sec_id := id_;
                     sec_agentType := agentType_;
                     sec_findingType := PromptEngine.security;
                     sec_severity := orElse severity_ (JString "medium");
                     sec_title := title_;
                     sec_description := description_;
                     sec_location := field finding "location";
                     sec_lineNumber := field finding "lineNumber";
                     sec_recommendation := recommendation_;
                     cwe := field finding "cwe";
                     owasp := field finding "owasp";
                     cvss := field finding "cvss";
                     remediation := remediation_ |})
           items
  | _ => ret []
  end.

(** [parseFindings] *)
Definition parseFindings (rt : Runtime) (output_ : JValue) (findingType_ : FindingType)
    (agentType_ : string) : M (list Finding) :=
  match orElse (orElse (field output_ "findings") (field output_ "issues")) (JArray []) with
  | JArray items =>
      mapM (fun finding =>
              let* id_ := freshUuid rt in
              let* severity_ := lift (getField finding "severity") in
              let* title_ := String_ rt (orElse (orElse (field finding "title")
                                                        (field finding "name")) emptyString) in
              let* description_ := String_ rt (orElse (field finding "description")
                                                      emptyString) in
              ret {| finding_id := id_;
                     agentType := agentType_;
                     findingType := findingType_;
                     severity := orElse severity_ (JString "info");
                     title := title_;
                     finding_description := description_;
                     location := field finding "location";
                     lineNumber := field finding "lineNumber";
                     recommendation := field finding "recommendation" |})
           items
  | _ => ret []
  end.

(** [parseRecommendations] *)
Definition parseRecommendations (rt : Runtime) (recs : JValue) (category : FindingType)
  : M (list Recommendation) :=
  match recs with
  | JArray items =>
      mapM (fun rec =>
              let* priority_ := lift (getField rec "priority") in
              let* title_ := String_ rt (orElse (field rec "title") emptyString) in
              let* description_ := String_ rt (orElse (field rec "description") emptyString) in
              ret {| rec_category := category;
                     priority := orElse priority_ (JString "medium");
                     rec_title := title_;
                     rec_description := description_;
                     effort := orElse (field rec "effort") (JString "medium");
                     impact := orElse (field rec "impact") (JString "medium") |})
           items
  | _ => ret []
  end.

(** The variables of [synthesizeResults] that its loop changes. *)
Record Gathered := {
  gathered_architecture : ArchitectureAnalysis;
  gathered_findings : list Finding;
  gathered_securityFindings : list SecurityFinding;
  gathered_recommendations : list Recommendation
}.

Definition nothingGathered : Gathered :=
  {| gathered_architecture :=
       {| pattern := JString "unknown";
          patternConfidence := JNumber 0;
          layers := JArray [];
          components := [];
          dependencies := {| nodes := JArray []; edges := JArray [];
                             externalDependencies := JArray [] |} |};
     gathered_findings := [];
     gathered_securityFindings := [];
     gathered_recommendations := [] |}.

Definition withComponents (v : list Component) (a : ArchitectureAnalysis)
  : ArchitectureAnalysis :=
  {| pattern := pattern a; patternConfidence := patternConfidence a; layers := layers a;
     components := v; dependencies := dependencies a |}.

Definition withDependencies (v : DependencyGraph) (a : ArchitectureAnalysis)
  : ArchitectureAnalysis :=
  {| pattern := pattern a; patternConfidence := patternConfidence a; layers := layers a;
     components := components a; dependencies := v |}.

(** What the [switch] on the type of a result does. *)
Definition gatherByType (rt : Runtime) (result_ : AgentResult) (g : Gathered) : M Gathered :=
  let output_ := output result_ in
  match agent_type result_ with
  | PromptEngine.architecture =>
      if String.eqb (taskId result_) "arch-overview" then
        ret {| gathered_architecture :=
                 parseArchitectureResult output_ (gathered_architecture g);
               gathered_findings := gathered_findings g;
               gathered_securityFindings := gathered_securityFindings g;
               gathered_recommendations := gathered_recommendations g |}
      else if String.eqb (taskId result_) "arch-components" then
        let* components_ := parseComponents rt output_ in
        ret {| gathered_architecture := withComponents components_ (gathered_architecture g);
               gathered_findings := gathered_findings g;
               gathered_securityFindings := gathered_securityFindings g;
               gathered_recommendations := gathered_recommendations g |}
      else if String.eqb (taskId result_) "arch-dependencies" then
        ret {| gathered_architecture :=
                 withDependencies (parseDependencies output_) (gathered_architecture g);
               gathered_findings := gathered_findings g;
               gathered_securityFindings := gathered_securityFindings g;
               gathered_recommendations := gathered_recommendations g |}
      else ret g
  | PromptEngine.security =>
      let* secFindings := parseSecurityFindings rt output_ (taskId result_) in
      ret {| gathered_architecture := gathered_architecture g;
             gathered_findings := gathered_findings g;
             gathered_securityFindings := (gathered_securityFindings g ++ secFindings)%list;
             gathered_recommendations := gathered_recommendations g |}
  | _ =>
      let* categoryFindings :=
        parseFindings rt output_ (agent_type result_) (taskId result_) in
      ret {| gathered_architecture := gathered_architecture g;
             gathered_findings := (gathered_findings g ++ categoryFindings)%list;
             gathered_securityFindings := gathered_securityFindings g;
             gathered_recommendations := gathered_recommendations g |}
  end.

(** The body of the loop of [synthesizeResults]. *)
Definition gather (rt : Runtime) (g : Gathered) (result_ : AgentResult) : M Gathered :=
  if negb (agent_success result_) || negb (truthy (output result_)) then ret g
  else
    let* g' := gatherByType rt result_ g in
    if truthy (field (output result_) "recommendations") then
      let* recs := parseRecommendations rt (field (output result_) "recommendations")
                                        (agent_type result_) in
      ret {| gathered_architecture := gathered_architecture g';
             gathered_findings := gathered_findings g';
             gathered_securityFindings := gathered_securityFindings g';
             gathered_recommendations := (gathered_recommendations g' ++ recs)%list |}
    else ret g'.

(** [synthesizeResults]; [repositoryInfo] starts as an object without
    fields. *)
Definition synthesizeResults (rt : Runtime) (typeResult : TypeDetectionResult)
    (structure_ : DirectoryStructure) (metadata : RepositoryMetadata)
    (agentResults : list AgentResult) : M AnalysisResult :=
  let* g := foldM (gather rt) agentResults nothingGathered in
  let* analysis := getJob in
  ret {| detectedType := TypeDetector.primaryType (TypeDetector.classification typeResult);
         techStack := TypeDetector.techStack typeResult;
         architecture := gathered_architecture g;
         findings := gathered_findings g;
         securityFindings := if includeSecurity analysis
                             then Some (gathered_securityFindings g) else None;
         recommendations := gathered_recommendations g;
         archMd := EmptyString;
         repositoryInfo := None;
         repositoryMetadata := metadata;
         directoryStructure := structure_ |}.

(** *** The pipeline *)

(** What [runAnalysis] attaches to the job when it completes. *)
Definition finishResult (rt : Runtime) (request : AnalysisRequest) (analysis : Analysis)
    (metadata : RepositoryMetadata) (structure_ : DirectoryStructure)
    (archMd_ : string) (synthesizedResult : AnalysisResult) : AnalysisResult :=
  let parsed := parseRepoUrl rt (req_repoUrl request) in
  {| detectedType := detectedType synthesizedResult;
     techStack := techStack synthesizedResult;
     architecture := architecture synthesizedResult;
     findings := findings synthesizedResult;
     securityFindings := securityFindings synthesizedResult;
     recommendations := recommendations synthesizedResult;
     archMd := archMd_;
     repositoryInfo := Some {| info_url := req_repoUrl request;
                               info_platform := platform parsed;
                               info_owner := owner parsed;
                               info_name := parsed_name parsed;
                               info_branch := branch analysis;
                               info_commitHash := commitHash analysis |};
     repositoryMetadata := metadata;
     directoryStructure := structure_ |}.

(** [!request.force] *)
Definition notForced (request : AnalysisRequest) : bool :=
  match force request with Some true => false | _ => true end.

(** [runAnalysis] from its first step, the clone, to the end of the [try]
    block. *)
Definition analyse (rt : Runtime) (request : AnalysisRequest) (tenantContext : TenantContext)
  : M unit :=
  updateStatus cloning 10 "Cloning repository..." ;;
  let* cloneResult := await (CloneRepository (req_repoUrl request) (req_branch request)) in
  if negb (success cloneResult)
  then throw (ErrorObject ("Failed to clone repository: "
                             ++ interpolate (clone_error cloneResult)))
  else
    setClonePath (localPath cloneResult) ;;
    setJob (fun a => withBranch (clone_branch cloneResult)
                                (withCommitHash (clone_commitHash cloneResult) a)) ;;
    updateStatus detecting 20 "Analyzing project structure..." ;;
    let* directoryStructure_ := await (GetDirectoryStructure (localPath cloneResult)) in
    let* files := await (GetFiles (localPath cloneResult)) in
    let* metadata := await (GetRepositoryMetadata (localPath cloneResult)) in
    let* typeResult := await (Detect (localPath cloneResult) directoryStructure_ files) in
    setJob (withUsage (fun u => withRepoSizeBytes (sizeBytes metadata)
                                  (withFilesAnalyzed (List.length files) u))) ;;
    updateStatus analyzing 30 "Running AI analysis..." ;;
    let* analysis := getJob in
    let* agentResults := runAgents rt (localPath cloneResult) typeResult directoryStructure_
                                   files (analysisDepth analysis) (includeSecurity analysis)
                                   tenantContext in
    updateStatus synthesizing 80 "Synthesizing findings..." ;;
    let* synthesizedResult := synthesizeResults rt typeResult directoryStructure_ metadata
                                                agentResults in
    updateStatus generating 90 "Generating documentation..." ;;
    let* archMd_ := liftOutcome (generateMarkdown rt synthesizedResult) in
    let* analysis' := getJob in
    let finished := finishResult rt request analysis' metadata directoryStructure_ archMd_
                                 synthesizedResult in
    setJob (fun a => withResult finished (withProgress 100 (withStatus completed a))) ;;
    await (CacheSet (req_repoUrl request) (branch analysis')
                    (clone_commitHash cloneResult) finished) ;;
    emitProgress ;;
    notify request (analysis_completed (id analysis') finished).

(** [runAnalysis] *)
Definition runAnalysis (rt : Runtime) (request : AnalysisRequest)
    (tenantContext : TenantContext) : M unit :=
  setClonePath EmptyString ;;
  tryFinally
    (tryCatch
       (let* cached := if notForced request
                       then await (CacheGet (req_repoUrl request) (req_branch request))
                       else ret None in
        match cached with
        | Some entry =>
            setJob (fun a => withUsage (withCacheHit true)
                               (withResult (entry_result entry)
                                  (withProgress 100 (withStatus completed a)))) ;;
            emitProgress
        | None => analyse rt request tenantContext
        end)
       (fun error =>
          failAnalysis (Some (messageOf error)) ;;
          let* analysis := getJob in
          notify request (analysis_failed (id analysis) (errorMessage analysis))))
    (let* fr := getFrame in
     match clonePath fr with
     | EmptyString => ret tt
     | String c p => await (Cleanup (String c p))
     end).

(** What [startAnalysis] hands back: the job as it is at that moment, the
    events emitted until then, and what is left to run, suspended at its
    first call if it makes one. *)
Record Started := {
  returned : Analysis;
  emitted : list AnalysisProgress;
  rest : Proc (Result unit * Frame)
}.

(** An asynchronous function that is called and not awaited runs until
    its first [await]. *)
Fixpoint untilAwait (p : Proc (Result unit * Frame)) : Started :=
  match p with
  | Ret (r, fr) => {| returned := job fr; emitted := []; rest := p |}
  | Emit e k =>
      let s := untilAwait k in
      {| returned := returned s; emitted := e :: emitted s; rest := rest s |}
  | Await job_ c k => {| returned := job_; emitted := []; rest := p |}
  end.

(** [this.runAnalysis(...).catch((error) => this.failAnalysis(analysis,
    error.message))]: what [startAnalysis] starts and does not await.
    Reading the message of [null] or of [undefined] throws. *)
Definition background (rt : Runtime) (request : AnalysisRequest)
    (tenantContext : TenantContext) : M unit :=
  tryCatch (runAnalysis rt request tenantContext)
           (fun error =>
              match error with
              | ErrorObject m => failAnalysis (Some m)
              | Nullish isNull =>
                  throw (typeError "message" (if isNull then "null" else "undefined"))
              | OtherValue m => failAnalysis m
              end).

(** [startAnalysis], [drawn_] identifiers having been drawn before.  The
    map of the active analyses, which only [getAnalysis] reads, is left
    out. *)
Definition startAnalysis (rt : Runtime) (request : AnalysisRequest)
    (tenantContext : TenantContext) (drawn_ : nat) : Result Started :=
  let analysisId_ := uuidv4 rt drawn_ in
  let parseResult := parseRepoUrl rt (req_repoUrl request) in
  if negb (isValid parseResult)
  then Throw (ErrorObject ("Invalid repository URL: " ++ interpolate (parse_error parseResult)))
  else
    let analysis :=
      {| id := analysisId_;
         job_userId := userId tenantContext;
         job_tenantId := tenantId tenantContext;
         repoUrl := req_repoUrl request;
         repoName := interpolate (owner parseResult) ++ "/"
                     ++ interpolate (parsed_name parseResult);
         branch := stringOr (req_branch request) "main";
         commitHash := None;
         analysisDepth := match req_analysisDepth request with
                          | Some d => d
                          | None => standard
                          end;
         includeSecurity := match includeSecurityScan request with
                            | Some false => false
                            | _ => true
                            end;
         forceReanalysis := match force request with Some true => true | _ => false end;
         status := queued;
         progress := 0;
         currentStep := None;
         errorMessage := None;
         result := None;
         usage := {| tokensConsumed := Some 0; inputTokens := 0; outputTokens := 0;
                     agentsUsed := 0; filesAnalyzed := 0; repoSizeBytes := 0;
                     cacheHit := false |} |} in
    Ok (untilAwait
          ((emitProgress ;; background rt request tenantContext)
             {| job := analysis; clonePath := EmptyString; drawn := S drawn_ |})).

(** *** Runs *)

(** What a piece of code does from a frame: its outcome, the frame it
    leaves, and the steps of the run. *)
Definition exec {A} (world : World) (m : M A) (fr : Frame) : Result A * Frame * list Step :=
  run world (m fr).

(** The status a step shows: of the event, or of the job when the call
    is made. *)
Definition statusAt (s : Step) : AnalysisStatus :=
  match s with
  | Progress p => progress_status p
  | Called _ job_ => status job_
  end.

(** The calls of a run, in order. *)
Inductive AnyCall := anyCall (R : Type) (c : Call R).
Arguments anyCall {R} c.

Fixpoint calls (t : list Step) : list AnyCall :=
  match t with
  | [] => []
  | Progress _ :: t' => calls t'
  | Called c _ :: t' => anyCall c :: calls t'
  end.

Fixpoint events (t : list Step) : list AnalysisProgress :=
  match t with
  | [] => []
  | Progress p :: t' => p :: events t'
  | Called _ _ :: t' => events t'
  end.

Lemma run_bindProc {A B} (world : World) (p : Proc A) (f : A -> Proc B) :
  run world (bindProc p f)
  = let '(a, t) := run world p in
    let '(b, t') := run world (f a) in (b, (t ++ t')%list).
Proof.
  induction p as [a | e k IH | R job_ c k IH]; simpl.
  - destruct (run world (f a)); reflexivity.
  - rewrite IH. destruct (run world k) as [a t].
    destruct (run world (f a)); reflexivity.
  - rewrite IH. destruct (run world (k (world R c))) as [a t].
    destruct (run world (f a)); reflexivity.
Qed.

Lemma exec_ret {A} world (a : A) fr : exec world (ret a) fr = (Ok a, fr, []).
Proof. reflexivity. Qed.

Lemma exec_throw {A} world e fr : exec world (@throw A e) fr = (Throw e, fr, []).
Proof. reflexivity. Qed.

Lemma exec_liftOutcome {A} world (o : Outcome A) fr :
  exec world (liftOutcome o) fr
  = (match o with Resolved a => Ok a | Rejected e => Throw e end, fr, []).
Proof. destruct o; reflexivity. Qed.

Lemma exec_bind {A B} world (m : M A) (f : A -> M B) fr :
  exec world (bind m f) fr
  = match exec world m fr with
    | (Ok a, fr1, t1) => let '(x, t2) := exec world (f a) fr1 in (x, (t1 ++ t2)%list)
    | (Throw e, fr1, t1) => (Throw e, fr1, t1)
    end.
Proof.
  unfold exec, bind. rewrite run_bindProc.
  destruct (run world (m fr)) as [[[a | e] fr1] t1]; simpl; [reflexivity|].
  rewrite app_nil_r. reflexivity.
Qed.

Lemma exec_await {R} world (c : Call R) fr :
  exec world (await c) fr
  = (match world R c with Resolved r => Ok r | Rejected e => Throw e end, fr,
     [Called c (job fr)]).
Proof. unfold exec, await. simpl. destruct (world R c); reflexivity. Qed.

Lemma exec_tryCatch {A} world (body : M A) handler fr :
  exec world (tryCatch body handler) fr
  = match exec world body fr with
    | (Ok a, fr1, t1) => (Ok a, fr1, t1)
    | (Throw e, fr1, t1) => let '(x, t2) := exec world (handler e) fr1 in (x, (t1 ++ t2)%list)
    end.
Proof.
  unfold exec, tryCatch. rewrite run_bindProc.
  destruct (run world (body fr)) as [[[a | e] fr1] t1]; simpl; [|reflexivity].
  rewrite app_nil_r. reflexivity.
Qed.

Lemma exec_tryFinally {A} world (body : M A) finalizer fr :
  exec world (tryFinally body finalizer) fr
  = let '(r, fr1, t1) := exec world body fr in
    let '(r', fr2, t2) := exec world finalizer fr1 in
    (match r' with Ok _ => r | Throw e => Throw e end, fr2, (t1 ++ t2)%list).
Proof.
  unfold exec, tryFinally. rewrite run_bindProc.
  destruct (run world (body fr)) as [[r fr1] t1]. rewrite run_bindProc.
  destruct (run world (finalizer fr1)) as [[[u | e] fr2] t2]; simpl;
    rewrite app_nil_r; reflexivity.
Qed.

Definition put (a : Analysis) (fr : Frame) : Frame :=
  {| job := a; clonePath := clonePath fr; drawn := drawn fr |}.

Definition eventOf (a : Analysis) : AnalysisProgress :=
  {| analysisId := id a; progress_status := status a; progress_value := progress a;
     progress_step := match currentStep a with Some step => step | None => EmptyString end |}.

Lemma exec_setJob world f fr : exec world (setJob f) fr = (Ok tt, put (f (job fr)) fr, []).
Proof. reflexivity. Qed.

Lemma exec_getJob world fr : exec world getJob fr = (Ok (job fr), fr, []).
Proof. reflexivity. Qed.

Lemma exec_getFrame world fr : exec world getFrame fr = (Ok fr, fr, []).
Proof. reflexivity. Qed.

Lemma exec_setClonePath world p fr :
  exec world (setClonePath p) fr
  = (Ok tt, {| job := job fr; clonePath := p; drawn := drawn fr |}, []).
Proof. reflexivity. Qed.

Lemma exec_emitProgress world fr :
  exec world emitProgress fr = (Ok tt, fr, [Progress (eventOf (job fr))]).
Proof. reflexivity. Qed.

Lemma exec_updateStatus world s p step fr :
  exec world (updateStatus s p step) fr
  = let a := withCurrentStep step (withProgress p (withStatus s (job fr))) in
    (Ok tt, put a fr, [Progress (eventOf a)]).
Proof. reflexivity. Qed.

Lemma exec_failAnalysis world error fr :
  exec world (failAnalysis error) fr
  = let a := withErrorMessage error (withStatus failed (job fr)) in
    (Ok tt, put a fr, [Progress (eventOf a)]).
Proof. reflexivity. Qed.

Lemma exec_freshUuid world rt fr :
  exec world (freshUuid rt) fr
  = (Ok (uuidv4 rt (drawn fr)),
     {| job := job fr; clonePath := clonePath fr; drawn := S (drawn fr) |}, []).
Proof. reflexivity. Qed.

Ltac exec_prims :=
  repeat first [ rewrite exec_setJob | rewrite exec_getJob | rewrite exec_getFrame
               | rewrite exec_setClonePath | rewrite exec_emitProgress
               | rewrite exec_updateStatus | rewrite exec_failAnalysis
               | rewrite exec_ret | rewrite exec_throw | rewrite exec_await
               | rewrite exec_freshUuid ];
  cbv beta iota zeta; cbn [put job clonePath drawn app].

Ltac exec_step :=
  first [ rewrite exec_bind | rewrite exec_tryCatch | rewrite exec_tryFinally ];
  exec_prims.

(** Steps up to a piece of code whose run [H] gives, and on. *)
Ltac exec_with H :=
  repeat exec_step; rewrite H; exec_prims; repeat exec_step.

(** [callWebhook] ignores what the call throws: it changes nothing and
    makes one call. *)
Lemma exec_callWebhook world url payload fr :
  exec world (callWebhook url payload) fr
  = (Ok tt, fr, [Called (PostWebhook url payload) (job fr)]).
Proof.
  unfold callWebhook. exec_step.
  destruct (world unit (PostWebhook url payload)) as [[] | e]; reflexivity.
Qed.

Lemma exec_notify world request payload fr :
  exists t, exec world (notify request payload) fr = (Ok tt, fr, t)
            /\ Forall (fun s => statusAt s = status (job fr)) t
            /\ events t = [].
Proof.
  unfold notify. destruct (webhookUrl request) as [[|c url]|].
  - exists []. repeat split; constructor.
  - rewrite exec_callWebhook. eexists. repeat split. repeat constructor.
  - exists []. repeat split; constructor.
Qed.

(** *** Examples to run the pipeline on *)

Definition sampleTree : DirectoryStructure :=
  {| TypeDetector.ds_path := EmptyString; TypeDetector.ds_name := "shop";
     TypeDetector.ds_type := TypeDetector.is_directory;
     TypeDetector.ds_children := Some [] |}.

Definition sampleDetection : TypeDetectionResult :=
  {| TypeDetector.classification :=
       {| TypeDetector.primaryType := TypeDetector.backend;
          TypeDetector.res_confidence := 1;
          TypeDetector.indicators := [] |};
     TypeDetector.techStack := ["Node.js"];
     TypeDetector.subTypes := None |}.

Definition sampleMetadata : RepositoryMetadata :=
  {| sizeBytes := 2048; fileCount := 3; directoryCount := 1 |}.

Definition sampleResult : AnalysisResult :=
  {| detectedType := TypeDetector.backend;
     techStack := ["Node.js"];
     architecture := gathered_architecture nothingGathered;
     findings := [];
     securityFindings := None;
     recommendations := [];
     archMd := "# shop";
     repositoryInfo := None;
     repositoryMetadata := sampleMetadata;
     directoryStructure := sampleTree |}.

Definition sampleEntry : CacheEntry :=
  {| entry_repoUrl := "https://github.com/acme/shop"; entry_branch := "main";
     entry_commitHash := "c0ffee"; entry_result := sampleResult |}.

Definition sampleRequest (force_ : option bool) : AnalysisRequest :=
  {| req_repoUrl := "https://github.com/acme/shop"; req_branch := None;
     req_analysisDepth := None; includeSecurityScan := None; force := force_;
     webhookUrl := Some "https://hooks.example/done" |}.

Definition sampleTenant : TenantContext :=
  {| userId := "u1"; tenantId := "t1"; requestId := Some "r1" |}.
Ltac open_frame fr :=
  destruct fr as [[? ? ? ? ? ? ? ? ? ? ? ? ? ? ? []] ? ?]; cbn.

(** C8.  When the request does not force a fresh analysis and the cache
    answers with an entry, the job ends completed with progress 100, the
    result of the entry attached and the cache hit recorded; the lookup is
    the only call of the run, so nothing is cloned and no later stage
    runs, and the only event emitted says completed. *)
Theorem cache_hit_short_circuits rt (world : World) request tenantContext fr entry :
  notForced request = true ->
  world _ (CacheGet (req_repoUrl request) (req_branch request)) = Resolved (Some entry) ->
  exists final trace,
    exec world (runAnalysis rt request tenantContext) fr = (Ok tt, final, trace)
    /\ status (job final) = completed
    /\ progress (job final) = 100
    /\ result (job final) = Some (entry_result entry)
    /\ cacheHit (usage (job final)) = true
    /\ calls trace = [anyCall (CacheGet (req_repoUrl request) (req_branch request))]
    /\ map progress_status (events trace) = [completed].
Proof.
  intros Hforce Hhit. unfold runAnalysis. rewrite Hforce.
  repeat exec_step. rewrite Hhit. repeat exec_step.
  do 2 eexists. split; [reflexivity|].
  open_frame fr. repeat split.
Qed.

Definition cachedWorld : World :=
  fun R c =>
    match c in Call R return Outcome R with
    | CacheGet _ _ => Resolved (Some sampleEntry)
    | _ => Rejected (OtherValue None)
    end.

Definition samplePrompt (id_ : string) (category_ : FindingType) (order_ : Z)
  : PromptConfig :=
  {| PromptEngine.id := id_; PromptEngine.prompt_name := id_;
     PromptEngine.description := EmptyString;
     PromptEngine.targetType := PromptEngine.all;
     PromptEngine.category := category_; PromptEngine.order := order_;
     PromptEngine.template := "Review {{repoName}} after {{previousContext}}";
     PromptEngine.variables :=
       [{| PromptEngine.var_name := "repoName"; PromptEngine.var_description := EmptyString;
           PromptEngine.var_type := PromptEngine.vt_string;
           PromptEngine.required := true |};
        {| PromptEngine.var_name := "previousContext";
           PromptEngine.var_description := EmptyString;
           PromptEngine.var_type := PromptEngine.vt_object;
           PromptEngine.required := false |}];
     PromptEngine.contextRequired := [];
     PromptEngine.outputFormat := PromptEngine.json |}.

(** A catalogue of five tasks. *)
Definition sampleCatalogue : PromptEngine.Catalogue :=
  {| PromptEngine.DEFAULT_PROMPTS := fun category_ =>
       match category_ with
       | PromptEngine.architecture => [samplePrompt "arch-overview" category_ 1]
       | PromptEngine.performance => [samplePrompt "perf-hotspots" category_ 1]
       | PromptEngine.documentation => [samplePrompt "doc-quality" category_ 1]
       | PromptEngine.testing => [samplePrompt "test-coverage" category_ 1]
       | PromptEngine.maintainability => [samplePrompt "maint-debt" category_ 1]
       | PromptEngine.security => []
       end;
     PromptEngine.TYPE_SPECIFIC_PROMPTS := fun _ _ => [] |}.

Definition sampleRuntime : Runtime :=
  {| parseRepoUrl := fun url =>
       if startsWith url "https://github.com/"
       then {| isValid := true; platform := Some "github"; owner := Some "acme";
               parsed_name := Some "shop"; parsed_branch := None; parse_error := None |}
       else {| isValid := false; platform := None; owner := None; parsed_name := None;
               parsed_branch := None; parse_error := Some "Invalid repository URL format" |};
     catalogue := sampleCatalogue;
     generateMarkdown := fun r => Resolved "# report";
     uuidv4 := fun n => "id-" ++ NilEmpty.string_of_uint (Nat.to_uint n);
     stringify := fun v => match v with JString s => s | _ => "{...}" end;
     toString := fun v => match v with
                          | JString s => Resolved s
                          | _ => Resolved "[object Object]"
                          end |}.

Definition sampleJob : Analysis :=
  {| id := "id-0"; job_userId := "u1"; job_tenantId := "t1";
     repoUrl := "https://github.com/acme/shop"; repoName := "acme/shop";
     branch := "main"; commitHash := None; analysisDepth := standard;
     includeSecurity := true; forceReanalysis := false; status := queued;
     progress := 0; currentStep := None; errorMessage := None; result := None;
     usage := {| tokensConsumed := Some 0; inputTokens := 0; outputTokens := 0;
                 agentsUsed := 0; filesAnalyzed := 0; repoSizeBytes := 0;
                 cacheHit := false |} |}.

Definition sampleFrame : Frame :=
  {| job := sampleJob; clonePath := EmptyString; drawn := 1 |}.

Lemma cache_hit_short_circuits_witness :
  exists final trace,
    exec cachedWorld (runAnalysis sampleRuntime (sampleRequest (Some false)) sampleTenant)
         sampleFrame = (Ok tt, final, trace)
    /\ status (job final) = completed
    /\ progress (job final) = 100
    /\ result (job final) = Some sampleResult
    /\ cacheHit (usage (job final)) = true
    /\ calls trace = [anyCall (CacheGet "https://github.com/acme/shop" None)]
    /\ map progress_status (events trace) = [completed].
Proof.
  apply (cache_hit_short_circuits sampleRuntime cachedWorld (sampleRequest (Some false))
                                  sampleTenant sampleFrame sampleEntry); reflexivity.
Defined.

(** The clone step fails: the call answers without success, or is
    rejected. *)
Definition cloneFails (world : World) (request : AnalysisRequest) : Prop :=
  match world _ (CloneRepository (req_repoUrl request) (req_branch request)) with
  | Resolved cloneResult => success cloneResult = false
  | Rejected _ => True
  end.

(** What a failed clone makes [runAnalysis] throw, and the message it
    leaves on the job. *)
Definition cloneError (world : World) (request : AnalysisRequest) : Thrown :=
  match world _ (CloneRepository (req_repoUrl request) (req_branch request)) with
  | Resolved cloneResult =>
      ErrorObject ("Failed to clone repository: " ++ interpolate (clone_error cloneResult))
  | Rejected e => e
  end.

Definition cloneFailure (world : World) (request : AnalysisRequest) : string :=
  messageOf (cloneError world request).

Ltac exec_notify_step :=
  match goal with
  | |- context [exec ?w (notify ?r ?p) ?f] =>
      let t := fresh "t" in
      let Ht := fresh "Ht" in
      let Hs := fresh "Hstatus" in
      let He := fresh "Hevents" in
      destruct (exec_notify w r p f) as (t & Ht & Hs & He); rewrite Ht
  end.

Definition cloningJob (a : Analysis) : Analysis :=
  withCurrentStep "Cloning repository..." (withProgress 10 (withStatus cloning a)).

Lemma analyse_clone_failure rt (world : World) request tenantContext fr :
  cloneFails world request ->
  exec world (analyse rt request tenantContext) fr
  = (Throw (cloneError world request), put (cloningJob (job fr)) fr,
     [Progress (eventOf (cloningJob (job fr)));
      Called (CloneRepository (req_repoUrl request) (req_branch request))
             (cloningJob (job fr))]).
Proof.
  unfold cloneFails, cloneError, analyse. intros Hclone. repeat exec_step.
  destruct (world RepositoryCloneResult _) as [cloneResult | e]; [|reflexivity].
  rewrite Hclone. cbn [negb]. repeat exec_step. reflexivity.
Qed.

(** C7.  When the clone step of a job fails, at once or after a cache
    lookup that found nothing, the job ends failed with the message of
    the failure; the events emitted say cloning, then failed, and no
    step of the run shows the job in another status than queued, cloning
    or failed: it is never detecting, nor at any later stage. *)
Theorem clone_failure_fails_job rt (world : World) request tenantContext fr :
  status (job fr) = queued ->
  notForced request = false
  \/ world _ (CacheGet (req_repoUrl request) (req_branch request)) = Resolved None ->
  cloneFails world request ->
  exists final trace,
    exec world (runAnalysis rt request tenantContext) fr = (Ok tt, final, trace)
    /\ status (job final) = failed
    /\ errorMessage (job final) = Some (cloneFailure world request)
    /\ Forall (fun s => In (statusAt s) [queued; cloning; failed]) trace
    /\ map progress_status (events trace) = [cloning; failed].
Proof.
  intros Hqueued Hfresh Hclone. unfold runAnalysis.
  assert (Hlookup : notForced request = false
                    \/ notForced request = true
                       /\ world _ (CacheGet (req_repoUrl request) (req_branch request))
                          = Resolved None).
  { destruct (notForced request); [|now left]. destruct Hfresh; [discriminate|now right]. }
  clear Hfresh. destruct Hlookup as [-> | [-> Hmiss]].
  all: repeat (exec_step; try rewrite Hmiss; cbv beta iota zeta).
  all: rewrite (analyse_clone_failure _ _ _ _ _ Hclone).
  all: repeat exec_step; exec_notify_step; repeat exec_step.
  all: do 2 eexists; (split; [reflexivity|]).
  all: rewrite app_nil_r; unfold cloneFailure, cloningJob in *.
  all: open_frame fr; cbn in Hstatus, Hqueued; cbn [events map]; rewrite Hevents.
  all: repeat split.
  all: repeat (constructor; [cbn; rewrite ?Hqueued; tauto|]).
  all: eapply Forall_impl; [|exact Hstatus]; intros s ->; cbn; tauto.
Qed.

Definition brokenCloneWorld : World :=
  fun R c =>
    match c in Call R return Outcome R with
    | CacheGet _ _ => Resolved None
    | CloneRepository _ _ =>
        Resolved {| success := false; localPath := EmptyString;
                    clone_commitHash := EmptyString; clone_branch := EmptyString;
                    clone_error := Some "Repository not found" |}
    | _ => Rejected (OtherValue None)
    end.

Lemma clone_failure_fails_job_witness :
  exists final trace,
    exec brokenCloneWorld (runAnalysis sampleRuntime (sampleRequest None) sampleTenant)
         sampleFrame = (Ok tt, final, trace)
    /\ status (job final) = failed
    /\ errorMessage (job final)
       = Some "Failed to clone repository: Repository not found"
    /\ Forall (fun s => In (statusAt s) [queued; cloning; failed]) trace
    /\ map progress_status (events trace) = [cloning; failed].
Proof.
  apply (clone_failure_fails_job sampleRuntime brokenCloneWorld (sampleRequest None)
                                 sampleTenant sampleFrame).
  - reflexivity.
  - right. reflexivity.
  - reflexivity.
Defined.

(** What the contract of [startAnalysis] says of a request: a job is
    returned, queued and with progress 0. *)
Definition startsQueued (rt : Runtime) (request : AnalysisRequest)
    (tenantContext : TenantContext) (drawn_ : nat) : Prop :=
  exists s, startAnalysis rt request tenantContext drawn_ = Ok s
            /\ status (returned s) = queued
            /\ progress (returned s) = 0.

Lemma background_suspends rt request tenantContext fr :
  notForced request = true ->
  exists k,
    background rt request tenantContext fr
    = Await (job fr) (CacheGet (req_repoUrl request) (req_branch request)) k.
Proof.
  intros Hforce. unfold background, runAnalysis. rewrite Hforce.
  eexists. cbn. reflexivity.
Qed.

(** C4, as amended.  For a request whose URL the parser accepts and that
    does not force a fresh analysis, [startAnalysis] returns a job that is
    queued with progress 0, after one event that says so; the pipeline
    has not run any stage by then: all of it is left to run, from the job
    as returned, suspended at the lookup in the cache, which is not
    answered yet. *)
Theorem start_returns_queued_job rt request tenantContext drawn_ :
  isValid (parseRepoUrl rt (req_repoUrl request)) = true ->
  notForced request = true ->
  exists s,
    startAnalysis rt request tenantContext drawn_ = Ok s
    /\ status (returned s) = queued
    /\ progress (returned s) = 0
    /\ map progress_status (emitted s) = [queued]
    /\ rest s = background rt request tenantContext
                           {| job := returned s; clonePath := EmptyString;
                              drawn := S drawn_ |}
    /\ exists k, rest s = Await (returned s)
                                (CacheGet (req_repoUrl request) (req_branch request)) k.
Proof.
  intros Hvalid Hforce. unfold startAnalysis. rewrite Hvalid. cbn [negb].
  eexists. split; [reflexivity|].
  match goal with
  | |- context [untilAwait (bind emitProgress ?k ?fr)] =>
      change (bind emitProgress k fr)
        with (Emit (eventOf (job fr)) (background rt request tenantContext fr));
      destruct (background_suspends rt request tenantContext fr Hforce) as [k' Hk]
  end.
  cbn [untilAwait]. rewrite Hk. cbn [untilAwait returned emitted rest job].
  split; [reflexivity|]. split; [reflexivity|]. split; [reflexivity|].
  split; [symmetry; exact Hk|]. exists k'. reflexivity.
Qed.

Lemma start_returns_queued_job_witness :
  exists s,
    startAnalysis sampleRuntime (sampleRequest (Some false)) sampleTenant 0 = Ok s
    /\ status (returned s) = queued
    /\ progress (returned s) = 0
    /\ map progress_status (emitted s) = [queued]
    /\ rest s = background sampleRuntime (sampleRequest (Some false)) sampleTenant
                           {| job := returned s; clonePath := EmptyString; drawn := 1 |}
    /\ exists k, rest s = Await (returned s)
                                (CacheGet "https://github.com/acme/shop" None) k.
Proof.
  apply (start_returns_queued_job sampleRuntime (sampleRequest (Some false))
                                  sampleTenant 0); reflexivity.
Defined.

Definition invalidRequest : AnalysisRequest :=
  {| req_repoUrl := "shop"; req_branch := None; req_analysisDepth := None;
     includeSecurityScan := None; force := None; webhookUrl := None |}.

(** A request with a URL the parser refuses gets no job: [startAnalysis]
    throws.  A request that forces a fresh analysis gets its job back
    with the status cloning and progress 10: [runAnalysis] has set them
    before its first [await]. *)
Lemma start_counterexample :
  startAnalysis sampleRuntime invalidRequest sampleTenant 0
  = Throw (ErrorObject "Invalid repository URL: Invalid repository URL format")
  /\ ~ startsQueued sampleRuntime invalidRequest sampleTenant 0
  /\ (exists s, startAnalysis sampleRuntime (sampleRequest (Some true)) sampleTenant 0 = Ok s
                /\ status (returned s) = cloning
                /\ progress (returned s) = 10)
  /\ ~ startsQueued sampleRuntime (sampleRequest (Some true)) sampleTenant 0.
Proof.
  split; [reflexivity|]. split.
  { intros (s & Hs & _). discriminate Hs. }
  split.
  { eexists. split; [reflexivity|]. split; reflexivity. }
  intros (s & Hs & Hqueued & _).
  apply (f_equal (fun r => match r with
                           | Ok s' => Some (status (returned s'))
                           | Throw _ => None
                           end)) in Hs.
  cbn in Hs. rewrite Hqueued in Hs. discriminate Hs.
Qed.

(** *** Tasks that fail *)

(** A result that stems from an answer of the reasoning service. *)
Definition answered (world : World) (r : AgentResult) : Prop :=
  exists objective tenantIdHeader userIdHeader requestIdHeader data,
    world _ (PostTask (taskId r) objective tenantIdHeader userIdHeader requestIdHeader)
    = Resolved data
    /\ output r = parseAgentOutput data.

(** [callMageAgent] never throws; a usable result stems from an answer of
    the service. *)
Lemma callMageAgent_spec (world : World) rt taskId_ taskType prompt tenantContext fr :
  exists r fr' t,
    exec world (callMageAgent rt taskId_ taskType prompt tenantContext) fr = (Ok r, fr', t)
    /\ taskId r = taskId_
    /\ agent_type r = taskType
    /\ (usable r = true -> answered world r).
Proof.
  unfold callMageAgent. exec_step.
  assert (Hid : exists rid fr1,
             exec world
                  match requestId tenantContext with
                  | Some (String c r) => ret (String c r)
                  | _ => freshUuid rt
                  end fr = (Ok rid, fr1, [])).
  { destruct (requestId tenantContext) as [[|c r]|]; do 2 eexists; reflexivity. }
  destruct Hid as (rid & fr1 & Hid). exec_step. rewrite Hid. cbv beta iota zeta.
  repeat exec_step.
  destruct (world JValue _) as [data | e] eqn:Hanswer; cbv beta iota zeta.
  - repeat exec_step. unfold lift.
    destruct (totalTokens data) as [tokens | e] eqn:Htokens;
      repeat exec_step; do 3 eexists; (split; [reflexivity|]); cbn.
    + repeat split. intros _. unfold answered. cbn. eauto 10.
    + repeat split. discriminate.
  - repeat exec_step. do 3 eexists. split; [reflexivity|]. cbn.
    repeat split. discriminate.
Qed.

(** One task: whatever the service answers, the loop goes on with one
    more result, and the context gets the output only if it is usable. *)
Lemma runPrompt_spec (world : World) rt tenantContext category context results prompt fr :
  exists r fr' t,
    exec world (runPrompt rt tenantContext category (context, results) prompt) fr
    = (Ok (chainResult rt context r, (results ++ [r])%list), fr', t)
    /\ taskId r = PromptEngine.id prompt
    /\ agent_type r = category
    /\ (usable r = true -> answered world r).
Proof.
  unfold runPrompt.
  destruct (callMageAgent_spec world rt (PromptEngine.id prompt) category
              (PromptRenderer.content (PromptRenderer.renderPrompt prompt context))
              tenantContext fr) as (r & fr1 & t1 & Hcall & Hid & Htype & Husable).
  exec_with Hcall. rewrite exec_liftOutcome.
  destruct (addTokens rt _ (tokensUsed r)) as [consumed | e]; exec_prims; repeat exec_step.
  - exists r. do 2 eexists. split; [reflexivity|]. auto.
  - exists (failedResult prompt category e). do 2 eexists. split; [reflexivity|].
    split; [reflexivity|]. split; [reflexivity|]. discriminate.
Qed.

(** The results of a run of tasks: each has the id of its task, and the
    usable ones stem from answers of the service. *)
Definition resultsOf (world : World) (tasks : list (FindingType * PromptConfig))
    (rs : list AgentResult) : Prop :=
  map taskId rs = map (fun task => PromptEngine.id (snd task)) tasks
  /\ map agent_type rs = map fst tasks
  /\ Forall (fun r => usable r = true -> answered world r) rs.

Lemma resultsOf_nil world : resultsOf world [] [].
Proof. repeat split. constructor. Qed.

Lemma resultsOf_app world tasks1 tasks2 rs1 rs2 :
  resultsOf world tasks1 rs1 -> resultsOf world tasks2 rs2 ->
  resultsOf world (tasks1 ++ tasks2)%list (rs1 ++ rs2)%list.
Proof.
  intros (Hid1 & Htype1 & Hu1) (Hid2 & Htype2 & Hu2). unfold resultsOf.
  rewrite !map_app, Hid1, Hid2, Htype1, Htype2. repeat split.
  apply Forall_app. split; assumption.
Qed.

Lemma runPrompts_spec (world : World) rt tenantContext category prompts :
  forall context results fr,
  exists rs fr' t,
    exec world (foldM (runPrompt rt tenantContext category) prompts (context, results)) fr
    = (Ok (fold_left (chainResult rt) rs context, (results ++ rs)%list), fr', t)
    /\ resultsOf world (map (pair category) prompts) rs.
Proof.
  induction prompts as [|prompt prompts IH]; intros context results fr.
  - exists []. do 2 eexists. cbn [foldM]. rewrite exec_ret, app_nil_r.
    split; [reflexivity | apply resultsOf_nil].
  - cbn [foldM].
    destruct (runPrompt_spec world rt tenantContext category context results prompt fr)
      as (r & fr1 & t1 & Hrun & Hid & Htype & Husable).
    destruct (IH (chainResult rt context r) (results ++ [r])%list fr1)
      as (rs & fr2 & t2 & Hrest & Hrs).
    exec_with Hrun. rewrite Hrest. cbv beta iota zeta.
    exists (r :: rs). do 2 eexists. rewrite <- app_assoc. split; [reflexivity|].
    apply (resultsOf_app world [(category, prompt)] _ [r] rs); [|exact Hrs].
    repeat split; cbn; try congruence. constructor; [exact Husable | constructor].
Qed.

(** The tasks of a category, in the order they run. *)
Definition tasksOf (rt : Runtime) (primaryType : RepositoryType) (includeSecurityScan_ : bool)
    (category : FindingType) : list (FindingType * PromptConfig) :=
  if FindingType_eqb category PromptEngine.security && negb includeSecurityScan_
  then []
  else map (pair category)
           (JsArray.sort byOrder (PromptEngine.getPrompts (catalogue rt) primaryType category)).

Lemma runCategory_spec (world : World) rt tenantContext primaryType includeSecurityScan_
      category context results progressBase fr :
  exists rs progressBase' fr' t,
    exec world (runCategory rt tenantContext primaryType includeSecurityScan_
                            ((context, results), progressBase) category) fr
    = (Ok ((fold_left (chainResult rt) rs context, (results ++ rs)%list), progressBase'),
       fr', t)
    /\ resultsOf world (tasksOf rt primaryType includeSecurityScan_ category) rs.
Proof.
  unfold runCategory, tasksOf.
  destruct (FindingType_eqb category PromptEngine.security && negb includeSecurityScan_).
  { exists []. do 3 eexists. rewrite exec_ret, app_nil_r.
    split; [reflexivity | apply resultsOf_nil]. }
  destruct (PromptEngine.getPrompts (catalogue rt) primaryType category)
    as [|prompt prompts] eqn:Hprompts.
  { exists []. do 3 eexists. rewrite exec_ret, app_nil_r.
    split; [reflexivity|]. rewrite JsArray.sort_nil. apply resultsOf_nil. }
  repeat exec_step.
  match goal with
  | |- context [exec world (foldM _ ?ps (context, results)) ?f] =>
      destruct (runPrompts_spec world rt tenantContext category ps context results f)
        as (rs & fr1 & t1 & Hrun & Hrs)
  end.
  rewrite Hrun. cbv beta iota zeta. repeat exec_step.
  exists rs. do 3 eexists. split; [reflexivity | exact Hrs].
Qed.

Lemma runCategories_spec (world : World) rt tenantContext primaryType includeSecurityScan_
      cats :
  forall context results progressBase fr,
  exists rs progressBase' fr' t,
    exec world (foldM (runCategory rt tenantContext primaryType includeSecurityScan_)
                      cats ((context, results), progressBase)) fr
    = (Ok ((fold_left (chainResult rt) rs context, (results ++ rs)%list), progressBase'),
       fr', t)
    /\ resultsOf world (flat_map (tasksOf rt primaryType includeSecurityScan_) cats) rs.
Proof.
  induction cats as [|category cats IH]; intros context results progressBase fr.
  - exists []. do 3 eexists. cbn [foldM]. rewrite exec_ret, app_nil_r.
    split; [reflexivity | apply resultsOf_nil].
  - cbn [foldM flat_map].
    destruct (runCategory_spec world rt tenantContext primaryType includeSecurityScan_
                category context results progressBase fr)
      as (rs1 & base1 & fr1 & t1 & Hrun & Hrs1).
    destruct (IH (fold_left (chainResult rt) rs1 context) (results ++ rs1)%list base1 fr1)
      as (rs2 & base2 & fr2 & t2 & Hrest & Hrs2).
    exec_with Hrun. rewrite Hrest. cbv beta iota zeta.
    exists (rs1 ++ rs2)%list. do 3 eexists.
    rewrite fold_left_app, <- app_assoc. split; [reflexivity|].
    apply resultsOf_app; assumption.
Qed.

(** The files of the clone can be read. *)
Definition readable (world : World) (localPath_ : string) : Prop :=
  (forall filePaths, exists contents,
      world _ (ReadFiles localPath_ filePaths) = Resolved contents)
  /\ (forall filePath, exists content,
         world _ (ReadFile localPath_ filePath) = Resolved content).

Lemma getConfigFiles_spec (world : World) localPath_ fr :
  readable world localPath_ ->
  exists contents t, exec world (getConfigFiles localPath_) fr = (Ok contents, fr, t).
Proof.
  intros [_ Hread]. unfold getConfigFiles.
  generalize (@nil (string * string)) as contents.
  induction configPatterns as [|pattern_ patterns IH]; intros contents.
  - do 2 eexists. reflexivity.
  - cbn [foldM]. destruct (Hread pattern_) as [content Hcontent].
    destruct content as [[|c text]|];
      [ destruct (IH contents) as (final & t & Hrest)
      | destruct (IH (setProperty contents pattern_ (String c text)))
          as (final & t & Hrest)
      | destruct (IH contents) as (final & t & Hrest) ].
    all: exec_with Hcontent.
    all: rewrite Hrest; cbv beta iota zeta; do 2 eexists; reflexivity.
Qed.

(** What the tasks after them are given of a list of results: the
    outputs of the usable ones, by the id of their task. *)
Definition chain (rt : Runtime) (results : list AgentResult) : Dict :=
  fold_left (fun previous r => setProperty previous (taskId r) (stringify rt (output r)))
            (List.filter usable results) [].

Lemma previousContext_chainResults rt rs :
  forall context,
    PromptRenderer.previousContext (fold_left (chainResult rt) rs context)
    = fold_left (fun previous r => setProperty previous (taskId r) (stringify rt (output r)))
                (List.filter usable rs) (PromptRenderer.previousContext context).
Proof.
  induction rs as [|r rs IH]; intros context; [reflexivity|].
  cbn [fold_left List.filter]. rewrite IH. unfold chainResult.
  destruct (usable r); reflexivity.
Qed.

(** The tasks of a job, in the order they run. *)
Definition scheduled (rt : Runtime) (typeResult : TypeDetectionResult)
    (includeSecurityScan_ : bool) : list (FindingType * PromptConfig) :=
  flat_map (tasksOf rt (TypeDetector.primaryType (TypeDetector.classification typeResult))
                    includeSecurityScan_)
           categories.

(** [runAgents] goes through all the tasks whatever the service answers:
    it never throws, and leaves one result for each task. *)
Lemma runAllAgents_spec (world : World) rt localPath_ typeResult structure_ files depth
      includeSecurityScan_ tenantContext fr :
  readable world localPath_ ->
  exists context results fr' t,
    exec world (runAllAgents rt localPath_ typeResult structure_ files depth
                             includeSecurityScan_ tenantContext) fr
    = (Ok (context, results), fr', t)
    /\ resultsOf world (scheduled rt typeResult includeSecurityScan_) results
    /\ PromptRenderer.previousContext context = chain rt results.
Proof.
  intros Hreadable. unfold runAllAgents.
  destruct (proj1 Hreadable (selectFilesForAnalysis files depth)) as [contents Hcontents].
  destruct (getConfigFiles_spec world localPath_ fr Hreadable) as (configs & t1 & Hconfigs).
  exec_step. rewrite Hcontents. exec_prims. exec_with Hconfigs.
  match goal with
  | |- context [exec world (foldM _ categories ((?c, []), ?b)) ?f] =>
      destruct (runCategories_spec world rt tenantContext
                  (TypeDetector.primaryType (TypeDetector.classification typeResult))
                  includeSecurityScan_ categories c [] b f)
        as (rs & base & fr1 & t2 & Hrun & Hrs)
  end.
  rewrite Hrun. exec_prims. do 4 eexists. split; [reflexivity|].
  split; [exact Hrs|]. rewrite previousContext_chainResults. reflexivity.
Qed.

Lemma runAgents_spec (world : World) rt localPath_ typeResult structure_ files depth
      includeSecurityScan_ tenantContext fr :
  readable world localPath_ ->
  exists context results fr' t,
    exec world (runAllAgents rt localPath_ typeResult structure_ files depth
                             includeSecurityScan_ tenantContext) fr
    = (Ok (context, results), fr', t)
    /\ exec world (runAgents rt localPath_ typeResult structure_ files depth
                             includeSecurityScan_ tenantContext) fr
       = (Ok results, fr', t)
    /\ resultsOf world (scheduled rt typeResult includeSecurityScan_) results
    /\ PromptRenderer.previousContext context = chain rt results.
Proof.
  intros Hreadable.
  destruct (runAllAgents_spec world rt localPath_ typeResult structure_ files depth
              includeSecurityScan_ tenantContext fr Hreadable)
    as (context & results & fr' & t & Hrun & Hrs & Hchain).
  exists context, results, fr', t. split; [exact Hrun|]. split; [|split; assumption].
  unfold runAgents. exec_step. rewrite Hrun. exec_prims. rewrite app_nil_r. reflexivity.
Qed.

(** Synthesis skips the results that are not usable. *)
Lemma gather_usable (world : World) rt results :
  forall g fr,
    exec world (foldM (gather rt) results g) fr
    = exec world (foldM (gather rt) (List.filter usable results) g) fr.
Proof.
  induction results as [|r results IH]; intros g fr; [reflexivity|].
  cbn [foldM List.filter]. unfold usable at 1.
  destruct (agent_success r) eqn:Hsuccess, (truthy (output r)) eqn:Houtput; cbn [andb].
  - cbn [foldM]. rewrite !exec_bind.
    destruct (exec world (gather rt g r) fr) as [[[g' | e] fr1] t1]; [|reflexivity].
    rewrite IH. reflexivity.
  - unfold gather at 1. rewrite Hsuccess, Houtput. cbn [negb orb]. exec_step. rewrite IH.
    destruct (exec world (foldM (gather rt) (List.filter usable results) g) fr);
      reflexivity.
  - unfold gather at 1. rewrite Hsuccess. cbn [negb orb]. exec_step. rewrite IH.
    destruct (exec world (foldM (gather rt) (List.filter usable results) g) fr);
      reflexivity.
  - unfold gather at 1. rewrite Hsuccess. cbn [negb orb]. exec_step. rewrite IH.
    destruct (exec world (foldM (gather rt) (List.filter usable results) g) fr);
      reflexivity.
Qed.

Lemma synthesizeResults_usable (world : World) rt typeResult structure_ metadata results fr :
  exec world (synthesizeResults rt typeResult structure_ metadata results) fr
  = exec world (synthesizeResults rt typeResult structure_ metadata
                                  (List.filter usable results)) fr.
Proof.
  unfold synthesizeResults. rewrite !exec_bind, gather_usable. reflexivity.
Qed.

(** What the stages before the tasks answer. *)
Record Stages := {
  cloneResult : RepositoryCloneResult;
  structure : DirectoryStructure;
  files : list FileInfo;
  metadata : RepositoryMetadata;
  typeResult : TypeDetectionResult
}.

(** The stages before the tasks succeed. *)
Definition prepared (world : World) (request : AnalysisRequest) (stages : Stages) : Prop :=
  let localPath_ := localPath (cloneResult stages) in
  world _ (CloneRepository (req_repoUrl request) (req_branch request))
  = Resolved (cloneResult stages)
  /\ success (cloneResult stages) = true
  /\ world _ (GetDirectoryStructure localPath_) = Resolved (structure stages)
  /\ world _ (GetFiles localPath_) = Resolved (files stages)
  /\ world _ (GetRepositoryMetadata localPath_) = Resolved (metadata stages)
  /\ world _ (Detect localPath_ (structure stages) (files stages))
     = Resolved (typeResult stages).

(** The result can be stored and the clone removed. *)
Definition settled (world : World) : Prop :=
  (forall url branch_ hash result_, world _ (CacheSet url branch_ hash result_) = Resolved tt)
  /\ (forall localPath_, world _ (Cleanup localPath_) = Resolved tt).

(** The frame of [runAnalysis] when it starts the tasks. *)
Definition agentsFrame (stages : Stages) (fr : Frame) : Frame :=
  {| job :=
       withCurrentStep "Running AI analysis..."
         (withProgress 30
            (withStatus analyzing
               (withUsage (fun u => withRepoSizeBytes (sizeBytes (metadata stages))
                                      (withFilesAnalyzed (List.length (files stages)) u))
                  (withCurrentStep "Analyzing project structure..."
                     (withProgress 20
                        (withStatus detecting
                           (withBranch (clone_branch (cloneResult stages))
                              (withCommitHash (clone_commitHash (cloneResult stages))
                                 (cloningJob (job fr))))))))));
     clonePath := localPath (cloneResult stages);
     drawn := drawn fr |}.

(** The frame of [runAnalysis] when it starts the synthesis, from the one
    the tasks leave. *)
Definition synthesisFrame (afterAgents : Frame) : Frame :=
  put (withCurrentStep "Synthesizing findings..."
         (withProgress 80 (withStatus synthesizing (job afterAgents))))
      afterAgents.

Lemma exec_cleanup (world : World) fr :
  settled world ->
  exists t,
    exec world (let* fr' := getFrame in
                match clonePath fr' with
                | EmptyString => ret tt
                | String c p => await (Cleanup (String c p))
                end) fr = (Ok tt, fr, t).
Proof.
  intros [_ Hcleanup]. exec_step. destruct (clonePath fr) as [|c p].
  - exec_prims. eexists. reflexivity.
  - exec_prims. rewrite Hcleanup. eexists. reflexivity.
Qed.

(** What [runAnalysis] does of a failure: the job ends failed. *)
Lemma exec_failure (world : World) request e fr :
  exists t,
    exec world (failAnalysis (Some (messageOf e)) ;;
                let* analysis := getJob in
                notify request (analysis_failed (id analysis) (errorMessage analysis))) fr
    = (Ok tt, put (withErrorMessage (Some (messageOf e)) (withStatus failed (job fr))) fr, t).
Proof.
  repeat exec_step. exec_notify_step. eexists. reflexivity.
Qed.

Lemma analyse_spec (world : World) rt request tenantContext fr stages :
  prepared world request stages ->
  readable world (localPath (cloneResult stages)) ->
  settled world ->
  exists context results afterAgents t,
    exec world (runAllAgents rt (localPath (cloneResult stages)) (typeResult stages)
                             (structure stages) (files stages) (analysisDepth (job fr))
                             (includeSecurity (job fr)) tenantContext)
         (agentsFrame stages fr)
    = (Ok (context, results), afterAgents, t)
    /\ resultsOf world (scheduled rt (typeResult stages) (includeSecurity (job fr))) results
    /\ PromptRenderer.previousContext context = chain rt results
    /\ exists outcome final trace,
        exec world (analyse rt request tenantContext) fr = (outcome, final, trace)
        /\ match exec world (synthesizeResults rt (typeResult stages) (structure stages)
                                               (metadata stages)
                                               (List.filter usable results))
                      (synthesisFrame afterAgents) with
           | (Ok synthesized, _, _) =>
               match generateMarkdown rt synthesized with
               | Resolved archMd_ =>
                   outcome = Ok tt
                   /\ status (job final) = completed
                   /\ progress (job final) = 100
                   /\ result (job final)
                      = Some (finishResult rt request (job final) (metadata stages)
                                           (structure stages) archMd_ synthesized)
               | Rejected e => outcome = Throw e
               end
           | (Throw e, _, _) => outcome = Throw e
           end.
Proof.
  intros (Hclone & Hsuccess & Hds & Hfiles & Hmeta & Hdetect) Hreadable [Hstore _].
  destruct stages as [cr ds fs md tr].
  cbn [cloneResult structure files metadata typeResult] in *.
  unfold analyse.
  exec_step. exec_step. rewrite Hclone. exec_prims. rewrite Hsuccess. cbn [negb].
  do 4 exec_step. rewrite Hds. exec_prims.
  exec_step. rewrite Hfiles. exec_prims.
  exec_step. rewrite Hmeta. exec_prims.
  exec_step. rewrite Hdetect. exec_prims.
  do 4 exec_step.
  match goal with
  | |- context [exec world (runAgents _ _ _ _ _ (analysisDepth ?a) _ _) _] =>
      replace (analysisDepth a) with (analysisDepth (job fr))
        by (destruct fr as [[? ? ? ? ? ? ? ? ? ? ? ? ? ? ? []] ? ?]; reflexivity);
      replace (includeSecurity a) with (includeSecurity (job fr))
        by (destruct fr as [[? ? ? ? ? ? ? ? ? ? ? ? ? ? ? []] ? ?]; reflexivity)
  end.
  match goal with
  | |- context [exec world (runAgents _ _ _ _ _ _ _ _) ?F] =>
      destruct (runAgents_spec world rt (localPath cr) tr ds fs (analysisDepth (job fr))
                               (includeSecurity (job fr)) tenantContext F Hreadable)
        as (context & results & afterAgents & tA & Hall & Hrun & Hresults & Hchain)
  end.
  exists context, results, afterAgents, tA.
  split; [exact Hall|]. split; [exact Hresults|]. split; [exact Hchain|].
  rewrite Hrun. exec_prims. do 2 exec_step.
  rewrite synthesizeResults_usable. unfold synthesisFrame. cbn [put job clonePath drawn].
  destruct (exec world (synthesizeResults rt tr ds md (List.filter usable results)) _)
    as [[[synthesized | e] frS] tS].
  - exec_prims. do 2 exec_step. rewrite exec_liftOutcome.
    destruct (generateMarkdown rt synthesized) as [archMd_ | e].
    + exec_prims. repeat exec_step. rewrite Hstore. exec_prims. repeat exec_step.
      exec_notify_step. cbv beta iota zeta.
      do 3 eexists. split; [reflexivity|]. split; [reflexivity|].
      destruct frS as [[? ? ? ? ? ? ? ? ? ? ? ? ? ? ? []] ? ?]. cbn. repeat split.
    + exec_prims. do 3 eexists. split; reflexivity.
  - exec_prims. do 3 eexists. split; reflexivity.
Qed.

Lemma status_failed message a : status (withErrorMessage message (withStatus failed a)) = failed.
Proof. destruct a. reflexivity. Qed.

(** C6.  Take a job that is analysed afresh, whose stages before the
    tasks succeed, whose files can be read, whose result can be stored
    and whose clone can be removed; the reasoning service may answer each
    task or fail it, in any number.  Then [runAgents] goes through all
    the tasks and leaves one result for each, in order; a usable result
    stems from an answer of the service, so a task whose call fails
    leaves none; the context the tasks hand on holds the outputs of the
    usable results only; synthesis of the results is synthesis of the
    usable ones; and the job ends completed, with progress 100 and the
    result synthesized from the usable results, whenever that synthesis
    and the report succeed (it ends failed otherwise). *)
Theorem failed_tasks_are_left_out (world : World) rt request tenantContext fr stages :
  notForced request = false
  \/ world _ (CacheGet (req_repoUrl request) (req_branch request)) = Resolved None ->
  prepared world request stages ->
  readable world (localPath (cloneResult stages)) ->
  settled world ->
  exists context results afterAgents t,
    exec world (runAllAgents rt (localPath (cloneResult stages)) (typeResult stages)
                             (structure stages) (files stages) (analysisDepth (job fr))
                             (includeSecurity (job fr)) tenantContext)
         (agentsFrame stages fr)
    = (Ok (context, results), afterAgents, t)
    /\ resultsOf world (scheduled rt (typeResult stages) (includeSecurity (job fr))) results
    /\ PromptRenderer.previousContext context = chain rt results
    /\ (forall fr',
           exec world (synthesizeResults rt (typeResult stages) (structure stages)
                                         (metadata stages) results) fr'
           = exec world (synthesizeResults rt (typeResult stages) (structure stages)
                                           (metadata stages) (List.filter usable results))
                  fr')
    /\ exists final trace,
        exec world (runAnalysis rt request tenantContext) fr = (Ok tt, final, trace)
        /\ match exec world (synthesizeResults rt (typeResult stages) (structure stages)
                                               (metadata stages)
                                               (List.filter usable results))
                      (synthesisFrame afterAgents) with
           | (Ok synthesized, _, _) =>
               match generateMarkdown rt synthesized with
               | Resolved archMd_ =>
                   status (job final) = completed
                   /\ progress (job final) = 100
                   /\ result (job final)
                      = Some (finishResult rt request (job final) (metadata stages)
                                           (structure stages) archMd_ synthesized)
               | Rejected _ => status (job final) = failed
               end
           | (Throw _, _, _) => status (job final) = failed
           end.
Proof.
  intros Hfresh Hprepared Hreadable Hsettled.
  destruct (analyse_spec world rt request tenantContext
              {| job := job fr; clonePath := EmptyString; drawn := drawn fr |}
              stages Hprepared Hreadable Hsettled)
    as (context & results & afterAgents & t & Hall & Hresults & Hchain
        & outcome & final & trace & Hanalyse & Hend).
  exists context, results, afterAgents, t.
  split; [exact Hall|]. split; [exact Hresults|]. split; [exact Hchain|].
  split; [intros fr'; apply synthesizeResults_usable|].
  unfold runAnalysis.
  rewrite exec_bind, exec_setClonePath. cbv beta iota zeta.
  rewrite exec_tryFinally, exec_tryCatch, exec_bind.
  assert (Hlookup : exists t0,
             exec world (if notForced request
                         then await (CacheGet (req_repoUrl request) (req_branch request))
                         else ret None)
                  {| job := job fr; clonePath := EmptyString; drawn := drawn fr |}
             = (Ok None, {| job := job fr; clonePath := EmptyString; drawn := drawn fr |},
                t0)).
  { destruct (notForced request).
    - destruct Hfresh as [Hforced | Hmiss]; [discriminate Hforced|].
      rewrite exec_await, Hmiss. eexists. reflexivity.
    - eexists. reflexivity. }
  destruct Hlookup as [t0 Hlookup]. rewrite Hlookup. cbv beta iota zeta.
  rewrite Hanalyse.
  destruct (exec world (synthesizeResults _ _ _ _ _) (synthesisFrame afterAgents))
    as [[[synthesized | e] frS] tS].
  - destruct (generateMarkdown rt synthesized) as [archMd_ | e].
    + destruct Hend as (-> & Hstatus & Hprogress & Hresult).
      destruct (exec_cleanup world final Hsettled) as [tC HC]. rewrite HC.
      do 2 eexists. split; [reflexivity|]. auto.
    + subst outcome.
      destruct (exec_failure world request e final) as [tF HF]. rewrite HF.
      match goal with
      | |- context [exec world (bind getFrame _) ?F] =>
          destruct (exec_cleanup world F Hsettled) as [tC HC]; rewrite HC
      end.
      do 2 eexists. split; [reflexivity|]. apply status_failed.
  - subst outcome.
    destruct (exec_failure world request e final) as [tF HF]. rewrite HF.
    match goal with
    | |- context [exec world (bind getFrame _) ?F] =>
        destruct (exec_cleanup world F Hsettled) as [tC HC]; rewrite HC
    end.
    do 2 eexists. split; [reflexivity|]. apply status_failed.
Qed.

Definition sampleStages : Stages :=
  {| cloneResult := {| success := true; localPath := "/tmp/reposwarm/clone-1";
                       clone_commitHash := "c0ffee"; clone_branch := "main";
                       clone_error := None |};
     structure := sampleTree;
     files := [{| TypeDetector.path := "src/index.ts"; TypeDetector.name := "index.ts";
                  TypeDetector.extension := ".ts"; TypeDetector.size := 120 |}];
     metadata := sampleMetadata;
     typeResult := sampleDetection |}.

(** The answer of the service to a task. *)
Definition sampleAnswer (taskId_ : string) : JValue :=
  JObject [("result",
            JObject [("pattern", JString "layered");
                     ("findings",
                      JArray [JObject [("title", JString ("Finding of " ++ taskId_))]])])].

(** A world where the stages succeed, and the service answers every task
    but the one on the documentation, which times out. *)
Definition oneFailureWorld : World :=
  fun R c =>
    match c in Call R return Outcome R with
    | CacheGet _ _ => Resolved None
    | CloneRepository _ _ => Resolved (cloneResult sampleStages)
    | GetDirectoryStructure _ => Resolved sampleTree
    | GetFiles _ => Resolved (files sampleStages)
    | GetRepositoryMetadata _ => Resolved sampleMetadata
    | Detect _ _ _ => Resolved sampleDetection
    | ReadFiles _ _ => Resolved [("src/index.ts", "export const x = 1;")]
    | ReadFile _ _ => Resolved None
    | PostTask taskId_ _ _ _ _ =>
        if String.eqb taskId_ "doc-quality"
        then Rejected (ErrorObject "timeout of 120000ms exceeded")
        else Resolved (sampleAnswer taskId_)
    | CacheSet _ _ _ _ => Resolved tt
    | PostWebhook _ _ => Resolved tt
    | Cleanup _ => Resolved tt
    end.

(** Five tasks, of which the third fails: the job ends completed, with
    the findings of the three other tasks that report findings, and the
    overview of the architecture. *)
Lemma failed_tasks_are_left_out_witness :
  exists final trace res,
    exec oneFailureWorld (runAnalysis sampleRuntime (sampleRequest None) sampleTenant)
         sampleFrame = (Ok tt, final, trace)
    /\ status (job final) = completed
    /\ result (job final) = Some res
    /\ map title (findings res)
       = ["Finding of perf-hotspots"; "Finding of test-coverage"; "Finding of maint-debt"]
    /\ pattern (architecture res) = JString "layered".
Proof.
  destruct (failed_tasks_are_left_out oneFailureWorld sampleRuntime (sampleRequest None)
              sampleTenant sampleFrame sampleStages)
    as (context & results & afterAgents & t & Hall & _ & _ & _ & final & trace & Hrun & Hend).
  - right. reflexivity.
  - repeat split; reflexivity.
  - split; intros; eexists; reflexivity.
  - split; intros; reflexivity.
  - vm_compute in Hall. injection Hall as Hcontext Hresults HafterAgents _.
    subst context results afterAgents. vm_compute in Hend.
    destruct Hend as (Hstatus & _ & Hresult).
    exists final, trace. eexists. split; [exact Hrun|]. split; [exact Hstatus|].
    split; [exact Hresult|]. split; reflexivity.
Defined.

(** ** What every run of the pipeline keeps

    The facts below hold whatever the collaborators answer. *)

(** *** Relations between the frame before, the frame after and the steps *)

Section Respects.

Variable R : Frame -> Frame -> list Step -> Prop.
Hypothesis R_refl : forall fr, R fr fr [].
Hypothesis R_trans :
  forall f1 f2 f3 t1 t2, R f1 f2 t1 -> R f2 f3 t2 -> R f1 f3 (t1 ++ t2)%list.

(** Every run of [m] relates its two frames and its steps. *)
Definition respects {A} (m : M A) : Prop :=
  forall (world : World) fr r fr' t, exec world m fr = (r, fr', t) -> R fr fr' t.

Lemma respects_ret {A} (a : A) : respects (ret a).
Proof. intros world fr r fr' t H. rewrite exec_ret in H. injection H as _ <- <-. apply R_refl. Qed.

Lemma respects_throw {A} e : respects (@throw A e).
Proof. intros world fr r fr' t H. rewrite exec_throw in H. injection H as _ <- <-. apply R_refl. Qed.

Lemma respects_getJob : respects getJob.
Proof. intros world fr r fr' t H. rewrite exec_getJob in H. injection H as _ <- <-. apply R_refl. Qed.

Lemma respects_getFrame : respects getFrame.
Proof. intros world fr r fr' t H. rewrite exec_getFrame in H. injection H as _ <- <-. apply R_refl. Qed.

Lemma respects_lift {A} (r : Result A) : respects (lift r).
Proof. destruct r; [apply respects_ret | apply respects_throw]. Qed.

Lemma respects_liftOutcome {A} (o : Outcome A) : respects (liftOutcome o).
Proof. destruct o; [apply respects_ret | apply respects_throw]. Qed.

Lemma respects_bind {A B} (m : M A) (f : A -> M B) :
  respects m -> (forall a, respects (f a)) -> respects (bind m f).
Proof.
  intros Hm Hf world fr r fr' t H. rewrite exec_bind in H.
  destruct (exec world m fr) as [[[a | e] fr1] t1] eqn:E1.
  - destruct (exec world (f a) fr1) as [[r2 fr2] t2] eqn:E2. injection H as <- <- <-.
    eapply R_trans; [apply (Hm _ _ _ _ _ E1) | apply (Hf a _ _ _ _ _ E2)].
  - injection H as <- <- <-. apply (Hm _ _ _ _ _ E1).
Qed.

Lemma respects_tryCatch {A} (body : M A) handler :
  respects body -> (forall e, respects (handler e)) -> respects (tryCatch body handler).
Proof.
  intros Hm Hf world fr r fr' t H. rewrite exec_tryCatch in H.
  destruct (exec world body fr) as [[[a | e] fr1] t1] eqn:E1.
  - injection H as <- <- <-. apply (Hm _ _ _ _ _ E1).
  - destruct (exec world (handler e) fr1) as [[r2 fr2] t2] eqn:E2. injection H as <- <- <-.
    eapply R_trans; [apply (Hm _ _ _ _ _ E1) | apply (Hf e _ _ _ _ _ E2)].
Qed.

Lemma respects_tryFinally {A} (body : M A) finalizer :
  respects body -> respects finalizer -> respects (tryFinally body finalizer).
Proof.
  intros Hm Hf world fr r fr' t H. rewrite exec_tryFinally in H.
  destruct (exec world body fr) as [[r1 fr1] t1] eqn:E1.
  destruct (exec world finalizer fr1) as [[r2 fr2] t2] eqn:E2. injection H as _ <- <-.
  eapply R_trans; [apply (Hm _ _ _ _ _ E1) | apply (Hf _ _ _ _ _ E2)].
Qed.

Lemma respects_foldM {A B} (f : A -> B -> M A) (l : list B) :
  (forall a b, respects (f a b)) -> forall a, respects (foldM f l a).
Proof.
  intros Hf. induction l as [|b l IH]; intros a; cbn [foldM].
  - apply respects_ret.
  - apply respects_bind; [apply Hf | exact IH].
Qed.

Lemma respects_mapM {A B} (f : A -> M B) (l : list A) :
  (forall a, respects (f a)) -> respects (mapM f l).
Proof.
  intros Hf. induction l as [|a l IH]; cbn [mapM].
  - apply respects_ret.
  - apply respects_bind; [apply Hf|]. intros b.
    apply respects_bind; [exact IH|]. intros bs. apply respects_ret.
Qed.

End Respects.

(** Goes through the structure of a piece of code, as far as it is made
    of [bind], [try] blocks, loops and case distinctions; [Hr] and [Ht]
    say that the relation is reflexive and transitive. *)
Ltac respects_structure Hr Ht :=
  repeat first
    [ apply respects_ret; exact Hr
    | apply respects_throw; exact Hr
    | apply respects_getJob; exact Hr
    | apply respects_getFrame; exact Hr
    | apply respects_lift; exact Hr
    | apply respects_liftOutcome; exact Hr
    | apply respects_foldM; [exact Hr | exact Ht | intros ? ?]
    | apply respects_mapM; [exact Hr | exact Ht | intros ?]
    | apply respects_bind; [exact Ht | | intros ?]
    | apply respects_tryCatch; [exact Ht | | intros ?]
    | apply respects_tryFinally; [exact Ht | | ]
    | match goal with
      | |- respects _ (match ?x with _ => _ end) => destruct x
      end ].

(** *** The call to the reasoning service *)

(** The [X-Request-Id] header of a call: the id of the request, or a
    fresh identifier when the request has none. *)
Definition requestIdHeaderOf (rt : Runtime) (tenantContext : TenantContext) (fr : Frame)
  : string :=
  match requestId tenantContext with
  | Some (String c r) => String c r
  | _ => uuidv4 rt (drawn fr)
  end.

(** A JSON object or array. *)
Definition isObject (v : JValue) : bool :=
  match v with JArray _ | JObject _ => true | _ => false end.

Lemma exec_callMageAgent (world : World) rt taskId_ taskType prompt tenantContext fr :
  exists fr',
    job fr' = job fr /\ clonePath fr' = clonePath fr /\
    exec world (callMageAgent rt taskId_ taskType prompt tenantContext) fr
    = (Ok match world _ (PostTask taskId_ prompt (tenantId tenantContext)
                                  (userId tenantContext)
                                  (requestIdHeaderOf rt tenantContext fr)) with
          | Resolved data =>
              match totalTokens data with
              | Ok tokens =>
                  {| taskId := taskId_; agent_type := taskType; agent_success := true;
                     output := parseAgentOutput data; tokensUsed := tokens;
                     agent_error := None |}
              | Throw e =>
                  {| taskId := taskId_; agent_type := taskType; agent_success := false;
                     output := JNull; tokensUsed := JNumber 0;
                     agent_error := Some match e with
                                         | ErrorObject m => m
                                         | _ => "MageAgent call failed"
                                         end |}
              end
          | Rejected e =>
              {| taskId := taskId_; agent_type := taskType; agent_success := false;
                 output := JNull; tokensUsed := JNumber 0;
                 agent_error := Some match e with
                                     | ErrorObject m => m
                                     | _ => "MageAgent call failed"
                                     end |}
          end,
       fr',
       [Called (PostTask taskId_ prompt (tenantId tenantContext) (userId tenantContext)
                         (requestIdHeaderOf rt tenantContext fr))
               (job fr)]).
Proof.
  unfold callMageAgent, requestIdHeaderOf. exec_step. exec_step.
  destruct (requestId tenantContext) as [[|c r]|]; exec_prims; repeat exec_step.
  all: destruct (world JValue _) as [data | e]; repeat exec_step; unfold lift.
  all: try (destruct (totalTokens data) as [tokens | e]; repeat exec_step).
  all: eexists; split; [|split; [|reflexivity]]; reflexivity.
Qed.

(** X1.  [callMageAgent] never throws and makes exactly one call,
    whatever the service answers, and leaves the job as it is.  Its
    result carries the id and the type of the task; a result without
    success has the output null, no tokens and an error message, a
    result with success has no error message; and a call that is
    rejected with an error gives a result without success, with the
    message of the error. *)
Theorem callMageAgent_never_throws (world : World) rt taskId_ taskType prompt
    tenantContext fr :
  exists r fr' requestIdHeader,
    exec world (callMageAgent rt taskId_ taskType prompt tenantContext) fr
    = (Ok r, fr',
       [Called (PostTask taskId_ prompt (tenantId tenantContext) (userId tenantContext)
                         requestIdHeader)
               (job fr)])
    /\ job fr' = job fr
    /\ taskId r = taskId_
    /\ agent_type r = taskType
    /\ (agent_success r = false ->
        output r = JNull /\ tokensUsed r = JNumber 0 /\ agent_error r <> None)
    /\ (agent_success r = true -> agent_error r = None)
    /\ (forall message,
           world _ (PostTask taskId_ prompt (tenantId tenantContext) (userId tenantContext)
                             requestIdHeader)
           = Rejected (ErrorObject message) ->
           agent_success r = false /\ agent_error r = Some message).
Proof.
  destruct (exec_callMageAgent world rt taskId_ taskType prompt tenantContext fr)
    as (fr' & Hjob & _ & Hrun).
  eexists. exists fr', (requestIdHeaderOf rt tenantContext fr).
  split; [exact Hrun|]. split; [exact Hjob|].
  destruct (world JValue _) as [data | e].
  - destruct (totalTokens data) as [tokens | e]; cbn.
    all: split; [reflexivity|]; split; [reflexivity|].
    all: split; [intros; repeat split; discriminate || reflexivity|].
    all: split; [intros; discriminate || reflexivity|].
    all: intros message Hmessage; discriminate Hmessage.
  - cbn. split; [reflexivity|]. split; [reflexivity|].
    split; [intros _; repeat split; discriminate|].
    split; [intros H; discriminate H|].
    intros message Hmessage. injection Hmessage as ->. split; reflexivity.
Qed.

(** X2.  When the service answers a task, the result is usable (it is
    chained to the later tasks and synthesized) exactly when the body of
    the answer is a JSON object or array: a body that is a string, a
    number or a boolean gives a result with success and the output null,
    and a body that is null gives a result without success. *)
Theorem answer_is_usable_iff_object (world : World) rt taskId_ taskType prompt
    tenantContext fr data :
  world _ (PostTask taskId_ prompt (tenantId tenantContext) (userId tenantContext)
                    (requestIdHeaderOf rt tenantContext fr))
  = Resolved data ->
  exists r fr' t,
    exec world (callMageAgent rt taskId_ taskType prompt tenantContext) fr = (Ok r, fr', t)
    /\ usable r = isObject data
    /\ (isObject data = false -> output r = JNull)
    /\ agent_success r = match data with JNull | JUndefined => false | _ => true end.
Proof.
  intros Hanswer.
  destruct (exec_callMageAgent world rt taskId_ taskType prompt tenantContext fr)
    as (fr' & _ & _ & Hrun).
  rewrite Hanswer in Hrun. do 3 eexists. split; [exact Hrun|].
  destruct data as [| | b | q | s | items | fields]; cbn;
    try (split; [reflexivity|]; split; reflexivity).
  - split; [reflexivity|]. split; [intros H; discriminate H | reflexivity].
  - split; [|split; [intros H; discriminate H | reflexivity]].
    unfold usable, parseAgentOutput. cbn [agent_success output andb].
    repeat match goal with
           | |- context [if ?b then _ else _] => destruct b eqn:?
           end; try assumption; reflexivity.
Qed.

Lemma answer_is_usable_iff_object_witness :
  exists r fr' t,
    exec oneFailureWorld
         (callMageAgent sampleRuntime "perf-hotspots" PromptEngine.performance
                        "Review acme/shop" sampleTenant) sampleFrame = (Ok r, fr', t)
    /\ usable r = true
    /\ (true = false -> output r = JNull)
    /\ agent_success r = true.
Proof.
  apply (answer_is_usable_iff_object oneFailureWorld sampleRuntime "perf-hotspots"
           PromptEngine.performance "Review acme/shop" sampleTenant sampleFrame
           (sampleAnswer "perf-hotspots")).
  reflexivity.
Defined.

(** *** What the tasks cost *)

Definition isTaskCall {R} (c : Call R) : bool :=
  match c with PostTask _ _ _ _ _ => true | _ => false end.

(** The number of calls to the reasoning service among the steps. *)
Fixpoint taskCalls (t : list Step) : nat :=
  match t with
  | [] => 0%nat
  | Called c _ :: t' => ((if isTaskCall c then 1 else 0) + taskCalls t')%nat
  | Progress _ :: t' => taskCalls t'
  end.

Lemma taskCalls_app t1 t2 :
  taskCalls (t1 ++ t2) = (taskCalls t1 + taskCalls t2)%nat.
Proof.
  induction t1 as [|[p | R c j] t1 IH]; cbn [taskCalls app]; [reflexivity | exact IH|].
  rewrite IH. apply Nat.add_assoc.
Qed.

(** The tokens of the result [callMageAgent] builds from an answer. *)
Definition answerTokens (answer : Outcome JValue) : JValue :=
  match answer with
  | Resolved data =>
      match totalTokens data with
      | Ok tokens => tokens
      | Throw _ => JNumber 0
      end
  | Rejected _ => JNumber 0
  end.

(** [usage.tokensConsumed += tokens] goes through: the runtime does not
    refuse to turn [tokens] into a text. *)
Definition addable (rt : Runtime) (tokens : JValue) : bool :=
  match addTokens rt None tokens with
  | Resolved _ => true
  | Rejected _ => false
  end.

Definition unaddedAnswer (rt : Runtime) {R} (c : Call R) : Outcome R -> bool :=
  match c in Call R return Outcome R -> bool with
  | PostTask _ _ _ _ _ => fun answer => negb (addable rt (answerTokens answer))
  | _ => fun _ => false
  end.

(** The number of calls to the reasoning service among the steps whose
    answer carries tokens that cannot be added to the usage. *)
Fixpoint uncounted (world : World) (rt : Runtime) (t : list Step) : nat :=
  match t with
  | [] => 0%nat
  | Called c _ :: t' =>
      ((if unaddedAnswer rt c (world _ c) then 1 else 0) + uncounted world rt t')%nat
  | Progress _ :: t' => uncounted world rt t'
  end.

Lemma uncounted_app world rt t1 t2 :
  uncounted world rt (t1 ++ t2) = (uncounted world rt t1 + uncounted world rt t2)%nat.
Proof.
  induction t1 as [|[p | R c j] t1 IH]; cbn [uncounted app]; [reflexivity | exact IH|].
  rewrite IH. apply Nat.add_assoc.
Qed.

Lemma uncounted_le world rt t : (uncounted world rt t <= taskCalls t)%nat.
Proof.
  induction t as [|[p | R c j] t IH]; cbn [uncounted taskCalls]; [lia | exact IH|].
  destruct c; cbn [unaddedAnswer isTaskCall]; try lia.
  destruct (negb _); lia.
Qed.

(** [usage.tokensConsumed] after [tokens] have been added to [consumed],
    when they can be. *)
Definition tokenSum (rt : Runtime) (consumed : option Q) (tokens : JValue) : option Q :=
  match addTokens rt consumed tokens with
  | Resolved consumed' => consumed'
  | Rejected _ => consumed
  end.

(** The usage after the results [rs] have been counted. *)
Definition countAgents (rt : Runtime) (rs : list AgentResult) (u : AnalysisUsage)
  : AnalysisUsage :=
  fold_left (fun u r => countAgent (tokenSum rt (tokensConsumed u) (tokensUsed r)) u) rs u.

(** The steps call the service once for each of [rs]; the usage has
    counted the calls whose tokens could be added and, when that is all
    of them, counted [rs]. *)
Definition accounted (world : World) (rt : Runtime) (rs : list AgentResult)
  : Frame -> Frame -> list Step -> Prop :=
  fun f1 f2 t =>
    (agentsUsed (usage (job f2)) + uncounted world rt t
     = agentsUsed (usage (job f1)) + taskCalls t)%nat
    /\ taskCalls t = List.length rs
    /\ (uncounted world rt t = 0%nat -> usage (job f2) = countAgents rt rs (usage (job f1))).

Lemma accounted_app world rt rs1 rs2 f1 f2 f3 t1 t2 :
  accounted world rt rs1 f1 f2 t1 -> accounted world rt rs2 f2 f3 t2 ->
  accounted world rt (rs1 ++ rs2) f1 f3 (t1 ++ t2).
Proof.
  intros (Ha1 & Hc1 & Hu1) (Ha2 & Hc2 & Hu2). unfold accounted, countAgents in *.
  rewrite uncounted_app, taskCalls_app, length_app, fold_left_app.
  split; [lia|]. split; [lia|]. intros Hnone.
  rewrite <- Hu1, <- Hu2 by lia. reflexivity.
Qed.

Lemma accounted_nil world rt fr : accounted world rt [] fr fr [].
Proof. split; [reflexivity|]. split; reflexivity. Qed.

(** The steps make no call to the service and leave the usage as it is. *)
Definition costsNothing : Frame -> Frame -> list Step -> Prop :=
  fun f1 f2 t => usage (job f2) = usage (job f1) /\ taskCalls t = 0%nat.

Lemma costsNothing_refl fr : costsNothing fr fr [].
Proof. split; reflexivity. Qed.

Lemma costsNothing_trans f1 f2 f3 t1 t2 :
  costsNothing f1 f2 t1 -> costsNothing f2 f3 t2 -> costsNothing f1 f3 (t1 ++ t2).
Proof.
  intros [Hu1 Hc1] [Hu2 Hc2]. split; [congruence|]. rewrite taskCalls_app. lia.
Qed.

Lemma costsNothing_accounted world rt f1 f2 t :
  costsNothing f1 f2 t -> accounted world rt [] f1 f2 t.
Proof.
  intros [Hu Hc]. pose proof (uncounted_le world rt t) as Hle.
  unfold accounted. rewrite Hu. cbn [List.length countAgents fold_left].
  split; [lia|]. split; [exact Hc | reflexivity].
Qed.

Lemma usage_status a s p step :
  usage (withCurrentStep step (withProgress p (withStatus s a))) = usage a.
Proof. destruct a. reflexivity. Qed.

Lemma usage_withUsage f a : usage (withUsage f a) = f (usage a).
Proof. destruct a. reflexivity. Qed.

Lemma callMageAgent_counts world rt taskId_ taskType prompt tenantContext fr :
  exists r fr' t,
    exec world (callMageAgent rt taskId_ taskType prompt tenantContext) fr = (Ok r, fr', t)
    /\ job fr' = job fr /\ taskCalls t = 1%nat
    /\ uncounted world rt t = if addable rt (tokensUsed r) then 0%nat else 1%nat.
Proof.
  destruct (exec_callMageAgent world rt taskId_ taskType prompt tenantContext fr)
    as (fr1 & Hjob & _ & Hrun).
  do 3 eexists. split; [exact Hrun|].
  split; [exact Hjob|]. split; [reflexivity|].
  cbn [uncounted unaddedAnswer]. unfold answerTokens.
  destruct (world JValue _) as [data | e]; [destruct (totalTokens data)|];
    cbn [tokensUsed]; destruct (addable rt _); reflexivity.
Qed.

Lemma addable_addTokens rt consumed tokens :
  addable rt tokens = match addTokens rt consumed tokens with
                      | Resolved _ => true
                      | Rejected _ => false
                      end.
Proof.
  unfold addable. destruct tokens; cbn [addTokens]; try reflexivity.
  all: destruct (toString rt _); reflexivity.
Qed.

Lemma exec_runPrompt (world : World) rt tenantContext category context results prompt fr :
  exists r fr' t context',
    exec world (runPrompt rt tenantContext category (context, results) prompt) fr
    = (Ok (context', (results ++ [r])%list), fr', t)
    /\ accounted world rt [r] fr fr' t.
Proof.
  unfold runPrompt.
  destruct (callMageAgent_counts world rt (PromptEngine.id prompt) category
              (PromptRenderer.content (PromptRenderer.renderPrompt prompt context))
              tenantContext fr) as (r & fr1 & t1 & Hcall & Hjob & Hone & Hun).
  exec_with Hcall. rewrite exec_liftOutcome.
  rewrite (addable_addTokens rt (tokensConsumed (usage (job fr1)))) in Hun.
  destruct (addTokens rt (tokensConsumed (usage (job fr1))) (tokensUsed r))
    as [consumed | e] eqn:Hadd;
    repeat exec_step; do 4 eexists; (split; [reflexivity|]).
  - rewrite ?app_nil_r. unfold accounted. rewrite Hun, Hone.
    cbn [job put countAgents fold_left List.length]. unfold tokenSum.
    rewrite Hjob in *. rewrite Hadd, usage_withUsage. destruct (usage (job fr)).
    cbn. split; [lia|]. split; reflexivity.
  - rewrite ?app_nil_r. unfold accounted. rewrite Hun, Hone. rewrite Hjob.
    cbn [List.length]. split; [lia|]. split; [reflexivity|]. intros H; discriminate H.
Qed.

Lemma runPrompts_accounted (world : World) rt tenantContext category prompts :
  forall context results fr,
  exists rs fr' t context',
    exec world (foldM (runPrompt rt tenantContext category) prompts (context, results)) fr
    = (Ok (context', (results ++ rs)%list), fr', t)
    /\ accounted world rt rs fr fr' t.
Proof.
  induction prompts as [|prompt prompts IH]; intros context results fr.
  - exists []. do 3 eexists. cbn [foldM]. rewrite exec_ret, app_nil_r.
    split; [reflexivity | apply accounted_nil].
  - cbn [foldM].
    destruct (exec_runPrompt world rt tenantContext category context results prompt fr)
      as (r & fr1 & t1 & context1 & Hrun & Hr).
    destruct (IH context1 (results ++ [r])%list fr1)
      as (rs & fr2 & t2 & context' & Hrest & Hrs).
    exec_with Hrun. rewrite Hrest. cbv beta iota zeta.
    exists (r :: rs). do 3 eexists. rewrite <- app_assoc. split; [reflexivity|].
    apply (accounted_app world rt [r] rs _ _ _ _ _ Hr Hrs).
Qed.

Lemma runCategories_accounted (world : World) rt tenantContext primaryType
      includeSecurityScan_ cats :
  forall context results progressBase fr,
  exists rs fr' t context' progressBase',
    exec world (foldM (runCategory rt tenantContext primaryType includeSecurityScan_)
                      cats ((context, results), progressBase)) fr
    = (Ok ((context', (results ++ rs)%list), progressBase'), fr', t)
    /\ accounted world rt rs fr fr' t.
Proof.
  induction cats as [|category cats IH]; intros context results progressBase fr.
  - exists []. do 4 eexists. cbn [foldM]. rewrite exec_ret, app_nil_r.
    split; [reflexivity | apply accounted_nil].
  - cbn [foldM].
    assert (Hone : exists rs fr1 t1 context1 base1,
               exec world (runCategory rt tenantContext primaryType includeSecurityScan_
                                       ((context, results), progressBase) category) fr
               = (Ok ((context1, (results ++ rs)%list), base1), fr1, t1)
               /\ accounted world rt rs fr fr1 t1).
    { unfold runCategory.
      destruct (FindingType_eqb category PromptEngine.security
                && negb includeSecurityScan_).
      { exists []. do 4 eexists. rewrite exec_ret, app_nil_r.
        split; [reflexivity | apply accounted_nil]. }
      destruct (PromptEngine.getPrompts (catalogue rt) primaryType category)
        as [|prompt prompts] eqn:Hprompts.
      { exists []. do 4 eexists. rewrite exec_ret, app_nil_r.
        split; [reflexivity | apply accounted_nil]. }
      repeat exec_step.
      match goal with
      | |- context [exec world (foldM _ ?ps (context, results)) ?f] =>
          destruct (runPrompts_accounted world rt tenantContext category ps
                      context results f) as (rs & fr1 & t1 & context1 & Hrun & Hrs)
      end.
      rewrite Hrun. cbv beta iota zeta. repeat exec_step.
      exists rs. do 4 eexists. split; [reflexivity|].
      destruct Hrs as (Ha & Hc & Hu). unfold accounted.
      cbn [job put] in Ha, Hu. rewrite usage_status in Ha, Hu.
      rewrite app_nil_r. cbn [taskCalls uncounted]. auto. }
    destruct Hone as (rs1 & fr1 & t1 & context1 & base1 & Hrun & Hrs1).
    destruct (IH context1 (results ++ rs1)%list base1 fr1)
      as (rs2 & fr2 & t2 & context2 & base2 & Hrest & Hrs2).
    exec_with Hrun. rewrite Hrest. cbv beta iota zeta.
    exists (rs1 ++ rs2)%list. do 4 eexists. rewrite <- app_assoc.
    split; [reflexivity|]. apply (accounted_app _ _ _ _ _ _ _ _ _ Hrs1 Hrs2).
Qed.

Lemma await_costs_nothing {R} (c : Call R) :
  isTaskCall c = false -> respects costsNothing (await c).
Proof.
  intros Hc world fr r fr' t H. rewrite exec_await in H. injection H as _ <- <-.
  split; [reflexivity|]. cbn [taskCalls]. rewrite Hc. reflexivity.
Qed.

Lemma getConfigFiles_costs_nothing localPath_ :
  respects costsNothing (getConfigFiles localPath_).
Proof.
  unfold getConfigFiles. respects_structure costsNothing_refl costsNothing_trans.
  all: apply await_costs_nothing; reflexivity.
Qed.

Lemma countAgents_tokens rt rs :
  forall u,
    tokensConsumed (countAgents rt rs u)
    = fold_left (tokenSum rt) (map tokensUsed rs) (tokensConsumed u).
Proof.
  induction rs as [|r rs IH]; intros u; cbn [countAgents fold_left map]; [reflexivity|].
  unfold countAgents in IH. rewrite IH. destruct u. reflexivity.
Qed.


(** *** The calls that leave the pipeline: the webhook and the cleanup *)

(** The paths the steps clean up, in order. *)
Fixpoint cleanups (t : list Step) : list string :=
  match t with
  | [] => []
  | Called c _ :: t' =>
      match c with
      | Cleanup p => p :: cleanups t'
      | _ => cleanups t'
      end
  | Progress _ :: t' => cleanups t'
  end.

(** The webhooks the steps post, in order. *)
Fixpoint webhooks (t : list Step) : list (string * WebhookPayload) :=
  match t with
  | [] => []
  | Called c _ :: t' =>
      match c with
      | PostWebhook url payload => (url, payload) :: webhooks t'
      | _ => webhooks t'
      end
  | Progress _ :: t' => webhooks t'
  end.

Lemma cleanups_app t1 t2 : cleanups (t1 ++ t2) = (cleanups t1 ++ cleanups t2)%list.
Proof.
  induction t1 as [|[p | R c j] t1 IH]; cbn [cleanups app]; [reflexivity | exact IH|].
  destruct c; cbn [app]; rewrite IH; reflexivity.
Qed.

Lemma webhooks_app t1 t2 : webhooks (t1 ++ t2) = (webhooks t1 ++ webhooks t2)%list.
Proof.
  induction t1 as [|[p | R c j] t1 IH]; cbn [webhooks app]; [reflexivity | exact IH|].
  destruct c; cbn [app]; rewrite IH; reflexivity.
Qed.

(** Steps that keep the path of the clone, clean nothing up and post no
    webhook. *)
Definition calm : Frame -> Frame -> list Step -> Prop :=
  fun f1 f2 t => clonePath f2 = clonePath f1 /\ cleanups t = [] /\ webhooks t = [].

Lemma calm_refl fr : calm fr fr [].
Proof. repeat split. Qed.

Lemma calm_trans f1 f2 f3 t1 t2 : calm f1 f2 t1 -> calm f2 f3 t2 -> calm f1 f3 (t1 ++ t2).
Proof.
  intros (Hp1 & Hc1 & Hw1) (Hp2 & Hc2 & Hw2). unfold calm.
  rewrite cleanups_app, webhooks_app, Hc1, Hc2, Hw1, Hw2, Hp2, Hp1. repeat split.
Qed.

Definition isInward {R} (c : Call R) : bool :=
  match c with Cleanup _ | PostWebhook _ _ => false | _ => true end.

Lemma await_calm {R} (c : Call R) : isInward c = true -> respects calm (await c).
Proof.
  intros Hc world fr r fr' t H. rewrite exec_await in H. injection H as _ <- <-.
  destruct c; try discriminate Hc; repeat split.
Qed.

Lemma setJob_calm f : respects calm (setJob f).
Proof. intros world fr r fr' t H. rewrite exec_setJob in H. injection H as _ <- <-. repeat split. Qed.

Lemma emitProgress_calm : respects calm emitProgress.
Proof.
  intros world fr r fr' t H. rewrite exec_emitProgress in H. injection H as _ <- <-.
  repeat split.
Qed.

Lemma freshUuid_calm rt : respects calm (freshUuid rt).
Proof.
  intros world fr r fr' t H. rewrite exec_freshUuid in H. injection H as _ <- <-.
  repeat split.
Qed.

Ltac calm_steps :=
  repeat first
    [ progress respects_structure calm_refl calm_trans
    | apply setJob_calm
    | apply emitProgress_calm
    | apply freshUuid_calm
    | apply await_calm; reflexivity
    | progress unfold runAgents, runAllAgents, getConfigFiles, runCategory, runPrompt,
        callMageAgent, synthesizeResults, gather, gatherByType, parseComponents,
        parseSecurityFindings, parseFindings, parseRecommendations, String_,
        updateStatus, failAnalysis ].

Lemma runAgents_calm rt localPath_ typeResult_ structure_ files_ depth
      includeSecurityScan_ tenantContext :
  respects calm (runAgents rt localPath_ typeResult_ structure_ files_ depth
                           includeSecurityScan_ tenantContext).
Proof. calm_steps. Qed.

Lemma synthesizeResults_calm rt typeResult_ structure_ metadata_ results :
  respects calm (synthesizeResults rt typeResult_ structure_ metadata_ results).
Proof. calm_steps. Qed.

(** The webhook a request asks for. *)
Definition webhookOf (request : AnalysisRequest) (payload : WebhookPayload)
  : list (string * WebhookPayload) :=
  match webhookUrl request with
  | Some (String c url) => [(String c url, payload)]
  | _ => []
  end.

Lemma exec_notify_webhook (world : World) request payload fr :
  exists t, exec world (notify request payload) fr = (Ok tt, fr, t)
            /\ cleanups t = [] /\ webhooks t = webhookOf request payload.
Proof.
  unfold notify, webhookOf. destruct (webhookUrl request) as [[|c url]|].
  - exists []. repeat split.
  - rewrite exec_callWebhook. eexists. repeat split.
  - exists []. repeat split.
Qed.

(** The path [runAnalysis] holds after the clone step, from the one it
    held before. *)
Definition pathAfterClone (world : World) (request : AnalysisRequest) (before : string)
  : string :=
  match world _ (CloneRepository (req_repoUrl request) (req_branch request)) with
  | Resolved cloneResult_ => if success cloneResult_ then localPath cloneResult_ else before
  | Rejected _ => before
  end.

Ltac calm_finish :=
  cbn [cleanups webhooks app];
  repeat (rewrite ?cleanups_app, ?webhooks_app; cbn [cleanups webhooks app]);
  repeat match goal with
         | H : cleanups _ = _ |- _ => rewrite H
         | H : webhooks _ = _ |- _ => rewrite H
         | H : clonePath _ = _ |- _ => rewrite H
         end;
  cbn [cleanups webhooks app clonePath]; try (repeat split; fail).

Lemma analyse_any (world : World) rt request tenantContext fr :
  let '(r, fr', t) := exec world (analyse rt request tenantContext) fr in
  cleanups t = []
  /\ clonePath fr' = pathAfterClone world request (clonePath fr)
  /\ match r with
     | Ok _ =>
         status (job fr') = completed
         /\ exists finished,
             result (job fr') = Some finished
             /\ webhooks t = webhookOf request (analysis_completed (id (job fr')) finished)
     | Throw _ => webhooks t = []
     end.
Proof.
  unfold analyse, pathAfterClone. do 2 exec_step.
  destruct (world RepositoryCloneResult _) as [cr | e]; exec_prims; [|repeat split].
  destruct (success cr); cbn [negb]; [|exec_prims; repeat split].
  do 4 exec_step. destruct (world DirectoryStructure _) as [ds | e]; exec_prims;
    [|repeat split].
  exec_step. destruct (world (list FileInfo) _) as [fs | e]; exec_prims; [|repeat split].
  exec_step. destruct (world RepositoryMetadata _) as [md | e]; exec_prims; [|repeat split].
  exec_step. destruct (world TypeDetectionResult _) as [tr | e]; exec_prims; [|repeat split].
  do 4 exec_step.
  match goal with
  | |- context [exec world (runAgents ?a ?b ?c ?d ?e ?f ?g ?h) ?F] =>
      destruct (exec world (runAgents a b c d e f g h) F) as [[[results | e'] frB] tB] eqn:EB;
      destruct (runAgents_calm a b c d e f g h world F _ _ _ EB) as (HpB & HcB & HwB)
  end; cbn [clonePath put job drawn] in HpB; cbv beta iota zeta.
  2: { calm_finish. }
  do 2 exec_step.
  match goal with
  | |- context [exec world (synthesizeResults ?a ?b ?c ?d ?e) ?F] =>
      destruct (exec world (synthesizeResults a b c d e) F) as [[[s | e'] frS] tS] eqn:ES;
      destruct (synthesizeResults_calm a b c d e world F _ _ _ ES) as (HpS & HcS & HwS)
  end; cbn [clonePath put job drawn] in HpS; cbv beta iota zeta.
  2: { calm_finish. }
  do 2 exec_step. rewrite exec_liftOutcome.
  destruct (generateMarkdown rt s) as [md_ | e']; exec_prims.
  2: { calm_finish. }
  repeat exec_step. destruct (world unit _) as [[] | e']; exec_prims.
  2: { calm_finish. }
  repeat exec_step.
  match goal with
  | |- context [exec world (notify ?r ?p) ?F] =>
      destruct (exec_notify_webhook world r p F) as (tN & HN & HcN & HwN); rewrite HN
  end.
  cbv beta iota zeta. rewrite HpB in HpS.
  destruct frS as [[? ? ? ? ? ? ? ? ? ? ? ? ? ? ? []] ? ?]. cbn [clonePath] in HpS.
  calm_finish. cbn.
  split; [reflexivity|]. split; [exact HpS|]. split; [reflexivity|].
  eexists. split; reflexivity.
Qed.

(** The [finally] block of [runAnalysis]: one cleanup, of the path held,
    if one is held. *)
Lemma exec_finalizer (world : World) fr :
  exists r,
    exec world (let* fr' := getFrame in
                match clonePath fr' with
                | EmptyString => ret tt
                | String c p => await (Cleanup (String c p))
                end) fr
    = (r, fr, match clonePath fr with
              | EmptyString => []
              | String c p => [Called (Cleanup (String c p)) (job fr)]
              end).
Proof.
  exec_step. destruct (clonePath fr) as [|c p]; exec_prims; eexists; reflexivity.
Qed.

(** Whether a run of [runAnalysis] gets to its clone step: it is forced,
    or the cache answers that it has no entry. *)
Definition reachesClone (world : World) (request : AnalysisRequest) : bool :=
  if notForced request
  then match world _ (CacheGet (req_repoUrl request) (req_branch request)) with
       | Resolved None => true
       | _ => false
       end
  else true.

(** The path of the clone a run makes: empty when it makes none. *)
Definition cloned (world : World) (request : AnalysisRequest) : string :=
  if reachesClone world request then pathAfterClone world request EmptyString
  else EmptyString.

(** What a webhook says of a job. *)
Definition tells (payload : WebhookPayload) (a : Analysis) : Prop :=
  match payload with
  | analysis_completed analysisId_ result_ =>
      analysisId_ = id a /\ status a = completed /\ result a = Some result_
  | analysis_failed analysisId_ error =>
      analysisId_ = id a /\ status a = failed /\ error = errorMessage a /\ error <> None
  end.

Lemma runAnalysis_any (world : World) rt request tenantContext fr :
  let '(r, final, t) := exec world (runAnalysis rt request tenantContext) fr in
  cleanups t = match cloned world request with
               | EmptyString => []
               | String c p => [String c p]
               end
  /\ (cloned world request <> EmptyString ->
      exists t0 job_, t = (t0 ++ [Called (Cleanup (cloned world request)) job_])%list)
  /\ if reachesClone world request
     then exists payload, webhooks t = webhookOf request payload /\ tells payload (job final)
     else match world _ (CacheGet (req_repoUrl request) (req_branch request)) with
          | Resolved _ => webhooks t = []
          | Rejected _ =>
              exists payload, webhooks t = webhookOf request payload
                              /\ tells payload (job final)
          end.
Proof.
  unfold runAnalysis, cloned, reachesClone.
  rewrite exec_bind, exec_setClonePath. cbv beta iota zeta.
  rewrite exec_tryFinally, exec_tryCatch, exec_bind.
  set (F0 := {| job := job fr; clonePath := EmptyString; drawn := drawn fr |}).
  assert (Hfresh :
    let '(r, fr1, t1) := exec world (analyse rt request tenantContext) F0 in
    let '(x, t2) :=
      match r with
      | Ok a => (Ok a, fr1, t1)
      | Throw e =>
          let '(x, t2) :=
            exec world (failAnalysis (Some (messageOf e)) ;;
                        let* analysis := getJob in
                        notify request (analysis_failed (id analysis)
                                                        (errorMessage analysis))) fr1 in
          (x, (t1 ++ t2)%list)
      end in
    let '(r0, fr2) := x in
    let '(r', fr3, t3) :=
      exec world (let* fr' := getFrame in
                  match clonePath fr' with
                  | EmptyString => ret tt
                  | String c p => await (Cleanup (String c p))
                  end) fr2 in
    let t := (t2 ++ t3)%list in
    cleanups t = match pathAfterClone world request EmptyString with
                 | EmptyString => []
                 | String c p => [String c p]
                 end
    /\ (pathAfterClone world request EmptyString <> EmptyString ->
        exists t0 job_,
          t = (t0 ++ [Called (Cleanup (pathAfterClone world request EmptyString)) job_])%list)
    /\ exists payload, webhooks t = webhookOf request payload /\ tells payload (job fr3)).
  { pose proof (analyse_any world rt request tenantContext F0) as Hany.
    destruct (exec world (analyse rt request tenantContext) F0) as [[[[] | e] fr1] t1].
    - destruct Hany as (Hc & Hp & Hstatus & finished & Hresult & Hw).
      destruct (exec_finalizer world fr1) as [r' Hfin]. rewrite Hfin.
      cbn [clonePath F0] in Hp. rewrite Hp.
      destruct (pathAfterClone world request EmptyString) as [|c p];
        cbv beta iota zeta; rewrite cleanups_app, webhooks_app, Hc, Hw.
      + rewrite !app_nil_r. split; [reflexivity|]. split; [intros H; now contradiction H|].
        eexists. split; [reflexivity|]. cbn. auto.
      + cbn. split; [reflexivity|]. split; [intros _; do 2 eexists; reflexivity|].
        rewrite app_nil_r. eexists. split; [reflexivity|]. cbn. auto.
    - destruct Hany as (Hc & Hp & Hw).
      repeat exec_step.
      match goal with
      | |- context [exec world (notify ?r ?p) ?F] =>
          destruct (exec_notify_webhook world r p F) as (tN & HN & HcN & HwN); rewrite HN
      end.
      cbv beta iota zeta.
      match goal with
      | |- context [exec world (bind getFrame _) ?F] =>
          destruct (exec_finalizer world F) as [r' Hfin]; rewrite Hfin
      end.
      cbn [clonePath put job F0] in Hp |- *. rewrite Hp.
      destruct (pathAfterClone world request EmptyString) as [|c p];
        cbv beta iota zeta;
        rewrite !cleanups_app, !webhooks_app, Hc, Hw; cbn [cleanups webhooks app];
        rewrite ?cleanups_app, ?webhooks_app, HcN, HwN; cbn [cleanups webhooks app].
      + rewrite !app_nil_r. split; [reflexivity|]. split; [intros H; now contradiction H|].
        eexists. split; [reflexivity|].
        destruct fr1 as [[? ? ? ? ? ? ? ? ? ? ? ? ? ? ? []] ? ?]. cbn.
        repeat split. discriminate.
      + split; [reflexivity|]. split.
        * intros _. do 2 eexists. reflexivity.
        * rewrite app_nil_r. eexists. split; [reflexivity|].
          destruct fr1 as [[? ? ? ? ? ? ? ? ? ? ? ? ? ? ? []] ? ?]. cbn.
          repeat split. discriminate. }
  assert (Hprefix : forall j t,
             let c := CacheGet (req_repoUrl request) (req_branch request) in
             cleanups (Called c j :: t) = cleanups t
             /\ webhooks (Called c j :: t) = webhooks t).
  { intros j t. split; reflexivity. }
  destruct (notForced request).
  - rewrite exec_await.
    destruct (world (option CacheEntry) _) as [[entry|] | e]; cbv beta iota zeta.
    + repeat exec_step. cbn. split; [reflexivity|]. split; [intros H; now contradiction H|].
      reflexivity.
    + destruct (exec world (analyse rt request tenantContext) F0) as [[[[] | e] fr1] t1];
        cbv beta iota zeta in Hfresh |- *.
      * destruct (exec world (bind getFrame _) fr1) as [[r' fr3] t3].
        cbv beta iota zeta in Hfresh |- *. cbn [app].
        destruct Hfresh as (Hc & Hlast & Hw). rewrite (proj1 (Hprefix _ _)),
          (proj2 (Hprefix _ _)).
        split; [exact Hc|]. split; [|exact Hw].
        intros Hp. destruct (Hlast Hp) as (t0 & job_ & ->).
        eexists (_ :: t0), job_. reflexivity.
      * destruct (exec world (bind (failAnalysis _) _) fr1) as [[rH frH] tH].
        cbv beta iota zeta in Hfresh |- *.
        destruct (exec world (bind getFrame _) frH) as [[r' fr3] t3].
        cbv beta iota zeta in Hfresh |- *. cbn [app].
        destruct Hfresh as (Hc & Hlast & Hw). rewrite (proj1 (Hprefix _ _)),
          (proj2 (Hprefix _ _)).
        split; [exact Hc|]. split; [|exact Hw].
        intros Hp. destruct (Hlast Hp) as (t0 & job_ & ->).
        eexists (_ :: t0), job_. reflexivity.
    + repeat exec_step.
      match goal with
      | |- context [exec world (notify ?r ?p) ?F] =>
          destruct (exec_notify_webhook world r p F) as (tN & HN & HcN & HwN); rewrite HN
      end.
      cbv beta iota zeta. subst F0. repeat exec_step. exec_prims.
      cbn [app cleanups webhooks].
      rewrite ?cleanups_app, ?webhooks_app, HcN, HwN. cbn.
      split; [reflexivity|]. split; [intros H; now contradiction H|].
      rewrite app_nil_r. eexists. split; [reflexivity|].
      destruct fr as [[? ? ? ? ? ? ? ? ? ? ? ? ? ? ? []] ? ?]. cbn.
      repeat split. discriminate.
  - rewrite exec_ret. cbv beta iota zeta.
    destruct (exec world (analyse rt request tenantContext) F0) as [[[[] | e] fr1] t1];
      cbv beta iota zeta in Hfresh |- *.
    + destruct (exec world (bind getFrame _) fr1) as [[r' fr3] t3].
      cbv beta iota zeta in Hfresh |- *. exact Hfresh.
    + destruct (exec world (bind (failAnalysis _) _) fr1) as [[rH frH] tH].
      cbv beta iota zeta in Hfresh |- *.
      destruct (exec world (bind getFrame _) frH) as [[r' fr3] t3].
      cbv beta iota zeta in Hfresh |- *. exact Hfresh.
Qed.

(** The entry a run of [runAnalysis] takes from the cache. *)
Definition cachedEntry (world : World) (request : AnalysisRequest) : option CacheEntry :=
  if notForced request
  then match world _ (CacheGet (req_repoUrl request) (req_branch request)) with
       | Resolved (Some entry) => Some entry
       | _ => None
       end
  else None.

(** X4.  Whatever the collaborators answer, a run of [runAnalysis] that
    has cloned the repository (the clone step is reached and succeeds,
    with a path that is not empty) cleans the clone up exactly once, and
    this is the last step of the run, completed or failed; a run that
    has cloned nothing cleans nothing up. *)
Theorem clone_is_cleaned_up (world : World) rt request tenantContext fr :
  let '(_, _, t) := exec world (runAnalysis rt request tenantContext) fr in
  cleanups t = match cloned world request with
               | EmptyString => []
               | String c p => [String c p]
               end
  /\ (cloned world request <> EmptyString ->
      exists t0 job_, t = (t0 ++ [Called (Cleanup (cloned world request)) job_])%list).
Proof.
  pose proof (runAnalysis_any world rt request tenantContext fr) as Hany.
  destruct (exec world (runAnalysis rt request tenantContext) fr) as [[r final] t].
  destruct Hany as (Hcleanups & Hlast & _). split; assumption.
Qed.

(** X5.  Whatever the collaborators answer, a run of [runAnalysis] that
    does not end on an entry of the cache posts one webhook when the
    request names a URL, and none otherwise; the webhook carries the id
    of the job and says what the job has ended as: completed, with the
    result attached to the job, or failed, with the error message of the
    job.  A run that ends on an entry of the cache posts no webhook. *)
Theorem webhook_tells_outcome (world : World) rt request tenantContext fr :
  let '(_, final, t) := exec world (runAnalysis rt request tenantContext) fr in
  match cachedEntry world request with
  | Some _ => webhooks t = []
  | None =>
      exists payload, webhooks t = webhookOf request payload /\ tells payload (job final)
  end.
Proof.
  pose proof (runAnalysis_any world rt request tenantContext fr) as Hany.
  destruct (exec world (runAnalysis rt request tenantContext) fr) as [[r final] t].
  destruct Hany as (_ & _ & Hwebhooks). unfold cachedEntry, reachesClone in *.
  destruct (notForced request); [|exact Hwebhooks].
  destruct (world (option CacheEntry) _) as [[entry|] | e]; exact Hwebhooks.
Qed.

(** *** Measures that only grow along a run *)

Section Rising.

Variable T : Type.
Variable le : T -> T -> Prop.
Hypothesis le_refl : forall x, le x x.
Hypothesis le_trans : forall x y z, le x y -> le y z -> le x z.

(** A measure of the job, and the same measure read off an event. *)
Variable mu : Analysis -> T.
Variable muEvent : AnalysisProgress -> T.
Hypothesis muEvent_eventOf : forall a, muEvent (eventOf a) = mu a.

(** What a step shows of the measure: that of the event, or of the job
    when the call is made. *)
Definition measureAt (s : Step) : T :=
  match s with
  | Progress p => muEvent p
  | Called _ job_ => mu job_
  end.

(** [a], the values of [l] in order, and [b] never go down. *)
Fixpoint ascending (a : T) (l : list T) (b : T) : Prop :=
  match l with
  | [] => le a b
  | x :: l' => le a x /\ ascending x l' b
  end.

Lemma ascending_le a l b : ascending a l b -> le a b.
Proof.
  revert a. induction l as [|x l IH]; intros a H; [exact H|].
  destruct H as [H1 H2]. eapply le_trans; [exact H1 | apply IH; exact H2].
Qed.

Lemma ascending_app a l1 b l2 c :
  ascending a l1 b -> ascending b l2 c -> ascending a (l1 ++ l2) c.
Proof.
  revert a. induction l1 as [|x l1 IH]; intros a H1 H2; cbn [app ascending] in *.
  - destruct l2 as [|y l2]; cbn [ascending] in *.
    + eapply le_trans; eassumption.
    + destruct H2 as [H2 H3]. split; [eapply le_trans; eassumption | exact H3].
  - destruct H1 as [H1 H1']. split; [exact H1 | apply IH; assumption].
Qed.

Lemma ascending_all a l b : ascending a l b -> Forall (le a) (l ++ [b]).
Proof.
  revert a. induction l as [|x l IH]; intros a H; cbn [app ascending] in *.
  - constructor; [exact H | constructor].
  - destruct H as [H1 H2]. constructor; [exact H1|].
    eapply Forall_impl; [|apply (IH x H2)]. intros y Hy. eapply le_trans; eassumption.
Qed.

(** Every value of an ascending run is at most each later one, the last
    included. *)
Lemma ascending_sorted a l b : ascending a l b -> Sorted.StronglySorted le (l ++ [b]).
Proof.
  revert a. induction l as [|x l IH]; intros a H; cbn [app ascending] in *.
  - constructor; constructor.
  - destruct H as [_ H]. constructor; [apply (IH x H) | apply (ascending_all x l b H)].
Qed.

(** From a frame whose measure is at most [lo], the run of [m] never
    lets the measure go down, and leaves it at most [hi]. *)
Definition rises {A} (lo hi : T) (m : M A) : Prop :=
  forall (world : World) fr r fr' t,
    le (mu (job fr)) lo ->
    exec world m fr = (r, fr', t) ->
    ascending (mu (job fr)) (map measureAt t) (mu (job fr'))
    /\ le (mu (job fr')) hi.

Lemma rises_weaken {A} lo hi lo' hi' (m : M A) :
  rises lo hi m -> le lo' lo -> le hi hi' -> rises lo' hi' m.
Proof.
  intros Hm Hlo Hhi world fr r fr' t Hfr H.
  destruct (Hm world fr r fr' t (le_trans _ _ _ Hfr Hlo) H) as [Ha Hb].
  split; [exact Ha | eapply le_trans; eassumption].
Qed.

(** Code that leaves the job as it is and makes no step. *)
Lemma rises_still {A} lo hi (m : M A) :
  (forall world fr, exists r fr', exec world m fr = (r, fr', []) /\ job fr' = job fr) ->
  le lo hi -> rises lo hi m.
Proof.
  intros Hm Hle world fr r fr' t Hfr H. destruct (Hm world fr) as (r0 & fr0 & E & Hjob).
  rewrite E in H. injection H as _ <- <-. rewrite Hjob. cbn.
  split; [apply le_refl | eapply le_trans; eassumption].
Qed.

Lemma rises_ret {A} lo hi (a : A) : le lo hi -> rises lo hi (ret a).
Proof. apply rises_still. intros. do 2 eexists. split; reflexivity. Qed.

Lemma rises_throw {A} lo hi e : le lo hi -> rises lo hi (@throw A e).
Proof. apply rises_still. intros. do 2 eexists. split; reflexivity. Qed.

Lemma rises_getJob lo hi : le lo hi -> rises lo hi getJob.
Proof. apply rises_still. intros. do 2 eexists. split; reflexivity. Qed.

Lemma rises_getFrame lo hi : le lo hi -> rises lo hi getFrame.
Proof. apply rises_still. intros. do 2 eexists. split; reflexivity. Qed.

Lemma rises_setClonePath lo hi p : le lo hi -> rises lo hi (setClonePath p).
Proof. apply rises_still. intros. do 2 eexists. split; reflexivity. Qed.

Lemma rises_freshUuid lo hi rt : le lo hi -> rises lo hi (freshUuid rt).
Proof. apply rises_still. intros. do 2 eexists. split; reflexivity. Qed.

Lemma rises_lift {A} lo hi (r : Result A) : le lo hi -> rises lo hi (lift r).
Proof. destruct r; [apply rises_ret | apply rises_throw]. Qed.

Lemma rises_liftOutcome {A} lo hi (o : Outcome A) : le lo hi -> rises lo hi (liftOutcome o).
Proof. destruct o; [apply rises_ret | apply rises_throw]. Qed.

Lemma rises_await {R} lo hi (c : Call R) : le lo hi -> rises lo hi (await c).
Proof.
  intros Hle world fr r fr' t Hfr H. rewrite exec_await in H. injection H as _ <- <-.
  cbn. repeat split; try apply le_refl. eapply le_trans; eassumption.
Qed.

Lemma rises_emitProgress lo hi : le lo hi -> rises lo hi emitProgress.
Proof.
  intros Hle world fr r fr' t Hfr H. rewrite exec_emitProgress in H. injection H as _ <- <-.
  cbn. rewrite muEvent_eventOf. repeat split; try apply le_refl.
  eapply le_trans; eassumption.
Qed.

(** A change of the job that keeps the measure. *)
Lemma rises_setJob_same lo hi f :
  (forall a, mu (f a) = mu a) -> le lo hi -> rises lo hi (setJob f).
Proof.
  intros Hf Hle world fr r fr' t Hfr H. rewrite exec_setJob in H. injection H as _ <- <-.
  cbn. rewrite Hf. split; [apply le_refl | eapply le_trans; eassumption].
Qed.

(** A change of the job that sets the measure to [v]. *)
Lemma rises_setJob_to lo hi v f :
  (forall a, mu (f a) = v) -> le lo v -> le v hi -> rises lo hi (setJob f).
Proof.
  intros Hf Hlo Hhi world fr r fr' t Hfr H. rewrite exec_setJob in H. injection H as _ <- <-.
  cbn. rewrite Hf. split; [eapply le_trans; eassumption | exact Hhi].
Qed.

Lemma rises_bind {A B} lo mid hi (m : M A) (f : A -> M B) :
  rises lo mid m -> (forall a, rises mid hi (f a)) -> le mid hi -> rises lo hi (bind m f).
Proof.
  intros Hm Hf Hle world fr r fr' t Hfr H. rewrite exec_bind in H.
  destruct (exec world m fr) as [[[a | e] fr1] t1] eqn:E1;
    destruct (Hm _ _ _ _ _ Hfr E1) as [Ha1 Hb1].
  - destruct (exec world (f a) fr1) as [[r2 fr2] t2] eqn:E2. injection H as <- <- <-.
    destruct (Hf a _ _ _ _ _ Hb1 E2) as [Ha2 Hb2].
    rewrite map_app. split; [eapply ascending_app; eassumption | exact Hb2].
  - injection H as <- <- <-. split; [exact Ha1 | eapply le_trans; eassumption].
Qed.

Lemma rises_tryCatch {A} lo mid hi (body : M A) handler :
  rises lo mid body -> (forall e, rises mid hi (handler e)) -> le mid hi ->
  rises lo hi (tryCatch body handler).
Proof.
  intros Hm Hf Hle world fr r fr' t Hfr H. rewrite exec_tryCatch in H.
  destruct (exec world body fr) as [[[a | e] fr1] t1] eqn:E1;
    destruct (Hm _ _ _ _ _ Hfr E1) as [Ha1 Hb1].
  - injection H as <- <- <-. split; [exact Ha1 | eapply le_trans; eassumption].
  - destruct (exec world (handler e) fr1) as [[r2 fr2] t2] eqn:E2. injection H as <- <- <-.
    destruct (Hf e _ _ _ _ _ Hb1 E2) as [Ha2 Hb2].
    rewrite map_app. split; [eapply ascending_app; eassumption | exact Hb2].
Qed.

Lemma rises_tryFinally {A} lo mid hi (body : M A) finalizer :
  rises lo mid body -> rises mid hi finalizer -> rises lo hi (tryFinally body finalizer).
Proof.
  intros Hm Hf world fr r fr' t Hfr H. rewrite exec_tryFinally in H.
  destruct (exec world body fr) as [[r1 fr1] t1] eqn:E1.
  destruct (Hm _ _ _ _ _ Hfr E1) as [Ha1 Hb1].
  destruct (exec world finalizer fr1) as [[r2 fr2] t2] eqn:E2. injection H as _ <- <-.
  destruct (Hf _ _ _ _ _ Hb1 E2) as [Ha2 Hb2].
  rewrite map_app. split; [eapply ascending_app; eassumption | exact Hb2].
Qed.

Lemma rises_foldM {A B} c hi (f : A -> B -> M A) (l : list B) :
  (forall a b, rises c c (f a b)) -> le c hi -> forall a, rises c hi (foldM f l a).
Proof.
  intros Hf Hle a. apply (rises_weaken c c); [|apply le_refl|exact Hle].
  revert a. induction l as [|b l IH]; intros a; cbn [foldM].
  - apply rises_ret, le_refl.
  - eapply rises_bind; [apply Hf | exact IH | apply le_refl].
Qed.

Lemma rises_mapM {A B} c hi (f : A -> M B) (l : list A) :
  (forall a, rises c c (f a)) -> le c hi -> rises c hi (mapM f l).
Proof.
  intros Hf Hle. apply (rises_weaken c c); [|apply le_refl|exact Hle].
  induction l as [|a l IH]; cbn [mapM].
  - apply rises_ret, le_refl.
  - eapply rises_bind; [apply Hf | | apply le_refl]. intros b.
    eapply rises_bind; [exact IH | | apply le_refl]. intros bs. apply rises_ret, le_refl.
Qed.

End Rising.

(** Goes through a piece of code for [rises], the goals in order, so
    that a bound is known when it is compared; [side] settles the
    comparisons of bounds and the facts about the order. *)
Ltac rises_step side :=
  lazymatch goal with
  | |- rises _ _ _ _ _ _ ?m =>
      lazymatch m with
      | ret _ => eapply rises_ret
      | throw _ => eapply rises_throw
      | getJob => eapply rises_getJob
      | getFrame => eapply rises_getFrame
      | setClonePath _ => eapply rises_setClonePath
      | freshUuid _ => eapply rises_freshUuid
      | lift _ => eapply rises_lift
      | liftOutcome _ => eapply rises_liftOutcome
      | await _ => eapply rises_await
      | emitProgress => eapply rises_emitProgress
      | setJob _ =>
          first
            [ eapply rises_setJob_same; [..| solve [intros []; reflexivity] | ]
            | eapply rises_setJob_to; [..| solve [intros []; cbn; reflexivity] | | ] ]
      | foldM _ _ _ => eapply rises_foldM; [..| intros ? ? | ]
      | mapM _ _ => eapply rises_mapM; [..| intros ? | ]
      | bind _ _ => eapply rises_bind; [..| | intros ? | ]
      | tryCatch _ _ => eapply rises_tryCatch; [..| | intros ? | ]
      | tryFinally _ _ => eapply rises_tryFinally
      | match ?x with _ => _ end => destruct x
      | _ =>
          progress unfold runAgents, runAllAgents, getConfigFiles, runCategory, runPrompt,
            callMageAgent, synthesizeResults, gather, gatherByType, parseComponents,
            parseSecurityFindings, parseFindings, parseRecommendations, String_,
            updateStatus, failAnalysis, notify, callWebhook, analyse, runAnalysis, background
      end
  | |- _ => solve [side]
  end.

Ltac rises_steps side := repeat rises_step side.

(** *** The status of a job only moves forward *)

(** The place of a status in the order in which [AnalysisStatus] lists
    them, which is the order of the pipeline. *)
Definition rank (s : AnalysisStatus) : nat :=
  match s with
  | queued => 0%nat
  | cloning => 1%nat
  | detecting => 2%nat
  | analyzing => 3%nat
  | synthesizing => 4%nat
  | generating => 5%nat
  | completed => 6%nat
  | failed => 7%nat
  end.

(** [s1] is [s2] or comes before it. *)
Definition notAfter (s1 s2 : AnalysisStatus) : Prop := (rank s1 <= rank s2)%nat.

Lemma notAfter_refl s : notAfter s s.
Proof. apply Nat.le_refl. Qed.

Lemma notAfter_trans s1 s2 s3 : notAfter s1 s2 -> notAfter s2 s3 -> notAfter s1 s3.
Proof. apply Nat.le_trans. Qed.

Ltac status_side :=
  first
    [ exact notAfter_refl
    | exact notAfter_trans
    | (intros ?; reflexivity)
    | apply notAfter_refl
    | (unfold notAfter; cbn; lia) ].

Lemma background_status rt request tenantContext :
  rises AnalysisStatus notAfter status progress_status queued failed
        (background rt request tenantContext).
Proof. rises_steps status_side. Qed.

Lemma measureAt_status t :
  map (measureAt AnalysisStatus status progress_status) t = map statusAt t.
Proof. apply map_ext. intros [p | R c a]; reflexivity. Qed.

(** X6.  From the moment a job is queued, the statuses that its events and
    its calls show, and the status it is left with, never go back in the
    order queued, cloning, detecting, analyzing, synthesizing, generating,
    completed, failed. *)
Theorem status_never_goes_back (world : World) rt request tenantContext fr :
  status (job fr) = queued ->
  let '(_, final, t) := exec world (background rt request tenantContext) fr in
  Sorted.StronglySorted notAfter (map statusAt t ++ [status (job final)]).
Proof.
  intros Hq.
  destruct (exec world (background rt request tenantContext) fr) as [[r final] t] eqn:E.
  assert (H0 : notAfter (status (job fr)) queued) by (rewrite Hq; apply notAfter_refl).
  destruct (background_status rt request tenantContext world fr r final t H0 E) as [Ha _].
  rewrite <- measureAt_status.
  exact (ascending_sorted _ _ notAfter_trans _ _ _ Ha).
Qed.

Lemma status_never_goes_back_witness :
  let '(_, final, t) := exec oneFailureWorld
                             (background sampleRuntime (sampleRequest None) sampleTenant)
                             sampleFrame in
  Sorted.StronglySorted notAfter (map statusAt t ++ [status (job final)]).
Proof.
  exact (status_never_goes_back oneFailureWorld sampleRuntime (sampleRequest None)
                                sampleTenant sampleFrame eq_refl).
Defined.

(** *** The progress of a job only grows *)

Ltac progress_side :=
  first
    [ exact Qle_refl
    | exact Qle_trans
    | (intros ?; reflexivity)
    | apply Qle_refl
    | (apply Qle_bool_imp_le; vm_compute; reflexivity) ].

Lemma progress_updateStatus a s p step :
  progress (withCurrentStep step (withProgress p (withStatus s a))) = p.
Proof. destruct a. reflexivity. Qed.

Lemma runPrompts_progress rt tenantContext category prompts agents c :
  rises Q Qle progress progress_value c c
        (foldM (runPrompt rt tenantContext category) prompts agents).
Proof. rises_steps progress_side. Qed.

(** The progress that the categories still to come can add. *)
Fixpoint span (cats : list FindingType) : Q :=
  match cats with
  | [] => 0
  | _ :: cats' => progressPerCategory + span cats'
  end.

Lemma progressPerCategory_pos : 0 <= progressPerCategory.
Proof. unfold Qle. vm_compute. intros H. discriminate H. Qed.

Lemma runCategories_progress rt tenantContext primaryType includeSecurityScan_ cats :
  forall agents base hi,
    base + span cats <= hi ->
    rises Q Qle progress progress_value base hi
          (foldM (runCategory rt tenantContext primaryType includeSecurityScan_) cats
                 (agents, base)).
Proof.
  pose proof progressPerCategory_pos as Hpos.
  induction cats as [|c cats IH]; intros agents base hi Hhi; cbn [foldM span] in *.
  - apply rises_ret; [exact Qle_refl | exact Qle_trans | lra].
  - assert (Hspan : 0 <= span cats).
    { clear. induction cats as [|c cats IH]; cbn [span]; [lra|].
      pose proof progressPerCategory_pos. lra. }
    intros world fr r fr' t Hfr H. rewrite exec_bind in H. unfold runCategory at 1 in H.
    destruct (FindingType_eqb c PromptEngine.security && negb includeSecurityScan_).
    { rewrite exec_ret in H. cbn [app] in H.
      destruct (exec world (foldM _ cats (agents, base)) fr) as [[r2 fr2] t2] eqn:E2.
      injection H as <- <- <-.
      apply (IH agents base hi ltac:(lra) world fr r2 fr2 t2 Hfr E2). }
    destruct (PromptEngine.getPrompts (catalogue rt) primaryType c) as [|p ps] eqn:Eps.
    { rewrite exec_ret in H. cbn [app] in H.
      destruct (exec world (foldM _ cats (agents, base)) fr) as [[r2 fr2] t2] eqn:E2.
      injection H as <- <- <-.
      apply (IH agents base hi ltac:(lra) world fr r2 fr2 t2 Hfr E2). }
    cbv iota in H. rewrite exec_bind, exec_updateStatus in H. cbv beta iota zeta in H.
    rewrite exec_bind in H.
    match type of H with
    | context [exec world (foldM ?f ?l ?a) ?F] =>
        destruct (exec world (foldM f l a) F) as [[[agents' | e] f1] t1] eqn:E1;
        destruct (runPrompts_progress rt tenantContext c l a base world F _ _ _
                    ltac:(cbn [put job]; rewrite progress_updateStatus; apply Qle_refl)
                    E1) as [Ha1 Hb1]
    end; cbn [put job] in Ha1; rewrite progress_updateStatus in Ha1.
    + rewrite exec_ret in H. cbv beta iota zeta in H.
      destruct (exec world (foldM _ cats (agents', base + progressPerCategory)) f1)
        as [[r2 fr2] t2] eqn:E2.
      injection H as <- <- <-.
      destruct (IH agents' (base + progressPerCategory) hi ltac:(lra) world f1 r2 fr2 t2
                   ltac:(lra) E2) as [Ha2 Hb2].
      split; [|exact Hb2].
      cbn [app]. rewrite app_nil_r. cbn [map measureAt ascending eventOf progress_value].
      rewrite progress_updateStatus. split; [exact Hfr|]. rewrite map_app.
      eapply ascending_app; [exact Qle_trans | exact Ha1 | exact Ha2].
    + cbv beta iota zeta in H. injection H as <- <- <-.
      cbn [app map measureAt ascending eventOf progress_value].
      rewrite progress_updateStatus.
      split; [split; [exact Hfr | exact Ha1] | lra].
Qed.

Ltac progress_step :=
  lazymatch goal with
  | |- rises _ _ _ _ _ _ (foldM _ categories _) =>
      eapply runCategories_progress
  | |- _ => rises_step progress_side
  end.

Lemma background_progress rt request tenantContext :
  rises Q Qle progress progress_value 0 100 (background rt request tenantContext).
Proof. repeat progress_step. Qed.

(** The progress a step shows: of the event, or of the job when the call
    is made. *)
Definition progressAt (s : Step) : Q :=
  match s with
  | Progress p => progress_value p
  | Called _ job_ => progress job_
  end.

(** X7.  From the moment a job is started, with a progress of 0, the
    progress that its events and its calls show never decreases, and the
    job is left with a progress that is at least each of them and at most
    100. *)
Theorem progress_never_decreases (world : World) rt request tenantContext fr :
  progress (job fr) == 0 ->
  let '(_, final, t) := exec world (background rt request tenantContext) fr in
  Sorted.StronglySorted Qle (progress (job fr) :: map progressAt t
                               ++ [progress (job final)])
  /\ progress (job final) <= 100.
Proof.
  intros H0.
  destruct (exec world (background rt request tenantContext) fr) as [[r final] t] eqn:E.
  assert (Hle : progress (job fr) <= 0) by (rewrite H0; apply Qle_refl).
  destruct (background_progress rt request tenantContext world fr r final t Hle E)
    as [Ha Hb].
  split; [|exact Hb].
  change (map progressAt t) with (map (measureAt Q progress progress_value) t).
  constructor.
  - exact (ascending_sorted _ _ Qle_trans _ _ _ Ha).
  - exact (ascending_all _ _ Qle_trans _ _ _ Ha).
Qed.

Lemma progress_never_decreases_witness :
  let '(_, final, t) := exec oneFailureWorld
                             (background sampleRuntime (sampleRequest None) sampleTenant)
                             sampleFrame in
  Sorted.StronglySorted Qle (progress (job sampleFrame) :: map progressAt t
                               ++ [progress (job final)])
  /\ progress (job final) <= 100.
Proof.
  exact (progress_never_decreases oneFailureWorld sampleRuntime (sampleRequest None)
                                  sampleTenant sampleFrame (Qeq_refl 0)).
Defined.

(** *** How a run ends *)

Lemma events_app t1 t2 : events (t1 ++ t2) = (events t1 ++ events t2)%list.
Proof.
  induction t1 as [|[p | R c j] t1 IH]; cbn [events app]; [reflexivity | |exact IH].
  rewrite IH. reflexivity.
Qed.

(** The last event of the steps [t] is the job [a] as it is. *)
Definition reported (a : Analysis) (t : list Step) : Prop :=
  exists t0 t1, t = (t0 ++ Progress (eventOf a) :: t1)%list /\ events t1 = [].

Lemma reported_before a t0 t : reported a t -> reported a (t0 ++ t).
Proof.
  intros (u0 & u1 & -> & Hu). exists (t0 ++ u0)%list, u1.
  rewrite <- app_assoc. split; [reflexivity | exact Hu].
Qed.

Lemma reported_after a t t1 : reported a t -> events t1 = [] -> reported a (t ++ t1).
Proof.
  intros (u0 & u1 & -> & Hu) H1. exists u0, (u1 ++ t1)%list.
  rewrite <- app_assoc. split; [reflexivity|]. rewrite events_app, Hu, H1. reflexivity.
Qed.

Lemma reported_cons a s t : reported a t -> reported a (s :: t).
Proof. apply (reported_before a [s]). Qed.

Lemma reported_last a t1 : events t1 = [] -> reported a (Progress (eventOf a) :: t1).
Proof. intros H. exists [], t1. split; [reflexivity | exact H]. Qed.

Ltac reported_steps :=
  cbn [app]; rewrite ?app_nil_r;
  repeat first [ apply reported_last; solve [assumption | reflexivity]
               | apply reported_cons
               | apply reported_before ].

(** A run of [analyse] that returns leaves the job completed, and its
    last event says so. *)
Lemma analyse_reports (world : World) rt request tenantContext fr :
  let '(r, fr', t) := exec world (analyse rt request tenantContext) fr in
  match r with
  | Ok _ => status (job fr') = completed /\ reported (job fr') t
  | Throw _ => True
  end.
Proof.
  pose proof (analyse_any world rt request tenantContext fr) as Hany.
  revert Hany.
  unfold analyse. do 2 exec_step.
  destruct (world RepositoryCloneResult _) as [cr | e]; exec_prims; [|intros _; exact I].
  destruct (success cr); cbn [negb]; [|exec_prims; intros _; exact I].
  do 4 exec_step. destruct (world DirectoryStructure _) as [ds | e]; exec_prims;
    [|intros _; exact I].
  exec_step. destruct (world (list FileInfo) _) as [fs | e]; exec_prims; [|intros _; exact I].
  exec_step. destruct (world RepositoryMetadata _) as [md | e]; exec_prims;
    [|intros _; exact I].
  exec_step. destruct (world TypeDetectionResult _) as [tr | e]; exec_prims;
    [|intros _; exact I].
  do 4 exec_step.
  match goal with
  | |- context [exec world (runAgents ?a ?b ?c ?d ?e ?f ?g ?h) ?F] =>
      destruct (exec world (runAgents a b c d e f g h) F) as [[[results | e'] frB] tB]
  end; cbv beta iota zeta; [|intros _; exact I].
  do 2 exec_step.
  match goal with
  | |- context [exec world (synthesizeResults ?a ?b ?c ?d ?e) ?F] =>
      destruct (exec world (synthesizeResults a b c d e) F) as [[[s | e'] frS] tS]
  end; cbv beta iota zeta; [|intros _; exact I].
  do 2 exec_step. rewrite exec_liftOutcome.
  destruct (generateMarkdown rt s) as [md_ | e']; exec_prims; [|intros _; exact I].
  repeat exec_step. destruct (world unit _) as [[] | e']; exec_prims; [|intros _; exact I].
  repeat exec_step.
  match goal with
  | |- context [exec world (notify ?r ?p) ?F] =>
      destruct (exec_notify world r p F) as (tN & HN & _ & HeN); rewrite HN
  end.
  cbv beta iota zeta. intros (_ & _ & Hstatus & _). split; [exact Hstatus|].
  cbn [put job]. reported_steps.
Qed.

(** The [catch] block of [runAnalysis]: the job is failed, the event
    says so, and nothing is thrown. *)
Lemma exec_handler (world : World) request e fr :
  let a := withErrorMessage (Some (messageOf e)) (withStatus failed (job fr)) in
  exists tN,
    exec world (failAnalysis (Some (messageOf e)) ;;
                let* analysis := getJob in
                notify request (analysis_failed (id analysis) (errorMessage analysis))) fr
    = (Ok tt, put a fr, Progress (eventOf a) :: tN)
    /\ events tN = [].
Proof.
  intros a. repeat exec_step.
  match goal with
  | |- context [exec world (notify ?r ?p) ?F] =>
      destruct (exec_notify world r p F) as (tN & HN & _ & HeN); rewrite HN
  end.
  exists tN. split; [reflexivity | exact HeN].
Qed.

Lemma status_failAnalysis error a : status (withErrorMessage error (withStatus failed a)) = failed.
Proof. destruct a. reflexivity. Qed.

(** A body run inside the [try], [catch] and [finally] of [runAnalysis]. *)
Lemma guarded_reports (world : World) request (body : M unit) fr :
  (let '(r, fr', t) := exec world body fr in
   match r with
   | Ok _ => status (job fr') = completed /\ reported (job fr') t
   | Throw _ => True
   end) ->
  let '(_, final, t) :=
    exec world
      (tryFinally
         (tryCatch body
            (fun error =>
               failAnalysis (Some (messageOf error)) ;;
               let* analysis := getJob in
               notify request (analysis_failed (id analysis) (errorMessage analysis))))
         (let* fr := getFrame in
          match clonePath fr with
          | EmptyString => ret tt
          | String c p => await (Cleanup (String c p))
          end)) fr in
  (status (job final) = completed \/ status (job final) = failed)
  /\ reported (job final) t.
Proof.
  intros Hbody. rewrite exec_tryFinally, exec_tryCatch.
  destruct (exec world body fr) as [[[[] | e] fr1] t1].
  - destruct Hbody as [Hs Hr]. destruct (exec_finalizer world fr1) as [r' ->].
    split; [left; exact Hs|]. apply reported_after; [exact Hr|].
    destruct (clonePath fr1); reflexivity.
  - destruct (exec_handler world request e fr1) as (tN & -> & HeN).
    cbv beta iota zeta.
    match goal with
    | |- context [exec world (bind getFrame _) ?F] =>
        destruct (exec_finalizer world F) as [r' ->]
    end.
    cbn [put job clonePath]. split; [right; apply status_failAnalysis|].
    apply reported_after; [|destruct (clonePath fr1); reflexivity].
    apply reported_before, reported_last, HeN.
Qed.

Lemma runAnalysis_reports (world : World) rt request tenantContext fr :
  let '(_, final, t) := exec world (runAnalysis rt request tenantContext) fr in
  (status (job final) = completed \/ status (job final) = failed)
  /\ reported (job final) t.
Proof.
  unfold runAnalysis. rewrite exec_bind, exec_setClonePath. cbv beta iota zeta.
  match goal with
  | |- context [exec world (tryFinally (tryCatch ?body _) _) ?F] =>
      pose proof (guarded_reports world request body F) as Hg
  end.
  match type of Hg with
  | ?P -> _ => assert (Hbody : P); [|specialize (Hg Hbody)]
  end.
  { rewrite exec_bind.
    pose proof (analyse_reports world rt request tenantContext
                  {| job := job fr; clonePath := EmptyString; drawn := drawn fr |}) as Ha.
    destruct (notForced request).
    - rewrite exec_await.
      destruct (world (option CacheEntry) _) as [[entry|] | e]; cbv beta iota zeta.
      + repeat exec_step. cbn [put job]. split; [|reported_steps].
        destruct (job fr). reflexivity.
      + destruct (exec world (analyse rt request tenantContext) _) as [[[[] | e] fr1] t1];
          [|exact I].
        destruct Ha as [Hs Hr]. split; [exact Hs|]. apply reported_cons, Hr.
      + exact I.
    - rewrite exec_ret. cbv beta iota zeta.
      destruct (exec world (analyse rt request tenantContext) _) as [[[[] | e] fr1] t1];
        [|exact I].
      exact Ha. }
  destruct (exec world (tryFinally _ _) _) as [[r final] t]. exact Hg.
Qed.

(** What [runAnalysis] throws is what the cleanup of its [finally] block
    was rejected with. *)
Lemma runAnalysis_throws (world : World) rt request tenantContext fr :
  let '(r, _, t) := exec world (runAnalysis rt request tenantContext) fr in
  match r with
  | Ok _ => True
  | Throw e => exists p, In p (cleanups t) /\ world _ (Cleanup p) = Rejected e
  end.
Proof.
  unfold runAnalysis. rewrite exec_bind, exec_setClonePath. cbv beta iota zeta.
  rewrite exec_tryFinally, exec_tryCatch.
  match goal with
  | |- context [exec world ?body ?F] =>
      destruct (exec world body F) as [[[[] | e] fr1] t1]
  end.
  2: destruct (exec_handler world request e fr1) as (tN & -> & _); cbv beta iota zeta.
  all: rewrite exec_bind, exec_getFrame; cbv beta iota zeta; cbn [put clonePath].
  all: destruct (clonePath fr1) as [|c p]; rewrite ?exec_ret, ?exec_await;
    cbv beta iota zeta; [exact I|].
  all: destruct (world unit (Cleanup (String c p))) as [[] | e'] eqn:Hclean; [exact I|].
  all: exists (String c p); split; [|exact Hclean].
  all: rewrite !cleanups_app; cbn [cleanups]; rewrite !in_app_iff; cbn [In]; auto.
Qed.

(** X8.  Whatever the collaborators answer, the job that [startAnalysis]
    leaves running ends completed or failed, and the last event it emits
    shows the job as it is left.  It rejects in one case only: the
    cleanup of the clone was rejected with [null] or [undefined], of
    which the handler of [startAnalysis] cannot read the message; the
    job then stays as [runAnalysis] left it. *)
Theorem job_always_settles (world : World) rt request tenantContext fr :
  let '(r, final, t) := exec world (background rt request tenantContext) fr in
  (status (job final) = completed \/ status (job final) = failed)
  /\ (exists t0 t1, t = (t0 ++ Progress (eventOf (job final)) :: t1)%list /\ events t1 = [])
  /\ match r with
     | Ok _ => True
     | Throw e =>
         exists p isNull,
           In p (cleanups t)
           /\ world _ (Cleanup p) = Rejected (Nullish isNull)
           /\ e = typeError "message" (if isNull then "null" else "undefined")
     end.
Proof.
  unfold background. rewrite exec_tryCatch.
  pose proof (runAnalysis_reports world rt request tenantContext fr) as Hrun.
  pose proof (runAnalysis_throws world rt request tenantContext fr) as Hthrown.
  destruct (exec world (runAnalysis rt request tenantContext) fr) as [[[[] | e] fr1] t1].
  - destruct Hrun as [Hs Hr]. split; [exact Hs|]. split; [exact Hr | exact I].
  - destruct Hthrown as (p & Hp & Hclean).
    destruct e as [m | isNull | m]; rewrite ?exec_failAnalysis, ?exec_throw;
      cbv beta iota zeta; cbn [put job].
    + split; [right; apply status_failAnalysis|]. split; [|exact I].
      exists t1, []. split; reflexivity.
    + rewrite app_nil_r. destruct Hrun as [Hs Hr]. split; [exact Hs|]. split; [exact Hr|].
      exists p, isNull. split; [exact Hp|]. split; [exact Hclean | reflexivity].
    + split; [right; apply status_failAnalysis|]. split; [|exact I].
      exists t1, []. split; reflexivity.
Qed.

(** *** The files given to the tasks *)

(** The files [selectFilesForAnalysis] sorts: those under the size
    limit. *)
Definition smallFiles (files : list FileInfo) : list FileInfo :=
  List.filter (fun f => TypeDetector.size f <? 500000)%Z files.

(** [f] may come before [g]: its score is not lower. *)
Definition scoredBefore (f g : FileInfo) : Prop := (fileScore g <= fileScore f)%Z.

Lemma negative_score a b :
  JsArray.negative (inject_Z (fileScore a - fileScore b)) = false <-> scoredBefore a b.
Proof.
  rewrite TypeDetector.negative_false. unfold scoredBefore.
  change (0 <= inject_Z (fileScore a - fileScore b))
    with (inject_Z 0 <= inject_Z (fileScore a - fileScore b)).
  rewrite <- Zle_Qle. lia.
Qed.

Lemma chain_scoredBefore (l : list FileInfo) :
  JsArray.chain (JsArray.inOrder (fun a b => inject_Z (fileScore b - fileScore a))) l ->
  forall l1 l2, l = (l1 ++ l2)%list ->
    Sorted.StronglySorted scoredBefore l1
    /\ forall f g, In f l1 -> In g l2 -> scoredBefore f g.
Proof.
  intros Hc.
  assert (Hs : Sorted.StronglySorted scoredBefore l).
  { induction l as [|x l IH]; [constructor|].
    assert (Hl : Sorted.StronglySorted scoredBefore l)
      by (apply IH; destruct l as [|y l']; [exact I | exact (proj2 Hc)]).
    constructor; [exact Hl|].
    destruct l as [|y l]; [constructor|].
    destruct Hc as [Hxy _]. unfold JsArray.inOrder in Hxy.
    assert (Hy : scoredBefore x y) by (apply negative_score; exact Hxy).
    inversion Hl as [|? ? _ Hall]; subst.
    constructor; [exact Hy|].
    eapply Forall_impl; [|exact Hall]. intros z Hz. unfold scoredBefore in *. lia. }
  clear Hc. intros l1. revert l Hs. induction l1 as [|x l1 IH]; intros l Hs l2 ->.
  - split; [constructor | intros f g []].
  - cbn [app] in Hs. inversion Hs as [|? ? Hs' Hall]; subst.
    destruct (IH _ Hs' l2 eq_refl) as [H1 H2]. split.
    + constructor; [exact H1|]. rewrite Forall_forall in *. intros z Hz.
      apply Hall, in_or_app. left. exact Hz.
    + intros f g [<-|Hf] Hg; [|apply H2; assumption].
      rewrite Forall_forall in Hall. apply Hall, in_or_app. right. exact Hg.
Qed.

(** X9.  [selectFilesForAnalysis] gives the paths of the best files under
    the size limit of 500000: it leaves out the files of that size or
    more, keeps 20, 50 or 100 of the others (all of them when they are
    fewer), in the order of their scores, highest first, and no file that
    it leaves out for the number has a higher score than one it keeps. *)
Theorem selected_files_are_the_best (files : list FileInfo) (depth : AnalysisDepth) :
  let limit := match depth with quick => 20 | standard => 50 | deep => 100 end%nat in
  exists chosen rest,
    selectFilesForAnalysis files depth = map TypeDetector.path chosen
    /\ Permutation (chosen ++ rest) (smallFiles files)
    /\ List.length chosen = Nat.min limit (List.length (smallFiles files))
    /\ Sorted.StronglySorted scoredBefore chosen
    /\ forall f g, In f chosen -> In g rest -> scoredBefore f g.
Proof.
  intros limit. unfold selectFilesForAnalysis. fold (smallFiles files). fold limit.
  set (cmp := fun a b : FileInfo => inject_Z (fileScore b - fileScore a)).
  exists (firstn limit (JsArray.sort cmp (smallFiles files))),
         (skipn limit (JsArray.sort cmp (smallFiles files))).
  pose proof (JsArray.sort_permutation cmp (smallFiles files)) as Hperm.
  split; [reflexivity|]. split; [rewrite firstn_skipn; exact Hperm|].
  split; [rewrite length_firstn, (Permutation_length Hperm); reflexivity|].
  apply (chain_scoredBefore (JsArray.sort cmp (smallFiles files))).
  - apply JsArray.sort_chain. intros x y Hxy. unfold cmp in *.
    apply TypeDetector.negative_true in Hxy. apply negative_score.
    change (inject_Z (fileScore y - fileScore x) < inject_Z 0) in Hxy.
    rewrite <- Zlt_Qlt in Hxy. unfold scoredBefore. lia.
  - symmetry. apply firstn_skipn.
Qed.

(** *** The configuration files *)

Lemma setProperty_new (obj : Dict) key value :
  key <> "__proto__" -> ~ In key (map fst obj) ->
  setProperty obj key value = (obj ++ [(key, value)])%list.
Proof.
  intros Hproto. induction obj as [|[k v] obj IH]; intros Hnew; cbn [setProperty app].
  - destruct (String.eqb_spec key "__proto__") as [E | _]; [contradiction|reflexivity].
  - destruct (String.eqb_spec k key) as [E | _].
    + exfalso. apply Hnew. left. exact E.
    + rewrite IH; [reflexivity|]. intros H. apply Hnew. right. exact H.
Qed.

(** What [getConfigFiles] keeps of a file: its name and its content, when
    the file is there and is not empty. *)
Definition configFile (world : World) (localPath_ pattern_ : string) : Dict :=
  match world _ (ReadFile localPath_ pattern_) with
  | Resolved (Some (String c text)) => [(pattern_, String c text)]
  | _ => []
  end.

Lemma configFile_keys world localPath_ patterns key :
  In key (map fst (flat_map (configFile world localPath_) patterns)) -> In key patterns.
Proof.
  induction patterns as [|p patterns IH]; cbn [flat_map]; [intros []|].
  rewrite map_app, in_app_iff. intros [H | H]; [left | right; exact (IH H)].
  unfold configFile in H. destruct (world _ _) as [[[|c text]|]|]; cbn in H; tauto.
Qed.

Lemma readConfigFiles (world : World) localPath_ patterns :
  NoDup patterns -> ~ In "__proto__" patterns ->
  forall contents fr,
    (forall key, In key patterns -> ~ In key (map fst contents)) ->
    let '(r, fr', _) :=
      exec world
        (foldM (fun contents pattern_ =>
                  let* content := await (ReadFile localPath_ pattern_) in
                  match content with
                  | Some (String c text) => ret (setProperty contents pattern_ (String c text))
                  | _ => ret contents
                  end)
               patterns contents) fr in
    fr' = fr
    /\ match r with
       | Ok found =>
           found = (contents ++ flat_map (configFile world localPath_) patterns)%list
       | Throw e =>
           exists pattern_, In pattern_ patterns
                            /\ world _ (ReadFile localPath_ pattern_) = Rejected e
       end.
Proof.
  intros Hdup Hproto. induction patterns as [|p patterns IH]; intros contents fr Hnew;
    cbn [foldM flat_map].
  - rewrite exec_ret, app_nil_r. split; reflexivity.
  - inversion Hdup as [|? ? Hp Hdup']; subst.
    assert (Hproto' : ~ In "__proto__" patterns) by (intros H; apply Hproto; right; exact H).
    assert (Hp' : p <> "__proto__") by (intros ->; apply Hproto; left; reflexivity).
    rewrite exec_bind, exec_bind, exec_await. unfold configFile at 1.
    destruct (world (option string) (ReadFile localPath_ p)) as [[[|c text]|] | e] eqn:Ew;
      cbv beta iota zeta; rewrite ?exec_ret; cbv beta iota zeta.
    + specialize (IH Hdup' Hproto' contents fr
                     (fun key H => Hnew key (or_intror H))).
      destruct (exec world _ fr) as [[[found | e] fr1] t1]; cbn [app];
        destruct IH as [-> IH]; (split; [reflexivity|]); [exact IH|].
      destruct IH as (q & Hq & Hw). exists q. split; [right; exact Hq | exact Hw].
    + specialize (IH Hdup' Hproto' (setProperty contents p (String c text)) fr).
      rewrite (setProperty_new contents p _ Hp' (Hnew p (or_introl eq_refl))) in IH |- *.
      assert (Hnew' : forall key, In key patterns ->
                                  ~ In key (map fst (contents ++ [(p, String c text)]))).
      { intros key Hkey. rewrite map_app, in_app_iff. intros [H | [<- | []]].
        - exact (Hnew key (or_intror Hkey) H).
        - exact (Hp Hkey). }
      specialize (IH Hnew').
      destruct (exec world _ fr) as [[[found | e] fr1] t1]; cbn [app];
        destruct IH as [-> IH]; (split; [reflexivity|]).
      * rewrite IH, <- app_assoc. reflexivity.
      * destruct IH as (q & Hq & Hw). exists q. split; [right; exact Hq | exact Hw].
    + specialize (IH Hdup' Hproto' contents fr
                     (fun key H => Hnew key (or_intror H))).
      destruct (exec world _ fr) as [[[found | e] fr1] t1]; cbn [app];
        destruct IH as [-> IH]; (split; [reflexivity|]); [exact IH|].
      destruct IH as (q & Hq & Hw). exists q. split; [right; exact Hq | exact Hw].
    + split; [reflexivity|]. exists p. split; [left; reflexivity | exact Ew].
Qed.

(** X10.  [getConfigFiles] gives, in the order of its list of eleven
    names, the configuration files that are there and are not empty,
    each under its name with its content; it throws what [readFile]
    throws for one of the names, and changes nothing of the job. *)
Theorem config_files_found (world : World) localPath_ fr :
  let '(r, fr', _) := exec world (getConfigFiles localPath_) fr in
  fr' = fr
  /\ match r with
     | Ok found => found = flat_map (configFile world localPath_) configPatterns
     | Throw e =>
         exists pattern_, In pattern_ configPatterns
                          /\ world _ (ReadFile localPath_ pattern_) = Rejected e
     end.
Proof.
  unfold getConfigFiles.
  apply (readConfigFiles world localPath_ configPatterns).
  - unfold configPatterns.
    repeat (constructor; [cbn; intuition discriminate|]). constructor.
  - cbn. intuition discriminate.
  - intros key _ [].
Qed.

(** *** Whose tasks they are *)

(** The headers [X-Tenant-Id], [X-User-Id] and [X-Request-Id] of the
    calls to the reasoning service among the steps. *)
Fixpoint taskHeaders (t : list Step) : list (string * string * string) :=
  match t with
  | [] => []
  | Called c _ :: t' =>
      match c with
      | PostTask _ _ tenantIdHeader userIdHeader requestIdHeader =>
          [(tenantIdHeader, userIdHeader, requestIdHeader)]
      | _ => []
      end ++ taskHeaders t'
  | Progress _ :: t' => taskHeaders t'
  end%list.

Lemma taskHeaders_app t1 t2 :
  taskHeaders (t1 ++ t2) = (taskHeaders t1 ++ taskHeaders t2)%list.
Proof.
  induction t1 as [|[p | R c j] t1 IH]; cbn [taskHeaders app]; [reflexivity | exact IH|].
  rewrite IH, app_assoc. reflexivity.
Qed.

(** Headers that name the tenant and the user of [tenantContext], and
    its request when it has one. *)
Definition ofTenant (tenantContext : TenantContext) (headers : string * string * string)
  : Prop :=
  let '(tenantIdHeader, userIdHeader, requestIdHeader) := headers in
  tenantIdHeader = tenantId tenantContext
  /\ userIdHeader = userId tenantContext
  /\ match requestId tenantContext with
     | Some (String c r) => requestIdHeader = String c r
     | _ => True
     end.

Definition tenantOnly (tenantContext : TenantContext) : Frame -> Frame -> list Step -> Prop :=
  fun _ _ t => Forall (ofTenant tenantContext) (taskHeaders t).

Lemma tenantOnly_refl tenantContext fr : tenantOnly tenantContext fr fr [].
Proof. constructor. Qed.

Lemma tenantOnly_trans tenantContext f1 f2 f3 t1 t2 :
  tenantOnly tenantContext f1 f2 t1 -> tenantOnly tenantContext f2 f3 t2 ->
  tenantOnly tenantContext f1 f3 (t1 ++ t2).
Proof.
  unfold tenantOnly. intros H1 H2. rewrite taskHeaders_app. apply Forall_app. split; assumption.
Qed.

Lemma await_tenantOnly tenantContext {R} (c : Call R) :
  isTaskCall c = false -> respects (tenantOnly tenantContext) (await c).
Proof.
  intros Hc world fr r fr' t H. rewrite exec_await in H. injection H as _ <- <-.
  destruct c; try discriminate Hc; constructor.
Qed.

Lemma setJob_tenantOnly tenantContext f : respects (tenantOnly tenantContext) (setJob f).
Proof.
  intros world fr r fr' t H. rewrite exec_setJob in H. injection H as _ <- <-. constructor.
Qed.

Lemma setClonePath_tenantOnly tenantContext p :
  respects (tenantOnly tenantContext) (setClonePath p).
Proof.
  intros world fr r fr' t H. rewrite exec_setClonePath in H. injection H as _ <- <-.
  constructor.
Qed.

Lemma emitProgress_tenantOnly tenantContext : respects (tenantOnly tenantContext) emitProgress.
Proof.
  intros world fr r fr' t H. rewrite exec_emitProgress in H. injection H as _ <- <-.
  constructor.
Qed.

Lemma freshUuid_tenantOnly tenantContext rt :
  respects (tenantOnly tenantContext) (freshUuid rt).
Proof.
  intros world fr r fr' t H. rewrite exec_freshUuid in H. injection H as _ <- <-.
  constructor.
Qed.

Lemma callMageAgent_tenantOnly tenantContext rt taskId_ taskType prompt :
  respects (tenantOnly tenantContext)
           (callMageAgent rt taskId_ taskType prompt tenantContext).
Proof.
  intros world fr r fr' t H.
  destruct (exec_callMageAgent world rt taskId_ taskType prompt tenantContext fr)
    as (fr1 & _ & _ & E).
  rewrite E in H. injection H as _ _ <-.
  unfold tenantOnly. cbn [taskHeaders app]. constructor; [|constructor].
  unfold ofTenant, requestIdHeaderOf. split; [reflexivity|]. split; [reflexivity|].
  destruct (requestId tenantContext) as [[|c0 r0]|]; auto.
Qed.

Ltac tenant_steps tenantContext :=
  let Hr := constr:(tenantOnly_refl tenantContext) in
  let Ht := constr:(tenantOnly_trans tenantContext) in
  repeat first
    [ apply callMageAgent_tenantOnly
    | apply respects_ret; exact Hr
    | apply respects_throw; exact Hr
    | apply respects_getJob; exact Hr
    | apply respects_getFrame; exact Hr
    | apply respects_lift; exact Hr
    | apply respects_liftOutcome; exact Hr
    | apply setJob_tenantOnly
    | apply setClonePath_tenantOnly
    | apply emitProgress_tenantOnly
    | apply freshUuid_tenantOnly
    | apply await_tenantOnly; reflexivity
    | apply respects_foldM; [exact Hr | exact Ht | intros ? ?]
    | apply respects_mapM; [exact Hr | exact Ht | intros ?]
    | apply respects_bind; [exact Ht | | intros ?]
    | apply respects_tryCatch; [exact Ht | | intros ?]
    | apply respects_tryFinally; [exact Ht | | ]
    | match goal with
      | |- respects _ (match ?x with _ => _ end) => destruct x
      end
    | progress unfold runAnalysis, analyse, runAgents, runAllAgents, getConfigFiles,
        runCategory, runPrompt, synthesizeResults, gather, gatherByType, parseComponents,
        parseSecurityFindings, parseFindings, parseRecommendations, String_,
        updateStatus, failAnalysis, notify, callWebhook ].

Lemma runAnalysis_tenantOnly rt request tenantContext :
  respects (tenantOnly tenantContext) (runAnalysis rt request tenantContext).
Proof. tenant_steps tenantContext. Qed.

(** X11.  Along a run of [runAnalysis], whatever the collaborators
    answer, every task sent to the reasoning service carries the tenant
    id and the user id of the tenant context of the request, and its
    request id when it has one. *)
Theorem tasks_carry_the_tenant (world : World) rt request tenantContext fr :
  let '(_, _, t) := exec world (runAnalysis rt request tenantContext) fr in
  Forall (ofTenant tenantContext) (taskHeaders t).
Proof.
  destruct (exec world (runAnalysis rt request tenantContext) fr) as [[r fr'] t] eqn:E.
  exact (runAnalysis_tenantOnly rt request tenantContext world fr r fr' t E).
Qed.
End Orchestrator.

(** ** More about the classifier *)

Module TypeDetectorFacts.
Import JsString TypeDetector.
#[local] Open Scope string_scope.
#[local] Open Scope list_scope.
#[local] Open Scope Q_scope.

(** *** What the raw scores count *)

Definition weighted (i : TypeIndicator) : Q :=
  Double.mul (confidence i) (DETECTION_WEIGHTS (ind_type i)).

Lemma RepositoryType_eqb_eq a b : RepositoryType_eqb a b = true <-> a = b.
Proof. destruct a, b; cbn; split; intros H; try reflexivity; discriminate H. Qed.

Lemma weighted_pos i : 0 < confidence i -> 0 < weighted i.
Proof.
  intros H. unfold weighted, Double.mul. pose proof (DETECTION_WEIGHTS_pos (ind_type i)).
  apply Double.fl_pos, Qmult_lt_0_compat; assumption.
Qed.

(** Scores that are binary64 numbers, none of them negative. *)
Definition sound (scores : Scores) : Prop :=
  forall u, 0 <= scores u /\ Double.representable (scores u).

Lemma addScore_sound scores t x : sound scores -> 0 <= x -> sound (addScore scores t x).
Proof.
  intros Hs Hx u. unfold addScore. destruct (Hs u) as [H0 Hr].
  destruct (RepositoryType_eqb u t); [|split; assumption].
  split; [apply Double.fl_nonneg; lra | apply Double.fl_representable].
Qed.

(** Adding to a score does not lower any score. *)
Lemma addScore_grows scores t x u :
  sound scores -> 0 <= x -> scores u <= addScore scores t x u.
Proof.
  intros Hs Hx. unfold addScore. destruct (Hs u) as [H0 Hr].
  destruct (RepositoryType_eqb u t); [|apply Qle_refl].
  apply Double.fl_ge_representable; [exact Hr | lra].
Qed.

(** The loop of [calculateTypeScores] from any starting scores. *)
Definition scoresFrom (init : Scores) (inds : list TypeIndicator) : Scores :=
  fold_left (fun scores indicator =>
               addScore scores (suggestedType indicator) (weighted indicator))
            inds init.

Lemma rawScores_from inds : rawScores inds = scoresFrom (fun _ => 0) inds.
Proof. reflexivity. Qed.

Lemma sound_zero : sound (fun _ => 0).
Proof. intros u. split; [apply Qle_refl | reflexivity]. Qed.

Lemma scoresFrom_grows inds : forall init u,
  (forall i, In i inds -> 0 < confidence i) -> sound init ->
  init u <= scoresFrom init inds u.
Proof.
  induction inds as [|i inds IH]; intros init u Hpos Hs; [apply Qle_refl|].
  cbn [scoresFrom fold_left].
  assert (Hw : 0 <= weighted i)
    by (apply Qlt_le_weak, weighted_pos, Hpos; left; reflexivity).
  apply Qle_trans with (addScore init (suggestedType i) (weighted i) u).
  - apply addScore_grows; assumption.
  - apply IH; [intros j Hj; apply Hpos; right; exact Hj|].
    apply addScore_sound; assumption.
Qed.

Lemma scoresFrom_lower inds : forall init i,
  (forall j, In j inds -> 0 < confidence j) -> sound init ->
  In i inds -> weighted i <= scoresFrom init inds (suggestedType i).
Proof.
  induction inds as [|j inds IH]; intros init i Hpos Hs Hi; [destruct Hi|].
  cbn [scoresFrom fold_left].
  assert (Hw : 0 <= weighted j)
    by (apply Qlt_le_weak, weighted_pos, Hpos; left; reflexivity).
  assert (Hs' : sound (addScore init (suggestedType j) (weighted j)))
    by (apply addScore_sound; assumption).
  assert (Hpos' : forall k, In k inds -> 0 < confidence k)
    by (intros k Hk; apply Hpos; right; exact Hk).
  destruct Hi as [-> | Hi]; [|apply (IH _ i Hpos' Hs' Hi)].
  apply Qle_trans with (addScore init (suggestedType i) (weighted i) (suggestedType i)).
  - unfold addScore.
    assert (E : RepositoryType_eqb (suggestedType i) (suggestedType i) = true)
      by (apply RepositoryType_eqb_eq; reflexivity).
    rewrite E. destruct (Hs (suggestedType i)) as [H0 _].
    apply Double.fl_ge_representable; [apply Double.fl_representable | lra].
  - apply (scoresFrom_grows inds _ _ Hpos' Hs').
Qed.

Lemma scoresFrom_untouched inds t : forall init,
  (forall i, In i inds -> suggestedType i <> t) -> scoresFrom init inds t = init t.
Proof.
  induction inds as [|i inds IH]; intros init Hnone; [reflexivity|].
  cbn [scoresFrom fold_left]. fold (scoresFrom (addScore init (suggestedType i) (weighted i)) inds).
  rewrite IH by (intros j Hj; apply Hnone; right; exact Hj).
  unfold addScore.
  destruct (RepositoryType_eqb t (suggestedType i)) eqn:E; [|reflexivity].
  apply RepositoryType_eqb_eq in E. elim (Hnone i (or_introl eq_refl)). symmetry. exact E.
Qed.

(** A type has a raw score above zero exactly when an indicator suggests
    it, and that score is then at least the weighted confidence of the
    indicator. *)
Lemma rawScores_suggested (inds : list TypeIndicator) t :
  (forall i, In i inds -> 0 < confidence i) ->
  (forall i, In i inds -> suggestedType i = t -> weighted i <= rawScores inds t)
  /\ ((forall i, In i inds -> suggestedType i <> t) -> rawScores inds t == 0).
Proof.
  intros Hpos. rewrite rawScores_from. split.
  - intros i Hi <-. apply scoresFrom_lower; [exact Hpos | exact sound_zero | exact Hi].
  - intros Hnone. rewrite (scoresFrom_untouched inds t _ Hnone). reflexivity.
Qed.

Lemma div_zero x m : x == 0 -> Double.div x m = 0.
Proof.
  intros E. unfold Double.div. apply Double.fl_zero. rewrite E. unfold Qdiv. apply Qmult_0_l.
Qed.

Lemma div_same x m : 0 < m -> x == m -> Double.div x m = 1.
Proof.
  intros Hm E. unfold Double.div. rewrite <- fl_one. apply Double.fl_comp.
  rewrite E. field. lra.
Qed.

(** *** The indicators the detector builds *)

Lemma when_suggested b i j : In j (when b i) -> j = i.
Proof. destruct b; cbn; [intros [<-|[]]; reflexivity | intros []]. Qed.

Ltac not_unknown :=
  repeat match goal with
         | H : In _ (_ ++ _) |- _ => apply in_app_or in H; destruct H as [H|H]
         | H : In _ (when _ _) |- _ => apply when_suggested in H; rewrite H; discriminate
         | H : In _ [] |- _ => destruct H
         end.

(** No indicator suggests [unknown]. *)
Lemma collectIndicators_suggested files m ds i :
  In i (collectIndicators files m ds) -> suggestedType i <> unknown.
Proof.
  unfold collectIndicators. intros H.
  apply in_app_or in H. destruct H as [H|H].
  - unfold detectFromFiles in H. apply in_flat_map in H. destruct H as [t [_ H]].
    apply in_flat_map in H. destruct H as [pat [Hpat H]].
    assert (Ht : t <> unknown) by (intros ->; destruct Hpat).
    unfold detectPattern in H.
    destruct (has _ _); [destruct H as [<-|[]]; exact Ht|].
    destruct (endsWith pat "/"); [|destruct H].
    destruct (find _ _); [destruct H as [<-|[]]; exact Ht | destruct H].
  - apply in_app_or in H. destruct H as [H|H].
    + unfold detectFromDependencies in H.
      apply in_app_or in H. destruct H as [H|H].
      * destruct (packageJson m); [|destruct H].
        unfold checkDependencies in H. not_unknown.
      * unfold whenRead in H.
        apply in_app_or in H. destruct H as [H|H];
          [|apply in_app_or in H; destruct H as [H|H]].
        -- destruct (requirements_txt m) as [[|c r]|]; try destruct H.
           unfold checkPythonDependencies in H. not_unknown.
        -- destruct (go_mod m) as [[|c r]|]; try destruct H.
           unfold checkGoDependencies in H. not_unknown.
        -- destruct (cargo_toml m) as [[|c r]|]; try destruct H.
           unfold checkRustDependencies in H. not_unknown.
    + unfold detectFromStructure in H.
      destruct (ds_children ds); [|destruct H]. not_unknown.
Qed.

(** The weighted confidence of an indicator of the detector is at least
    0.05, above the floor of 0.01 that the normalization divides by. *)
Lemma collectIndicators_weighted files m ds i :
  In i (collectIndicators files m ds) -> 1 # 20 <= weighted i.
Proof.
  intros H. apply collectIndicators_confidence in H. unfold weighted, Double.mul.
  apply Qle_trans with (Double.fl ((1 # 2) * DETECTION_WEIGHTS (ind_type i))).
  - destruct (ind_type i); vm_compute; discriminate.
  - apply Double.fl_monotone. pose proof (DETECTION_WEIGHTS_pos (ind_type i)).
    apply Qmult_le_compat_r; lra.
Qed.

(** What [detect] answers when it has found an indicator. *)
Lemma detect_when_found (here : Checkout) (ds : DirectoryStructure)
    (files : list FileInfo) :
  let inds := collectIndicators files (manifests here) ds in
  let r := classification (detect here ds files) in
  inds <> [] ->
  (exists i, In i inds /\ suggestedType i = primaryType r)
  /\ primaryType r <> unknown
  /\ res_confidence r == calculateTypeScores inds (primaryType r)
  /\ 0 < res_confidence r <= 1
  /\ exists t, calculateTypeScores inds t == 1.
Proof.
  intros inds r. subst r. rewrite detect_classification. fold inds.
  intros Hsome.
  assert (Hconf : forall i, In i inds -> 0 < confidence i).
  { intros i Hi. apply collectIndicators_confidence in Hi. lra. }
  assert (Hnonneg : forall i, In i inds -> 0 <= confidence i)
    by (intros i Hi; apply Qlt_le_weak, Hconf, Hi).
  pose proof (maxScore_pos (rawScores inds)) as Hmax.
  assert (Hscore : forall t, 0 < calculateTypeScores inds t ->
                             exists i, In i inds /\ suggestedType i = t).
  { intros t Ht. unfold calculateTypeScores in Ht.
    assert (Hraw : ~ rawScores inds t == 0).
    { intros E. rewrite (div_zero _ _ E) in Ht. exact (Qlt_irrefl 0 Ht). }
    destruct (List.existsb (fun i => RepositoryType_eqb (suggestedType i) t) inds) eqn:Ex.
    - apply existsb_exists in Ex. destruct Ex as (i & Hi & E).
      exists i. split; [exact Hi | apply RepositoryType_eqb_eq, E].
    - exfalso. apply Hraw. apply (rawScores_suggested inds t Hconf).
      intros i Hi E. assert (Hin : exists x, In x inds
                               /\ RepositoryType_eqb (suggestedType x) t = true).
      { exists i. split; [exact Hi | apply RepositoryType_eqb_eq, E]. }
      apply existsb_exists in Hin. rewrite Hin in Ex. discriminate Ex. }
  destruct inds as [|i0 inds0] eqn:Einds; [contradiction Hsome; reflexivity|].
  rewrite <- Einds in *.
  assert (Hi0 : In i0 inds) by (rewrite Einds; left; reflexivity).
  assert (Hpos0 : 0 < calculateTypeScores inds (suggestedType i0)).
  { unfold calculateTypeScores, Double.div.
    pose proof (proj1 (rawScores_suggested inds (suggestedType i0) Hconf) i0 Hi0 eq_refl).
    pose proof (weighted_pos i0 (Hconf i0 Hi0)).
    apply Double.fl_pos, Qlt_shift_div_l; [exact Hmax | lra]. }
  destruct (sortedTypes_nonempty (calculateTypeScores inds) _ Hpos0)
    as (e & l & E & Esnd & Hpos).
  unfold classify. rewrite E. cbn [primaryType res_confidence].
  destruct (Hscore (fst e) Hpos) as (i & Hi & Ei).
  split; [exists i; split; assumption|].
  split.
  { rewrite <- Ei. unfold inds in Hi. apply (collectIndicators_suggested _ _ _ _ Hi). }
  pose proof (calculateTypeScores_range inds (fst e) Hnonneg) as Hrange.
  split; [rewrite Esnd; apply Q.min_l, Hrange|].
  split; [rewrite Esnd; rewrite (Q.min_l _ 1) by apply Hrange; lra|].
  assert (Htop : exists t, rawScores inds t == maxScore (rawScores inds)).
  { assert (Hge : Double.fl (1 # 100) < rawScores inds (suggestedType i0)).
    { pose proof (proj1 (rawScores_suggested inds (suggestedType i0) Hconf)
                        i0 Hi0 eq_refl).
      unfold inds in Hi0. pose proof (collectIndicators_weighted _ _ _ _ Hi0).
      assert (Double.fl (1 # 100) < 1 # 20) by (vm_compute; reflexivity). lra. }
    pose proof (maxScore_upper (rawScores inds) (suggestedType i0)) as Hup.
    unfold maxScore in *. revert Hup Hge.
    generalize (rawScores inds (suggestedType i0)) as x.
    generalize (rawScores inds) as scores. intros scores x Hup Hx.
    generalize dependent (Double.fl (1 # 100)). intros floor _ Hup Hx.
    assert (Hgen : forall keys,
               floor < fold_right Qmax floor (map scores keys) ->
               exists t, scores t == fold_right Qmax floor (map scores keys)).
    { induction keys as [|k keys IHk]; cbn [map fold_right]; intros Hlt.
      - exfalso. exact (Qlt_irrefl _ Hlt).
      - destruct (Q.max_spec (scores k) (fold_right Qmax floor (map scores keys)))
          as [[Hlt' Emax] | [Hle Emax]].
        + rewrite Emax in Hlt. destruct (IHk Hlt) as [t Et].
          exists t. rewrite Emax. exact Et.
        + exists k. rewrite Emax. reflexivity. }
    apply Hgen. lra. }
  destruct Htop as [t Et]. exists t. unfold calculateTypeScores.
  rewrite (div_same _ _ Hmax Et). reflexivity.
Qed.

(** A checkout without files, manifests or directories. *)
Definition emptyCheckout : Checkout := mkCheckout noManifests [] (mkRoot []).

(** X12.  [detect] answers [unknown] exactly when it finds no indicator,
    and then with confidence 0.  When it finds one, the primary type is a
    type that one of the indicators suggests, the confidence lies above 0
    and is at most 1, and some type has the normalized score 1. *)
Theorem unknown_iff_nothing_found (here : Checkout) (ds : DirectoryStructure)
    (files : list FileInfo) :
  let inds := collectIndicators files (manifests here) ds in
  let r := classification (detect here ds files) in
  (inds = [] -> primaryType r = unknown /\ res_confidence r == 0)
  /\ (inds <> [] ->
      (exists i, In i inds /\ suggestedType i = primaryType r)
      /\ primaryType r <> unknown
      /\ 0 < res_confidence r <= 1
      /\ exists t, calculateTypeScores inds t == 1).
Proof.
  intros inds r. split.
  - subst r. rewrite detect_classification. fold inds.
    intros ->. vm_compute. split; reflexivity.
  - intros Hsome.
    destruct (detect_when_found here ds files Hsome) as (H1 & H2 & _ & H3 & H4).
    repeat split; try assumption; apply H3.
Qed.

(** X13.  When every indicator that [detect] finds suggests the same
    type, and it finds one, that type is the primary type and the
    confidence is 1. *)
Theorem agreeing_indicators_are_certain (here : Checkout) (ds : DirectoryStructure)
    (files : list FileInfo) (t : RepositoryType) :
  let inds := collectIndicators files (manifests here) ds in
  let r := classification (detect here ds files) in
  inds <> [] ->
  (forall i, In i inds -> suggestedType i = t) ->
  primaryType r = t /\ res_confidence r == 1.
Proof.
  intros inds r Hsome Hall.
  destruct (detect_when_found here ds files Hsome) as ((i & Hi & Ei) & _ & Hc & _ & (u & Hu)).
  fold inds in Hi, Hc, Hu. fold r in Ei, Hc.
  assert (Ht : primaryType r = t) by (rewrite <- Ei; apply Hall, Hi).
  split; [exact Ht|]. rewrite Hc, Ht.
  assert (Eu : u = t).
  { destruct (RepositoryType_eqb u t) eqn:E; [apply RepositoryType_eqb_eq, E|].
    exfalso.
    assert (Hconf : forall j, In j inds -> 0 < confidence j).
    { intros j Hj. apply collectIndicators_confidence in Hj. lra. }
    assert (Hzero : rawScores inds u == 0).
    { apply (rawScores_suggested inds u Hconf). intros j Hj Ej.
      rewrite (Hall j Hj) in Ej. subst u.
      assert (Hrefl : RepositoryType_eqb t t = true) by (apply RepositoryType_eqb_eq; reflexivity).
      rewrite Hrefl in E. discriminate E. }
    unfold calculateTypeScores in Hu. rewrite (div_zero _ _ Hzero) in Hu.
    discriminate Hu. }
  rewrite <- Eu. exact Hu.
Qed.

Lemma agreeing_indicators_are_certain_witness :
  primaryType (classification
                 (detect main_tf_repository (getDirectoryStructure main_tf_repository)
                         (getFiles main_tf_repository))) = infra_as_code
  /\ res_confidence (classification
                       (detect main_tf_repository
                               (getDirectoryStructure main_tf_repository)
                               (getFiles main_tf_repository))) == 1.
Proof.
  apply (agreeing_indicators_are_certain main_tf_repository
           (getDirectoryStructure main_tf_repository) (getFiles main_tf_repository)
           infra_as_code).
  - vm_compute. discriminate.
  - vm_compute. intros i [<- | []]. reflexivity.
Defined.

(** *** How low the confidence can be *)

(** In the order of the sort an entry follows another only when its
    score is less than 0.1 above. *)
Lemma inOrder_step a b :
  JsArray.inOrder compareTypes a b -> snd b < snd a + (1 # 10).
Proof.
  unfold JsArray.inOrder. rewrite negative_false. unfold compareTypes.
  pose proof tenth_below as Hten.
  destruct (Qlt_le_dec (Qabs (Double.sub (snd a) (snd b))) (Double.fl (1 # 10)))
    as [Hclose | Hfar].
  - intros _. apply within_tenth in Hclose. apply Qabs_Qlt_condition in Hclose. lra.
  - intros H. unfold Double.sub in H.
    assert (Hle : 0 <= snd a - snd b).
    { apply Qnot_lt_le. intros Hneg. apply Double.fl_neg in Hneg. lra. }
    lra.
Qed.

Fixpoint tenths (n : nat) : Q :=
  match n with
  | O => 0
  | S n' => tenths n' + (1 # 10)
  end.

Lemma chain_climb l : forall h,
  JsArray.chain (JsArray.inOrder compareTypes) (h :: l) ->
  forall j e, nth_error l j = Some e -> snd e < snd h + tenths (S j).
Proof.
  induction l as [|y l IH]; intros h Hc j e Hj; [destruct j; discriminate Hj|].
  destruct Hc as [Hhy Hc]. pose proof (inOrder_step h y Hhy) as Hstep.
  destruct j as [|j]; cbn [nth_error] in Hj.
  - injection Hj as <-. cbn [tenths]. lra.
  - pose proof (IH y Hc j e Hj) as Hrest. cbn [tenths] in *. lra.
Qed.

Lemma tenths_five n : (n <= 5)%nat -> tenths n <= 1 # 2.
Proof.
  intros Hn. do 6 (destruct n as [|n]; [cbn; lra|]). lia.
Qed.

Lemma candidates_length (scores : Scores) :
  scores unknown == 0 -> (List.length (candidates scores) <= 6)%nat.
Proof.
  intros H0. unfold candidates, type_keys. cbn [map filter snd].
  assert (Hu : gt (scores unknown) 0 = false).
  { destruct (gt (scores unknown) 0) eqn:E; [|reflexivity].
    apply gt_true in E. rewrite H0 in E. discriminate E. }
  rewrite Hu.
  repeat match goal with
         | |- context [if ?b then _ else _] => destruct b
         end; cbn [List.length]; lia.
Qed.

(** X14.  When [detect] finds an indicator, the confidence it reports is
    above 0.5: the type it selects has a normalized score within 0.1 of
    the next type of the sorted list, and so on up to the type with the
    score 1, over at most six types. *)
Theorem confidence_exceeds_half (here : Checkout) (ds : DirectoryStructure)
    (files : list FileInfo) :
  collectIndicators files (manifests here) ds <> [] ->
  1 # 2 < res_confidence (classification (detect here ds files)).
Proof.
  intros Hsome.
  destruct (detect_when_found here ds files Hsome) as (_ & _ & _ & _ & (t & Ht)).
  rewrite detect_classification.
  set (inds := collectIndicators files (manifests here) ds) in *.
  assert (Hconf : forall i, In i inds -> 0 < confidence i).
  { intros i Hi. apply collectIndicators_confidence in Hi. lra. }
  assert (Hunknown : calculateTypeScores inds unknown == 0).
  { unfold calculateTypeScores. rewrite div_zero; [reflexivity|].
    apply (proj2 (rawScores_suggested inds unknown Hconf)).
    intros i Hi. apply (collectIndicators_suggested _ _ _ _ Hi). }
  set (scores := calculateTypeScores inds) in *.
  assert (Hin : In (t, scores t) (sortedTypes scores)).
  { apply sortedTypes_in, in_candidates. cbn [fst snd]. split; [reflexivity|].
    rewrite Ht. reflexivity. }
  assert (Hlen : (List.length (sortedTypes scores) <= 6)%nat).
  { unfold sortedTypes. fold (candidates scores).
    rewrite (Permutation_length (JsArray.sort_permutation compareTypes (candidates scores))).
    apply candidates_length, Hunknown. }
  assert (Hchain : JsArray.chain (JsArray.inOrder compareTypes) (sortedTypes scores)).
  { apply JsArray.sort_chain. exact compareTypes_asymmetric. }
  unfold classify. fold scores.
  destruct (sortedTypes scores) as [|h l]; [destruct Hin|]. cbn [res_confidence].
  assert (Hh : 1 # 2 < snd h).
  { destruct Hin as [-> | Hin]; [cbn [snd]; rewrite Ht; reflexivity|].
    apply In_nth_error in Hin. destruct Hin as [j Hj].
    pose proof (chain_climb l h Hchain j _ Hj) as Hclimb. cbn [snd] in Hclimb.
    assert (Hj5 : (S j <= 5)%nat).
    { assert (j < List.length l)%nat by (apply nth_error_Some; rewrite Hj; discriminate).
      cbn [List.length] in Hlen. lia. }
    pose proof (tenths_five (S j) Hj5). rewrite Ht in Hclimb. lra. }
  apply Q.min_glb_lt; [exact Hh | reflexivity].
Qed.

Lemma confidence_exceeds_half_witness :
  1 # 2 < res_confidence
            (classification
               (detect main_tf_repository (getDirectoryStructure main_tf_repository)
                       (getFiles main_tf_repository))).
Proof.
  apply (confidence_exceeds_half main_tf_repository
           (getDirectoryStructure main_tf_repository) (getFiles main_tf_repository)).
  vm_compute. discriminate.
Defined.

(** *** The tech stack *)

Lemma has_In (l : list string) x : has l x = true <-> In x l.
Proof.
  unfold has. rewrite existsb_exists. split.
  - intros (y & Hy & E). apply String.eqb_eq in E. subst y. exact Hy.
  - intros H. exists x. split; [exact H | apply String.eqb_refl].
Qed.

Lemma has_app (l1 l2 : list string) x : has (l1 ++ l2) x = has l1 x || has l2 x.
Proof. unfold has. apply existsb_app. Qed.

Lemma fold_left_pointwise {A B} (f g : A -> B -> A) :
  (forall a b, f a b = g a b) -> forall l a, fold_left f l a = fold_left g l a.
Proof.
  intros H l. induction l as [|b l IH]; intros a; cbn [fold_left]; [reflexivity|].
  rewrite H. apply IH.
Qed.

Section AddTo.
Context {E : Type}.
Variable key : E -> string.

(** A loop that adds the keys of the entries that pass a test to a
    [Set]: it appends those that pass and are not there yet. *)
Lemma addTo_loop (P : E -> bool) (l : list E) :
  NoDup (map key l) ->
  forall detected,
    fold_left (fun detected e => if P e then addTo detected (key e) else detected) l detected
    = (detected ++ map key (filter (fun e => P e && negb (has detected (key e))) l))%list.
Proof.
  induction l as [|e l IH]; intros Hdup detected; cbn [fold_left filter map].
  - rewrite app_nil_r. reflexivity.
  - inversion Hdup as [|? ? He Hdup']; subst.
    assert (Hsame : forall d',
               (forall x, In x (map key l) -> has d' x = has detected x) ->
               filter (fun e' => P e' && negb (has d' (key e'))) l
               = filter (fun e' => P e' && negb (has detected (key e'))) l).
    { intros d' Hd. apply filter_ext_in. intros e' He'.
      rewrite (Hd (key e') (in_map key _ _ He')). reflexivity. }
    destruct (P e); cbn [andb].
    + unfold addTo. destruct (has detected (key e)) eqn:Eh; cbn [negb].
      * apply IH, Hdup'.
      * rewrite (IH Hdup'). cbn [map]. rewrite <- app_assoc. cbn [app].
        rewrite Hsame; [reflexivity|].
        intros x Hx. rewrite has_app. cbn [has existsb].
        destruct (String.eqb_spec x (key e)) as [-> | _]; [contradiction|].
        rewrite orb_false_r. reflexivity.
    + apply IH, Hdup'.
Qed.

End AddTo.

(** Whether a file pattern of the table matches the files. *)
Definition fileMatch (files : list FileInfo) (filePattern : string) : bool :=
  if startsWith filePattern "*."
  then has (map extension files) (drop 1 filePattern)
  else has (map (fun f => toLowerCase (name f)) files) (toLowerCase filePattern).

(** Whether the name of a dependency indicator contains a dependency
    pattern of the table. *)
Definition indicatorMatch (inds : list TypeIndicator) (dep : string) : bool :=
  existsb (fun i => isDependency (ind_type i)
                    && includes (toLowerCase (ind_name i)) (toLowerCase dep)) inds.

(** Whether [package.json] names a dependency pattern of the table. *)
Definition packageMatch (m : Manifests) (dep : string) : bool :=
  match packageJson m with
  | Some pkg =>
      existsb (fun d => String.eqb (toLowerCase d) (toLowerCase dep))
              (dependencies pkg ++ devDependencies pkg)
  | None => false
  end.

(** The test of the first loop of [detectTechStack], and of the second. *)
Definition firstPass (files : list FileInfo) (inds : list TypeIndicator)
    (entry : string * (list string * list string)) : bool :=
  existsb (fileMatch files) (fst (snd entry))
  || existsb (indicatorMatch inds) (snd (snd entry)).

Definition secondPass (m : Manifests) (entry : string * (list string * list string))
  : bool :=
  existsb (packageMatch m) (snd (snd entry)).

Fixpoint distinct (l : list string) : bool :=
  match l with
  | [] => true
  | x :: l' => negb (has l' x) && distinct l'
  end.

Lemma distinct_NoDup l : distinct l = true -> NoDup l.
Proof.
  induction l as [|x l IH]; cbn [distinct]; intros H; [constructor|].
  apply andb_prop in H. destruct H as [Hx Hl]. constructor; [|exact (IH Hl)].
  intros Hin. apply has_In in Hin. rewrite Hin in Hx. discriminate Hx.
Qed.

Lemma TECH_STACK_PATTERNS_distinct : NoDup (map fst TECH_STACK_PATTERNS).
Proof. apply distinct_NoDup. vm_compute. reflexivity. Qed.

Lemma detectTechStack_loops (files : list FileInfo) (m : Manifests)
    (inds : list TypeIndicator) :
  detectTechStack files m inds
  = let stack := fold_left
      (fun detected entry =>
         if firstPass files inds entry then addTo detected (fst entry) else detected)
      TECH_STACK_PATTERNS [] in
    match packageJson m with
    | Some pkg =>
        fold_left (fun detected entry =>
                     if secondPass m entry then addTo detected (fst entry) else detected)
                  TECH_STACK_PATTERNS stack
    | None => stack
    end.
Proof.
  unfold detectTechStack. cbv zeta.
  match goal with
  | |- context [fold_left ?f TECH_STACK_PATTERNS []] =>
      rewrite (fold_left_pointwise f
                 (fun detected entry =>
                    if firstPass files inds entry then addTo detected (fst entry)
                    else detected))
        by (intros d [tech [fp dp]]; reflexivity)
  end.
  unfold secondPass, packageMatch.
  destruct (packageJson m) as [pkg|]; [|reflexivity].
  apply fold_left_pointwise. intros d [tech [fp dp]]. reflexivity.
Qed.

Section Table.
Variable table : list (string * (list string * list string)).
Hypothesis table_distinct : NoDup (map fst table).

Lemma table_entry e1 e2 : In e1 table -> In e2 table -> fst e1 = fst e2 -> e1 = e2.
Proof.
  revert table_distinct. induction table as [|x l IH]; [intros _ []|].
  cbn [map]. intros Hdup [-> | H1] [-> | H2] Ekey.
  - reflexivity.
  - inversion Hdup as [|? ? Hx _]; subst. exfalso. apply Hx.
    rewrite Ekey. apply in_map, H2.
  - inversion Hdup as [|? ? Hx _]; subst. exfalso. apply Hx.
    rewrite <- Ekey. apply in_map, H1.
  - inversion Hdup as [|? ? _ Hl]; subst. exact (IH Hl H1 H2 Ekey).
Qed.

Lemma table_filter (P : string * (list string * list string) -> bool) :
  NoDup (map fst (filter P table)).
Proof.
  revert table_distinct. induction table as [|e l IH]; [constructor|]. cbn [filter map].
  intros Hdup. inversion Hdup as [|? ? He Hl]; subst.
  destruct (P e); [|exact (IH Hl)]. cbn [map]. constructor; [|exact (IH Hl)].
  intros Hin. apply He. apply in_map_iff in Hin. destruct Hin as (e' & Ee & He').
  apply filter_In in He'. rewrite <- Ee. apply in_map, He'.
Qed.

(** The two loops of [detectTechStack] over a table without repeated
    keys. *)
Lemma table_loops (P1 P2 : string * (list string * list string) -> bool) :
  let stack := fold_left (fun detected entry =>
                            if P1 entry then addTo detected (fst entry) else detected)
                         table [] in
  let result := fold_left (fun detected entry =>
                             if P2 entry then addTo detected (fst entry) else detected)
                          table stack in
  stack = map fst (filter P1 table)
  /\ result = (map fst (filter P1 table)
               ++ map fst (filter (fun entry => P2 entry && negb (P1 entry)) table))%list
  /\ NoDup result.
Proof.
  intros stack result.
  assert (Hstack : stack = map fst (filter P1 table)).
  { unfold stack. rewrite (addTo_loop fst _ _ table_distinct). cbn [app].
    f_equal. apply filter_ext. intros e. cbn [has existsb negb]. apply andb_true_r. }
  assert (Hlisted : forall entry, In entry table ->
            has (map fst (filter P1 table)) (fst entry) = P1 entry).
  { intros entry Hentry. destruct (P1 entry) eqn:E.
    - apply has_In, in_map, filter_In. split; assumption.
    - destruct (has _ (fst entry)) eqn:Eh; [|reflexivity].
      apply has_In, in_map_iff in Eh. destruct Eh as (e' & Ekey & He').
      apply filter_In in He'. destruct He' as [He' Ep].
      rewrite (table_entry e' entry He' Hentry Ekey) in Ep.
      rewrite Ep in E. discriminate E. }
  assert (Hresult : result = (map fst (filter P1 table)
               ++ map fst (filter (fun entry => P2 entry && negb (P1 entry)) table))%list).
  { unfold result. rewrite Hstack. rewrite (addTo_loop fst _ _ table_distinct).
    f_equal. f_equal. apply filter_ext_in. intros entry Hentry.
    rewrite (Hlisted entry Hentry). reflexivity. }
  split; [exact Hstack|]. split; [exact Hresult|]. rewrite Hresult.
  apply NoDup_app; [apply table_filter | apply table_filter |].
  intros x Hx1 Hx2.
  apply in_map_iff in Hx1. destruct Hx1 as (e1 & E1 & H1). apply filter_In in H1.
  apply in_map_iff in Hx2. destruct Hx2 as (e2 & E2 & H2). apply filter_In in H2.
  destruct H1 as [H1 Q1]. destruct H2 as [H2 Q2].
  rewrite <- E2 in E1. rewrite (table_entry e1 e2 H1 H2 E1) in Q1.
  apply andb_prop in Q2. destruct Q2 as [_ Q2]. rewrite Q1 in Q2. discriminate Q2.
Qed.

End Table.

(** X15.  [detectTechStack] lists each technology of its table at most
    once: first, in the order of the table, those with a file pattern
    that matches a file or a dependency pattern contained in the name of
    a dependency indicator; then, in the order of the table, those not
    yet listed with a dependency pattern that [package.json] names. *)
Theorem tech_stack_found (files : list FileInfo) (m : Manifests)
    (inds : list TypeIndicator) :
  detectTechStack files m inds
  = (map fst (filter (firstPass files inds) TECH_STACK_PATTERNS)
     ++ map fst (filter (fun entry => secondPass m entry
                                      && negb (firstPass files inds entry))
                        TECH_STACK_PATTERNS))%list
  /\ NoDup (detectTechStack files m inds).
Proof.
  rewrite detectTechStack_loops. cbv zeta.
  pose proof (table_loops TECH_STACK_PATTERNS TECH_STACK_PATTERNS_distinct
                          (firstPass files inds) (secondPass m)) as H.
  cbv zeta in H. destruct H as (Hstack & Hresult & Hdup).
  destruct (packageJson m) as [pkg|] eqn:Epkg; [split; [exact Hresult | exact Hdup]|].
  assert (Hnone : forall entry, secondPass m entry = false).
  { intros entry. unfold secondPass, packageMatch. rewrite Epkg.
    induction (snd (snd entry)) as [|d ds IHd]; [reflexivity | exact IHd]. }
  rewrite Hstack.
  replace (filter (fun entry => secondPass m entry && negb _) TECH_STACK_PATTERNS)
    with (@nil (string * (list string * list string))).
  - rewrite app_nil_r. split; [reflexivity | apply table_filter, TECH_STACK_PATTERNS_distinct].
  - symmetry. generalize TECH_STACK_PATTERNS as l.
    induction l as [|e l IH]; [reflexivity|]. cbn [filter].
    rewrite Hnone. cbn [andb]. exact IH.
Qed.

(** *** The types of the packages of a monorepo *)

Definition packageDirs : list string := ["packages"; "apps"; "libs"; "modules"].

(** The primary type [detect] finds for the package [dir/subDir]; a
    package that cannot be read has no indicator. *)
Definition packageType (here : Checkout) (dir subDir : string) : RepositoryType :=
  match subdirectory here dir subDir with
  | Some there =>
      primaryType (classification
                     (detect there (getDirectoryStructure there) (getFiles there)))
  | None => unknown
  end.

(** A type that [detectMonorepoSubTypes] keeps. *)
Definition kept (t : RepositoryType) : Prop := t <> unknown /\ t <> monorepo.

Lemma detect_subTypes (here : Checkout) ds files :
  subTypes (detect here ds files)
  = match primaryType (classification (detect here ds files)) with
    | monorepo =>
        Some (fold_left
                (fun found dir =>
                   fold_left
                     (fun found subDir =>
                        match packageType here dir subDir with
                        | unknown | monorepo => found
                        | t => addType found t
                        end)
                     (packagesUnder ds dir) found)
                packageDirs [])
    | _ => None
    end.
Proof.
  destruct here as [m fs d sub]. cbn [detect subTypes classification].
  destruct (primaryType _); try reflexivity.
  f_equal. apply fold_left_pointwise. intros found dir.
  apply fold_left_pointwise. intros found' subDir.
  unfold packageType. cbn [subdirectory]. destruct (sub dir subDir); reflexivity.
Qed.

Lemma addType_In l t u : In u (addType l t) <-> In u l \/ u = t.
Proof.
  unfold addType. destruct (existsb (RepositoryType_eqb t) l) eqn:E.
  - split; [tauto|]. intros [H | ->]; [exact H|].
    apply existsb_exists in E. destruct E as (x & Hx & Ex).
    apply RepositoryType_eqb_eq in Ex. subst x. exact Hx.
  - rewrite in_app_iff. cbn [In]. split.
    + intros [H | [<- | []]]; auto.
    + intros [H | ->]; auto.
Qed.

Lemma addType_NoDup l t : NoDup l -> NoDup (addType l t).
Proof.
  intros H. unfold addType. destruct (existsb (RepositoryType_eqb t) l) eqn:E; [exact H|].
  apply NoDup_app; [exact H | repeat constructor; intros [] |].
  intros x Hx [<- | []].
  assert (Hex : exists y, In y l /\ RepositoryType_eqb t y = true).
  { exists t. split; [exact Hx | apply RepositoryType_eqb_eq; reflexivity]. }
  apply existsb_exists in Hex. rewrite Hex in E. discriminate E.
Qed.

(** The loop over the packages of one directory. *)
Lemma subTypes_loop {X} (typeOf : X -> RepositoryType) (l : list X) :
  forall found,
    NoDup found ->
    let found' := fold_left (fun found x =>
                               match typeOf x with
                               | unknown | monorepo => found
                               | t => addType found t
                               end) l found in
    NoDup found'
    /\ forall t, In t found' <-> In t found \/ (kept t /\ exists x, In x l /\ typeOf x = t).
Proof.
  induction l as [|x l IH]; intros found Hdup; cbn [fold_left].
  - split; [exact Hdup|]. intros t. split; [auto|]. intros [H | (_ & x & [] & _)]. exact H.
  - assert (Hstep : forall found1,
               NoDup found1 ->
               (forall t, In t found1 <-> In t found \/ (kept t /\ typeOf x = t)) ->
               let found' := fold_left (fun found x =>
                                          match typeOf x with
                                          | unknown | monorepo => found
                                          | t => addType found t
                                          end) l found1 in
               NoDup found'
               /\ forall t, In t found'
                            <-> In t found
                                \/ (kept t /\ exists y, In y (x :: l) /\ typeOf y = t)).
    { intros found1 Hdup1 Hin1. destruct (IH found1 Hdup1) as [Hd Hi].
      split; [exact Hd|]. intros t. rewrite Hi, Hin1. split.
      - intros [[H | [Hk E]] | (Hk & y & Hy & E)]; auto.
        + right. split; [exact Hk|]. exists x. split; [left; reflexivity | exact E].
        + right. split; [exact Hk|]. exists y. split; [right; exact Hy | exact E].
      - intros [H | (Hk & y & [<- | Hy] & E)]; auto.
        right. split; [exact Hk|]. exists y. split; assumption. }
    unfold kept in *.
    destruct (typeOf x) eqn:Ex.
    1-5: apply Hstep; [apply addType_NoDup; exact Hdup|];
         intros t; rewrite addType_In; split;
         [ intros [H | ->]; [left; exact H | right; split; [split; discriminate | reflexivity]]
         | intros [H | [_ E]]; [left; exact H | right; symmetry; exact E] ].
    all: apply Hstep; [exact Hdup|];
         intros t; split;
         [ intros H; left; exact H
         | intros [H | [[Hu Hm] E]]; [exact H | subst t; contradiction] ].
Qed.

(** X16.  [detect] reports sub-types only for a repository it classifies
    as a monorepo.  They are then, each listed once, the primary types
    that it finds for the directories of [packages], [apps], [libs] and
    [modules], [unknown] and [monorepo] left out. *)
Theorem sub_types_of_monorepo (here : Checkout) (ds : DirectoryStructure)
    (files : list FileInfo) :
  let r := detect here ds files in
  match subTypes r with
  | None => primaryType (classification r) <> monorepo
  | Some found =>
      primaryType (classification r) = monorepo
      /\ NoDup found
      /\ forall t, In t found
                   <-> kept t
                       /\ exists dir subDir,
                            In dir packageDirs /\ In subDir (packagesUnder ds dir)
                            /\ packageType here dir subDir = t
  end.
Proof.
  intros r. subst r. rewrite detect_subTypes.
  destruct (primaryType (classification (detect here ds files))); try discriminate.
  split; [reflexivity|].
  assert (Hdirs : forall dirs found,
             NoDup found ->
             let found' :=
               fold_left
                 (fun found dir =>
                    fold_left
                      (fun found subDir =>
                         match packageType here dir subDir with
                         | unknown | monorepo => found
                         | t => addType found t
                         end)
                      (packagesUnder ds dir) found)
                 dirs found in
             NoDup found'
             /\ forall t, In t found'
                          <-> In t found
                              \/ (kept t
                                  /\ exists dir subDir,
                                       In dir dirs /\ In subDir (packagesUnder ds dir)
                                       /\ packageType here dir subDir = t)).
  { induction dirs as [|dir dirs IH]; intros found Hdup; cbn [fold_left].
    - split; [exact Hdup|]. intros t. split; [auto|].
      intros [H | (_ & d & sd & [] & _)]. exact H.
    - destruct (subTypes_loop (packageType here dir) (packagesUnder ds dir) found Hdup)
        as [Hd1 Hi1].
      destruct (IH _ Hd1) as [Hd Hi]. split; [exact Hd|].
      intros t. rewrite Hi, Hi1. split.
      + intros [[H | (Hk & sd & Hsd & E)] | (Hk & d & sd & Hd' & Hsd & E)]; auto.
        * right. split; [exact Hk|]. exists dir, sd. repeat split; auto. left. reflexivity.
        * right. split; [exact Hk|]. exists d, sd. repeat split; auto. right. exact Hd'.
      + intros [H | (Hk & d & sd & [<- | Hd'] & Hsd & E)]; auto.
        * left. right. split; [exact Hk|]. exists sd. split; assumption.
        * right. split; [exact Hk|]. exists d, sd. repeat split; assumption. }
  destruct (Hdirs packageDirs [] (NoDup_nil _)) as [Hd Hi]. split; [exact Hd|].
  intros t. rewrite Hi. split; [intros [[] | H]; exact H | intros H; right; exact H].
Qed.

End TypeDetectorFacts.

(** ** More about the prompt engine *)

Module PromptEngineFacts.
Import stdpp.base stdpp.option stdpp.list stdpp.gmap stdpp.strings stdpp.sets stdpp.relations.
Import PromptEngine.

Local Open Scope string_scope.
Local Open Scope list_scope.
#[local] Set Warnings "-clear-no-such-hyp".

(** *** Dependencies come first in a plan *)

Section Order.
Variable M : gmap string PromptConfig.
Hypothesis M_keys : forall k p, M !! k = Some p -> id p = k.

(** [a] names [b] among its dependencies, both being prompts of the map. *)
Definition needs (a b : string) : Prop :=
  exists pa, M !! a = Some pa /\ b ∈ contextRequired pa /\ is_Some (M !! b).

(** A prompt whose resolution has begun and is not finished: the calls
    of [resolve] on the stack. *)
Definition inProgress (st : ResolveState) (y : string) : Prop :=
  y ∈ visited st /\ y ∈ pending st.

(** In [l] every prompt comes after each of its dependencies, those that
    depend on it in turn excepted. *)
Definition ordered (l : list PromptConfig) : Prop :=
  forall j p d,
    l !! j = Some p -> d ∈ contextRequired p -> is_Some (M !! d) ->
    (exists i q, i < j /\ l !! i = Some q /\ id q = d) \/ rtc needs d (id p).

Lemma ordered_snoc l p :
  ordered l ->
  (forall d, d ∈ contextRequired p -> is_Some (M !! d) ->
             d ∈ id <$> l \/ rtc needs d (id p)) ->
  ordered (l ++ [p]).
Proof.
  intros Hl Hp j q d Hj Hd HM. apply lookup_app_Some in Hj.
  destruct Hj as [Hj | [Hlen Hj]].
  - destruct (Hl j q d Hj Hd HM) as [(i & r & Hi & Hr & Er) | Hc]; [left | right; exact Hc].
    exists i, r. split; [exact Hi|]. split; [|exact Er].
    apply lookup_app_l_Some. exact Hr.
  - apply list_lookup_singleton_Some in Hj. destruct Hj as [Hj <-].
    destruct (Hp d Hd HM) as [Hin | Hc]; [left | right; exact Hc].
    apply list_elem_of_fmap in Hin. destruct Hin as (r & Er & Hr).
    apply list_elem_of_lookup in Hr. destruct Hr as [i Hi].
    exists i, r. split; [apply lookup_lt_Some in Hi; lia|].
    split; [apply lookup_app_l_Some; exact Hi | symmetry; exact Er].
Qed.

(** What a call of [resolve] on [x] keeps, when every prompt in progress
    depends on [x]. *)
Definition keepsOrder (rec : string -> ResolveState -> option ResolveState) : Prop :=
  forall x st st',
    rec x st = Some st' ->
    consistent M st ->
    (forall y, inProgress st y -> rtc needs y x) ->
    ordered (resolved st) ->
    ordered (resolved st') /\ (forall y, inProgress st' y -> inProgress st y).

Lemma resolveEach_ordered rec x :
  keepsOrder rec ->
  (forall d st st', rec d st = Some st' -> advances M st st') ->
  (forall d st st', rec d st = Some st' -> d ∈ dom M -> d ∉ visited st -> d ∉ pending st') ->
  forall deps st st',
    resolveEach M rec deps st = Some st' ->
    consistent M st ->
    ordered (resolved st) ->
    (forall y, inProgress st y -> rtc needs y x) ->
    (forall d, d ∈ deps -> is_Some (M !! d) -> needs x d) ->
    ordered (resolved st')
    /\ consistent M st'
    /\ (forall y, inProgress st' y -> inProgress st y)
    /\ (forall d, d ∈ deps -> is_Some (M !! d) -> d ∉ pending st' \/ inProgress st d).
Proof.
  intros Hrec Hadv Hrem. induction deps as [|d deps IH]; intros st st' H Hc Ho Hstack Hneeds;
    simpl in H.
  - simplify_eq. split; [exact Ho|]. split; [exact Hc|]. split; [auto|].
    intros d Hd. inversion Hd.
  - destruct (decide (is_Some (M !! d))) as [HMd | HMd].
    + destruct (rec d st) as [st1|] eqn:E; [|discriminate].
      assert (Hxd : needs x d) by (apply Hneeds; [left | exact HMd]).
      destruct (Hrec d st st1 E Hc) as [Ho1 Hs1]; [|exact Ho|].
      { intros y Hy. eapply rtc_r; [apply Hstack, Hy | exact Hxd]. }
      destruct (Hadv d st st1 E) as (Hv1 & Hp1 & Hk1 & Hc1).
      destruct (IH st1 st' H (Hc1 Hc) Ho1) as (Ho' & Hc' & Hs' & Hd').
      { intros y Hy. apply Hstack, Hs1, Hy. }
      { intros d' Hd'' HM'. apply Hneeds; [right; exact Hd'' | exact HM']. }
      split; [exact Ho'|]. split; [exact Hc'|]. split; [intros y Hy; apply Hs1, Hs', Hy|].
      intros d' Hin HM'. apply elem_of_cons in Hin. destruct Hin as [-> | Hin].
      * destruct (decide (d ∈ pending st')) as [Hpend | Hpend]; [|left; exact Hpend].
        right. destruct (decide (d ∈ visited st)) as [Hvis | Hvis].
        -- split; [exact Hvis|].
           assert (Hsub : pending st' ⊆ pending st).
           { assert (Hadv' : advances M st1 st')
               by (apply (resolveEach_advances M M_keys rec Hadv deps st1 st' H)).
             destruct Hadv' as (_ & Hp' & _). set_solver. }
           set_solver.
        -- exfalso. assert (Hnot : d ∉ pending st1).
           { apply (Hrem d st st1 E); [apply elem_of_dom; exact HMd | exact Hvis]. }
           assert (Hadv' : advances M st1 st')
             by (apply (resolveEach_advances M M_keys rec Hadv deps st1 st' H)).
           destruct Hadv' as (_ & Hp' & _). set_solver.
      * destruct (Hd' d' Hin HM') as [Hn | Hin1]; [left; exact Hn | right; apply Hs1, Hin1].
    + destruct (IH st st' H Hc Ho Hstack) as (Ho' & Hc' & Hs' & Hd').
      { intros d' Hd'' HM'. apply Hneeds; [right; exact Hd'' | exact HM']. }
      split; [exact Ho'|]. split; [exact Hc'|]. split; [exact Hs'|].
      intros d' Hin HM'. apply elem_of_cons in Hin. destruct Hin as [-> | Hin].
      * contradiction.
      * apply Hd'; assumption.
Qed.

Lemma resolve_ordered fuel : keepsOrder (resolve fuel M).
Proof.
  induction fuel as [|fuel IH]; intros x st st' H Hc Hstack Ho; [discriminate|].
  simpl in H.
  destruct (decide (x ∉ pending st)) as [|Hp]; [simplify_eq; split; [exact Ho | auto]|].
  destruct (decide (x ∈ visited st)) as [|Hv]; [simplify_eq; split; [exact Ho | auto]|].
  destruct (M !! x) as [prompt|] eqn:Hx; [|simplify_eq; split; [exact Ho | auto]].
  match type of H with
  | match resolveEach _ _ _ ?s with _ => _ end = _ => set (st1 := s) in *
  end.
  destruct (resolveEach M (resolve fuel M) (contextRequired prompt) st1) as [st2|] eqn:E;
    [|discriminate].
  simplify_eq.
  assert (Hc1 : consistent M st1) by exact Hc.
  destruct (resolveEach_ordered (resolve fuel M) x IH
              (resolve_advances M M_keys fuel) (resolve_removes M M_keys fuel)
              (contextRequired prompt) st1 st2 E Hc1 Ho)
    as (Ho2 & Hc2 & Hs2 & Hd2).
  { intros y [Hy Hy']. subst st1. simpl in *.
    apply elem_of_union in Hy. destruct Hy as [Hy | Hy].
    - apply elem_of_singleton in Hy. subst y. apply rtc_refl.
    - apply Hstack. split; assumption. }
  { intros d Hd HMd. exists prompt. auto. }
  simpl. split.
  - apply ordered_snoc; [exact Ho2|]. intros d Hd HMd. rewrite (M_keys _ _ Hx).
    destruct (Hd2 d Hd HMd) as [Hn | [Hv1 Hp1]].
    + left. destruct Hc2 as (_ & _ & Hall). apply Hall; [apply elem_of_dom; exact HMd | exact Hn].
    + right. subst st1. simpl in *.
      apply elem_of_union in Hv1. destruct Hv1 as [Hv1 | Hv1].
      * apply elem_of_singleton in Hv1. subst d. apply rtc_refl.
      * apply Hstack. split; assumption.
  - intros y [Hy Hy']. simpl in *.
    assert (Hne : y <> x) by set_solver.
    destruct (Hs2 y) as [Hv1 Hp1]; [split; [exact Hy | set_solver]|].
    subst st1. simpl in *. split; [set_solver | exact Hp1].
Qed.

Lemma resolveAll_ordered fuel : forall prompts st st',
  resolveAll fuel M prompts st = Some st' ->
  consistent M st -> ordered (resolved st) -> ordered (resolved st').
Proof.
  induction prompts as [|q prompts IH]; intros st st' H Hc Ho; simpl in H.
  - simplify_eq. exact Ho.
  - set (st0 := {| visited := ∅; pending := pending st; resolved := resolved st |}) in *.
    destruct (resolve fuel M (id q) st0) as [st1|] eqn:E; [|discriminate].
    destruct (resolve_ordered fuel (id q) st0 st1 E Hc) as [Ho1 _]; [|exact Ho|].
    { intros y [Hy _]. subst st0. simpl in Hy. set_solver. }
    destruct (resolve_advances M M_keys fuel _ _ _ E) as (_ & _ & _ & Hc1).
    apply (IH st1 st' H (Hc1 Hc) Ho1).
Qed.

End Order.

(** [a] requires [b]: both are prompts of the list and [a] names [b]
    among its dependencies. *)
Definition requires (prompts : list PromptConfig) (a b : PromptConfig) : Prop :=
  a ∈ prompts /\ b ∈ prompts /\ id b ∈ contextRequired a.

Lemma same_id prompts (p q : PromptConfig) :
  NoDup (id <$> prompts) -> p ∈ prompts -> q ∈ prompts -> id p = id q -> p = q.
Proof.
  intros Hnd Hp Hq E.
  pose proof (buildPromptMap_lookup prompts p Hnd Hp) as Ep.
  pose proof (buildPromptMap_lookup prompts q Hnd Hq) as Eq.
  rewrite E in Ep. rewrite Ep in Eq. simplify_eq. reflexivity.
Qed.

Lemma needs_requires prompts :
  NoDup (id <$> prompts) ->
  forall a b, rtc (needs (buildPromptMap prompts)) a b ->
  forall pa pb, pa ∈ prompts -> id pa = a -> pb ∈ prompts -> id pb = b ->
                rtc (requires prompts) pa pb.
Proof.
  intros Hnd a b H. destruct (buildPromptMap_facts prompts) as [Hkeys _].
  induction H as [a | a c b (pa' & Ha & Hc & [pc HMc]) _ IH]; intros pa pb Hpa Ea Hpb Eb.
  - rewrite (same_id prompts pa pb Hnd Hpa Hpb) by congruence. apply rtc_refl.
  - destruct (Hkeys _ _ Ha) as [Ea' Hpa']. destruct (Hkeys _ _ HMc) as [Ec Hpc].
    assert (pa' = pa) by (apply (same_id prompts); congruence || assumption). subst pa'.
    eapply rtc_l; [|apply (IH pc pb Hpc Ec Hpb Eb)].
    split; [exact Hpa|]. split; [exact Hpc|]. rewrite Ec. exact Hc.
Qed.

(** X17.  For prompts of distinct ids, the plan of
    [resolvePromptDependencies] has every prompt after each of the
    prompts it names as a dependency, unless that dependency requires the
    prompt in turn, directly or through other prompts (a circular
    dependency). *)
Theorem dependencies_come_first (prompts : list PromptConfig) :
  NoDup (id <$> prompts) ->
  exists plan,
    resolvePromptDependencies prompts = Some plan
    /\ forall j p d,
         plan !! j = Some p -> d ∈ prompts -> id d ∈ contextRequired p ->
         ~ rtc (requires prompts) d p ->
         exists i, i < j /\ plan !! i = Some d.
Proof.
  intros Hnd.
  destruct (resolvePromptDependencies_permutation prompts Hnd) as (plan & E & Hperm).
  exists plan. split; [exact E|].
  unfold resolvePromptDependencies in E.
  destruct (buildPromptMap_facts prompts) as [Hkeys Hdom].
  set (M := buildPromptMap prompts) in *.
  set (st0 := {| visited := ∅; pending := list_to_set (map id prompts); resolved := [] |})
    in *.
  destruct (resolveAll (S (length prompts)) M prompts st0) as [st'|] eqn:Eall;
    [|discriminate].
  simpl in E. simplify_eq.
  assert (Ho : ordered M (resolved st')).
  { apply (resolveAll_ordered M (fun k p H => proj1 (Hkeys k p H)) _ prompts st0 st' Eall).
    - subst st0. unfold consistent. simpl. split; [apply NoDup_nil_2|]. split.
      + intros q Hq. inversion Hq.
      + intros k Hk Hnot. rewrite Hdom in Hk. tauto.
    - intros j p d Hj. subst st0. simpl in Hj. rewrite lookup_nil in Hj. discriminate. }
  intros j p d Hj Hd Hdep Hfree.
  assert (Hp : p ∈ prompts).
  { rewrite <- Hperm. apply list_elem_of_lookup. exists j. exact Hj. }
  assert (HMd : M !! id d = Some d) by (apply buildPromptMap_lookup; assumption).
  destruct (Ho j p (id d) Hj Hdep (mk_is_Some _ _ HMd)) as [(i & q & Hi & Hq & Eq) | Hcycle].
  - exists i. split; [exact Hi|].
    assert (Hq' : q ∈ prompts).
    { rewrite <- Hperm. apply list_elem_of_lookup. exists i. exact Hq. }
    rewrite <- (same_id prompts q d Hnd Hq' Hd Eq). exact Hq.
  - exfalso. apply Hfree. apply (needs_requires prompts Hnd (id d) (id p) Hcycle); auto.
Qed.

Lemma dependencies_come_first_witness :
  exists plan,
    resolvePromptDependencies [task "summary" ["overview"]; task "overview" []] = Some plan
    /\ forall j p d,
         plan !! j = Some p ->
         d ∈ [task "summary" ["overview"]; task "overview" []] ->
         id d ∈ contextRequired p ->
         ~ rtc (requires [task "summary" ["overview"]; task "overview" []]) d p ->
         exists i, i < j /\ plan !! i = Some d.
Proof.
  apply (dependencies_come_first [task "summary" ["overview"]; task "overview" []]).
  simpl. repeat constructor; set_solver.
Defined.

(** *** The prompts of a category *)

(** The entries of a [Map] built by [set]: distinct keys, each the id of
    its prompt. *)
Definition keyed (m : list (string * PromptConfig)) : Prop :=
  NoDup m.*1 /\ forall k q, (k, q) ∈ m -> id q = k.

Lemma mapSet_entries m p :
  keyed m ->
  keyed (mapSet m p)
  /\ forall k q, (k, q) ∈ mapSet m p
                 <-> (k = id p /\ q = p) \/ (k <> id p /\ (k, q) ∈ m).
Proof.
  induction m as [|[k0 q0] m IH]; intros [Hnd Hid]; simpl.
  - split.
    + split; [repeat constructor; set_solver|]. intros k q Hin.
      apply list_elem_of_singleton in Hin. simplify_eq. reflexivity.
    + intros k q. rewrite list_elem_of_singleton. split.
      * intros E. simplify_eq. left. auto.
      * intros [[-> ->] | [_ Hin]]; [reflexivity | inversion Hin].
  - simpl in Hnd. apply NoDup_cons in Hnd. destruct Hnd as [Hk0 Hnd].
    assert (Hm : keyed m).
    { split; [exact Hnd|]. intros k q Hin. apply Hid. right. exact Hin. }
    destruct (IH Hm) as [[Hnd' Hid'] Hin'].
    destruct (String.eqb_spec k0 (id p)) as [-> | Hne].
    + split.
      * split; [simpl; apply NoDup_cons; split; assumption|].
        intros k q Hin. apply elem_of_cons in Hin. destruct Hin as [E | Hin].
        -- simplify_eq. reflexivity.
        -- apply Hid. right. exact Hin.
      * intros k q. rewrite elem_of_cons. split.
        -- intros [E | Hin]; [simplify_eq; left; auto|].
           right. split; [|right; exact Hin]. intros ->. apply Hk0.
           apply list_elem_of_fmap. exists (id p, q). split; [reflexivity | exact Hin].
        -- intros [[-> ->] | [Hk Hin]]; [left; reflexivity|].
           apply elem_of_cons in Hin. destruct Hin as [E | Hin]; [simplify_eq | right; exact Hin].
    + split.
      * split.
        -- simpl. apply NoDup_cons. split; [|exact Hnd'].
           intros Hin. apply list_elem_of_fmap in Hin. destruct Hin as ([k q] & E & Hin).
           simpl in E. subst k. apply Hin' in Hin.
           destruct Hin as [[E _] | [_ Hin]]; [contradiction|].
           apply Hk0. apply list_elem_of_fmap. exists (k0, q). split; [reflexivity | exact Hin].
        -- intros k q Hin. apply elem_of_cons in Hin. destruct Hin as [E | Hin].
           ++ simplify_eq. apply Hid. left.
           ++ apply Hid'. exact Hin.
      * intros k q. rewrite !elem_of_cons, Hin'. split.
        -- intros [E | [[-> ->] | [Hk Hin]]]; [simplify_eq; right | left | right]; auto.
        -- intros [[-> ->] | [Hk [E | Hin]]]; auto.
Qed.

(** [p] is the last prompt of [l] with its id. *)
Definition lastOfItsId (l : list PromptConfig) (p : PromptConfig) : Prop :=
  exists l1 l2, l = l1 ++ p :: l2 /\ id p ∉ id <$> l2.

Lemma lastOfItsId_snoc l p q :
  lastOfItsId (l ++ [p]) q <-> q = p \/ (id q <> id p /\ lastOfItsId l q).
Proof.
  split.
  - intros (l1 & l2 & E & Hlast).
    destruct l2 as [|x l2 _] using rev_ind.
    + apply app_inj_tail in E. destruct E as [_ ->]. left. reflexivity.
    + rewrite app_comm_cons, app_assoc in E. apply app_inj_tail in E. destruct E as [-> ->].
      right. split.
      * intros E. apply Hlast. rewrite fmap_app. apply elem_of_app. right.
        simpl. rewrite E. left.
      * exists l1, l2. split; [reflexivity|]. intros Hin. apply Hlast.
        rewrite fmap_app. apply elem_of_app. left. exact Hin.
  - intros [-> | [Hne (l1 & l2 & -> & Hlast)]].
    + exists l, []. split; [reflexivity|]. simpl. inversion 1.
    + exists l1, (l2 ++ [p]). split; [rewrite <- app_assoc; reflexivity|].
      rewrite fmap_app. intros Hin. apply elem_of_app in Hin. destruct Hin as [Hin | Hin].
      * exact (Hlast Hin).
      * simpl in Hin. apply list_elem_of_singleton in Hin. exact (Hne Hin).
Qed.

Lemma mapSet_all (l : list PromptConfig) :
  keyed (foldl mapSet [] l)
  /\ forall k q, (k, q) ∈ foldl mapSet [] l <-> k = id q /\ lastOfItsId l q.
Proof.
  induction l as [|p l IH] using rev_ind.
  - simpl. split.
    + split; [constructor | intros k q Hin; inversion Hin].
    + intros k q. split; [inversion 1|]. intros [_ (l1 & l2 & E & _)].
      destruct l1; discriminate E.
  - rewrite foldl_app. simpl. destruct IH as [Hkeyed Hin].
    destruct (mapSet_entries (foldl mapSet [] l) p Hkeyed) as [Hkeyed' Hin'].
    split; [exact Hkeyed'|]. intros k q. rewrite Hin', lastOfItsId_snoc, Hin. split.
    + intros [[-> ->] | [Hk [-> Hlast]]]; [split; [reflexivity | left; reflexivity]|].
      split; [reflexivity|]. right. split; [exact Hk | exact Hlast].
    + intros [-> [-> | [Hne Hlast]]]; [left; split; reflexivity|].
      right. split; [exact Hne|]. split; [reflexivity | exact Hlast].
Qed.

(** A chain for a relation that is transitive is sorted. *)
Lemma chain_sorted {A} (R : A -> A -> Prop) (l : list A) :
  (forall x y z, R x y -> R y z -> R x z) ->
  JsArray.chain R l -> Sorted.StronglySorted R l.
Proof.
  intros Htrans. induction l as [|x l IH]; intros Hc; [constructor|].
  assert (Hl : Sorted.StronglySorted R l).
  { apply IH. destruct l as [|y l']; [exact I | exact (proj2 Hc)]. }
  constructor; [exact Hl|].
  destruct l as [|y l]; [constructor|].
  destruct Hc as [Hxy _]. inversion Hl as [|? ? _ Hall]; subst.
  constructor; [exact Hxy|].
  eapply List.Forall_impl; [|exact Hall]. intros z Hz. exact (Htrans _ _ _ Hxy Hz).
Qed.

(** The prompts [getPrompts] merges: the default prompts of the
    category that apply to the type, then the prompts of the type. *)
Definition candidatePrompts (catalogue : Catalogue)
    (repoType : TypeDetector.RepositoryType) (category_ : FindingType)
  : list PromptConfig :=
  List.filter (appliesTo repoType) (DEFAULT_PROMPTS catalogue category_)
  ++ TYPE_SPECIFIC_PROMPTS catalogue repoType category_.

(** X18.  [getPrompts] gives, in the order of their [order] numbers,
    prompts of distinct ids: for each id, the last prompt with this id
    among the default prompts of the category that apply to the type
    followed by the prompts of the type, so that a prompt of the type
    replaces a default prompt of the same id. *)
Theorem prompts_of_a_category (catalogue : Catalogue)
    (repoType : TypeDetector.RepositoryType) (category_ : FindingType) :
  let prompts := getPrompts catalogue repoType category_ in
  NoDup (id <$> prompts)
  /\ Sorted.StronglySorted (fun a b => (order a <= order b)%Z) prompts
  /\ forall p, p ∈ prompts
               <-> lastOfItsId (candidatePrompts catalogue repoType category_) p.
Proof.
  intros prompts. subst prompts. unfold getPrompts. cbv zeta.
  rewrite <- foldl_app. fold (candidatePrompts catalogue repoType category_).
  destruct (mapSet_all (candidatePrompts catalogue repoType category_))
    as [[Hnd Hid] Hin].
  set (m := foldl mapSet [] (candidatePrompts catalogue repoType category_)) in *.
  set (cmp := fun a b : PromptConfig => inject_Z (order a - order b)).
  pose proof (JsArray.sort_permutation cmp (map snd m)) as Hperm.
  assert (Hids : id <$> map snd m = m.*1).
  { clear -Hid. induction m as [|[k q] m IH]; [reflexivity|]. simpl.
    rewrite (Hid k q) by left. f_equal. apply IH. intros k' q' H. apply Hid. right. exact H. }
  split; [rewrite Hperm, Hids; exact Hnd|]. split.
  - apply chain_sorted; [intros x y z; lia|].
    assert (Hchain : JsArray.chain (JsArray.inOrder cmp) (JsArray.sort cmp (map snd m))).
    { apply JsArray.sort_chain. intros x y Hxy.
      apply TypeDetector.negative_true in Hxy. apply TypeDetector.negative_false.
      unfold cmp in *. change (inject_Z (order x - order y) < inject_Z 0)%Q in Hxy.
      rewrite <- Zlt_Qlt in Hxy.
      change (inject_Z 0 <= inject_Z (order y - order x))%Q. rewrite <- Zle_Qle. lia. }
    revert Hchain. generalize (JsArray.sort cmp (map snd m)) as l.
    induction l as [|x [|y l] IH]; intros Hc; try exact I.
    destruct Hc as [Hxy Hc]. split; [|exact (IH Hc)].
    unfold JsArray.inOrder, cmp in Hxy. apply TypeDetector.negative_false in Hxy.
    change (inject_Z 0 <= inject_Z (order y - order x))%Q in Hxy.
    rewrite <- Zle_Qle in Hxy. lia.
  - intros p. rewrite Hperm. split.
    + intros Hp. apply list_elem_of_fmap in Hp. destruct Hp as ([k q] & -> & Hkq).
      apply Hin in Hkq. exact (proj2 Hkq).
    + intros Hlast. apply list_elem_of_fmap. exists (id p, p). split; [reflexivity|].
      apply Hin. split; [reflexivity | exact Hlast].
Qed.

(** *** Prompts that share an id *)

Lemma buildPromptMap_last (prompts : list PromptConfig) :
  forall k p, buildPromptMap prompts !! k = Some p <-> k = id p /\ lastOfItsId prompts p.
Proof.
  unfold buildPromptMap.
  induction prompts as [|q prompts IH] using rev_ind; intros k p.
  - simpl. rewrite lookup_empty. split; [discriminate|].
    intros [_ (l1 & l2 & E & _)]. destruct l1; discriminate E.
  - rewrite foldl_app. simpl. rewrite lookup_insert_Some, lastOfItsId_snoc, IH. split.
    + intros [[<- <-] | [Hne [-> Hlast]]]; [split; [reflexivity | left; reflexivity]|].
      split; [reflexivity|]. right. split; [congruence | exact Hlast].
    + intros [-> [-> | [Hne Hlast]]]; [left; split; reflexivity|].
      right. split; [congruence|]. split; [reflexivity | exact Hlast].
Qed.

Lemma size_list_to_set_le (l : list string) :
  size (list_to_set l : gset string) <= length l.
Proof.
  induction l as [|x l IH]; [change (size (∅ : gset string) <= 0); rewrite size_empty; lia|].
  change (size ({[x]} ∪ list_to_set l : gset string) <= S (length l)).
  rewrite size_union_alt, size_singleton.
  assert (size (list_to_set l ∖ {[x]} : gset string) <= size (list_to_set l : gset string))
    by (apply subseteq_size; set_solver).
  lia.
Qed.

(** X19.  [resolvePromptDependencies] returns a plan for every list of
    prompts, and the plan has one prompt for each id: the last prompt of
    the list with that id.  A prompt that an other of the same id
    follows in the list is left out. *)
Theorem resolver_plans_each_id_once (prompts : list PromptConfig) :
  exists plan,
    resolvePromptDependencies prompts = Some plan
    /\ NoDup (id <$> plan)
    /\ forall p, p ∈ plan <-> lastOfItsId prompts p.
Proof.
  unfold resolvePromptDependencies.
  destruct (buildPromptMap_facts prompts) as [Hkeys Hdom].
  pose proof (buildPromptMap_last prompts) as Hlast.
  set (M := buildPromptMap prompts) in *.
  set (st0 := {| visited := ∅; pending := list_to_set (map id prompts); resolved := [] |}).
  destruct (resolveAll_spec M (fun k p H => proj1 (Hkeys k p H)) (S (length prompts))
                            prompts st0)
    as (st' & E & (Hnd' & Hel & Hall) & Hsub & Hdone).
  - rewrite Hdom. pose proof (size_list_to_set_le (id <$> prompts)) as Hsize.
    rewrite length_fmap in Hsize. lia.
  - subst st0. unfold consistent. simpl. split; [apply NoDup_nil_2|]. split.
    + intros q Hq. inversion Hq.
    + intros k Hk Hnot. rewrite Hdom in Hk. tauto.
  - rewrite E. simpl. exists (resolved st'). split; [reflexivity|]. split; [exact Hnd'|].
    intros p. split.
    + intros Hp. destruct (Hel p Hp) as [Hp' _]. apply Hlast in Hp'. exact (proj2 Hp').
    + intros Hp.
      assert (HM : M !! id p = Some p) by (apply Hlast; split; [reflexivity | exact Hp]).
      assert (Hin : id p ∈ dom M) by (apply elem_of_dom; eauto).
      assert (Hprompt : p ∈ prompts) by (apply (Hkeys _ _ HM)).
      assert (Hres : id p ∈ id <$> resolved st')
        by (apply Hall; [exact Hin | apply Hdone; assumption]).
      apply list_elem_of_fmap in Hres. destruct Hres as (r & Er & Hr).
      destruct (Hel r Hr) as [Hr' _]. rewrite <- Er, HM in Hr'. simplify_eq. exact Hr.
Qed.

End PromptEngineFacts.

(** ** More about the renderer *)

Module PromptRendererFacts.
Import JsString JsReplace PromptEngine PromptRenderer.

Local Open Scope list_scope.
Local Open Scope string_scope.

(** *** Templates without placeholder *)

Lemma occurs_prefix k1 k2 s : occurs (k1 ++ k2) s -> occurs k1 s.
Proof.
  intros (a & b & ->). exists a, (k2 ++ b). rewrite append_assoc. reflexivity.
Qed.

Lemma includes_tail c s k : includes (String c s) k = false -> includes s k = false.
Proof.
  cbn [includes]. destruct (String.prefix k (String c s)); [discriminate | auto].
Qed.

Lemma includes_head s k : includes s k = false -> String.prefix k s = false.
Proof.
  destruct s as [|c s]; cbn [includes]; destruct (String.prefix k _); auto; discriminate.
Qed.

(** A pattern whose matches all begin with two opening braces leaves a
    text without them as it is. *)
Lemma scan_without_braces (matcher : Matcher) :
  (forall before rest len replacement,
      matcher before rest = Some (len, replacement) -> String.prefix "{{" rest = true) ->
  forall s before, includes s "{{" = false -> scan matcher before 0 s = s.
Proof.
  intros Hshape. induction s as [|c s IH]; intros before Hs; [reflexivity|].
  cbn [scan]. destruct (matcher before (String c s)) as [[len replacement]|] eqn:Em.
  - apply Hshape in Em. rewrite (includes_head _ _ Hs) in Em. discriminate Em.
  - f_equal. apply IH. exact (includes_tail _ _ _ Hs).
Qed.

Lemma nestedMatcher_opening context before rest len replacement :
  nestedMatcher context before rest = Some (len, replacement) ->
  String.prefix "{{" rest = true.
Proof.
  unfold nestedMatcher.
  destruct (String.eqb (toLowerCase (substring 0 _ rest)) _) eqn:Eopen; [|discriminate].
  intros _. apply String.eqb_eq in Eopen.
  destruct rest as [|c1 [|c2 rest]]; try discriminate Eopen.
  cbn in Eopen. injection Eopen as E1 E2 _.
  apply lower_ascii_brace in E1, E2. subst c1 c2. destruct rest; reflexivity.
Qed.

Lemma renderVariable_without_braces context content variable :
  includes content "{{" = false -> renderVariable context content variable = content.
Proof.
  intros Hs. unfold renderVariable.
  destruct (includes content (placeholderOf (var_name variable))) eqn:E; [|reflexivity].
  apply includes_occurs in E. unfold placeholderOf in E.
  apply occurs_prefix, includes_occurs in E. rewrite E in Hs. discriminate Hs.
Qed.

(** X20.  A template in which no two opening braces follow each other is
    rendered as it is, whatever the variables of the prompt and the
    context. *)
Theorem template_without_placeholder (prompt : PromptConfig) (context : PromptContext) :
  includes (template prompt) "{{" = false ->
  content (renderPrompt prompt context) = template prompt.
Proof.
  intros Hs. unfold renderPrompt. cbn [content].
  assert (Hvars : fold_left (renderVariable context) (variables prompt) (template prompt)
                  = template prompt).
  { induction (variables prompt) as [|v vs IH]; [reflexivity|]. cbn [fold_left].
    rewrite (renderVariable_without_braces _ _ _ Hs). exact IH. }
  rewrite Hvars. unfold replaceMatches.
  apply scan_without_braces; [|exact Hs].
  intros before rest len replacement. apply nestedMatcher_opening.
Qed.

Lemma template_without_placeholder_witness :
  content (renderPrompt (mkPrompt "Describe the {layout} of the code."
                                  [mkVariable "layout" vt_string]) bareContext)
  = "Describe the {layout} of the code.".
Proof.
  apply (template_without_placeholder
           (mkPrompt "Describe the {layout} of the code." [mkVariable "layout" vt_string])
           bareContext).
  reflexivity.
Defined.

(** *** The samples of commented code *)

Lemma codeCommentSamples_bound files : forall count,
  (List.length (codeCommentSamples count files) <= 5 - count)%nat
  /\ forall p text,
       In (p, text) (codeCommentSamples count files) ->
       exists full, In (p, full) files
                    /\ text = join newline (firstn 100 (splitLines full)).
Proof.
  induction files as [|[q full] files IH]; intros count; cbn [codeCommentSamples].
  - split; [cbn; lia | intros p text []].
  - destruct (5 <=? count)%nat eqn:Ecount; [split; [cbn; lia | intros p text []]|].
    apply Nat.leb_gt in Ecount.
    assert (Hskip :
      (List.length (codeCommentSamples count files) <= 5 - count)%nat
      /\ forall p text,
           In (p, text) (codeCommentSamples count files) ->
           exists full', In (p, full') ((q, full) :: files)
                         /\ text = join newline (firstn 100 (splitLines full'))).
    { destruct (IH count) as [Hlen Hin]. split; [exact Hlen|].
      intros p text H. destruct (Hin p text H) as (full' & Hf & E).
      exists full'. split; [right; exact Hf | exact E]. }
    destruct (_ || _); [|exact Hskip].
    destruct (existsb _ _); [|exact Hskip].
    destruct (IH (S count)) as [Hlen Hin]. split; [cbn [List.length]; lia|].
    intros p text [E | H].
    + injection E as <- <-. exists full. split; [left; reflexivity | reflexivity].
    + destruct (Hin p text H) as (full' & Hf & E).
      exists full'. split; [right; exact Hf | exact E].
Qed.

(** X21.  [extractCodeComments] gives at most five samples, and each is
    the first hundred lines of a file of the context, under its path. *)
Theorem code_comment_samples (context : PromptContext) :
  (List.length (extractCodeComments context) <= 5)%nat
  /\ forall p text,
       In (p, text) (extractCodeComments context) ->
       exists full, In (p, full) (fileContents context)
                    /\ text = join newline (firstn 100 (splitLines full)).
Proof.
  unfold extractCodeComments.
  destruct (codeCommentSamples_bound (fileContents context) 0) as [Hlen Hin].
  split; [cbn in Hlen; lia | exact Hin].
Qed.

End PromptRendererFacts.

(** ** The cache keys

    [src/services/cache-service.ts]: the two functions that name what the
    pipeline stores, with the texts of the runtime as above ([toLowerCase]
    on the ASCII letters). *)

Module CacheService.
Import JsString JsReplace.

Local Open Scope string_scope.

(** The characters of [[a-z0-9-]]. *)
Definition tagChar (c : ascii) : bool :=
  let n := nat_of_ascii c in
  ((97 <=? n) && (n <=? 122) || (48 <=? n) && (n <=? 57) || (n =? 45))%nat.

(** [/[^a-z0-9-]/g], replaced by a dash. *)
Definition otherMatcher : Matcher :=
  fun _ rest =>
    match rest with
    | String c _ => if tagChar c then None else Some (1%nat, "-")
    | EmptyString => None
    end.

(** The dashes a text begins with. *)
Fixpoint runLength (s : string) : nat :=
  match s with
  | String "-" s' => S (runLength s')
  | _ => 0
  end.

(** [/-+/g], replaced by a dash. *)
Definition dashMatcher : Matcher :=
  fun _ rest =>
    match runLength rest with
    | O => None
    | S n => Some (S n, "-")
    end.

(** [sanitizeTag] *)
Definition sanitizeTag (value : string) : string :=
  substring 0 50
    (replaceMatches dashMatcher (replaceMatches otherMatcher (toLowerCase value))).

(** [s.replace(/suffix$/, '')] for a suffix that is plain text: the
    pattern matches where what is left of the text is the suffix. *)
Fixpoint removeFinal (suffix s : string) : string :=
  if String.eqb s suffix then EmptyString
  else match s with
       | EmptyString => EmptyString
       | String c s' => String c (removeFinal suffix s')
       end.

(** [buildCacheKey] *)
Definition buildCacheKey (repoUrl : string) (branch : option string) : string :=
  let normalizedUrl := removeFinal ".git" (toLowerCase repoUrl) in
  "reposwarm:cache:" ++ normalizedUrl ++ ":"
  ++ match branch with
     | Some (String c b) => String c b
     | _ => "default"
     end.

(** *** Tags *)

Fixpoint mapChars (f : ascii -> ascii) (s : string) : string :=
  match s with
  | EmptyString => EmptyString
  | String c s' => String (f c) (mapChars f s')
  end.

Definition dashed (c : ascii) : ascii := if tagChar c then c else "-"%char.

Lemma scan_otherMatcher s : forall before,
  scan otherMatcher before 0 s = mapChars dashed s.
Proof.
  induction s as [|c s IH]; intros before; [reflexivity|].
  cbn [scan otherMatcher mapChars]. unfold dashed.
  destruct (tagChar c); cbn [Nat.pred append]; rewrite IH; reflexivity.
Qed.

(** A run of dashes written as one: [previous] says that the character
    before was a dash. *)
Fixpoint squeeze (previous : bool) (s : string) : string :=
  match s with
  | EmptyString => EmptyString
  | String c s' =>
      if Ascii.eqb c "-"
      then if previous then squeeze true s' else String "-" (squeeze true s')
      else String c (squeeze false s')
  end.

Lemma runLength_dash c s :
  runLength (String c s) = if Ascii.eqb c "-" then S (runLength s) else 0%nat.
Proof.
  destruct (Ascii.eqb_spec c "-") as [-> | Hne]; [reflexivity|].
  destruct c as [[|] [|] [|] [|] [|] [|] [|] [|]]; try reflexivity. contradiction Hne.
  reflexivity.
Qed.

Lemma squeeze_previous s : runLength s = 0%nat -> squeeze true s = squeeze false s.
Proof.
  destruct s as [|c s]; [reflexivity|]. rewrite runLength_dash. cbn [squeeze].
  destruct (Ascii.eqb c "-"); [discriminate | reflexivity].
Qed.

Lemma scan_dashMatcher s : forall before k,
  k = 0%nat \/ runLength s = k ->
  scan dashMatcher before k s = squeeze (negb (k =? 0)%nat) s.
Proof.
  induction s as [|c s IH]; intros before k Hk; [reflexivity|].
  cbn [scan]. destruct k as [|k].
  - unfold dashMatcher. rewrite runLength_dash. cbn [Nat.eqb negb squeeze].
    destruct (Ascii.eqb c "-") eqn:Ec.
    + cbn [Nat.pred append]. rewrite (IH _ (runLength s)) by (right; reflexivity). f_equal.
      destruct (runLength s) eqn:El; cbn [Nat.eqb negb];
        [symmetry; apply squeeze_previous, El | reflexivity].
    + rewrite IH by (left; reflexivity). reflexivity.
  - destruct Hk as [Hk | Hk]; [discriminate Hk|].
    rewrite runLength_dash in Hk. cbn [Nat.eqb negb squeeze].
    destruct (Ascii.eqb c "-"); [|discriminate Hk]. injection Hk as Hk.
    rewrite (IH _ k) by (right; exact Hk).
    destruct k; cbn [Nat.eqb negb]; [symmetry; apply squeeze_previous, Hk | reflexivity].
Qed.

Lemma sanitizeTag_steps value :
  sanitizeTag value = substring 0 50 (squeeze false (mapChars dashed (toLowerCase value))).
Proof.
  unfold sanitizeTag, replaceMatches.
  rewrite scan_otherMatcher, scan_dashMatcher by (left; reflexivity). reflexivity.
Qed.

(** No two dashes follow each other. *)
Fixpoint single (previous : bool) (s : string) : bool :=
  match s with
  | EmptyString => true
  | String c s' =>
      if Ascii.eqb c "-" then negb previous && single true s' else single false s'
  end.

Lemma prefix_dash s : String.prefix "-" s = negb (runLength s =? 0)%nat.
Proof.
  destruct s as [|d s]; [reflexivity|]. rewrite runLength_dash. cbn [String.prefix].
  destruct (ascii_dec "-" d) as [<- | Hd].
  - rewrite Ascii.eqb_refl. destruct s; reflexivity.
  - destruct (Ascii.eqb_spec d "-") as [-> | _]; [contradiction Hd; reflexivity|].
    reflexivity.
Qed.

Lemma includes_dashes c s :
  includes (String c s) "--"
  = Ascii.eqb c "-" && negb (runLength s =? 0)%nat || includes s "--".
Proof.
  cbn [includes].
  replace (String.prefix "--" (String c s))
    with (Ascii.eqb c "-" && negb (runLength s =? 0)%nat).
  - destruct (Ascii.eqb c "-" && negb (runLength s =? 0)%nat); reflexivity.
  - rewrite <- prefix_dash.
    change (String.prefix "--" (String c s))
      with (if ascii_dec "-" c then String.prefix "-" s else false).
    destruct (ascii_dec "-" c) as [<- | Hc].
    + rewrite Ascii.eqb_refl. reflexivity.
    + destruct (Ascii.eqb_spec c "-") as [-> | _]; [contradiction Hc; reflexivity|].
      reflexivity.
Qed.

Lemma single_spec s : forall previous,
  single previous s = true
  <-> includes s "--" = false /\ (previous = true -> runLength s = 0%nat).
Proof.
  induction s as [|c s IH]; intros previous.
  - cbn. split; [intros _; split; reflexivity | reflexivity].
  - cbn [single]. rewrite includes_dashes, runLength_dash.
    destruct (Ascii.eqb c "-").
    + pose proof (IH true) as IHt.
      destruct previous, (runLength s), (includes s "--"), (single true s);
        cbn in *; intuition congruence.
    + rewrite (IH false). cbn. intuition congruence.
Qed.

Lemma single_includes s : single false s = true -> includes s "--" = false.
Proof. intros H. apply single_spec in H. exact (proj1 H). Qed.

Lemma single_squeeze s : forall previous, single previous (squeeze previous s) = true.
Proof.
  induction s as [|c s IH]; intros previous; [reflexivity|]. cbn [squeeze].
  destruct (Ascii.eqb c "-") eqn:Ec.
  - destruct previous; [apply IH|]. cbn [single Ascii.eqb]. cbn. apply IH.
  - cbn [single]. rewrite Ec. apply IH.
Qed.

Lemma single_weaken s : single true s = true -> single false s = true.
Proof.
  destruct s as [|c s]; [reflexivity|]. cbn [single].
  destruct (Ascii.eqb c "-"); [discriminate | auto].
Qed.

Lemma single_substring n : forall s previous,
  single previous s = true -> single previous (substring 0 n s) = true.
Proof.
  induction n as [|n IH]; intros s previous Hs; [destruct s; reflexivity|].
  destruct s as [|c s]; [reflexivity|]. cbn [substring single] in *.
  destruct (Ascii.eqb c "-").
  - apply andb_prop in Hs. destruct Hs as [-> Hs]. cbn [andb]. exact (IH s true Hs).
  - exact (IH s false Hs).
Qed.

Lemma allChars_substring f n : forall s,
  allChars f s = true -> allChars f (substring 0 n s) = true.
Proof.
  induction n as [|n IH]; intros s Hs; [destruct s; reflexivity|].
  destruct s as [|c s]; [reflexivity|]. cbn [substring allChars] in *.
  apply andb_prop in Hs. destruct Hs as [-> Hs]. exact (IH s Hs).
Qed.

Lemma allChars_squeeze s : forall previous,
  allChars tagChar s = true -> allChars tagChar (squeeze previous s) = true.
Proof.
  induction s as [|c s IH]; intros previous Hs; [reflexivity|].
  cbn [allChars] in Hs. apply andb_prop in Hs. destruct Hs as [Hc Hs]. cbn [squeeze].
  destruct (Ascii.eqb c "-"); [destruct previous|]; cbn [allChars];
    rewrite ?Hc; try (apply IH; exact Hs); cbn; apply IH; exact Hs.
Qed.

Lemma tagChar_dashed c : tagChar (dashed c) = true.
Proof. unfold dashed. destruct (tagChar c) eqn:E; [exact E | reflexivity]. Qed.

Lemma allChars_dashed s : allChars tagChar (mapChars dashed s) = true.
Proof.
  induction s as [|c s IH]; [reflexivity|]. cbn [mapChars allChars].
  rewrite tagChar_dashed. exact IH.
Qed.

Lemma length_substring n : forall s, (String.length (substring 0 n s) <= n)%nat.
Proof.
  induction n as [|n IH]; intros s; [destruct s; cbn; lia|].
  destruct s as [|c s]; [cbn; lia|]. cbn [substring String.length].
  specialize (IH s). lia.
Qed.

Lemma substring_all n : forall s, (String.length s <= n)%nat -> substring 0 n s = s.
Proof.
  induction n as [|n IH]; intros s Hs; [destruct s; [reflexivity | cbn in Hs; lia]|].
  destruct s as [|c s]; [reflexivity|]. cbn [substring]. f_equal. apply IH.
  cbn in Hs. lia.
Qed.

Lemma tagChar_lower c : tagChar c = true -> lower_ascii c = c.
Proof. destruct c as [[|] [|] [|] [|] [|] [|] [|] [|]]; try discriminate; reflexivity. Qed.

Lemma tag_unchanged s :
  allChars tagChar s = true ->
  toLowerCase s = s /\ mapChars dashed s = s.
Proof.
  induction s as [|c s IH]; intros Hs; [split; reflexivity|].
  cbn [allChars] in Hs. apply andb_prop in Hs. destruct Hs as [Hc Hs].
  destruct (IH Hs) as [E1 E2]. cbn [toLowerCase mapChars].
  rewrite E1, E2, (tagChar_lower c Hc). unfold dashed. rewrite Hc. split; reflexivity.
Qed.

Lemma squeeze_single s : forall previous,
  single previous s = true -> squeeze previous s = s.
Proof.
  induction s as [|c s IH]; intros previous Hs; [reflexivity|].
  cbn [single] in Hs. cbn [squeeze].
  destruct (Ascii.eqb_spec c "-") as [-> | Hne].
  - apply andb_prop in Hs. destruct Hs as [Hp Hs]. destruct previous; [discriminate Hp|].
    f_equal. exact (IH true Hs).
  - f_equal. exact (IH false Hs).
Qed.

(** X22.  [sanitizeTag] gives a tag of at most 50 characters, all of them
    lower-case letters, digits or dashes, in which no two dashes follow
    each other; a text that is such a tag already is left as it is, so
    that sanitizing twice changes nothing more. *)
Theorem tags_are_sanitized (value : string) :
  let tag := sanitizeTag value in
  (String.length tag <= 50)%nat
  /\ allChars tagChar tag = true
  /\ includes tag "--" = false
  /\ sanitizeTag tag = tag
  /\ ((String.length value <= 50)%nat -> allChars tagChar value = true ->
      includes value "--" = false -> tag = value).
Proof.
  intros tag. subst tag. rewrite !sanitizeTag_steps.
  set (t := substring 0 50 (squeeze false (mapChars dashed (toLowerCase value)))).
  assert (Hlen : (String.length t <= 50)%nat) by apply length_substring.
  assert (Hchars : allChars tagChar t = true)
    by (apply allChars_substring, allChars_squeeze, allChars_dashed).
  assert (Hsingle : single false t = true) by (apply single_substring, single_squeeze).
  assert (Hfix : forall s, (String.length s <= 50)%nat -> allChars tagChar s = true ->
                           single false s = true ->
                           substring 0 50 (squeeze false (mapChars dashed (toLowerCase s)))
                           = s).
  { intros s H1 H2 H3. destruct (tag_unchanged s H2) as [-> ->].
    rewrite (squeeze_single s false H3). apply substring_all, H1. }
  split; [exact Hlen|]. split; [exact Hchars|].
  split; [apply single_includes, Hsingle|].
  split; [apply Hfix; assumption|].
  intros H1 H2 H3. apply Hfix; [exact H1 | exact H2|].
  apply single_spec. split; [exact H3 | discriminate].
Qed.

(** *** Keys *)

Lemma lower_ascii_idempotent c : lower_ascii (lower_ascii c) = lower_ascii c.
Proof. destruct c as [[|] [|] [|] [|] [|] [|] [|] [|]]; reflexivity. Qed.

Lemma toLowerCase_idempotent s : toLowerCase (toLowerCase s) = toLowerCase s.
Proof.
  induction s as [|c s IH]; [reflexivity|]. cbn [toLowerCase].
  rewrite lower_ascii_idempotent, IH. reflexivity.
Qed.

Lemma toLowerCase_append a b : toLowerCase (a ++ b) = toLowerCase a ++ toLowerCase b.
Proof. induction a as [|c a IH]; [reflexivity|]. cbn. rewrite IH. reflexivity. Qed.

Lemma endsWith_step c s p :
  endsWith (String c s) p = String.eqb (String c s) p || endsWith s p.
Proof. cbn [endsWith]. destruct (String.eqb (String c s) p); reflexivity. Qed.

Lemma removeFinal_append suffix : forall s,
  suffix <> EmptyString -> endsWith s suffix = false ->
  removeFinal suffix (s ++ suffix) = s.
Proof.
  intros s Hne. induction s as [|c s IH]; intros Hs.
  - cbn [append]. destruct suffix as [|d suffix]; [contradiction Hne; reflexivity|].
    cbn [removeFinal]. rewrite String.eqb_refl. reflexivity.
  - rewrite endsWith_step in Hs. apply orb_false_elim in Hs. destruct Hs as [_ Hs].
    cbn [append removeFinal].
    destruct (String.eqb_spec (String c (s ++ suffix)) suffix) as [E | _].
    + exfalso. assert (Hlen : String.length (String c (s ++ suffix)) = String.length suffix)
        by (rewrite E; reflexivity).
      cbn [String.length] in Hlen. rewrite length_append in Hlen. lia.
    + f_equal. exact (IH Hs).
Qed.

Lemma removeFinal_other suffix : forall s,
  endsWith s suffix = false -> removeFinal suffix s = s.
Proof.
  induction s as [|c s IH]; intros Hs.
  - cbn [removeFinal]. destruct (String.eqb EmptyString suffix); reflexivity.
  - rewrite endsWith_step in Hs. apply orb_false_elim in Hs. destruct Hs as [Hc Hs].
    cbn [removeFinal]. rewrite Hc. f_equal. exact (IH Hs).
Qed.

(** The characters of ASCII, on which [toLowerCase] above is that of the
    runtime. *)
Definition isAscii (c : ascii) : bool := (nat_of_ascii c <? 128)%nat.

(** X23.  For a URL of ASCII characters, the key of [buildCacheKey] does
    not depend on the case of the letters of the URL, nor on a final
    [.git] after a URL that does not end with one already; a URL without
    a final [.git] is kept whole, in lower case, and a request without
    branch, or with an empty one, shares the key of the branch named
    [default]. *)
Theorem cache_key_normalized (repoUrl : string) (branch : option string) :
  allChars isAscii repoUrl = true ->
  buildCacheKey (toLowerCase repoUrl) branch = buildCacheKey repoUrl branch
  /\ (endsWith (toLowerCase repoUrl) ".git" = false ->
      buildCacheKey (repoUrl ++ ".git") branch = buildCacheKey repoUrl branch
      /\ buildCacheKey repoUrl None
         = "reposwarm:cache:" ++ toLowerCase repoUrl ++ ":default")
  /\ buildCacheKey repoUrl None = buildCacheKey repoUrl (Some "default")
  /\ buildCacheKey repoUrl (Some EmptyString) = buildCacheKey repoUrl (Some "default").
Proof.
  intros _. unfold buildCacheKey. cbv zeta. rewrite toLowerCase_idempotent.
  split; [reflexivity|]. split; [|split; reflexivity].
  intros Hs. rewrite toLowerCase_append. change (toLowerCase ".git") with ".git".
  rewrite (removeFinal_append ".git" _ ltac:(discriminate) Hs).
  rewrite (removeFinal_other ".git" _ Hs). split; reflexivity.
Qed.

Lemma cache_key_normalized_witness :
  allChars isAscii "https://GitHub.com/Acme/Shop" = true
  /\ buildCacheKey "https://github.com/acme/shop" (Some "main")
     = buildCacheKey "https://GitHub.com/Acme/Shop" (Some "main")
  /\ (endsWith "https://github.com/acme/shop" ".git" = false ->
      buildCacheKey "https://GitHub.com/Acme/Shop.git" (Some "main")
      = buildCacheKey "https://GitHub.com/Acme/Shop" (Some "main")
      /\ buildCacheKey "https://GitHub.com/Acme/Shop" None
         = "reposwarm:cache:https://github.com/acme/shop:default")
  /\ buildCacheKey "https://GitHub.com/Acme/Shop" None
     = buildCacheKey "https://GitHub.com/Acme/Shop" (Some "default")
  /\ buildCacheKey "https://GitHub.com/Acme/Shop" (Some EmptyString)
     = buildCacheKey "https://GitHub.com/Acme/Shop" (Some "default").
Proof.
  split; [reflexivity|].
  apply (cache_key_normalized "https://GitHub.com/Acme/Shop" (Some "main")).
  reflexivity.
Defined.

End CacheService.
